(** * cronlet: schedule compiler, execution engine and scheduler

    A shallow embedding of the TypeScript sources of cronlet
    (packages/cronlet/src/schedule, packages/cronlet/src/engine,
    packages/cronlet/src/worker and packages/cronlet-cli/src/scheduler)
    together with the properties of the specification that concern them.

    Conventions of the embedding.
    - A JavaScript string is a [string]: a sequence of code units below 256.
    - A JavaScript number is a [JS.Number], a double: the digits of an
      interval or of a duration, [retry.attempts] and what is computed from
      them are rounded as the source rounds them.  A number that is an
      integer below 2^53 by construction (an hour, a minute, a day, the
      number of an attempt, a reading of the clock) is a [Z].
    - [throw] is the [Throw] constructor of [Result] for the synchronous
      builders, and an outcome of the monad [M] for the asynchronous engine.
    - What the source reads from its environment (the clock, the random
      generator, the behaviour of user functions) is read from oracles. *)

From Stdlib Require Import ZArith String Ascii Lia Bool.
From stdpp Require Import gmap strings list sorting pretty.
From Equations Require Import Equations.

Open Scope Z_scope.

(** ** JavaScript strings *)

Module JS.

(** The double quote character, as it appears inside error messages. *)
Definition dq : string := String (ascii_of_nat 34) EmptyString.

Definition quoted (s : string) : string := dq +:+ s +:+ dq.

(** [\d] of a regular expression without the unicode flag: 0 to 9. *)
Definition isDigit (c : ascii) : bool :=
  let n := nat_of_ascii c in (48 <=? n)%nat && (n <=? 57)%nat.

Definition digitValue (c : ascii) : Z := Z.of_nat (nat_of_ascii c) - 48.

(** [\s] and the characters removed by [String.prototype.trim], among the
    code units below 256: tab, line feed, vertical tab, form feed,
    carriage return, space and no-break space. *)
Definition isWhitespace (c : ascii) : bool :=
  let n := nat_of_ascii c in
  ((9 <=? n)%nat && (n <=? 13)%nat) || (n =? 32)%nat || (n =? 160)%nat.

Definition chars (s : string) : list ascii := list_ascii_of_string s.
Definition ofChars (l : list ascii) : string := string_of_list_ascii l.

Definition allDigits (s : string) : bool := forallb isDigit (chars s).

(** The integer that a string of decimal digits denotes. *)
Definition parseInt10 (s : string) : Z :=
  fold_left (fun acc c => acc * 10 + digitValue c) (chars s) 0.

(** *** Numbers *)

(** A number of the source is a double.  [Int n] is the integer [n] and
    [Frac m k], with [m] odd, the number [m / 2^k], which is no integer.
    The sign of zero is not kept: no operation followed here tells [-0]
    from [0]. *)
Inductive Number :=
| Int (n : Z)
| Frac (m : Z) (k : positive)
| PlusInfinity
| MinusInfinity
| NaN.

(** [Number.MAX_SAFE_INTEGER] *)
Definition MAX_SAFE_INTEGER : Z := 2 ^ 53 - 1.

(** The quotient [n / d] of two positive integers rounded to an integer,
    a tie going to the even one. *)
Definition divHalfEven (n d : Z) : Z :=
  let q := n / d in
  let r := n mod d in
  if 2 * r <? d then q
  else if d <? 2 * r then q + 1
  else if Z.even q then q else q + 1.

(** [n * 2^e] compared with [d]: is it at least [d]? *)
Definition scaledGeb (n e d : Z) : bool :=
  if 0 <=? e then d <=? n * 2 ^ e else d * 2 ^ (- e) <=? n.

(** The [e] with [2^e <= n / d < 2^(e+1)], for positive [n] and [d]. *)
Definition log2Ratio (n d : Z) : Z :=
  let e := Z.log2 n - Z.log2 d in
  if scaledGeb n (- e) d then e else e - 1.

(** The number [q * 2^p]. *)
Definition ofDyadic (q p : Z) : Number :=
  if 0 <=? p then Int (q * 2 ^ p)
  else
    let d := 2 ^ (- p) in
    let g := Z.gcd q d in
    if d / g =? 1 then Int (q / g)
    else Frac (q / g) (Z.to_pos (Z.log2 (d / g))).

(** The double nearest to [n / d], for positive [n] and [d]: 53
    significant bits, the last one not below [2^-1074], a tie going to the
    even mantissa, and [Infinity] from [2^1024] on. *)
Definition roundPositive (n d : Z) : Number :=
  let e := log2Ratio n d in
  let p := Z.max (e - 52) (- 1074) in
  let q := if 0 <=? p then divHalfEven n (d * 2 ^ p)
           else divHalfEven (n * 2 ^ (- p)) d in
  if (0 <=? p) && (2 ^ 1024 <=? q * 2 ^ p) then PlusInfinity
  else ofDyadic q p.

Definition negate (a : Number) : Number :=
  match a with
  | Int n => Int (- n)
  | Frac m k => Frac (- m) k
  | PlusInfinity => MinusInfinity
  | MinusInfinity => PlusInfinity
  | NaN => NaN
  end.

(** The double nearest to [n / d], for a positive [d]. *)
Definition roundRational (n d : Z) : Number :=
  if n =? 0 then Int 0
  else if 0 <? n then roundPositive n d
  else negate (roundPositive (- n) d).

(** The number of a mathematical integer: itself up to [2^53], where
    every integer is a double, and the nearest double beyond. *)
Definition ofZ (n : Z) : Number :=
  if Z.abs n <=? 2 ^ 53 then Int n else roundRational n 1.

(** A finite number as a fraction with a positive denominator. *)
Definition fraction (a : Number) : option (Z * Z) :=
  match a with
  | Int n => Some (n, 1)
  | Frac m k => Some (m, 2 ^ Z.pos k)
  | _ => None
  end.

(** 1, -1 or 0 according to the sign; 0 for [NaN]. *)
Definition sign (a : Number) : Z :=
  match a with
  | Int n => Z.sgn n
  | Frac m _ => Z.sgn m
  | PlusInfinity => 1
  | MinusInfinity => -1
  | NaN => 0
  end.

Definition isNaN (a : Number) : bool :=
  match a with NaN => true | _ => false end.

(** [a * b] *)
Definition mul (a b : Number) : Number :=
  match a, b with
  | Int x, Int y => ofZ (x * y)
  | _, _ =>
      if isNaN a || isNaN b then NaN
      else
        match fraction a, fraction b with
        | Some (n1, d1), Some (n2, d2) => roundRational (n1 * n2) (d1 * d2)
        | _, _ =>
            match sign a * sign b with
            | 0 => NaN
            | Z.pos _ => PlusInfinity
            | Z.neg _ => MinusInfinity
            end
        end
  end.

(** [a + b] *)
Definition add (a b : Number) : Number :=
  match a, b with
  | Int x, Int y => ofZ (x + y)
  | _, _ =>
      if isNaN a || isNaN b then NaN
      else
        match fraction a, fraction b with
        | Some (n1, d1), Some (n2, d2) => roundRational (n1 * d2 + n2 * d1) (d1 * d2)
        | Some _, None => b
        | None, Some _ => a
        | None, None => if sign a =? sign b then a else NaN
        end
  end.

(** [a - b] *)
Definition sub (a b : Number) : Number := add a (negate b).

(** [a < b]: false when one of them is [NaN]. *)
Definition ltb (a b : Number) : bool :=
  match a, b with
  | Int x, Int y => x <? y
  | NaN, _ | _, NaN => false
  | PlusInfinity, _ | _, MinusInfinity => false
  | MinusInfinity, _ | _, PlusInfinity => true
  | _, _ =>
      match fraction a, fraction b with
      | Some (n1, d1), Some (n2, d2) => n1 * d2 <? n2 * d1
      | _, _ => false
      end
  end.

(** [a <= b] *)
Definition leb (a b : Number) : bool :=
  match a, b with
  | Int x, Int y => x <=? y
  | NaN, _ | _, NaN => false
  | MinusInfinity, _ | _, PlusInfinity => true
  | PlusInfinity, _ | _, MinusInfinity => false
  | _, _ =>
      match fraction a, fraction b with
      | Some (n1, d1), Some (n2, d2) => n1 * d2 <=? n2 * d1
      | _, _ => false
      end
  end.

(** [a === b] *)
Definition eqb (a b : Number) : bool :=
  match a, b with
  | Int x, Int y => x =? y
  | Frac m k, Frac m' k' => (m =? m') && (k =? k')%positive
  | PlusInfinity, PlusInfinity | MinusInfinity, MinusInfinity => true
  | _, _ => false
  end.

(** The truthiness of a number: [0] and [NaN] are falsy. *)
Definition truthy (a : Number) : bool :=
  match a with
  | Int n => negb (n =? 0)
  | NaN => false
  | _ => true
  end.

(** [Number.isInteger(a)] *)
Definition isInteger (a : Number) : bool :=
  match a with Int _ => true | _ => false end.

(** [Math.pow(2, k)] for an integer [k]. *)
Definition pow2 (k : Z) : Number :=
  if 0 <=? k then (if k <? 1024 then Int (2 ^ k) else PlusInfinity)
  else if -1074 <=? k then Frac 1 (Z.to_pos (- k))
  else Int 0.

(** [Math.ceil(a)] *)
Definition ceil (a : Number) : Number :=
  match a with
  | Frac m k => Int (- ((- m) / 2 ^ Z.pos k))
  | _ => a
  end.

(** [Math.round(a)]: the nearest integer, a tie going up. *)
Definition round (a : Number) : Number :=
  match a with
  | Frac m k => Int ((2 * m + 2 ^ Z.pos k) / (2 * 2 ^ Z.pos k))
  | _ => a
  end.

(** [a / c] for a positive integer [c]. *)
Definition divInt (a : Number) (c : Z) : Number :=
  match fraction a with
  | Some (n, d) => roundRational n (d * c)
  | None => a
  end.

(** [Math.ceil(a / c)] for a positive integer [c].  For an integer [a] up
    to [2^53] the quotient is rounded by less than its distance to the
    next integer, so that the result is the ceiling of the exact
    quotient. *)
Definition ceilDiv (a : Number) (c : Z) : Number :=
  match a with
  | Int n => if Z.abs n <=? 2 ^ 53 then Int (- ((- n) / c)) else ceil (divInt a c)
  | _ => ceil (divInt a c)
  end.

(** [Math.round(a / c)] for a positive integer [c]; exact as [ceilDiv]
    is. *)
Definition roundDiv (a : Number) (c : Z) : Number :=
  match a with
  | Int n => if Z.abs n <=? 2 ^ 53 then Int ((2 * n + c) / (2 * c)) else round (divInt a c)
  | _ => round (divInt a c)
  end.

(** *** Rendering *)

(** The decimal digits of a natural number. *)
Definition digitsOf (n : Z) : string := pretty (Z.to_N n).

(** The [n] with [10^(n-1) <= num / den < 10^n], for positive [num] and
    [den]. *)
Fixpoint smallExponent (fuel : nat) (num den : Z) (j : Z) : Z :=
  match fuel with
  | O => j
  | S fuel' => if den <=? num * 10 ^ j then j else smallExponent fuel' num den (j + 1)
  end.

Definition decimalExponent (num den : Z) : Z :=
  if den <=? num
  then Z.of_nat (String.length (digitsOf (num / den)))
  else 1 - smallExponent 400 num den 1.

(** [v = num / den] scaled by [10^(-z)], as a fraction. *)
Definition scaled (num den z : Z) : Z * Z :=
  if 0 <=? z then (num, den * 10 ^ z) else (num * 10 ^ (- z), den).

(** The number [s * 10^z]. *)
Definition ofDecimal (s z : Z) : Number :=
  if 0 <=? z then roundRational (s * 10 ^ z) 1 else roundRational s (10 ^ (- z)).

(** Does the decimal [s * 10^z] read back as [a]? *)
Definition readsBack (a : Number) (s z : Z) : bool := eqb (ofDecimal s z) a.

(** The digits [s] and the exponent [n] of the rendering of the positive
    number [a = num / den]: the fewest digits [k] such that
    [s * 10^(n-k)] reads back as [a], and among those the nearest. *)
Fixpoint shortestGo (fuel : nat) (a : Number) (num den n0 k : Z) : Z * Z :=
  match fuel with
  | O => (0, n0)
  | S fuel' =>
      let z := n0 - k in
      let '(sn, sd) := scaled num den z in
      let lo := sn / sd in
      let hi := lo + 1 in
      let okLo := readsBack a lo z in
      let okHi := readsBack a hi z in
      (* twice the distance of [v] to [lo], in units of [10^z / sd] *)
      let r := sn mod sd in
      let nearerLo := (2 * r <? sd) || ((2 * r =? sd) && Z.even lo) in
      let chosen :=
        if okLo && okHi then Some (if nearerLo then lo else hi)
        else if okLo then Some lo
        else if okHi then Some hi
        else None in
      match chosen with
      | Some s => if s =? 10 ^ k then (10 ^ (k - 1), n0 + 1) else (s, n0)
      | None => shortestGo fuel' a num den n0 (k + 1)
      end
  end.

Definition zeros (n : Z) : string := ofChars (repeat "0"%char (Z.to_nat n)).

(** [Number::toString] of a positive finite number. *)
Definition renderPositive (a : Number) (num den : Z) : string :=
  let n0 := decimalExponent num den in
  let '(s, n) := shortestGo 17 a num den n0 1 in
  let ds := digitsOf s in
  let k := Z.of_nat (String.length ds) in
  if (k <=? n) && (n <=? 21) then ds +:+ zeros (n - k)
  else if (0 <? n) && (n <=? 21)
  then String.substring 0 (Z.to_nat n) ds +:+ "."
       +:+ String.substring (Z.to_nat n) (Z.to_nat (k - n)) ds
  else if (-6 <? n) && (n <=? 0) then "0." +:+ zeros (- n) +:+ ds
  else
    let e := n - 1 in
    let exponent := (if e <? 0 then "-" else "+") +:+ digitsOf (Z.abs e) in
    if k =? 1 then ds +:+ "e" +:+ exponent
    else String.substring 0 1 ds +:+ "." +:+ String.substring 1 (Z.to_nat (k - 1)) ds
         +:+ "e" +:+ exponent.

(** [String(a)], the rendering of a number in a template literal.  An
    integer below [2^53] in absolute value is rendered by its digits. *)
Definition toString (a : Number) : string :=
  match a with
  | NaN => "NaN"
  | PlusInfinity => "Infinity"
  | MinusInfinity => "-Infinity"
  | Int n =>
      if Z.abs n <? 2 ^ 53 then pretty n
      else if 0 <? n then renderPositive a n 1
      else "-" +:+ renderPositive (negate a) (- n) 1
  | Frac m k =>
      if 0 <? m then renderPositive a m (2 ^ Z.pos k)
      else "-" +:+ renderPositive (negate a) (- m) (2 ^ Z.pos k)
  end.


(** [parseInt(s, 10)] on a string of decimal digits: the double nearest
    to the integer they denote. *)
Definition parseInt (s : string) : Number := ofZ (parseInt10 s).

(** [n++] on a number that is an integer: the sum is rounded from [2^53]
    on, where [n + 1] is no double. *)
Definition increment (n : Z) : Z :=
  match ofZ (n + 1) with
  | Int m => m
  | _ => n + 1
  end.

(** Template-literal rendering of an integer below [2^53] in absolute
    value, as an hour, a minute, a day, a counter and a reading of the
    clock are: its digits. *)
Definition numToString (n : Z) : string := pretty n.

Fixpoint dropWhile {A} (p : A -> bool) (l : list A) : list A :=
  match l with
  | [] => []
  | x :: l' => if p x then dropWhile p l' else l
  end.

Definition trimStart (l : list ascii) : list ascii := dropWhile isWhitespace l.
Definition trimEnd (l : list ascii) : list ascii :=
  rev (dropWhile isWhitespace (rev l)).

(** [s.trim()] *)
Definition trim (s : string) : string := ofChars (trimEnd (trimStart (chars s))).

(** [s.split(/\s+/)]: [cur] is the field being read (reversed), [inGap]
    tells that the previous character was whitespace.  A separator at the
    start or at the end of the string yields an empty first or last field,
    and the empty string yields one empty field. *)
Fixpoint splitGo (l : list ascii) (cur : list ascii) (inGap : bool)
  : list (list ascii) :=
  match l with
  | [] => [rev cur]
  | c :: l' =>
      if isWhitespace c then
        if inGap then splitGo l' cur true
        else rev cur :: splitGo l' [] true
      else splitGo l' (c :: cur) false
  end.

Definition splitWhitespace (s : string) : list string :=
  map ofChars (splitGo (chars s) [] false).

(** [parts.join(sep)] *)
Fixpoint join (sep : string) (parts : list string) : string :=
  match parts with
  | [] => EmptyString
  | [p] => p
  | p :: rest => p +:+ sep +:+ join sep rest
  end.

(** [n.toString().padStart(2, "0")] *)
Definition padStart2 (s : string) : string :=
  match String.length s with
  | O => "00"
  | S O => "0" +:+ s
  | _ => s
  end.

(** [err.stack]: a text the program gave, or the trace the runtime
    recorded when it constructed the error, whose text depends on the
    runtime and is not followed. *)
Inductive Stack :=
| StackText (text : string)
| CapturedTrace.

(** An [Error] object: its message, its stack if it has one, and whether
    it is an instance of [TimeoutError]. *)
Record Error := mkError {
  message : string;
  stack : option Stack;
  isTimeoutInstance : bool
}.

(** [new Error(msg)]: the runtime records the stack. *)
Definition newError (msg : string) : Error :=
  {| message := msg; stack := Some CapturedTrace; isTimeoutInstance := false |}.

End JS.

(** [a * c] for an integer literal [c]. *)
Notation "a *# c" := (JS.mul a (JS.Int c)) (at level 40, left associativity).

(** The result of a synchronous function that may throw. *)
Inductive Result (A : Type) : Type :=
| Ok (a : A)
| Throw (e : JS.Error).
Arguments Ok {A} a.
Arguments Throw {A} e.

Definition isOk {A} (r : Result A) : bool :=
  match r with Ok _ => true | Throw _ => false end.

Definition rbind {A B} (r : Result A) (f : A -> Result B) : Result B :=
  match r with Ok a => f a | Throw e => Throw e end.

(** [xs.map(f)] where [f] may throw: the first throw aborts the map. *)
Fixpoint mapResult {A B} (f : A -> Result B) (l : list A) : Result (list B) :=
  match l with
  | [] => Ok []
  | x :: l' =>
      rbind (f x) (fun y => rbind (mapResult f l') (fun ys => Ok (y :: ys)))
  end.

(** ** Schedule descriptors (schedule/types.ts) *)

Inductive IntervalUnit := unit_s | unit_m | unit_h | unit_d | unit_w.

Inductive DayOfWeek := mon | tue | wed | thu | fri | sat | sun.

Inductive MonthlyDay :=
| DayNumber (n : Z)
| DayString (s : string).

Inductive ScheduleType := TInterval | TDaily | TWeekly | TMonthly | TCron.

Definition ScheduleType_name (t : ScheduleType) : string :=
  match t with
  | TInterval => "interval"
  | TDaily => "daily"
  | TWeekly => "weekly"
  | TMonthly => "monthly"
  | TCron => "cron"
  end.

(** A value stored in [originalParams : Record<string, unknown>]. *)
Inductive ParamValue :=
| PString (s : string)
| PNumber (n : Z)
| PStrings (l : list string).

Record ScheduleDescriptor := mkDescriptor {
  type : ScheduleType;
  cron_expr : string;
  timezone : option string;
  humanReadable : string;
  originalParams : list (string * ParamValue)
}.

(** The object returned by [createScheduleBuilder]: its five data properties
    and the [descriptor] captured by the closure of its [withTimezone]
    method. *)
Record ScheduleBuilder := mkBuilder {
  b_type : ScheduleType;
  b_cron : string;
  b_timezone : option string;
  b_humanReadable : string;
  b_originalParams : list (string * ParamValue);
  b_descriptor : ScheduleDescriptor
}.

Definition createScheduleBuilder (descriptor : ScheduleDescriptor) : ScheduleBuilder :=
  {| b_type := type descriptor;
     b_cron := cron_expr descriptor;
     b_timezone := timezone descriptor;
     b_humanReadable := humanReadable descriptor;
     b_originalParams := originalParams descriptor;
     b_descriptor := descriptor |}.

(** [{ ...descriptor, timezone: tz }] *)
Definition spreadWithTimezone (descriptor : ScheduleDescriptor) (tz : string)
  : ScheduleDescriptor :=
  {| type := type descriptor;
     cron_expr := cron_expr descriptor;
     timezone := Some tz;
     humanReadable := humanReadable descriptor;
     originalParams := originalParams descriptor |}.

(** [builder.withTimezone(tz)]: the method reads the captured descriptor. *)
Definition withTimezone (builder : ScheduleBuilder) (tz : string) : ScheduleBuilder :=
  createScheduleBuilder (spreadWithTimezone (b_descriptor builder) tz).

(** Builder objects live in a store: calling a constructor or a method
    allocates the object it returns at an address not yet in use. *)
Module Store.

Definition addr := positive.

Definition freshAddr (st : gmap addr ScheduleBuilder) : addr :=
  fresh (dom st).

(** [st] holds a builder at [this]; the call [this.withTimezone(tz)]
    returns the address of the new object and the store after the call. *)
Definition callWithTimezone (st : gmap addr ScheduleBuilder) (this : addr) (tz : string)
  : option (addr * gmap addr ScheduleBuilder) :=
  match st !! this with
  | None => None
  | Some builder =>
      let a := freshAddr st in
      Some (a, <[a := withTimezone builder tz]> st)
  end.

End Store.

(** ** Time and day helpers (schedule/utils.ts) *)

Record ParsedTime := mkTime { hour : Z; minute : Z }.

(** [time.match(/^(\d{1,2}):(\d{2})$/)]: the two captured groups. *)
Definition matchTime (time : string) : option (string * string) :=
  match JS.chars time with
  | [h1; c; m1; m2] =>
      if JS.isDigit h1 && Ascii.eqb c ":" && JS.isDigit m1 && JS.isDigit m2
      then Some (JS.ofChars [h1], JS.ofChars [m1; m2]) else None
  | [h1; h2; c; m1; m2] =>
      if JS.isDigit h1 && JS.isDigit h2 && Ascii.eqb c ":"
         && JS.isDigit m1 && JS.isDigit m2
      then Some (JS.ofChars [h1; h2], JS.ofChars [m1; m2]) else None
  | _ => None
  end.

Definition parseTime (time : string) : option ParsedTime :=
  match matchTime time with
  | None => None
  | Some (g1, g2) =>
      let hour := JS.parseInt10 g1 in
      let minute := JS.parseInt10 g2 in
      if (hour <? 0) || (hour >? 23) || (minute <? 0) || (minute >? 59)
      then None
      else Some {| hour := hour; minute := minute |}
  end.

Definition formatTime12Hour (hour minute : Z) : string :=
  let period := if hour >=? 12 then "PM" else "AM" in
  let hour12 := if hour =? 0 then 12 else if hour >? 12 then hour - 12 else hour in
  let minuteStr := JS.padStart2 (JS.numToString minute) in
  JS.numToString hour12 +:+ ":" +:+ minuteStr +:+ " " +:+ period.

Definition dayOfWeekToCron (d : DayOfWeek) : Z :=
  match d with
  | sun => 0 | mon => 1 | tue => 2 | wed => 3 | thu => 4 | fri => 5 | sat => 6
  end.

Definition dayOfWeekToName (d : DayOfWeek) : string :=
  match d with
  | sun => "Sunday" | mon => "Monday" | tue => "Tuesday" | wed => "Wednesday"
  | thu => "Thursday" | fri => "Friday" | sat => "Saturday"
  end.

(** The token of a day, and the day named by a string when there is one. *)
Definition dayToken (d : DayOfWeek) : string :=
  match d with
  | mon => "mon" | tue => "tue" | wed => "wed" | thu => "thu"
  | fri => "fri" | sat => "sat" | sun => "sun"
  end.

Definition validDays : list DayOfWeek := [mon; tue; wed; thu; fri; sat; sun].

Definition dayOfToken (s : string) : option DayOfWeek :=
  find (fun d => String.eqb (dayToken d) s) validDays.

Definition isValidDayOfMonth (day : Z) : bool := (day >=? 1) && (day <=? 31).

(** [s[i]] on the array of suffixes: [undefined] outside the array. *)
Definition suffixAt (i : Z) : option string :=
  if i <? 0 then None else ["th"; "st"; "nd"; "rd"] !! Z.to_nat i.

Definition getOrdinalSuffix (n : Z) : string :=
  let v := Z.rem n 100 in
  let suffix :=
    match suffixAt (Z.rem (v - 20) 10) with
    | Some s => s
    | None => match suffixAt v with
              | Some s => s
              | None => "th"
              end
    end in
  JS.numToString n +:+ suffix.

Definition invalidTimeError (time : string) : JS.Error :=
  JS.newError ("Invalid time format: " +:+ JS.quoted time
               +:+ ". Expected 24-hour format like " +:+ JS.quoted "09:00"
               +:+ " or " +:+ JS.quoted "17:30").

(** ** every (schedule/every.ts) *)

Definition unitOfChar (c : ascii) : option IntervalUnit :=
  if Ascii.eqb c "s" then Some unit_s
  else if Ascii.eqb c "m" then Some unit_m
  else if Ascii.eqb c "h" then Some unit_h
  else if Ascii.eqb c "d" then Some unit_d
  else if Ascii.eqb c "w" then Some unit_w
  else None.

(** [interval.match(/^(\d+)([smhdw])$/)]: the digits and the unit. *)
Definition matchInterval (interval : string) : option (string * IntervalUnit) :=
  match rev (JS.chars interval) with
  | [] => None
  | u :: revDigits =>
      match unitOfChar u, revDigits with
      | Some unit, _ :: _ =>
          if forallb JS.isDigit revDigits
          then Some (JS.ofChars (rev revDigits), unit) else None
      | _, _ => None
      end
  end.

Definition parseInterval (interval : string) : Result (JS.Number * IntervalUnit) :=
  match matchInterval interval with
  | None =>
      Throw (JS.newError
        ("Invalid interval format: " +:+ JS.quoted interval
         +:+ ". Expected format: number + unit (s/m/h/d/w). Examples: "
         +:+ JS.quoted "15m" +:+ ", " +:+ JS.quoted "2h" +:+ ", " +:+ JS.quoted "1d"))
  | Some (digits, unit) =>
      let value := JS.parseInt digits in
      if JS.leb value (JS.Int 0)
      then Throw (JS.newError
             ("Interval value must be positive, got: " +:+ JS.toString value))
      else Ok (value, unit)
  end.

(** The recursion of [intervalToCron] always moves to a coarser unit. *)
Definition unitRank (u : IntervalUnit) : nat :=
  match u with
  | unit_d => 0 | unit_h => 1 | unit_m => 2 | unit_s => 3 | unit_w => 1
  end%nat.

Equations intervalToCron (value : JS.Number) (unit : IntervalUnit) : string
  by wf (unitRank unit) lt :=
  intervalToCron value unit_s :=
    if JS.ltb value (JS.Int 60) then "*/" +:+ JS.toString value +:+ " * * * * *"
    else intervalToCron (JS.ceilDiv value 60) unit_m;
  intervalToCron value unit_m :=
    if JS.ltb value (JS.Int 60) then "*/" +:+ JS.toString value +:+ " * * * *"
    else intervalToCron (JS.ceilDiv value 60) unit_h;
  intervalToCron value unit_h :=
    if JS.ltb value (JS.Int 24) then "0 */" +:+ JS.toString value +:+ " * * *"
    else intervalToCron (JS.ceilDiv value 24) unit_d;
  intervalToCron value unit_d :=
    if JS.eqb value (JS.Int 1) then "0 0 * * *"
    else "0 0 */" +:+ JS.toString value +:+ " * *";
  intervalToCron value unit_w :=
    if JS.eqb value (JS.Int 1) then "0 0 * * 0"
    else intervalToCron (JS.mul value (JS.Int 7)) unit_d.

Definition unitNames (unit : IntervalUnit) : string * string :=
  match unit with
  | unit_s => ("second", "seconds")
  | unit_m => ("minute", "minutes")
  | unit_h => ("hour", "hours")
  | unit_d => ("day", "days")
  | unit_w => ("week", "weeks")
  end.

Definition intervalToHumanReadable (value : JS.Number) (unit : IntervalUnit) : string :=
  let '(singular, plural) := unitNames unit in
  let unitName := if JS.eqb value (JS.Int 1) then singular else plural in
  "every " +:+ JS.toString value +:+ " " +:+ unitName.

Definition every (interval : string) : Result ScheduleBuilder :=
  rbind (parseInterval interval) (fun '(value, unit) =>
    Ok (createScheduleBuilder
          {| type := TInterval;
             cron_expr := intervalToCron value unit;
             timezone := None;
             humanReadable := intervalToHumanReadable value unit;
             originalParams := [("interval", PString interval)] |})).

(** ** daily (schedule/daily.ts) *)

(** [[...new Set(xs)]]: the first occurrence of each value, in order. *)
Fixpoint uniqueGo (xs seen : list Z) : list Z :=
  match xs with
  | [] => []
  | x :: xs' =>
      if bool_decide (x ∈ seen) then uniqueGo xs' seen
      else x :: uniqueGo xs' (x :: seen)
  end.

Definition unique (xs : list Z) : list Z := uniqueGo xs [].

(** [xs.sort((a, b) => a - b)] *)
Definition sortNumbers (xs : list Z) : list Z := merge_sort Z.le xs.

Definition joinNumbers (sep : string) (xs : list Z) : string :=
  JS.join sep (map JS.numToString xs).

(** The sentence that lists [items]: one item, two items joined by
    [and], or the items separated by commas with [and] before the last. *)
Definition listPhrase (items : list string) : string :=
  match items with
  | [x] => x
  | [x; y] => x +:+ " and " +:+ y
  | _ => JS.join ", " (removelast items)
         +:+ ", and " +:+ List.last items EmptyString
  end.

Definition daily (times : list string) : Result ScheduleBuilder :=
  if (length times =? 0)%nat
  then Throw (JS.newError "daily() requires at least one time argument")
  else
    rbind (mapResult (fun time =>
                        match parseTime time with
                        | None => Throw (invalidTimeError time)
                        | Some parsed => Ok parsed
                        end) times) (fun parsedTimes =>
    let hours := sortNumbers (unique (map hour parsedTimes)) in
    let minutes := sortNumbers (unique (map minute parsedTimes)) in
    let cronR :=
      match parsedTimes, minutes, hours with
      | [t], _, _ =>
          Ok (JS.numToString (minute t) +:+ " " +:+ JS.numToString (hour t) +:+ " * * *")
      | _, [m], _ =>
          Ok (JS.numToString m +:+ " " +:+ joinNumbers "," hours +:+ " * * *")
      | _, _, [h] =>
          Ok (joinNumbers "," minutes +:+ " " +:+ JS.numToString h +:+ " * * *")
      | _, _, _ =>
          Throw (JS.newError
            ("daily() with multiple times requires either the same hour or same minute. "
             +:+ "Got times with different hours and minutes: "
             +:+ JS.join ", " times +:+ ". "
             +:+ "Create separate schedules instead."))
      end in
    rbind cronR (fun cron =>
    let timeStrings := map (fun t => formatTime12Hour (hour t) (minute t)) parsedTimes in
    let humanReadable := "daily at " +:+ listPhrase timeStrings in
    Ok (createScheduleBuilder
          {| type := TDaily;
             cron_expr := cron;
             timezone := None;
             humanReadable := humanReadable;
             originalParams := [("times", PStrings times)] |}))).

(** ** weekly (schedule/weekly.ts) *)

(** The first argument of [weekly]: one token, or an array of tokens. *)
Inductive DaysArg :=
| OneDay (day : string)
| DayArray (days : list string).

Definition validDaysText : string := JS.join ", " (map dayToken validDays).

(** The validation loop: each token must be one of [validDays]. *)
Definition validateDay (day : string) : Result DayOfWeek :=
  match dayOfToken day with
  | Some d => Ok d
  | None =>
      Throw (JS.newError
        ("Invalid day of week: " +:+ JS.quoted day
         +:+ ". Expected one of: " +:+ validDaysText))
  end.

Definition weekly (days : DaysArg) (time : string) : Result ScheduleBuilder :=
  let dayArray := match days with OneDay d => [d] | DayArray ds => ds end in
  if (length dayArray =? 0)%nat
  then Throw (JS.newError "weekly() requires at least one day")
  else
    rbind (mapResult validateDay dayArray) (fun validated =>
    match parseTime time with
    | None => Throw (invalidTimeError time)
    | Some parsedTime =>
        let cronDays := sortNumbers (map dayOfWeekToCron validated) in
        let cron := JS.numToString (minute parsedTime) +:+ " "
                    +:+ JS.numToString (hour parsedTime) +:+ " * * "
                    +:+ joinNumbers "," cronDays in
        let timeStr := formatTime12Hour (hour parsedTime) (minute parsedTime) in
        let dayNames := map dayOfWeekToName validated in
        let humanReadable := "every " +:+ listPhrase dayNames +:+ " at " +:+ timeStr in
        Ok (createScheduleBuilder
              {| type := TWeekly;
                 cron_expr := cron;
                 timezone := None;
                 humanReadable := humanReadable;
                 originalParams := [("days", PStrings dayArray); ("time", PString time)] |})
    end).

(** ** monthly (schedule/monthly.ts) *)

(** [day.match(/^last-(mon|tue|wed|thu|fri|sat|sun)$/)] *)
Definition parseLastDay (day : string) : option DayOfWeek :=
  if String.prefix "last-" day
  then dayOfToken (String.substring 5 (String.length day - 5) day)
  else None.

Definition monthly (day : MonthlyDay) (time : string) : Result ScheduleBuilder :=
  match parseTime time with
  | None => Throw (invalidTimeError time)
  | Some parsedTime =>
      let timeStr := formatTime12Hour (hour parsedTime) (minute parsedTime) in
      let mh := JS.numToString (minute parsedTime) +:+ " "
                +:+ JS.numToString (hour parsedTime) in
      let build cron humanReadable dayParam :=
        Ok (createScheduleBuilder
              {| type := TMonthly;
                 cron_expr := cron;
                 timezone := None;
                 humanReadable := humanReadable;
                 originalParams := [("day", dayParam); ("time", PString time)] |}) in
      match day with
      | DayNumber n =>
          if negb (isValidDayOfMonth n)
          then Throw (JS.newError
                 ("Invalid day of month: " +:+ JS.toString (JS.ofZ n)
                  +:+ ". Expected a number between 1 and 31"))
          else build (mh +:+ " " +:+ JS.numToString n +:+ " * *")
                     (getOrdinalSuffix n +:+ " of every month at " +:+ timeStr)
                     (PNumber n)
      | DayString s =>
          match parseLastDay s with
          | None =>
              Throw (JS.newError
                ("Invalid monthly day format: " +:+ JS.quoted s
                 +:+ ". Expected a number (1-31) or " +:+ JS.quoted "last-{weekday}"
                 +:+ " (e.g., " +:+ JS.quoted "last-friday" +:+ ")"))
          | Some lastDay =>
              build (mh +:+ " * * " +:+ JS.numToString (dayOfWeekToCron lastDay) +:+ "L")
                    ("last " +:+ dayOfWeekToName lastDay
                     +:+ " of every month at " +:+ timeStr)
                    (PString s)
          end
      end
  end.

(** ** cron (schedule/cron.ts) *)

(** A character of the class [[\d*,/\-LW#]]. *)
Definition isCronChar (c : ascii) : bool :=
  JS.isDigit c
  || existsb (Ascii.eqb c) ["*"; ","; "/"; "-"; "L"; "W"; "#"]%char.

(** [/^[\d*,/\-LW#]+$/.test(part)] *)
Definition validPattern (part : string) : bool :=
  negb (length (JS.chars part) =? 0)%nat && forallb isCronChar (JS.chars part).

Definition validateCronExpression (expression : string) : bool :=
  let parts := JS.splitWhitespace (JS.trim expression) in
  if negb (length parts =? 5)%nat && negb (length parts =? 6)%nat
  then false
  else forallb validPattern parts.

(** [parseInt(s, 10)] on any string: an optional sign and the longest
    prefix of digits; [NaN] when there is no digit. *)
Fixpoint takeWhile {A} (p : A -> bool) (l : list A) : list A :=
  match l with
  | [] => []
  | x :: l' => if p x then x :: takeWhile p l' else []
  end.

Definition parseIntPrefix (s : string) : JS.Number :=
  let cs := JS.trimStart (JS.chars s) in
  let '(sign, rest) :=
    match cs with
    | c :: cs' =>
        if Ascii.eqb c "-" then (-1, cs')
        else if Ascii.eqb c "+" then (1, cs')
        else (1, cs)
    | [] => (1, cs)
    end in
  match takeWhile JS.isDigit rest with
  | [] => JS.NaN
  | ds => JS.ofZ (sign * JS.parseInt10 (JS.ofChars ds))
  end.

Definition includesStar (s : string) : bool :=
  existsb (Ascii.eqb "*") (JS.chars s).

(** [s.slice(2)] *)
Definition slice2 (s : string) : string :=
  String.substring 2 (String.length s - 2) s.

Definition nonEmpty (s : string) : bool := negb (String.length s =? 0)%nat.

Definition cronToHumanReadable (expression : string) : string :=
  let fallback := "cron: " +:+ expression in
  match JS.splitWhitespace (JS.trim expression) with
  | [minute; hour; dayOfMonth; month; dayOfWeek] =>
      let restStar := String.eqb dayOfMonth "*" && String.eqb month "*"
                      && String.eqb dayOfWeek "*" in
      if String.eqb minute "*" && String.eqb hour "*" && restStar
      then "every minute"
      else if String.prefix "*/" minute && String.eqb hour "*" && restStar
      then "every " +:+ slice2 minute +:+ " minutes"
      else if String.eqb minute "0" && String.eqb hour "*" && restStar
      then "every hour"
      else if String.eqb minute "0" && String.prefix "*/" hour && restStar
      then "every " +:+ slice2 hour +:+ " hours"
      else if restStar && nonEmpty minute && nonEmpty hour
              && negb (includesStar minute) && negb (includesStar hour)
      then
        let h := parseIntPrefix hour in
        let m := parseIntPrefix minute in
        let period := if JS.leb (JS.Int 12) h then "PM" else "AM" in
        let h12 := if JS.eqb h (JS.Int 0) then JS.Int 12
                   else if JS.ltb (JS.Int 12) h then JS.sub h (JS.Int 12)
                   else h in
        "daily at " +:+ JS.toString h12 +:+ ":" +:+ JS.padStart2 (JS.toString m)
        +:+ " " +:+ period
      else fallback
  | _ => fallback
  end.

Definition cron (expression : string) : Result ScheduleBuilder :=
  let trimmed := JS.trim expression in
  if negb (validateCronExpression trimmed)
  then Throw (JS.newError
         ("Invalid cron expression: " +:+ JS.quoted expression
          +:+ ". Expected 5 or 6 space-separated fields."))
  else Ok (createScheduleBuilder
             {| type := TCron;
                cron_expr := trimmed;
                timezone := None;
                humanReadable := cronToHumanReadable trimmed;
                originalParams := [("expression", PString trimmed)] |}).

(** ** Durations and retry delays (engine/timeout.ts, engine/retry.ts) *)

Inductive DurationUnit := dur_ms | dur_s | dur_m | dur_h | dur_d.

Definition durationUnitOf (s : string) : option DurationUnit :=
  if String.eqb s "ms" then Some dur_ms
  else if String.eqb s "s" then Some dur_s
  else if String.eqb s "m" then Some dur_m
  else if String.eqb s "h" then Some dur_h
  else if String.eqb s "d" then Some dur_d
  else None.

(** [duration.match(/^(\d+)(ms|s|m|h|d)$/)] *)
Definition matchDuration (duration : string) : option (string * DurationUnit) :=
  let cs := JS.chars duration in
  let digits := takeWhile JS.isDigit cs in
  let rest := JS.dropWhile JS.isDigit cs in
  match digits, durationUnitOf (JS.ofChars rest) with
  | _ :: _, Some unit => Some (JS.ofChars digits, unit)
  | _, _ => None
  end.

Definition parseDuration (duration : string) : Result JS.Number :=
  match matchDuration duration with
  | None =>
      Throw (JS.newError
        ("Invalid duration format: " +:+ JS.quoted duration
         +:+ ". Expected format: number + unit (ms/s/m/h/d). Examples: "
         +:+ JS.quoted "100ms" +:+ ", " +:+ JS.quoted "30s" +:+ ", "
         +:+ JS.quoted "5m" +:+ ", " +:+ JS.quoted "1h"))
  | Some (digits, unit) =>
      let value := JS.parseInt digits in
      Ok match unit with
         | dur_ms => value
         | dur_s => value *# 1000
         | dur_m => value *# 60 *# 1000
         | dur_h => value *# 60 *# 60 *# 1000
         | dur_d => value *# 24 *# 60 *# 60 *# 1000
         end
  end.

(** [new TimeoutError(message)] *)
Definition newTimeoutError (msg : string) : JS.Error :=
  {| JS.message := msg; JS.stack := Some JS.CapturedTrace;
     JS.isTimeoutInstance := true |}.

Inductive BackoffStrategy := linear | exponential.

(** [attempts] is declared a [number]: any double. *)
Record RetryConfig := mkRetry {
  attempts : JS.Number;
  backoff : option BackoffStrategy;
  initialDelay : option string
}.

Definition DEFAULT_RETRY_CONFIG : RetryConfig :=
  {| attempts := JS.Int 1; backoff := Some linear; initialDelay := Some "1s" |}.

(** [s ? a : b] and [s || d] on an optional string: the empty string is
    falsy, as [undefined] is. *)
Definition truthyString (s : option string) : option string :=
  match s with
  | Some t => if nonEmpty t then Some t else None
  | None => None
  end.

(** [attempt] is the number of an attempt, an integer. *)
Definition calculateRetryDelay (attempt : Z) (config : RetryConfig) : Result JS.Number :=
  rbind (match truthyString (initialDelay config) with
         | Some d => parseDuration d
         | None => parseDuration "1s"
         end) (fun initialDelay =>
  match default linear (backoff config) with
  | linear => Ok (JS.mul initialDelay (JS.Int attempt))
  | exponential => Ok (JS.mul initialDelay (JS.pow2 (attempt - 1)))
  end).

(** [config.attempts || DEFAULT_RETRY_CONFIG.attempts]: zero and [NaN] are
    falsy. *)
Definition shouldRetry (attempt : Z) (config : RetryConfig) : bool :=
  let maxAttempts :=
    if JS.truthy (attempts config) then attempts config
    else attempts DEFAULT_RETRY_CONFIG in
  JS.ltb (JS.Int attempt) maxAttempts.

(** ** Jobs and execution records (job/types.ts, engine/types.ts) *)

(** A value thrown by user code: an [Error], or any other value, of which
    the engine only uses [String(v)]: the text it gives, or what it throws
    (as for [Object.create(null)], or an object whose [toString] throws). *)
Inductive Thrown :=
| ThrownError (e : JS.Error)
| ThrownValue (text : string)
| ThrownUnprintable (raised : Thrown).

(** [isTimeoutError(err)]: [err instanceof TimeoutError] *)
Definition isTimeoutError (err : Thrown) : bool :=
  match err with
  | ThrownError e => JS.isTimeoutInstance e
  | ThrownValue _ | ThrownUnprintable _ => false
  end.

(** The [AbortSignal] of the controller created by one run: the index of
    that controller in [controllers]. *)
Definition Signal := nat.

Record JobContext := mkContext {
  ctx_jobId : string;
  ctx_jobName : string;
  ctx_runId : string;
  ctx_scheduledAt : Z;
  ctx_startedAt : Z;
  ctx_attempt : Z;
  ctx_signal : Signal
}.

(** What becomes of the promise a handler returns, raced against the
    timer of the attempt: fulfilled first, rejected first (a synchronous
    throw included), or still pending when the timer fires. *)
Inductive HandlerRun :=
| Fulfils
| Rejects (err : Thrown)
| StillPending.

(** What awaiting the value returned by a callback gives. *)
Inductive CallbackRun :=
| CallbackReturns
| CallbackThrows (err : Thrown)
| CallbackNeverSettles.

Record JobConfig := mkConfig {
  cfg_name : option string;
  retry : option RetryConfig;
  timeout : option string;
  onFailure : option (JS.Error -> JobContext -> CallbackRun);
  onSuccess : option (JobContext -> CallbackRun)
}.

Record JobDefinition := mkJob {
  id : string;
  name : string;
  schedule : ScheduleDescriptor;
  config : JobConfig;
  handler : JobContext -> HandlerRun;
  filePath : option string
}.

Inductive ExecutionStatus :=
| status_success | status_failure | status_timeout | status_retrying.

Record ExecutionError := mkExecError {
  err_message : string;
  err_stack : option JS.Stack
}.

Record ExecutionResult := mkResult {
  res_jobId : string;
  res_runId : string;
  res_status : ExecutionStatus;
  res_startedAt : Z;
  res_completedAt : Z;
  res_duration : Z;
  res_attempt : Z;
  res_error : option ExecutionError
}.

Inductive ExecutionEventType :=
| job_start | job_success | job_failure | job_retry | job_timeout.

Definition eventTypeName (t : ExecutionEventType) : string :=
  match t with
  | job_start => "job:start"
  | job_success => "job:success"
  | job_failure => "job:failure"
  | job_retry => "job:retry"
  | job_timeout => "job:timeout"
  end.

Record ExecutionEvent := mkEvent {
  ev_type : ExecutionEventType;
  ev_jobId : string;
  ev_runId : string;
  ev_timestamp : Z;
  ev_attempt : Z;
  ev_error : option ExecutionError;
  ev_duration : option Z
}.

(** A subscribed function: its identity, and whether a call with a given
    event returns or throws.  What a listener does besides (logging,
    forwarding the event) is outside the engine and is not modelled. *)
Record ExecutionEventListener := mkListener {
  listenerId : nat;
  listen : ExecutionEvent -> option Thrown
}.

(** ** The world of the engine, and the monad of asynchronous code *)

(** What the engine does that can be observed from outside, in order. *)
Inductive Action :=
| Emitted (event : ExecutionEvent)
| ListenerCalled (listener : nat) (event : ExecutionEvent)
| HandlerCalled (context : JobContext)
| TimerSet (ms : JS.Number)
| TimerCleared
| Slept (ms : JS.Number)
| OnSuccessCalled (context : JobContext)
| OnFailureCalled (error : JS.Error) (context : JobContext).

(** The clock and the random generator: the value of the n-th read. *)
Record Runtime := mkRuntime {
  clock : nat -> Z;
  random36 : nat -> string
}.

Record World := mkWorld {
  clockReads : nat;
  randomReads : nat;
  (** the [aborted] flag of each [AbortController] created so far *)
  controllers : list bool;
  (** [ExecutionEngine.listeners]: each set in insertion order *)
  listeners : gmap string (list ExecutionEventListener);
  trace : list Action
}.

(** How an asynchronous computation ends: it returns, it throws (the
    promise rejects), it awaits a promise that never settles, or the model
    was given too little fuel for its loop. *)
Inductive Outcome (A : Type) : Type :=
| Returns (a : A)
| Throws (err : Thrown)
| NeverSettles
| OutOfFuel.
Arguments Returns {A} a.
Arguments Throws {A} err.
Arguments NeverSettles {A}.
Arguments OutOfFuel {A}.

Definition M (A : Type) : Type := World -> Outcome A * World.

Definition ret {A} (a : A) : M A := fun w => (Returns a, w).

Definition bind {A B} (m : M A) (k : A -> M B) : M B :=
  fun w =>
    match m w with
    | (Returns a, w') => k a w'
    | (Throws err, w') => (Throws err, w')
    | (NeverSettles, w') => (NeverSettles, w')
    | (OutOfFuel, w') => (OutOfFuel, w')
    end.

Notation "'let*' x ':=' m 'in' k" := (bind m (fun x => k))
  (at level 10, x name, m at level 100, k at level 200).
Notation "'do' m 'then' k" := (bind m (fun _ => k))
  (at level 10, m at level 100, k at level 200).

Definition throw {A} (err : Thrown) : M A := fun w => (Throws err, w).

(** [err instanceof Error ? err : new Error(String(err))] *)
Definition toError (err : Thrown) : M JS.Error :=
  match err with
  | ThrownError e => ret e
  | ThrownValue text => ret (JS.newError text)
  | ThrownUnprintable raised => throw raised
  end.

(** A synchronous call that may throw. *)
Definition liftResult {A} (r : Result A) : M A :=
  match r with
  | Ok a => ret a
  | Throw e => throw (ThrownError e)
  end.

(** [try { m } catch (err) { h err }] *)
Definition tryCatch {A} (m : M A) (h : Thrown -> M A) : M A :=
  fun w =>
    match m w with
    | (Throws err, w') => h err w'
    | other => other
    end.

(** [try { m } finally { f }], for an [f] that is synchronous. *)
Definition tryFinally {A} (m : M A) (f : M unit) : M A :=
  fun w =>
    match m w with
    | (Returns a, w') => bind f (fun _ => ret a) w'
    | (Throws err, w') => bind f (fun _ => throw err) w'
    | other => other
    end.

(** A promise, once its computation has been started on the world: how it
    settles.  [started m] runs [m] and returns its promise; it never throws. *)
Definition started {A} (m : M A) : M (Outcome A) :=
  fun w => let '(o, w') := m w in (Returns o, w').

(** [await promise], for a promise that was started before. *)
Definition await {A} (promise : Outcome A) : M A := fun w => (promise, w).

Definition record (a : Action) : M unit :=
  fun w => (Returns tt,
            {| clockReads := clockReads w; randomReads := randomReads w;
               controllers := controllers w; listeners := listeners w;
               trace := trace w ++ [a] |}).

Fixpoint forEach {A} (f : A -> M unit) (l : list A) : M unit :=
  match l with
  | [] => ret tt
  | x :: l' => do f x then forEach f l'
  end.

Section Engine.

Variable rt : Runtime.

(** [new Date()], [Date.now()] *)
Definition now : M Z :=
  fun w => (Returns (clock rt (clockReads w)),
            {| clockReads := S (clockReads w); randomReads := randomReads w;
               controllers := controllers w; listeners := listeners w;
               trace := trace w |}).

(** [Math.random().toString(36).slice(2, 11)] *)
Definition randomSuffix : M string :=
  fun w => (Returns (random36 rt (randomReads w)),
            {| clockReads := clockReads w; randomReads := S (randomReads w);
               controllers := controllers w; listeners := listeners w;
               trace := trace w |}).

(** [new AbortController()]: a controller that is not aborted. *)
Definition newAbortController : M Signal :=
  fun w => (Returns (length (controllers w)),
            {| clockReads := clockReads w; randomReads := randomReads w;
               controllers := controllers w ++ [false];
               listeners := listeners w; trace := trace w |}).

Definition generateRunId : M string :=
  let* t := now in
  let* r := randomSuffix in
  ret ("run_" +:+ JS.numToString t +:+ "_" +:+ r).

Definition DEFAULT_TIMEOUT_MS : JS.Number := JS.Int (5 * 60 * 1000).

Definition getListeners (key : string) : M (list ExecutionEventListener) :=
  fun w => (Returns (default [] (listeners w !! key)), w).

Definition callListener (event : ExecutionEvent) (l : ExecutionEventListener) : M unit :=
  do record (ListenerCalled (listenerId l) event) then
  match listen l event with
  | None => ret tt
  | Some err => throw err
  end.

(** [ExecutionEngine.emit] *)
Definition emit (event : ExecutionEvent) : M unit :=
  do record (Emitted event) then
  let* specific := getListeners (eventTypeName (ev_type event)) in
  do forEach (callListener event) specific then
  let* wildcard := getListeners "*" in
  forEach (callListener event) wildcard.

Definition setListeners (ls : gmap string (list ExecutionEventListener)) : M unit :=
  fun w => (Returns tt,
            {| clockReads := clockReads w; randomReads := randomReads w;
               controllers := controllers w; listeners := ls;
               trace := trace w |}).

Definition sameListener (a b : ExecutionEventListener) : bool :=
  (listenerId a =? listenerId b)%nat.

(** [set.add(listener)]: a member is not added twice. *)
Definition setAdd (l : ExecutionEventListener) (set : list ExecutionEventListener) :=
  if existsb (sameListener l) set then set else set ++ [l].

(** [set.delete(listener)] *)
Definition setDelete (l : ExecutionEventListener) (set : list ExecutionEventListener) :=
  filter (fun x => negb (sameListener l x)) set.

(** [ExecutionEngine.on]; the function it returns is [unsubscribe]. *)
Definition on (event : string) (listener : ExecutionEventListener) : M unit :=
  fun w =>
    setListeners
      (<[event := setAdd listener (default [] (listeners w !! event))]> (listeners w)) w.

Definition unsubscribe (event : string) (listener : ExecutionEventListener) : M unit :=
  fun w => setListeners (alter (setDelete listener) event (listeners w)) w.

Definition removeAllListeners : M unit := setListeners ∅.

Definition timeoutMessage (ms : JS.Number) : string :=
  "Execution timed out after " +:+ JS.toString ms +:+ "ms".

(** [ExecutionEngine.executeAttempt] *)
Definition executeAttempt (job : JobDefinition) (runId : string) (attempt : Z)
           (signal : Signal) : M unit :=
  let* scheduledAt := now in
  let* startedAt := now in
  let context :=
    {| ctx_jobId := id job; ctx_jobName := name job; ctx_runId := runId;
       ctx_scheduledAt := scheduledAt; ctx_startedAt := startedAt;
       ctx_attempt := attempt; ctx_signal := signal |} in
  let* timeoutMs :=
    match truthyString (timeout (config job)) with
    | Some t => liftResult (parseDuration t)
    | None => ret DEFAULT_TIMEOUT_MS
    end in
  do record (TimerSet timeoutMs) then
  tryFinally
    (do record (HandlerCalled context) then
     match handler job context with
     | Fulfils => ret tt
     | Rejects err => throw err
     | StillPending =>
         throw (ThrownError (newTimeoutError (timeoutMessage timeoutMs)))
     end)
    (record TimerCleared).

(** [await callback(...)] *)
Definition awaitCallback (r : CallbackRun) : M unit :=
  match r with
  | CallbackReturns => ret tt
  | CallbackThrows err => throw err
  | CallbackNeverSettles => fun w => (NeverSettles, w)
  end.

(** [await sleep(ms)] *)
Definition sleep (ms : JS.Number) : M unit := record (Slept ms).

(** The context given to [onSuccess] and [onFailure]. *)
Definition callbackContext (job : JobDefinition) (runId : string) (startedAt : Z)
           (attempt : Z) (signal : Signal) : JobContext :=
  {| ctx_jobId := id job; ctx_jobName := name job; ctx_runId := runId;
     ctx_scheduledAt := startedAt; ctx_startedAt := startedAt;
     ctx_attempt := attempt; ctx_signal := signal |}.

Definition errorInfoOf (e : JS.Error) : ExecutionError :=
  {| err_message := JS.message e; err_stack := JS.stack e |}.

(** One iteration of the [while] loop of [run] either returns the result
    of the run or continues with the next attempt. *)
Inductive Iteration :=
| Return (result : ExecutionResult)
| Continue (attempt : Z) (lastError : JS.Error).

(** The [try] block of the loop body after its [await]: the attempt
    succeeded. *)
Definition successBranch (job : JobDefinition) (runId : string) (startedAt : Z)
           (signal : Signal) (attempt : Z) : M Iteration :=
  let* completedAt := now in
  let result :=
    {| res_jobId := id job; res_runId := runId; res_status := status_success;
       res_startedAt := startedAt; res_completedAt := completedAt;
       res_duration := completedAt - startedAt; res_attempt := attempt;
       res_error := None |} in
  do emit {| ev_type := job_success; ev_jobId := id job; ev_runId := runId;
             ev_timestamp := completedAt; ev_attempt := attempt;
             ev_error := None; ev_duration := Some (res_duration result) |} then
  do match onSuccess (config job) with
     | Some callback =>
         let context := callbackContext job runId startedAt attempt signal in
         tryCatch
           (do record (OnSuccessCalled context) then
            awaitCallback (callback context))
           (fun _ => ret tt)
     | None => ret tt
     end then
  ret (Return result).

(** The [try] block of the loop body. *)
Definition tryBlock (job : JobDefinition) (runId : string) (startedAt : Z)
           (signal : Signal) (attempt : Z) : M Iteration :=
  do executeAttempt job runId attempt signal then
  successBranch job runId startedAt signal attempt.

(** The part of the [catch] block that ends the run. *)
Definition failBranch (job : JobDefinition) (runId : string) (startedAt : Z)
           (signal : Signal) (attempt : Z) (lastError : JS.Error)
           (isTimeout : bool) (errorInfo : ExecutionError) : M Iteration :=
  let* completedAt := now in
  let result :=
    {| res_jobId := id job; res_runId := runId;
       res_status := if isTimeout then status_timeout else status_failure;
       res_startedAt := startedAt; res_completedAt := completedAt;
       res_duration := completedAt - startedAt; res_attempt := attempt;
       res_error := Some errorInfo |} in
  do emit {| ev_type := if isTimeout then job_timeout else job_failure;
             ev_jobId := id job; ev_runId := runId;
             ev_timestamp := completedAt; ev_attempt := attempt;
             ev_error := Some errorInfo;
             ev_duration := Some (res_duration result) |} then
  do match onFailure (config job) with
     | Some callback =>
         let context := callbackContext job runId startedAt attempt signal in
         tryCatch
           (do record (OnFailureCalled lastError context) then
            awaitCallback (callback lastError context))
           (fun _ => ret tt)
     | None => ret tt
     end then
  ret (Return result).

(** The part of the [catch] block that schedules another attempt. *)
Definition retryBranch (job : JobDefinition) (runId : string) (attempt : Z)
           (retryConfig : RetryConfig) (lastError : JS.Error)
           (errorInfo : ExecutionError) : M Iteration :=
  let* timestamp := now in
  do emit {| ev_type := job_retry; ev_jobId := id job; ev_runId := runId;
             ev_timestamp := timestamp; ev_attempt := attempt;
             ev_error := Some errorInfo; ev_duration := None |} then
  let* delay := liftResult (calculateRetryDelay attempt retryConfig) in
  do sleep delay then
  ret (Continue (JS.increment attempt) lastError).

Definition catchBlock (job : JobDefinition) (runId : string) (startedAt : Z)
           (signal : Signal) (attempt : Z) (err : Thrown) : M Iteration :=
  let* lastError := toError err in
  let isTimeout := isTimeoutError err in
  let errorInfo := errorInfoOf lastError in
  match retry (config job) with
  | Some retryConfig =>
      if shouldRetry attempt retryConfig
      then retryBranch job runId attempt retryConfig lastError errorInfo
      else failBranch job runId startedAt signal attempt lastError isTimeout errorInfo
  | None => failBranch job runId startedAt signal attempt lastError isTimeout errorInfo
  end.

(** How the [while] loop of [run] is left: by a [return] inside it, or
    because its condition became false. *)
Inductive LoopExit :=
| Returned (result : ExecutionResult)
| ConditionFalse (attempt : Z) (lastError : option JS.Error).

(** [while (attempt <= maxAttempts) { try { ... } catch (err) { ... } }];
    [fuel] bounds the number of iterations. *)
Fixpoint attemptLoop (fuel : nat) (job : JobDefinition) (runId : string)
         (startedAt : Z) (signal : Signal) (maxAttempts : JS.Number)
         (attempt : Z) (lastError : option JS.Error) : M LoopExit :=
  if negb (JS.leb (JS.Int attempt) maxAttempts)
  then ret (ConditionFalse attempt lastError)
  else
    match fuel with
    | O => fun w => (OutOfFuel, w)
    | S fuel' =>
        let* iteration :=
          tryCatch (tryBlock job runId startedAt signal attempt)
                   (catchBlock job runId startedAt signal attempt) in
        match iteration with
        | Return result => ret (Returned result)
        | Continue attempt' lastError' =>
            attemptLoop fuel' job runId startedAt signal maxAttempts
                        attempt' (Some lastError')
        end
    end.

(** [job.config.retry?.attempts ?? 1] *)
Definition maxAttemptsOf (job : JobDefinition) : JS.Number :=
  match retry (config job) with
  | Some retryConfig => attempts retryConfig
  | None => JS.Int 1
  end.

(** The fuel [run] gives its loop.  The attempt runs from 1 through the
    integers up to [maxAttempts], so that the loop makes no more
    iterations than the integer part of [maxAttempts]: one more is enough
    fuel.  For [Infinity] (and above [2^53], where the attempt stops
    growing) the condition of the loop never fails; [run] then follows one
    iteration, and [runWith] as many as it is told. *)
Definition loopFuel (maxAttempts : JS.Number) : nat :=
  match maxAttempts with
  | JS.Int n => S (Z.to_nat n)
  | JS.Frac m k => S (Z.to_nat (m / 2 ^ Z.pos k))
  | _ => 1
  end.

(** The [return] statement that produced the result of a run. *)
Inductive ReturnSite := InsideLoop | AfterLoop.

(** What [run] does once its loop is left: the result was returned inside
    the loop, or the statements after the loop return one. *)
Definition afterLoop (job : JobDefinition) (runId : string) (startedAt : Z)
           (exit : LoopExit) : M (ReturnSite * ExecutionResult) :=
  match exit with
  | Returned result => ret (InsideLoop, result)
  | ConditionFalse attempt lastError =>
      let* completedAt := now in
      ret (AfterLoop,
           {| res_jobId := id job; res_runId := runId;
              res_status := status_failure;
              res_startedAt := startedAt; res_completedAt := completedAt;
              res_duration := completedAt - startedAt; res_attempt := attempt;
              res_error :=
                Some match lastError with
                     | Some e => errorInfoOf e
                     | None => {| err_message := "Unknown error"; err_stack := None |}
                     end |})
  end.

(** [ExecutionEngine.run], with the site of the [return] it took, its
    loop followed for [fuel] iterations. *)
Definition runTracedWith (fuel : nat) (job : JobDefinition)
  : M (ReturnSite * ExecutionResult) :=
  let* runId := generateRunId in
  let* startedAt := now in
  let attempt := 1 in
  let* signal := newAbortController in
  let* timestamp := now in
  do emit {| ev_type := job_start; ev_jobId := id job; ev_runId := runId;
             ev_timestamp := timestamp; ev_attempt := attempt;
             ev_error := None; ev_duration := None |} then
  let maxAttempts := maxAttemptsOf job in
  let* exit := attemptLoop fuel job runId startedAt signal
                           maxAttempts attempt None in
  afterLoop job runId startedAt exit.

Definition runTraced (job : JobDefinition) : M (ReturnSite * ExecutionResult) :=
  runTracedWith (loopFuel (maxAttemptsOf job)) job.

(** [ExecutionEngine.run], its loop followed for [fuel] iterations. *)
Definition runWith (fuel : nat) (job : JobDefinition) : M ExecutionResult :=
  let* traced := runTracedWith fuel job in
  ret (snd traced).

(** [ExecutionEngine.run] *)
Definition run (job : JobDefinition) : M ExecutionResult :=
  let* traced := runTraced job in
  ret (snd traced).

(** *** A call of [run], as its caller sees it

    [run] is an [async] function: a call runs its body up to the first
    [await] and returns the promise of the result; the caller goes on from
    there, and the rest of the body runs once the awaited promise has
    settled.  The first [await] of [run] is the one of the first attempt,
    whose own first [await] is the race between the handler and the timer.
    [runStart] is [run] up to that point and [runResume] is [run] from
    there on; [run] is the one followed by the other. *)

(** [executeAttempt] up to its [await]: the context, the timer, and the
    call of the handler.  It returns the race that it is going to await. *)
Definition startAttempt (job : JobDefinition) (runId : string) (attempt : Z)
           (signal : Signal) : M (JS.Number * HandlerRun) :=
  let* scheduledAt := now in
  let* startedAt := now in
  let context :=
    {| ctx_jobId := id job; ctx_jobName := name job; ctx_runId := runId;
       ctx_scheduledAt := scheduledAt; ctx_startedAt := startedAt;
       ctx_attempt := attempt; ctx_signal := signal |} in
  let* timeoutMs :=
    match truthyString (timeout (config job)) with
    | Some t => liftResult (parseDuration t)
    | None => ret DEFAULT_TIMEOUT_MS
    end in
  do record (TimerSet timeoutMs) then
  do record (HandlerCalled context) then
  ret (timeoutMs, handler job context).

(** [executeAttempt] from its [await] on: the race settles, and the
    [finally] block clears the timer. *)
Definition settleAttempt (race : JS.Number * HandlerRun) : M unit :=
  tryFinally
    match snd race with
    | Fulfils => ret tt
    | Rejects err => throw err
    | StillPending =>
        throw (ThrownError (newTimeoutError (timeoutMessage (fst race))))
    end
    (record TimerCleared).

(** Where a call of [run] stands when it returns its promise: [run] has
    returned without awaiting anything, or it awaits the first attempt,
    which awaits its race or has thrown before. *)
Inductive Suspended :=
| Finished (traced : ReturnSite * ExecutionResult)
| AtFirstAwait (runId : string) (startedAt : Z) (signal : Signal)
               (attemptStarted : Outcome (JS.Number * HandlerRun)).

(** [run] up to its first [await]. *)
Definition runStart (job : JobDefinition) : M Suspended :=
  let* runId := generateRunId in
  let* startedAt := now in
  let attempt := 1 in
  let* signal := newAbortController in
  let* timestamp := now in
  do emit {| ev_type := job_start; ev_jobId := id job; ev_runId := runId;
             ev_timestamp := timestamp; ev_attempt := attempt;
             ev_error := None; ev_duration := None |} then
  let maxAttempts := maxAttemptsOf job in
  if negb (JS.leb (JS.Int attempt) maxAttempts)
  then
    let* traced := afterLoop job runId startedAt (ConditionFalse attempt None) in
    ret (Finished traced)
  else
    let* attemptStarted := started (startAttempt job runId attempt signal) in
    ret (AtFirstAwait runId startedAt signal attemptStarted).

(** [run] from its first [await] on, the rest of its loop followed for
    [fuel] iterations, the first one included. *)
Definition runResume (fuel : nat) (job : JobDefinition) (suspended : Suspended)
  : M (ReturnSite * ExecutionResult) :=
  match suspended with
  | Finished traced => ret traced
  | AtFirstAwait runId startedAt signal attemptStarted =>
      match fuel with
      | O => fun w => (OutOfFuel, w)
      | S fuel' =>
          let attempt := 1 in
          let* iteration :=
            tryCatch
              (do (let* race := await attemptStarted in settleAttempt race) then
               successBranch job runId startedAt signal attempt)
              (catchBlock job runId startedAt signal attempt) in
          let* exit :=
            match iteration with
            | Return result => ret (Returned result)
            | Continue attempt' lastError' =>
                attemptLoop fuel' job runId startedAt signal (maxAttemptsOf job)
                            attempt' (Some lastError')
            end in
          afterLoop job runId startedAt exit
      end
  end.

(** The promise that a call of [run] has returned, awaited: [running] is
    how the call went up to its first [await]. *)
Definition runSettle (job : JobDefinition) (running : Outcome Suspended)
  : M ExecutionResult :=
  let* suspended := await running in
  let* traced := runResume (loopFuel (maxAttemptsOf job)) job suspended in
  ret (snd traced).

End Engine.

(** The events emitted along a trace, in order. *)
Definition emittedEvents (t : list Action) : list ExecutionEvent :=
  omap (fun a => match a with Emitted e => Some e | _ => None end) t.

(** The listeners called along a trace, in order. *)
Definition listenerCalls (t : list Action) : list (nat * ExecutionEvent) :=
  omap (fun a => match a with ListenerCalled l e => Some (l, e) | _ => None end) t.

Definition handlerCalls (t : list Action) : list JobContext :=
  omap (fun a => match a with HandlerCalled c => Some c | _ => None end) t.

Definition isTerminal (t : ExecutionEventType) : bool :=
  match t with
  | job_success | job_failure | job_timeout => true
  | job_start | job_retry => false
  end.

(** The signal of a context is aborted when its controller is. *)
Definition signalAborted (w : World) (s : Signal) : bool :=
  default false (controllers w !! s).

Definition emptyWorld : World :=
  {| clockReads := 0; randomReads := 0; controllers := [];
     listeners := ∅; trace := [] |}.

(** ** Schedulers (cronlet-cli scheduler/index.ts, worker/worker.ts) *)

(** [executeJob] up to its [await]: it returned at once, or it awaits a
    promise, having registered it under [key]. *)
Inductive Call :=
| Immediate (result : ExecutionResult)
| Awaiting (key : string) (promise : Outcome ExecutionResult).

(** The synthetic result returned while shutting down. *)
Definition skippedResult (job : JobDefinition) (t startedAt completedAt : Z)
           (msg : string) : ExecutionResult :=
  {| res_jobId := id job;
     res_runId := "skipped_" +:+ JS.numToString t;
     res_status := status_failure;
     res_startedAt := startedAt; res_completedAt := completedAt;
     res_duration := 0; res_attempt := 0;
     res_error := Some {| err_message := msg; err_stack := None |} |}.

Module CronScheduler.

Record InFlightJob := mkInFlight {
  jobId : string;
  runId : string;
  startedAt : Z;
  promise : Outcome ExecutionResult
}.

(** The fields of the scheduler that [executeJob] reads and writes; the
    [scheduledJobs] map holds the triggers of the croner library. *)
Record State := mkState {
  inFlightJobs : gmap string InFlightJob;
  running : bool;
  shuttingDown : bool
}.

Definition setInFlight (s : State) (m : gmap string InFlightJob) : State :=
  {| inFlightJobs := m; running := running s; shuttingDown := shuttingDown s |}.

Section WithRuntime.
Variable rt : Runtime.

(** [executeJob] from its entry to its [return] or [await]. *)
Definition executeJobCall (job : JobDefinition) (s : State) : M (Call * State) :=
  if shuttingDown s then
    let* t := now rt in
    let* startedAt := now rt in
    let* completedAt := now rt in
    ret (Immediate (skippedResult job t startedAt completedAt
                                  "Scheduler is shutting down"), s)
  else
    let* t := now rt in
    let* r := randomSuffix rt in
    let runId := "run_" +:+ JS.numToString t +:+ "_" +:+ r in
    let* startedAt := now rt in
    let* promise := started (run rt job) in
    let inFlight := {| jobId := id job; runId := runId;
                       startedAt := startedAt; promise := promise |} in
    ret (Awaiting runId promise,
         setInFlight s (<[runId := inFlight]> (inFlightJobs s))).

(** [try { return await promise } finally { inFlightJobs.delete(runId) }],
    resumed when the promise settles. *)
Definition executeJobSettle (key : string) (promise : Outcome ExecutionResult)
           (s : State) : Outcome ExecutionResult * State :=
  match promise with
  | Returns _ | Throws _ => (promise, setInFlight s (delete key (inFlightJobs s)))
  | NeverSettles | OutOfFuel => (promise, s)
  end.

(** [executeJob], when nothing else runs between the call and the
    settlement of the promise. *)
Definition executeJob (job : JobDefinition) (s : State)
  : World -> (Outcome ExecutionResult * State) * World :=
  fun w =>
    match executeJobCall job s w with
    | (Returns (Immediate result, s'), w') => ((Returns result, s'), w')
    | (Returns (Awaiting key promise, s'), w') => (executeJobSettle key promise s', w')
    | (Throws err, w') => ((Throws err, s), w')
    | (NeverSettles, w') => ((NeverSettles, s), w')
    | (OutOfFuel, w') => ((OutOfFuel, s), w')
    end.

End WithRuntime.

End CronScheduler.

Module CronletWorker.

(** [inFlight]: the promises of the runs, under the keys [executeJob] gave
    them.  A promise is held as the way it settles. *)
Record State := mkState {
  inFlight : gmap string (Outcome ExecutionResult);
  running : bool;
  shuttingDown : bool
}.

Definition setInFlight (s : State) (m : gmap string (Outcome ExecutionResult)) : State :=
  {| inFlight := m; running := running s; shuttingDown := shuttingDown s |}.

Section WithRuntime.
Variable rt : Runtime.

Definition executeJobCall (job : JobDefinition) (s : State) : M (Call * State) :=
  if shuttingDown s then
    let* t := now rt in
    let* startedAt := now rt in
    let* completedAt := now rt in
    ret (Immediate (skippedResult job t startedAt completedAt
                                  "Worker is shutting down"), s)
  else
    (* [engine.run(job)] runs up to its first [await], and the clock is
       read before the run goes on *)
    let* running := started (runStart rt job) in
    let* t := now rt in
    let key := id job +:+ "_" +:+ JS.numToString t in
    let* promise := started (runSettle rt job running) in
    ret (Awaiting key promise, setInFlight s (<[key := promise]> (inFlight s))).

Definition executeJobSettle (key : string) (promise : Outcome ExecutionResult)
           (s : State) : Outcome ExecutionResult * State :=
  match promise with
  | Returns _ | Throws _ => (promise, setInFlight s (delete key (inFlight s)))
  | NeverSettles | OutOfFuel => (promise, s)
  end.

Definition executeJob (job : JobDefinition) (s : State)
  : World -> (Outcome ExecutionResult * State) * World :=
  fun w =>
    match executeJobCall job s w with
    | (Returns (Immediate result, s'), w') => ((Returns result, s'), w')
    | (Returns (Awaiting key promise, s'), w') => (executeJobSettle key promise s', w')
    | (Throws err, w') => ((Throws err, s), w')
    | (NeverSettles, w') => ((NeverSettles, s), w')
    | (OutOfFuel, w') => ((OutOfFuel, s), w')
    end.

End WithRuntime.

End CronletWorker.

(** ** The lowering table of the specification

    Written from the words of the specification, to be compared with
    [intervalToCron]: each unit either emits its expression or is lowered
    as the next coarser unit. *)

(** The least integer that is not below [n / d]. *)
Definition ceilOf (n d : Z) : Z := (n + d - 1) / d.

(** The decimal digits of an integer. *)
Definition decimal (n : Z) : string := pretty n.

Definition lowerDays (n : Z) : string :=
  if n =? 1 then "0 0 * * *" else "0 0 */" +:+ decimal n +:+ " * *".

Definition lowerHours (n : Z) : string :=
  if n <? 24 then "0 */" +:+ decimal n +:+ " * * *"
  else lowerDays (ceilOf n 24).

Definition lowerMinutes (n : Z) : string :=
  if n <? 60 then "*/" +:+ decimal n +:+ " * * * *"
  else lowerHours (ceilOf n 60).

Definition lowerSeconds (n : Z) : string :=
  if n <? 60 then "*/" +:+ decimal n +:+ " * * * * *"
  else lowerMinutes (ceilOf n 60).

Definition lowerWeeks (n : Z) : string :=
  if n =? 1 then "0 0 * * 0" else lowerDays (n * 7).

Definition loweringTable (n : Z) (unit : IntervalUnit) : string :=
  match unit with
  | unit_s => lowerSeconds n
  | unit_m => lowerMinutes n
  | unit_h => lowerHours n
  | unit_d => lowerDays n
  | unit_w => lowerWeeks n
  end.

Definition unitLetter (unit : IntervalUnit) : string :=
  match unit with
  | unit_s => "s" | unit_m => "m" | unit_h => "h" | unit_d => "d" | unit_w => "w"
  end.

(** The text of the lowering table: "every N units". *)
Definition everyText (n : Z) (unit : IntervalUnit) : string :=
  "every " +:+ decimal n +:+ " "
  +:+ (if n =? 1 then fst (unitNames unit) else snd (unitNames unit)).

(** [interval] matches [^(\d+)(s|m|h|d|w)$] with the groups [digits] and
    [unit]. *)
Definition intervalShape (interval digits : string) (unit : IntervalUnit) : Prop :=
  interval = digits +:+ unitLetter unit
  /\ JS.allDigits digits = true
  /\ (0 < String.length digits)%nat.

(** ** The acceptance condition of [cron] in the words of the specification:
    after trimming, 5 or 6 whitespace-delimited fields, each matching
    [[0-9*,/\-LW#]+]. *)
Definition cronFieldsAccepted (expression : string) : bool :=
  let fields := JS.splitWhitespace (JS.trim expression) in
  ((length fields =? 5)%nat || (length fields =? 6)%nat)
  && forallb validPattern fields.

Definition invalidCronMessage (expression : string) : string :=
  "Invalid cron expression: " +:+ JS.quoted expression
  +:+ ". Expected 5 or 6 space-separated fields.".

(** The array of day tokens that [weekly] works on. *)
Definition dayArrayOf (days : DaysArg) : list string :=
  match days with OneDay d => [d] | DayArray ds => ds end.

(** [time] matches [^(\d{1,2}):(\d{2})$] with the groups [hh] and [mm]. *)
Definition timeShape (time hh mm : string) : Prop :=
  time = hh +:+ ":" +:+ mm
  /\ JS.allDigits hh = true /\ JS.allDigits mm = true
  /\ (1 <= String.length hh <= 2)%nat
  /\ String.length mm = 2%nat.


(** The weeks are lowered as seven times as many days, a number that
    [every] computes in its turn. *)
Definition loweredValue (n : Z) (unit : IntervalUnit) : Z :=
  match unit with unit_w => n * 7 | _ => n end.

(** What [every] throws for a string that is no interval. *)
Definition invalidIntervalError (interval : string) : JS.Error :=
  JS.newError
    ("Invalid interval format: " +:+ JS.quoted interval
     +:+ ". Expected format: number + unit (s/m/h/d/w). Examples: "
     +:+ JS.quoted "15m" +:+ ", " +:+ JS.quoted "2h" +:+ ", " +:+ JS.quoted "1d").


(** ** Observations on the world of the engine *)

(** [Step w w' evs]: from [w] to [w'] the engine emitted the events [evs],
    and changed neither the listeners nor the abort controllers. *)
Record Step (w w' : World) (evs : list ExecutionEvent) : Prop := mkStep {
  step_listeners : listeners w' = listeners w;
  step_controllers : controllers w' = controllers w;
  step_events : emittedEvents (trace w') = emittedEvents (trace w) ++ evs
}.

(** No listener of the world throws. *)
Definition quietWorld (w : World) : Prop :=
  forall key ls l event,
    listeners w !! key = Some ls -> l ∈ ls -> listen l event = None.


(** The listeners [emit] calls for an event, in the order of the calls. *)
Definition subscribers (w : World) (event : ExecutionEvent) : list ExecutionEventListener :=
  default [] (listeners w !! eventTypeName (ev_type event))
  ++ default [] (listeners w !! "*").

(** ** Conditions on a job *)

(** [retry.attempts], when present, is an integer from 1 to [2^53], the
    integers that the attempt, which counts up from 1, comes to reach. *)
Definition integerAttempts (job : JobDefinition) : Prop :=
  forall rc, retry (config job) = Some rc ->
    exists n, attempts rc = JS.Int n /\ 1 <= n <= 2 ^ 53.

(** [retry.attempts], when present, is not above [2^53] (or is [NaN]):
    the attempt, which counts up from 1, comes to reach or exceed it. *)
Definition boundedAttempts (job : JobDefinition) : Prop :=
  forall rc, retry (config job) = Some rc ->
    JS.ltb (JS.Int (2 ^ 53)) (attempts rc) = false.

(** [String(err)] does not throw: [err] is an [Error] or has a text. *)
Definition printable (err : Thrown) : Prop :=
  match err with ThrownUnprintable _ => False | _ => True end.

(** The error that the [catch] block of [run] makes of a thrown value
    that is printable. *)
Definition errorOf (err : Thrown) : JS.Error :=
  match err with
  | ThrownError e => e
  | ThrownValue text => JS.newError text
  | ThrownUnprintable _ => JS.newError EmptyString
  end.

(** What the handler of the job rejects with, or throws, is printable. *)
Definition printableRejections (job : JobDefinition) : Prop :=
  forall context err, handler job context = Rejects err -> printable err.

(** How an attempt ends: it has emitted nothing, and it returns or throws;
    what it throws is printable when the rejections of the handler are. *)
Definition AttemptEnds (job : JobDefinition) (m : M unit) : Prop :=
  forall w w' o,
    m w = (o, w') ->
    Step w w' []
    /\ (o = Returns tt
        \/ exists err, o = Throws err /\ (printableRejections job -> printable err)).

(** What [startAttempt] leaves to await: a race whose handler is the one
    of the job, or the error of a timeout that is no duration. *)
Definition startedBy (job : JobDefinition) (o : Outcome (JS.Number * HandlerRun)) : Prop :=
  (exists ms context, o = Returns (ms, handler job context))
  \/ (exists e, o = Throws (ThrownError e)).

(** [retry.initialDelay], when given, is a duration string. *)
Definition validInitialDelay (job : JobDefinition) : Prop :=
  forall rc d,
    retry (config job) = Some rc ->
    truthyString (initialDelay rc) = Some d ->
    isOk (parseDuration d) = true.

(** The promises returned by the callbacks of the job settle. *)
Definition callbacksSettle (job : JobDefinition) : Prop :=
  (forall cb context,
      onSuccess (config job) = Some cb -> cb context <> CallbackNeverSettles)
  /\ (forall cb error context,
        onFailure (config job) = Some cb -> cb error context <> CallbackNeverSettles).

(** [job:retry] events that carry the attempts [attempt], [attempt + 1],
    and so on. *)
Definition retryEvents (attempt : Z) (retries : list ExecutionEvent) : Prop :=
  Forall (fun e => ev_type e = job_retry) retries
  /\ map ev_attempt retries = seqZ attempt (Z.of_nat (length retries)).

(** The events of a run from the attempt numbered [attempt] on:
    [job:retry] events that carry the attempts [attempt], [attempt + 1], ...,
    then one terminal event, which carries the next attempt. *)
Definition retriesFrom (attempt : Z) (retries : list ExecutionEvent)
           (terminal : ExecutionEvent) : Prop :=
  Forall (fun e => ev_type e = job_retry) retries
  /\ map ev_attempt retries = seqZ attempt (Z.of_nat (length retries))
  /\ isTerminal (ev_type terminal) = true
  /\ ev_attempt terminal = attempt + Z.of_nat (length retries).

(** The events of one run: one [job:start], then the retries from the
    first attempt, then one terminal event. *)
Definition runEvents (evs : list ExecutionEvent) : Prop :=
  exists start retries terminal,
    evs = start :: retries ++ [terminal]
    /\ ev_type start = job_start
    /\ retriesFrom 1 retries terminal.

(** [yields m P]: the computation [m] never exhausts the fuel of the
    model, and any value it returns satisfies [P]. *)
Definition yields {A} (m : M A) (P : A -> Prop) : Prop :=
  forall w,
    match fst (m w) with
    | Returns a => P a
    | Throws _ | NeverSettles => True
    | OutOfFuel => False
    end.

(** ** Sample data *)

Definition sampleDescriptor : ScheduleDescriptor :=
  {| type := TInterval; cron_expr := "*/15 * * * *"; timezone := None;
     humanReadable := "every 15 minutes"; originalParams := [] |}.

Definition sampleStore : gmap Store.addr ScheduleBuilder :=
  {[ 1%positive := createScheduleBuilder sampleDescriptor ]}.

Definition sampleRuntime : Runtime :=
  {| clock := fun n => 1700000000000 + Z.of_nat n;
     random36 := fun _ => "k3x9q0w2z" |}.

Definition plainConfig : JobConfig :=
  {| cfg_name := None; retry := None; timeout := None;
     onFailure := None; onSuccess := None |}.

Definition sampleJob (cfg : JobConfig) (h : JobContext -> HandlerRun) : JobDefinition :=
  {| id := "test-job"; name := "Test Job"; schedule := sampleDescriptor;
     config := cfg; handler := h; filePath := None |}.

Definition retryConfig (n : Z) (delay : string) : JobConfig :=
  {| cfg_name := None;
     retry := Some {| attempts := JS.Int n; backoff := None;
                      initialDelay := Some delay |};
     timeout := None; onFailure := None; onSuccess := None |}.

(** [retry.attempts] given as any number. *)
Definition retryNumber (n : JS.Number) (delay : string) : JobConfig :=
  {| cfg_name := None;
     retry := Some {| attempts := n; backoff := None; initialDelay := Some delay |};
     timeout := None; onFailure := None; onSuccess := None |}.

(** A handler that returns. *)
Definition successJob : JobDefinition := sampleJob plainConfig (fun _ => Fulfils).

(** A handler that fails twice and then returns, with three attempts. *)
Definition flakyJob : JobDefinition :=
  sampleJob (retryConfig 3 "10ms")
            (fun ctx => if ctx_attempt ctx <? 3
                        then Rejects (ThrownError (JS.newError "not yet"))
                        else Fulfils).

(** A handler that always fails, with a retry delay that is no duration. *)
Definition badDelayJob : JobDefinition :=
  sampleJob (retryConfig 2 "soon")
            (fun _ => Rejects (ThrownError (JS.newError "Always fails"))).

(** A handler that always fails, with [retry.attempts] zero. *)
Definition zeroAttemptsJob : JobDefinition :=
  sampleJob (retryConfig 0 "10ms")
            (fun _ => Rejects (ThrownError (JS.newError "Always fails"))).

(** A handler that always fails, with [retry.attempts] 1.5. *)
Definition fractionalJob : JobDefinition :=
  sampleJob {| cfg_name := None;
               retry := Some {| attempts := JS.Frac 3 1; backoff := None;
                                initialDelay := Some "10ms" |};
               timeout := None;
               onFailure := Some (fun _ _ => CallbackReturns);
               onSuccess := None |}
            (fun _ => Rejects (ThrownError (JS.newError "Always fails"))).

(** A handler that always fails, with [retry.attempts] [Infinity]. *)
Definition foreverJob : JobDefinition :=
  sampleJob (retryNumber JS.PlusInfinity "10ms")
            (fun _ => Rejects (ThrownError (JS.newError "Always fails"))).

(** A handler that throws [Object.create(null)], whose conversion to a
    string throws a [TypeError]. *)
Definition cannotConvert : Thrown :=
  ThrownError {| JS.message := "Cannot convert object to primitive value";
                 JS.stack := Some JS.CapturedTrace;
                 JS.isTimeoutInstance := false |}.

Definition unprintableJob : JobDefinition :=
  sampleJob plainConfig (fun _ => Rejects (ThrownUnprintable cannotConvert)).

(** A handler that outlasts a timeout of 50 ms, without retry. *)
Definition timeoutJob : JobDefinition :=
  sampleJob {| cfg_name := None; retry := None; timeout := Some "50ms";
               onFailure := None; onSuccess := None |}
            (fun _ => StillPending).

(** A job whose [onSuccess] callback returns a promise that never settles. *)
Definition hangingCallbackJob : JobDefinition :=
  sampleJob {| cfg_name := None; retry := None; timeout := None;
               onFailure := None;
               onSuccess := Some (fun _ => CallbackNeverSettles) |}
            (fun _ => Fulfils).

Definition throwingListener : ExecutionEventListener :=
  {| listenerId := 1; listen := fun _ => Some (ThrownValue "boom") |}.

Definition quietListener : ExecutionEventListener :=
  {| listenerId := 2; listen := fun _ => None |}.

(** The world after [engine.on(event, listener)] on a new engine. *)
Definition worldWith (subscriptions : list (string * ExecutionEventListener)) : World :=
  fold_left (fun w s => snd (on (fst s) (snd s) w)) subscriptions emptyWorld.

Definition idleScheduler : CronScheduler.State :=
  {| CronScheduler.inFlightJobs := ∅; CronScheduler.running := true;
     CronScheduler.shuttingDown := false |}.

Definition idleWorker : CronletWorker.State :=
  {| CronletWorker.inFlight := ∅; CronletWorker.running := true;
     CronletWorker.shuttingDown := false |}.

Definition stoppingWorker : CronletWorker.State :=
  {| CronletWorker.inFlight := ∅; CronletWorker.running := true;
     CronletWorker.shuttingDown := true |}.

(** ** Durations, as the engine writes and reads them *)

Definition durationUnitText (unit : DurationUnit) : string :=
  match unit with
  | dur_ms => "ms" | dur_s => "s" | dur_m => "m" | dur_h => "h" | dur_d => "d"
  end.

(** The milliseconds in one unit. *)
Definition durationFactor (unit : DurationUnit) : Z :=
  match unit with
  | dur_ms => 1
  | dur_s => 1000
  | dur_m => 60 * 1000
  | dur_h => 60 * 60 * 1000
  | dur_d => 24 * 60 * 60 * 1000
  end.

(** A number that is an integer and not negative, or [Infinity]. *)
Definition wholeNumber (a : JS.Number) : Prop :=
  match a with
  | JS.Int n => 0 <= n
  | JS.PlusInfinity => True
  | _ => False
  end.

(** The initial delay of a retry configuration in milliseconds, as
    [calculateRetryDelay] reads it. *)
Definition initialDelayOf (config : RetryConfig) : Result JS.Number :=
  match truthyString (initialDelay config) with
  | Some d => parseDuration d
  | None => parseDuration "1s"
  end.

(** What the initial delay is multiplied by after the attempt numbered
    [attempt]. *)
Definition backoffFactor (backoff : BackoffStrategy) (attempt : Z) : Z :=
  match backoff with
  | linear => attempt
  | exponential => 2 ^ (attempt - 1)
  end.

(** The sum of the factors of the first [k] attempts: 1 + 2 + ... + k
    with a linear backoff, 1 + 2 + ... + 2^(k-1) with an exponential
    one. *)
Definition delaySum (backoff : BackoffStrategy) (k : Z) : Z :=
  match backoff with
  | linear => k * (k + 1) / 2
  | exponential => 2 ^ k - 1
  end.

(** [duration] matches [^(\d+)(ms|s|m|h|d)$] with the groups [digits] and
    [unit]. *)
Definition durationShape (duration digits : string) (unit : DurationUnit) : Prop :=
  duration = digits +:+ durationUnitText unit
  /\ JS.allDigits digits = true
  /\ (0 < String.length digits)%nat.

(** ** The ordinal of a day of the month, by the rule of English: [th]
    for 11, 12 and 13 in every hundred, otherwise [st], [nd], [rd] after a
    last digit 1, 2, 3 and [th] after the others. *)
Definition ordinalSuffixRule (n : Z) : string :=
  if (11 <=? n mod 100) && (n mod 100 <=? 13) then "th"
  else if n mod 10 =? 1 then "st"
  else if n mod 10 =? 2 then "nd"
  else if n mod 10 =? 3 then "rd"
  else "th".

(** ** Cron expressions as lists of fields *)

(** [expression] is made of the fields [fields], each of cron characters,
    separated by single spaces. *)
Definition cronFieldsOf (expression : string) (fields : list string) : Prop :=
  expression = JS.join " " fields
  /\ Forall (fun f => validPattern f = true) fields.

(** [weekly(["fri", "mon"], "09:30")] *)
Definition fridayMondayMorning : ScheduleBuilder :=
  Eval vm_compute in
    match weekly (DayArray ["fri"; "mon"]) "09:30" with
    | Ok b => b
    | Throw _ => createScheduleBuilder sampleDescriptor
    end.

(** ** The job registry (job/registry.ts) *)

Module JobRegistry.

(** [Map<string, JobDefinition>]: the entries of the map in the order of
    their insertion. *)
Definition State := list (string * JobDefinition).

Definition has (jobs : State) (jobId : string) : bool :=
  existsb (fun entry => String.eqb (fst entry) jobId) jobs.

Definition alreadyRegistered (jobId : string) : JS.Error :=
  JS.newError ("Job with ID " +:+ JS.quoted jobId
               +:+ " is already registered. Use unique job names or file names.").

Definition register (job : JobDefinition) (jobs : State) : Result State :=
  if has jobs (id job) then Throw (alreadyRegistered (id job))
  else Ok (jobs ++ [(id job, job)]).

Definition getAll (jobs : State) : list JobDefinition := map snd jobs.

Definition getById (jobs : State) (jobId : string) : option JobDefinition :=
  option_map snd (find (fun entry => String.eqb (fst entry) jobId) jobs).

(** [remove] returns whether the key was present, and the map without it. *)
Definition remove (jobId : string) (jobs : State) : bool * State :=
  (has jobs jobId,
   List.filter (fun entry => negb (String.eqb (fst entry) jobId)) jobs).

Definition clear (jobs : State) : State := [].

Definition size (jobs : State) : Z := Z.of_nat (length jobs).

(** A call on the registry; a [register] that throws leaves the map as it
    was. *)
Inductive Call :=
| Register (job : JobDefinition)
| Remove (jobId : string)
| Clear.

Definition call (jobs : State) (c : Call) : State :=
  match c with
  | Register job =>
      match register job jobs with
      | Ok jobs' => jobs'
      | Throw _ => jobs
      end
  | Remove jobId => snd (remove jobId jobs)
  | Clear => clear jobs
  end.

(** The registry after a sequence of calls on a new registry. *)
Definition after (calls : list Call) : State := fold_left call calls [].

End JobRegistry.

(** What every call keeps true of the registry: the keys are pairwise
    distinct, and each job is stored under its own id. *)
Definition registryInvariant (jobs : JobRegistry.State) : Prop :=
  NoDup (map fst jobs) /\ Forall (fun entry => fst entry = id (snd entry)) jobs.

(** ** schedule (job/schedule.ts) *)

Definition JobHandler : Type := JobContext -> HandlerRun.

(** The second argument of [schedule]: a handler or a configuration. *)
Inductive HandlerOrConfig :=
| GivenHandler (handler : JobHandler)
| GivenConfig (config : JobConfig).

Record JobRegistration := mkRegistration {
  reg_schedule : ScheduleBuilder;
  reg_config : JobConfig;
  reg_handler : JobHandler
}.

(** The data properties of a builder, read as a descriptor. *)
Definition descriptorOf (b : ScheduleBuilder) : ScheduleDescriptor :=
  {| type := b_type b; cron_expr := b_cron b; timezone := b_timezone b;
     humanReadable := b_humanReadable b; originalParams := b_originalParams b |}.

(** [{}] *)
Definition emptyConfig : JobConfig :=
  {| cfg_name := None; retry := None; timeout := None;
     onFailure := None; onSuccess := None |}.

Module JobSchedule.

(** The state of the module: its counter, and the global registry. *)
Record State := mkState {
  anonymousCounter : Z;
  registry : JobRegistry.State
}.

Definition initial : State := {| anonymousCounter := 0; registry := [] |}.

(** [`anonymous-job-${++anonymousCounter}`] *)
Definition generateAnonymousId (st : State) : string * State :=
  let counter := anonymousCounter st + 1 in
  ("anonymous-job-" +:+ JS.numToString counter,
   {| anonymousCounter := counter; registry := registry st |}).

Definition createJobDefinition (registration : JobRegistration) (jobId : option string)
           (st : State) : JobDefinition * State :=
  let '(jobId, st') :=
    match jobId with
    | Some i => (i, st)
    | None =>
        match cfg_name (reg_config registration) with
        | Some n => (n, st)
        | None => generateAnonymousId st
        end
    end in
  ({| id := jobId;
      name := default jobId (cfg_name (reg_config registration));
      schedule := descriptorOf (reg_schedule registration);
      config := reg_config registration;
      handler := reg_handler registration;
      filePath := None |}, st').

Definition handlerRequired : JS.Error :=
  JS.newError ("schedule() requires a handler function. "
               +:+ "When providing config, pass handler as third argument.").

(** [schedule(timing, handlerOrConfig, maybeHandler)]: what it returns or
    throws, and the state it leaves. *)
Definition schedule (timing : ScheduleBuilder) (handlerOrConfig : HandlerOrConfig)
           (maybeHandler : option JobHandler) (st : State)
  : Result JobDefinition * State :=
  let arguments :=
    match handlerOrConfig with
    | GivenHandler handler => Ok (emptyConfig, handler)
    | GivenConfig config =>
        match maybeHandler with
        | None => Throw handlerRequired
        | Some handler => Ok (config, handler)
        end
    end in
  match arguments with
  | Throw e => (Throw e, st)
  | Ok (config, handler) =>
      let registration :=
        {| reg_schedule := timing; reg_config := config; reg_handler := handler |} in
      let '(jobDefinition, st1) := createJobDefinition registration None st in
      match JobRegistry.register jobDefinition (registry st1) with
      | Throw e => (Throw e, st1)
      | Ok jobs =>
          (Ok jobDefinition,
           {| anonymousCounter := anonymousCounter st1; registry := jobs |})
      end
  end.

Definition resetAnonymousCounter (st : State) : State :=
  {| anonymousCounter := 0; registry := registry st |}.

(** [schedule(timing, handler)] called for each of [calls] in turn, from
    the state [st]: the results, and the state left. *)
Fixpoint scheduleAll (calls : list (ScheduleBuilder * JobHandler)) (st : State)
  : list (Result JobDefinition) * State :=
  match calls with
  | [] => ([], st)
  | (timing, handler) :: rest =>
      let '(r, st1) := schedule timing (GivenHandler handler) None st in
      let '(rs, st2) := scheduleAll rest st1 in
      (r :: rs, st2)
  end.

End JobSchedule.

(** The identifiers [anonymous-job-(from+1)], ..., [anonymous-job-(from+n)]. *)
Definition anonymousIds (from : Z) (n : nat) : list string :=
  map (fun k => "anonymous-job-" +:+ JS.numToString k) (seqZ (from + 1) (Z.of_nat n)).

(** The module after [n] jobs were scheduled without a name: the counter
    is [n] and the registry holds the jobs [anonymous-job-1], ...,
    [anonymous-job-n], in this order. *)
Definition anonymousOnly (st : JobSchedule.State) (n : nat) : Prop :=
  JobSchedule.anonymousCounter st = Z.of_nat n
  /\ map fst (JobSchedule.registry st) = anonymousIds 0 n
  /\ Forall (fun entry => fst entry = id (snd entry)) (JobSchedule.registry st).

(** ** verifyCronRequest (verify/cron-request.ts) *)

Module Verify.

(** The two environment variables the function reads. *)
Record Env := mkEnv {
  CRON_SECRET : option string;
  NODE_ENV : option string
}.

(** A request of the Web API, whose header is read with [headers.get]
    ([None] is [null]), or an object with a [headers.authorization]
    property ([None] is [undefined]). *)
Inductive CronRequest :=
| WebRequest (authorization : option string)
| ApiRequest (authorization : option string).

Record VerificationResult := mkVerification {
  ok : bool;
  error : option string
}.

Definition verifyCronRequest (env : Env) (request : CronRequest) : VerificationResult :=
  let cronSecret := CRON_SECRET env in
  if bool_decide (NODE_ENV env = Some "development")
  then {| ok := true; error := None |}
  else
    match truthyString cronSecret with
    | None => {| ok := false;
                 error := Some "CRON_SECRET environment variable not set" |}
    | Some secret =>
        let authHeader :=
          match request with
          | WebRequest authorization => authorization
          | ApiRequest authorization => authorization
          end in
        match truthyString authHeader with
        | None => {| ok := false; error := Some "Missing Authorization header" |}
        | Some header =>
            let expectedHeader := "Bearer " +:+ secret in
            if negb (String.eqb header expectedHeader)
            then {| ok := false; error := Some "Invalid Authorization header" |}
            else {| ok := true; error := None |}
        end
    end.

(** The header a request carries. *)
Definition authorizationOf (request : CronRequest) : option string :=
  match request with
  | WebRequest authorization => authorization
  | ApiRequest authorization => authorization
  end.

End Verify.

(** ** Validation for Vercel (cronlet-cli deploy/validation.ts) *)

(** The cron expression of a job. *)
Definition cronOf (job : JobDefinition) : string := cron_expr (schedule job).

(** [params[key]] on the parameters of a descriptor. *)
Definition paramLookup (key : string) (params : list (string * ParamValue))
  : option ParamValue :=
  option_map snd (find (fun p => String.eqb (fst p) key) params).

Module Validation.

Record ValidationResult := mkValidation {
  valid : bool;
  error : option string;
  warnings : list string
}.

(** [parseDurationMs]: zero for what is no duration. *)
Definition parseDurationMs (duration : string) : JS.Number :=
  match matchDuration duration with
  | None => JS.Int 0
  | Some (digits, unit) =>
      let value := JS.parseInt digits in
      match unit with
      | dur_ms => value
      | dur_s => value *# 1000
      | dur_m => value *# 60 *# 1000
      | dur_h => value *# 60 *# 60 *# 1000
      | dur_d => value *# 24 *# 60 *# 60 *# 1000
      end
  end.

(** The body of the loop [for (let i = 1; i < attempts; i++)]. *)
Definition addDelay (backoff : BackoffStrategy) (initialDelay : JS.Number)
           (totalTime : JS.Number) (i : Z) : JS.Number :=
  match backoff with
  | exponential => JS.add totalTime (JS.mul initialDelay (JS.pow2 (i - 1)))
  | linear => JS.add totalTime (JS.mul initialDelay (JS.Int i))
  end.

(** The loop [for (let i = 1; i < attempts; i++)] from [i] on; [None]
    when the fuel does not let it end. *)
Fixpoint delayLoop (fuel : nat) (backoff : BackoffStrategy)
         (initialDelay attempts : JS.Number) (i : Z) (totalTime : JS.Number)
  : option JS.Number :=
  if JS.ltb (JS.Int i) attempts then
    match fuel with
    | O => None
    | S fuel' =>
        delayLoop fuel' backoff initialDelay attempts (JS.increment i)
                  (addDelay backoff initialDelay totalTime i)
    end
  else Some totalTime.

(** [calculateMaxExecutionTime]; [None] when its loop does not end, as
    for [attempts] above [2^53], where [i] stops growing, and for
    [Infinity]: [loopFuel] is enough fuel for any other number. *)
Definition calculateMaxExecutionTime (job : JobDefinition) : option JS.Number :=
  let retryConfig := retry (config job) in
  let attempts := match retryConfig with Some rc => attempts rc | None => JS.Int 1 end in
  let backoff :=
    match retryConfig with Some rc => default linear (backoff rc) | None => linear end in
  let initialDelay :=
    parseDurationMs
      (default "1s" (match retryConfig with Some rc => initialDelay rc | None => None end)) in
  let jobTimeout := parseDurationMs (default "30s" (timeout (config job))) in
  let totalTime := JS.mul attempts jobTimeout in
  delayLoop (loopFuel attempts) backoff initialDelay attempts 1 totalTime.

(** [Math.round(ms / 1000)] *)
Definition roundSeconds (ms : JS.Number) : JS.Number := JS.roundDiv ms 1000.

Definition includesL (s : string) : bool := existsb (Ascii.eqb "L") (JS.chars s).

Definition jobLabel (job : JobDefinition) : string := "Job '" +:+ id job +:+ "'".

Definition invalid (message : string) : ValidationResult :=
  {| valid := false; error := Some message; warnings := [] |}.

(** The check of sub-minute intervals: the error it finds, if any.  The
    [interval] parameter is read as a string; calling [match] on a number
    or an array throws a [TypeError]. *)
Definition intervalCheck (job : JobDefinition) : Result (option string) :=
  match type (schedule job) with
  | TInterval =>
      match paramLookup "interval" (originalParams (schedule job)) with
      | None => Ok None
      | Some (PString interval) =>
          if nonEmpty interval then
            match matchInterval interval with
            | None => Ok None
            | Some (digits, unit) =>
                let value := JS.parseInt digits in
                match unit with
                | unit_s =>
                    Ok (Some (jobLabel job +:+ " uses " +:+ interval
                              +:+ " interval. Vercel requires minimum 1 minute intervals."))
                | unit_m =>
                    if JS.ltb value (JS.Int 1)
                    then Ok (Some (jobLabel job +:+ " uses sub-minute interval. "
                                   +:+ "Vercel requires minimum 1 minute intervals."))
                    else Ok None
                | _ => Ok None
                end
            end
          else Ok None
      | Some (PNumber n) =>
          if n =? 0 then Ok None
          else Throw (JS.newError "params.interval.match is not a function")
      | Some (PStrings _) =>
          Throw (JS.newError "params.interval.match is not a function")
      end
  | _ => Ok None
  end.

Definition timezoneWarning (job : JobDefinition) : list string :=
  match truthyString (timezone (schedule job)) with
  | Some tz =>
      [jobLabel job +:+ " uses timezone '" +:+ tz +:+ "'. "
       +:+ "Vercel cron runs in UTC. Adjust your schedule accordingly."]
  | None => []
  end.

(** The warning about the retries; [None] when the estimate does not
    return. *)
Definition retryWarning (job : JobDefinition) (maxFunctionDuration : JS.Number)
  : option (list string) :=
  match retry (config job) with
  | Some rc =>
      if JS.ltb (JS.Int 1) (attempts rc) then
        match calculateMaxExecutionTime job with
        | None => None
        | Some maxTime =>
            if JS.ltb maxFunctionDuration maxTime then
              Some [jobLabel job +:+ " retry config could take up to "
                    +:+ JS.toString (roundSeconds maxTime) +:+ "s, "
                    +:+ "exceeding the "
                    +:+ JS.toString (roundSeconds maxFunctionDuration)
                    +:+ "s function timeout. "
                    +:+ "Consider reducing retry attempts or delay."]
            else Some []
        end
      else Some []
  | None => Some []
  end.

Definition lastOccurrenceWarning (job : JobDefinition) : list string :=
  if includesL (cronOf job)
  then [jobLabel job +:+ " uses " +:+ JS.quoted "L" +:+ " suffix for last occurrence. "
        +:+ "Verify Vercel supports this cron syntax."]
  else [].

(** [validateForVercel]: [None] when the call does not return. *)
Definition validateForVercel (job : JobDefinition) (maxFunctionDuration : JS.Number)
  : option (Result ValidationResult) :=
  let cron := cronOf job in
  let fields := JS.splitWhitespace (JS.trim cron) in
  if (length fields =? 6)%nat
  then Some (Ok (invalid
             (jobLabel job +:+ " uses seconds precision in cron expression ("
              +:+ cron +:+ "). Vercel only supports 5-field cron (minute precision).")))
  else
    match intervalCheck job with
    | Throw e => Some (Throw e)
    | Ok (Some message) => Some (Ok (invalid message))
    | Ok None =>
        match retryWarning job maxFunctionDuration with
        | None => None
        | Some retryWarnings =>
            Some (Ok {| valid := true; error := None;
                        warnings := timezoneWarning job ++ retryWarnings
                                    ++ lastOccurrenceWarning job |})
        end
    end.

(** [jobId.replace(/\//g, "-")] *)
Definition flattenJobId (jobId : string) : string :=
  JS.ofChars (map (fun c => if Ascii.eqb c "/" then "-"%char else c) (JS.chars jobId)).

End Validation.

(** ** Cron entries for Vercel (cronlet-cli deploy/vercel/config.ts) *)

Module Vercel.

Record VercelCronEntry := mkEntry {
  path : string;
  schedule : string
}.

(** [vercel.json]: its [crons] property, and its other properties as
    they are written. *)
Record VercelConfig := mkVercelConfig {
  crons : option (list VercelCronEntry);
  otherProperties : list (string * string)
}.

Definition defaultPrefix : string := "/api/cron".

Definition generateCronEntries (jobs : list JobDefinition) (prefix : string)
  : list VercelCronEntry :=
  map (fun job =>
         {| path := prefix +:+ "/" +:+ Validation.flattenJobId (id job);
            schedule := cronOf job |}) jobs.

Definition startsWith (prefix s : string) : bool := String.prefix prefix s.

Definition mergeVercelConfig (existing : option VercelConfig)
           (newEntries : list VercelCronEntry) (prefix : string) : VercelConfig :=
  match existing with
  | None => {| crons := Some newEntries; otherProperties := [] |}
  | Some existing =>
      let existingCrons := default [] (crons existing) in
      let userCrons :=
        List.filter (fun cron => negb (startsWith prefix (path cron))) existingCrons in
      let mergedCrons := userCrons ++ newEntries in
      {| crons := if (0 <? length mergedCrons)%nat then Some mergedCrons else None;
         otherProperties := otherProperties existing |}
  end.

(** [set.has(p)], [map.has(p)] on the paths of entries. *)
Definition hasPath (entries : list VercelCronEntry) (p : string) : bool :=
  existsb (fun e => String.eqb (path e) p) entries.

Definition getRemovedCrons (existing : option VercelConfig)
           (newEntries : list VercelCronEntry) (prefix : string)
  : list VercelCronEntry :=
  match existing with
  | Some {| crons := Some existingCrons |} =>
      List.filter (fun cron => startsWith prefix (path cron)
                               && negb (hasPath newEntries (path cron)))
                  existingCrons
  | _ => []
  end.

Definition getAddedCrons (existing : option VercelConfig)
           (newEntries : list VercelCronEntry) (prefix : string)
  : list VercelCronEntry :=
  match existing with
  | Some {| crons := Some existingCrons |} =>
      List.filter (fun cron => negb (hasPath existingCrons (path cron))) newEntries
  | _ => newEntries
  end.

(** [new Map(entries.map(e => [e.path, e.schedule])).get(p)]: the schedule
    of the last entry with the path. *)
Definition scheduleOfPath (entries : list VercelCronEntry) (p : string) : option string :=
  option_map schedule (find (fun e => String.eqb (path e) p) (rev entries)).

Definition getUpdatedCrons (existing : option VercelConfig)
           (newEntries : list VercelCronEntry) : list VercelCronEntry :=
  match existing with
  | Some {| crons := Some existingCrons |} =>
      List.filter (fun cron =>
                     match scheduleOfPath existingCrons (path cron) with
                     | Some existingSchedule =>
                         negb (String.eqb existingSchedule (schedule cron))
                     | None => false
                     end) newEntries
  | _ => []
  end.

End Vercel.

(** ** What a run does, action by action *)

(** [Moves w w' acts]: from [w] to [w'] the engine did [acts], in this
    order, and changed neither the listeners nor the abort controllers. *)
Record Moves (w w' : World) (acts : list Action) : Prop := mkMoves {
  moves_listeners : listeners w' = listeners w;
  moves_controllers : controllers w' = controllers w;
  moves_trace : trace w' = trace w ++ acts
}.

(** The timeout of an attempt in milliseconds, as [executeAttempt]
    computes it. *)
Definition timeoutOf (job : JobDefinition) : Result JS.Number :=
  match truthyString (timeout (config job)) with
  | Some t => parseDuration t
  | None => Ok DEFAULT_TIMEOUT_MS
  end.

(** What the race between the handler and the timer rejects with. *)
Definition failureOf (ms : JS.Number) (h : HandlerRun) : option Thrown :=
  match h with
  | Fulfils => None
  | Rejects err => Some err
  | StillPending => Some (ThrownError (newTimeoutError (timeoutMessage ms)))
  end.

(** The delays slept, the timers set and cleared, and the callbacks
    called along a trace, in order. *)
Definition sleeps (t : list Action) : list JS.Number :=
  omap (fun a => match a with Slept ms => Some ms | _ => None end) t.

Inductive TimerAction := SetTimer (ms : JS.Number) | ClearTimer.

Definition timers (t : list Action) : list TimerAction :=
  omap (fun a => match a with
                 | TimerSet ms => Some (SetTimer ms)
                 | TimerCleared => Some ClearTimer
                 | _ => None
                 end) t.

Definition successCallbacks (t : list Action) : list JobContext :=
  omap (fun a => match a with OnSuccessCalled c => Some c | _ => None end) t.

Definition failureCallbacks (t : list Action) : list (JS.Error * JobContext) :=
  omap (fun a => match a with OnFailureCalled e c => Some (e, c) | _ => None end) t.

Section RunSemantics.

Variable job : JobDefinition.
Variable runId : string.
Variable startedAt : Z.
Variable signal : Signal.
Variable ls : gmap string (list ExecutionEventListener).

(** The context [executeAttempt] gives to the handler. *)
Definition attemptContext (attempt scheduledAt started : Z) : JobContext :=
  {| ctx_jobId := id job; ctx_jobName := name job; ctx_runId := runId;
     ctx_scheduledAt := scheduledAt; ctx_startedAt := started;
     ctx_attempt := attempt; ctx_signal := signal |}.

(** What one call of [executeAttempt] does, and what it throws if it
    throws: with a timeout that is no duration it throws before it calls
    the handler. *)
Definition attemptRun (attempt scheduledAt started : Z) : list Action * option Thrown :=
  match timeoutOf job with
  | Throw e => ([], Some (ThrownError e))
  | Ok ms =>
      let context := attemptContext attempt scheduledAt started in
      ([TimerSet ms; HandlerCalled context; TimerCleared],
       failureOf ms (handler job context))
  end.

(** What [emit] does when no listener throws. *)
Definition emitted (event : ExecutionEvent) : list Action :=
  Emitted event
  :: map (fun l => ListenerCalled (listenerId l) event)
         (default [] (ls !! eventTypeName (ev_type event)) ++ default [] (ls !! "*")).

Definition successResult (attempt completedAt : Z) : ExecutionResult :=
  {| res_jobId := id job; res_runId := runId; res_status := status_success;
     res_startedAt := startedAt; res_completedAt := completedAt;
     res_duration := completedAt - startedAt; res_attempt := attempt;
     res_error := None |}.

Definition successEvent (attempt completedAt : Z) : ExecutionEvent :=
  {| ev_type := job_success; ev_jobId := id job; ev_runId := runId;
     ev_timestamp := completedAt; ev_attempt := attempt;
     ev_error := None; ev_duration := Some (completedAt - startedAt) |}.

Definition failureResult (attempt completedAt : Z) (err : Thrown) : ExecutionResult :=
  {| res_jobId := id job; res_runId := runId;
     res_status := if isTimeoutError err then status_timeout else status_failure;
     res_startedAt := startedAt; res_completedAt := completedAt;
     res_duration := completedAt - startedAt; res_attempt := attempt;
     res_error := Some (errorInfoOf (errorOf err)) |}.

Definition failureEvent (attempt completedAt : Z) (err : Thrown) : ExecutionEvent :=
  {| ev_type := if isTimeoutError err then job_timeout else job_failure;
     ev_jobId := id job; ev_runId := runId;
     ev_timestamp := completedAt; ev_attempt := attempt;
     ev_error := Some (errorInfoOf (errorOf err));
     ev_duration := Some (completedAt - startedAt) |}.

Definition retryEvent (attempt timestamp : Z) (err : Thrown) : ExecutionEvent :=
  {| ev_type := job_retry; ev_jobId := id job; ev_runId := runId;
     ev_timestamp := timestamp; ev_attempt := attempt;
     ev_error := Some (errorInfoOf (errorOf err)); ev_duration := None |}.

(** The end of an iteration that returns [result] after awaiting a
    callback, if there is one: a callback that never settles keeps the run
    from returning. *)
Definition afterCallback (called : option CallbackRun) (result : ExecutionResult)
  : Outcome ExecutionResult :=
  match called with
  | Some CallbackNeverSettles => NeverSettles
  | _ => Returns result
  end.

Definition successActs (attempt completedAt : Z) : list Action :=
  emitted (successEvent attempt completedAt)
  ++ match onSuccess (config job) with
     | Some _ => [OnSuccessCalled (callbackContext job runId startedAt attempt signal)]
     | None => []
     end.

Definition successOutcome (attempt completedAt : Z) : Outcome ExecutionResult :=
  afterCallback
    (option_map (fun callback =>
                   callback (callbackContext job runId startedAt attempt signal))
                (onSuccess (config job)))
    (successResult attempt completedAt).

Definition failureActs (attempt completedAt : Z) (err : Thrown) : list Action :=
  emitted (failureEvent attempt completedAt err)
  ++ match onFailure (config job) with
     | Some _ => [OnFailureCalled (errorOf err)
                    (callbackContext job runId startedAt attempt signal)]
     | None => []
     end.

Definition failureOutcome (attempt completedAt : Z) (err : Thrown)
  : Outcome ExecutionResult :=
  afterCallback
    (option_map (fun callback =>
                   callback (errorOf err)
                            (callbackContext job runId startedAt attempt signal))
                (onFailure (config job)))
    (failureResult attempt completedAt err).

(** [job.config.retry && shouldRetry(attempt, job.config.retry)] *)
Definition wantsRetry (attempt : Z) : bool :=
  match retry (config job) with
  | Some retryConfig => shouldRetry attempt retryConfig
  | None => false
  end.

(** [Attempts attempt acts exit]: what the loop of [run] does from the
    attempt numbered [attempt] on, and how it ends, when no listener
    throws and the condition of the loop holds whenever it is tested, as
    it does for [retry.attempts] an integer from 1 on.  An attempt that
    succeeds, or fails with no retry due, ends the loop; one that fails
    with a retry due emits [job:retry], then sleeps and goes on, or throws
    when the delay is no duration; one that fails with a value whose
    conversion to a string throws ends the run with what the conversion
    threw. *)
Inductive Attempts : Z -> list Action -> Outcome ExecutionResult -> Prop :=
| attempt_succeeds (attempt scheduledAt started completedAt : Z) (acts : list Action) :
    attemptRun attempt scheduledAt started = (acts, None) ->
    Attempts attempt (acts ++ successActs attempt completedAt)
             (successOutcome attempt completedAt)
| attempt_fails (attempt scheduledAt started completedAt : Z) (acts : list Action)
                (err : Thrown) :
    attemptRun attempt scheduledAt started = (acts, Some err) ->
    printable err ->
    wantsRetry attempt = false ->
    Attempts attempt (acts ++ failureActs attempt completedAt err)
             (failureOutcome attempt completedAt err)
| attempt_retries (attempt scheduledAt started timestamp : Z) (acts : list Action)
                  (err : Thrown) (retryConfig : RetryConfig) (delay : JS.Number)
                  (rest : list Action) (exit : Outcome ExecutionResult) :
    attemptRun attempt scheduledAt started = (acts, Some err) ->
    printable err ->
    retry (config job) = Some retryConfig ->
    shouldRetry attempt retryConfig = true ->
    calculateRetryDelay attempt retryConfig = Ok delay ->
    Attempts (attempt + 1) rest exit ->
    Attempts attempt
             (acts ++ emitted (retryEvent attempt timestamp err) ++ [Slept delay] ++ rest)
             exit
| attempt_retry_throws (attempt scheduledAt started timestamp : Z) (acts : list Action)
                       (err : Thrown) (retryConfig : RetryConfig) (e : JS.Error) :
    attemptRun attempt scheduledAt started = (acts, Some err) ->
    printable err ->
    retry (config job) = Some retryConfig ->
    shouldRetry attempt retryConfig = true ->
    calculateRetryDelay attempt retryConfig = Throw e ->
    Attempts attempt (acts ++ emitted (retryEvent attempt timestamp err))
             (Throws (ThrownError e))
| attempt_unprintable (attempt scheduledAt started : Z) (acts : list Action)
                      (raised : Thrown) :
    attemptRun attempt scheduledAt started = (acts, Some (ThrownUnprintable raised)) ->
    Attempts attempt acts (Throws raised).

(** The [job:start] event of the run. *)
Definition startEvent (timestamp : Z) : ExecutionEvent :=
  {| ev_type := job_start; ev_jobId := id job; ev_runId := runId;
     ev_timestamp := timestamp; ev_attempt := 1;
     ev_error := None; ev_duration := None |}.

End RunSemantics.

(** [mapOutcome f o]: the outcome [o], with [f] applied to what it returns. *)
Definition mapOutcome {A B} (f : A -> B) (o : Outcome A) : Outcome B :=
  match o with
  | Returns a => Returns (f a)
  | Throws err => Throws err
  | NeverSettles => NeverSettles
  | OutOfFuel => OutOfFuel
  end.

(** A context [executeAttempt] builds for the run [runId] of [job]. *)
Definition contextOfRun (job : JobDefinition) (runId : string) (signal : Signal)
           (c : JobContext) : Prop :=
  ctx_jobId c = id job /\ ctx_jobName c = name job
  /\ ctx_runId c = runId /\ ctx_signal c = signal.

(** The status and the error of a result, after an attempt that the race
    settled with [failure]. *)
Definition resultReflects (failure : option Thrown) (r : ExecutionResult) : Prop :=
  match failure with
  | None => res_status r = status_success /\ res_error r = None
  | Some err =>
      res_status r = (if isTimeoutError err then status_timeout else status_failure)
      /\ res_error r = Some (errorInfoOf (errorOf err))
  end.

(** The type of the terminal event of a run that ends with a status. *)
Definition eventTypeOfStatus (status : ExecutionStatus) : ExecutionEventType :=
  match status with
  | status_success => job_success
  | status_failure => job_failure
  | status_timeout => job_timeout
  | status_retrying => job_retry
  end.

(** A [job:retry] event of the run [runId] of [job]. *)
Definition retryOfRun (job : JobDefinition) (runId : string) (e : ExecutionEvent) : Prop :=
  ev_type e = job_retry /\ ev_jobId e = id job /\ ev_runId e = runId
  /\ ev_error e <> None /\ ev_duration e = None.

(** The terminal event [e] says what the result [r] says. *)
Definition terminalOf (r : ExecutionResult) (e : ExecutionEvent) : Prop :=
  ev_type e = eventTypeOfStatus (res_status r)
  /\ ev_jobId e = res_jobId r /\ ev_runId e = res_runId r
  /\ ev_attempt e = res_attempt r
  /\ ev_timestamp e = res_completedAt r
  /\ ev_duration e = Some (res_duration r)
  /\ ev_error e = res_error r.

(** What one call of [run] did in the world [w]: the actions it added to
    the trace. *)
Definition runDid (rt : Runtime) (job : JobDefinition) (w : World)
           (acts : list Action) : Prop :=
  trace (snd (run rt job w)) = trace w ++ acts.

(** The run id made in the world [w], by [generateRunId] and by the
    scheduler alike: [run_], the time, [_] and a random suffix. *)
Definition runIdIn (rt : Runtime) (w : World) : string :=
  "run_" +:+ JS.numToString (clock rt (clockReads w)) +:+ "_"
  +:+ random36 rt (randomReads w).

(** [startedAt], the second reading of the clock of a run. *)
Definition startedAtIn (rt : Runtime) (w : World) : Z :=
  clock rt (S (clockReads w)).

(** The [job:start] event of a run that starts in the world [w]: its
    timestamp is the third reading of the clock. *)
Definition startEventIn (rt : Runtime) (job : JobDefinition) (w : World)
  : ExecutionEvent :=
  startEvent job (runIdIn rt w) (clock rt (S (S (clockReads w)))).

(** The world in which a run that started in [w] emits [job:start]: it
    has read the clock three times and the random generator once, and it
    has created its controller. *)
Definition startedWorld (w : World) : World :=
  {| clockReads := S (S (S (clockReads w))); randomReads := S (randomReads w);
     controllers := controllers w ++ [false];
     listeners := listeners w; trace := trace w |}.

(** The world in which the scheduler calls [engine.run]: it has read the
    clock twice, for its run id and for [startedAt], and the random
    generator once. *)
Definition schedulerWorld (w : World) : World :=
  {| clockReads := S (S (clockReads w)); randomReads := S (randomReads w);
     controllers := controllers w; listeners := listeners w; trace := trace w |}.

(** Where a call of [run] that entered its loop stands at its first
    [await]: it awaits what [startAttempt] has left. *)
Definition resumable (job : JobDefinition) (suspended : Suspended) : Prop :=
  match suspended with
  | Finished _ => True
  | AtFirstAwait _ _ _ attemptStarted =>
      startedBy job attemptStarted
      /\ JS.leb (JS.Int 1) (maxAttemptsOf job) = true
  end.

(** [framed m]: the computation [m] changes neither the listeners nor
    the abort controllers, however it ends. *)
Definition framed {A} (m : M A) : Prop :=
  forall w,
    listeners (snd (m w)) = listeners w
    /\ controllers (snd (m w)) = controllers w.

(** The handler of the job never fulfils: each attempt fails. *)
Definition neverFulfils (job : JobDefinition) : Prop :=
  forall context, handler job context <> Fulfils.

(** A handler that always fails, with a timeout that is no duration and
    two attempts. *)
Definition badTimeoutJob : JobDefinition :=
  sampleJob {| cfg_name := None;
               retry := Some {| attempts := JS.Int 2; backoff := None;
                                initialDelay := Some "10ms" |};
               timeout := Some "soon"; onFailure := None; onSuccess := None |}
            (fun _ => Fulfils).

(** The result of the run of [flakyJob] in a new world, as the engine
    computes it. *)
Definition flakyResult : ExecutionResult :=
  Eval vm_compute in
    match fst (run sampleRuntime flakyJob emptyWorld) with
    | Returns r => r
    | _ => skippedResult flakyJob 0 0 0 EmptyString
    end.

(** The result of the run of [badTimeoutJob] in a new world. *)
Definition badTimeoutResult : ExecutionResult :=
  Eval vm_compute in
    match fst (run sampleRuntime badTimeoutJob emptyWorld) with
    | Returns r => r
    | _ => skippedResult badTimeoutJob 0 0 0 EmptyString
    end.

(** A handler that always fails, with two attempts and both callbacks. *)
Definition failingJob : JobDefinition :=
  sampleJob {| cfg_name := None;
               retry := Some {| attempts := JS.Int 2; backoff := Some exponential;
                                initialDelay := Some "10ms" |};
               timeout := None;
               onFailure := Some (fun _ _ => CallbackReturns);
               onSuccess := Some (fun _ => CallbackReturns) |}
            (fun _ => Rejects (ThrownError (JS.newError "Always fails"))).

Definition failingResult : ExecutionResult :=
  Eval vm_compute in
    match fst (run sampleRuntime failingJob emptyWorld) with
    | Returns r => r
    | _ => skippedResult failingJob 0 0 0 EmptyString
    end.

(** ** The dashboard server ([createServer])

    The state the listener of [createServer] keeps: the history of every
    job, newest run first, and the jobs that are running.  The listener
    also forwards each event to the SSE clients, whose [send] catches what
    the write throws; the clients and the HTTP server are not modelled. *)

Module Dashboard.

(** [HistoryEntry extends ExecutionResult]. *)
Record HistoryEntry := mkHistoryEntry {
  result : ExecutionResult;
  jobName : string
}.

Inductive JobStatus := idle | running | failed | success.

Record ServerState := mkServerState {
  history : gmap string (list HistoryEntry);
  runningJobs : gset string
}.

Definition MAX_HISTORY_PER_JOB : nat := 50.

Definition initialState : ServerState :=
  {| history := ∅; runningJobs := ∅ |}.

(** The entry the listener builds from a terminal event. *)
Definition entryOf (job : JobDefinition) (event : ExecutionEvent) : HistoryEntry :=
  {| result :=
       {| res_jobId := ev_jobId event;
          res_runId := ev_runId event;
          res_status :=
            match ev_type event with
            | job_success => status_success
            | job_timeout => status_timeout
            | _ => status_failure
            end;
          res_startedAt := ev_timestamp event;
          res_completedAt := ev_timestamp event;
          res_duration := default 0 (ev_duration event);
          res_attempt := ev_attempt event;
          res_error := ev_error event |};
     jobName := name job |}.

(** [jobHistory.unshift(entry)], then [jobHistory.pop()] when the array
    has more than [MAX_HISTORY_PER_JOB] elements. *)
Definition unshiftTrimmed (entry : HistoryEntry) (jobHistory : list HistoryEntry) :
    list HistoryEntry :=
  let jobHistory' := entry :: jobHistory in
  if (MAX_HISTORY_PER_JOB <? length jobHistory')%nat
  then removelast jobHistory'
  else jobHistory'.

(** [state.history.get(jobId) ?? []]. *)
Definition historyOf (state : ServerState) (jobId : string) : list HistoryEntry :=
  default [] (history state !! jobId).

(** The listener subscribed with [engine.on("*", ...)]. *)
Definition onEvent (registry : JobRegistry.State) (state : ServerState)
           (event : ExecutionEvent) : ServerState :=
  match ev_type event with
  | job_start =>
      {| history := history state;
         runningJobs := runningJobs state ∪ {[ ev_jobId event ]} |}
  | job_success | job_failure | job_timeout =>
      let stillRunning := runningJobs state ∖ {[ ev_jobId event ]} in
      match JobRegistry.getById registry (ev_jobId event) with
      | Some job =>
          {| history :=
               <[ ev_jobId event :=
                    unshiftTrimmed (entryOf job event)
                                   (historyOf state (ev_jobId event)) ]>
                 (history state);
             runningJobs := stillRunning |}
      | None => {| history := history state; runningJobs := stillRunning |}
      end
  | job_retry => state
  end.

(** The state after the listener was called with each of the events. *)
Definition afterEvents (registry : JobRegistry.State) (state : ServerState)
           (events : list ExecutionEvent) : ServerState :=
  fold_left (onEvent registry) events state.

(** The status [GET /api/jobs] and [GET /api/jobs/:id] give for a job. *)
Definition statusOf (state : ServerState) (jobId : string) : JobStatus :=
  if decide (jobId ∈ runningJobs state) then running
  else match head (historyOf state jobId) with
       | Some lastRun =>
           match res_status (result lastRun) with
           | status_success => success
           | _ => failed
           end
       | None => idle
       end.

(** An element of the answer of [GET /api/jobs/:id/runs]: the entry
    without [jobId] and [jobName]. *)
Record RunSummary := mkRunSummary {
  run_runId : string;
  run_status : ExecutionStatus;
  run_startedAt : Z;
  run_completedAt : Z;
  run_duration : Z;
  run_attempt : Z;
  run_error : option ExecutionError
}.

Definition summaryOf (entry : HistoryEntry) : RunSummary :=
  {| run_runId := res_runId (result entry);
     run_status := res_status (result entry);
     run_startedAt := res_startedAt (result entry);
     run_completedAt := res_completedAt (result entry);
     run_duration := res_duration (result entry);
     run_attempt := res_attempt (result entry);
     run_error := res_error (result entry) |}.

(** [GET /api/jobs/:id/runs]: the job is looked up by the id of the
    request, the history by the id of the job found; [None] is the answer
    404. *)
Definition runsOf (registry : JobRegistry.State) (state : ServerState)
           (jobId : string) : option (list RunSummary) :=
  match JobRegistry.getById registry jobId with
  | Some job => Some (map summaryOf (historyOf state (id job)))
  | None => None
  end.

End Dashboard.

(** The entries the listener of the dashboard builds for the job [jobId]
    from the events, in the order of the events. *)
Definition recordedRuns (job : JobDefinition) (jobId : string)
           (events : list ExecutionEvent) : list Dashboard.HistoryEntry :=
  omap (fun event =>
          if isTerminal (ev_type event) && String.eqb (ev_jobId event) jobId
          then Some (Dashboard.entryOf job event) else None)
       events.

(** What the dashboard records of a run with the result [r]: the result
    with the completion time as its start. *)
Definition recordedResult (jobName : string) (r : ExecutionResult) :
    Dashboard.HistoryEntry :=
  {| Dashboard.result :=
       {| res_jobId := res_jobId r; res_runId := res_runId r;
          res_status := res_status r;
          res_startedAt := res_completedAt r;
          res_completedAt := res_completedAt r;
          res_duration := res_duration r;
          res_attempt := res_attempt r;
          res_error := res_error r |};
     Dashboard.jobName := jobName |}.

Definition sampleRegistry : JobRegistry.State := [("test-job", flakyJob)].

Definition sampleEvents : list ExecutionEvent :=
  [ {| ev_type := job_start; ev_jobId := "test-job"; ev_runId := "run_1";
       ev_timestamp := 10; ev_attempt := 1; ev_error := None;
       ev_duration := None |};
    {| ev_type := job_success; ev_jobId := "test-job"; ev_runId := "run_1";
       ev_timestamp := 25; ev_attempt := 1; ev_error := None;
       ev_duration := Some 15 |} ].

(** * Properties *)

(** ** Strings *)

Lemma chars_ofChars (l : list ascii) : JS.chars (JS.ofChars l) = l.
Proof. apply list_ascii_of_string_of_list_ascii. Qed.

Lemma ofChars_chars (s : string) : JS.ofChars (JS.chars s) = s.
Proof. apply string_of_list_ascii_of_string. Qed.

Lemma chars_append (s t : string) : JS.chars (s +:+ t) = JS.chars s ++ JS.chars t.
Proof. induction s as [|c s IH]; simpl; [reflexivity | by rewrite IH]. Qed.

Lemma ofChars_app (l k : list ascii) : JS.ofChars (l ++ k) = JS.ofChars l +:+ JS.ofChars k.
Proof. induction l as [|c l IH]; simpl; [reflexivity | by rewrite IH]. Qed.

Lemma length_chars (s : string) : length (JS.chars s) = String.length s.
Proof. induction s as [|c s IH]; simpl; [reflexivity | by rewrite IH]. Qed.

(** ** Numbers *)

(** [2^53] and [Number.MAX_SAFE_INTEGER], written out for [lia]. *)
Ltac safe_integers :=
  unfold JS.MAX_SAFE_INTEGER in *;
  change (2 ^ 53) with 9007199254740992 in *.

Lemma ofZ_safe (n : Z) : Z.abs n <= 2 ^ 53 -> JS.ofZ n = JS.Int n.
Proof. intros H. unfold JS.ofZ. by rewrite (proj2 (Z.leb_le _ _) H). Qed.

(** An integer below [2^53] is rendered by its digits. *)
Lemma toString_safe (n : Z) :
  Z.abs n < 2 ^ 53 -> JS.toString (JS.Int n) = decimal n.
Proof. intros H. unfold JS.toString. by rewrite (proj2 (Z.ltb_lt _ _) H). Qed.

Lemma increment_safe (n : Z) : Z.abs (n + 1) <= 2 ^ 53 -> JS.increment n = n + 1.
Proof. intros H. unfold JS.increment. by rewrite ofZ_safe. Qed.

Lemma mul_safe (x y : Z) :
  Z.abs (x * y) <= 2 ^ 53 -> JS.mul (JS.Int x) (JS.Int y) = JS.Int (x * y).
Proof. intros H. cbn [JS.mul]. by apply ofZ_safe. Qed.

Lemma add_safe (x y : Z) :
  Z.abs (x + y) <= 2 ^ 53 -> JS.add (JS.Int x) (JS.Int y) = JS.Int (x + y).
Proof. intros H. cbn [JS.add]. by apply ofZ_safe. Qed.

(** [Math.ceil(n / d)] of the source as the ceiling of the quotient. *)
Lemma ceilDiv_safe (n d : Z) :
  0 < d -> Z.abs n <= 2 ^ 53 -> JS.ceilDiv (JS.Int n) d = JS.Int (ceilOf n d).
Proof.
  intros Hd Hn. unfold JS.ceilDiv. rewrite (proj2 (Z.leb_le _ _) Hn). f_equal.
  unfold ceilOf.
  pose proof (Z.div_mod (- n) d ltac:(lia)) as H1.
  pose proof (Z.mod_pos_bound (- n) d Hd) as H2.
  apply Z.div_unique with (r := d - 1 - (- n) mod d); [lia | nia].
Qed.

Lemma ceilOf_bounds (n d : Z) : 1 < d -> 0 < n -> 0 < ceilOf n d <= n.
Proof.
  intros Hd Hn. unfold ceilOf. split.
  - apply Z.div_str_pos. lia.
  - apply Z.div_le_upper_bound; [lia|]. nia.
Qed.

(** ** every *)

Lemma intervalToCron_days (n : Z) :
  0 < n <= JS.MAX_SAFE_INTEGER ->
  intervalToCron (JS.Int n) unit_d = lowerDays n.
Proof.
  intros Hn. rewrite intervalToCron_equation_4. unfold lowerDays. cbn [JS.eqb].
  destruct (n =? 1); [reflexivity|].
  rewrite toString_safe; [reflexivity|]. safe_integers. lia.
Qed.

Lemma intervalToCron_hours (n : Z) :
  0 < n <= JS.MAX_SAFE_INTEGER ->
  intervalToCron (JS.Int n) unit_h = lowerHours n.
Proof.
  intros Hn. rewrite intervalToCron_equation_3. unfold lowerHours. cbn [JS.ltb].
  destruct (n <? 24).
  - rewrite toString_safe; [reflexivity|]. safe_integers. lia.
  - pose proof (ceilOf_bounds n 24 ltac:(lia) ltac:(lia)).
    rewrite ceilDiv_safe by (safe_integers; lia).
    apply intervalToCron_days. lia.
Qed.

Lemma intervalToCron_minutes (n : Z) :
  0 < n <= JS.MAX_SAFE_INTEGER ->
  intervalToCron (JS.Int n) unit_m = lowerMinutes n.
Proof.
  intros Hn. rewrite intervalToCron_equation_2. unfold lowerMinutes. cbn [JS.ltb].
  destruct (n <? 60).
  - rewrite toString_safe; [reflexivity|]. safe_integers. lia.
  - pose proof (ceilOf_bounds n 60 ltac:(lia) ltac:(lia)).
    rewrite ceilDiv_safe by (safe_integers; lia).
    apply intervalToCron_hours. lia.
Qed.

Lemma intervalToCron_table (n : Z) (unit : IntervalUnit) :
  0 < n -> loweredValue n unit <= JS.MAX_SAFE_INTEGER ->
  intervalToCron (JS.Int n) unit = loweringTable n unit.
Proof.
  intros Hn Hmax. destruct unit; cbn [loweredValue loweringTable] in *.
  - rewrite intervalToCron_equation_1. unfold lowerSeconds. cbn [JS.ltb].
    destruct (n <? 60).
    + rewrite toString_safe; [reflexivity|]. safe_integers. lia.
    + pose proof (ceilOf_bounds n 60 ltac:(lia) ltac:(lia)).
      rewrite ceilDiv_safe by (safe_integers; lia).
      apply intervalToCron_minutes. lia.
  - apply intervalToCron_minutes. lia.
  - apply intervalToCron_hours. lia.
  - apply intervalToCron_days. lia.
  - rewrite intervalToCron_equation_5. unfold lowerWeeks. cbn [JS.eqb].
    destruct (n =? 1); [reflexivity|].
    rewrite mul_safe by (safe_integers; lia).
    apply intervalToCron_days. lia.
Qed.

Lemma intervalToHumanReadable_text (n : Z) (unit : IntervalUnit) :
  Z.abs n < 2 ^ 53 ->
  intervalToHumanReadable (JS.Int n) unit = everyText n unit.
Proof.
  intros Hn. unfold intervalToHumanReadable, everyText. cbn [JS.eqb].
  rewrite toString_safe by exact Hn. by destruct (unitNames unit), (n =? 1).
Qed.

Lemma unitOfChar_letter (c : ascii) (unit : IntervalUnit) :
  unitOfChar c = Some unit -> JS.ofChars [c] = unitLetter unit.
Proof.
  unfold unitOfChar.
  repeat (destruct (Ascii.eqb c _) eqn:E;
          [apply Ascii.eqb_eq in E; subst c; intros [= <-]; reflexivity | clear E]).
  discriminate.
Qed.

Lemma matchInterval_shape (interval digits : string) (unit : IntervalUnit) :
  matchInterval interval = Some (digits, unit) -> intervalShape interval digits unit.
Proof.
  unfold matchInterval, intervalShape.
  destruct (rev (JS.chars interval)) as [|u revDigits] eqn:Hrev; [discriminate|].
  destruct (unitOfChar u) as [unit'|] eqn:Hu; [|discriminate].
  destruct revDigits as [|d ds] eqn:Hds; [discriminate|].
  destruct (forallb JS.isDigit (d :: ds)) eqn:Hall; [|discriminate].
  intros [= <- <-].
  assert (Hchars : JS.chars interval = rev (d :: ds) ++ [u]).
  { rewrite <- (rev_involutive (JS.chars interval)), Hrev. reflexivity. }
  split; [|split].
  - rewrite <- (ofChars_chars interval), Hchars, ofChars_app.
    by rewrite (unitOfChar_letter _ _ Hu).
  - unfold JS.allDigits. rewrite chars_ofChars, forallb_forall.
    intros x Hx. rewrite forallb_forall in Hall.
    apply Hall, in_rev. exact Hx.
  - rewrite <- length_chars, chars_ofChars, length_app. simpl. lia.
Qed.

(** Conversely a string of that shape matches, with these groups. *)
Lemma matchInterval_complete (interval digits : string) (unit : IntervalUnit) :
  intervalShape interval digits unit -> matchInterval interval = Some (digits, unit).
Proof.
  intros (-> & Hd & Hlen). unfold matchInterval.
  rewrite chars_append, rev_app_distr.
  assert (Hrev : forallb JS.isDigit (rev (JS.chars digits)) = true).
  { rewrite forallb_forall. intros x Hx. apply in_rev in Hx.
    unfold JS.allDigits in Hd. rewrite forallb_forall in Hd. by apply Hd. }
  assert (Hne : rev (JS.chars digits) <> []).
  { intros E. apply (f_equal (@length _)) in E.
    rewrite length_rev, length_chars in E. simpl in E. lia. }
  destruct unit; cbn [unitLetter JS.chars list_ascii_of_string rev app];
    change (unitOfChar "s") with (Some unit_s);
    change (unitOfChar "m") with (Some unit_m);
    change (unitOfChar "h") with (Some unit_h);
    change (unitOfChar "d") with (Some unit_d);
    change (unitOfChar "w") with (Some unit_w);
    (destruct (rev (JS.chars digits)) as [|c l] eqn:E; [congruence|]);
    rewrite Hrev; rewrite <- E, rev_involutive, ofChars_chars; reflexivity.
Qed.

Lemma digitValue_bounds (c : ascii) :
  JS.isDigit c = true -> 0 <= JS.digitValue c <= 9.
Proof.
  unfold JS.isDigit, JS.digitValue. intros H.
  apply andb_true_iff in H as [H1 H2].
  apply Nat.leb_le in H1, H2. lia.
Qed.

Lemma parseInt10_nonneg (s : string) : JS.allDigits s = true -> 0 <= JS.parseInt10 s.
Proof.
  unfold JS.parseInt10, JS.allDigits.
  assert (G : forall l acc, forallb JS.isDigit l = true -> 0 <= acc ->
            0 <= fold_left (fun a c => a * 10 + JS.digitValue c) l acc).
  { induction l as [|c l IH]; simpl; intros acc Hl Hacc; [exact Hacc|].
    apply andb_true_iff in Hl as [Hc Hl]. apply IH; [exact Hl|].
    pose proof (digitValue_bounds c Hc). lia. }
  intros H. by apply G.
Qed.

(** [parseInt] is exact on the digits of a safe integer. *)
Lemma parseInt_safe (digits : string) :
  JS.allDigits digits = true -> JS.parseInt10 digits <= JS.MAX_SAFE_INTEGER ->
  JS.parseInt digits = JS.Int (JS.parseInt10 digits).
Proof.
  intros Hd Hmax. pose proof (parseInt10_nonneg digits Hd).
  unfold JS.parseInt. apply ofZ_safe. safe_integers. lia.
Qed.

(** [every] accepts an interval of a positive value, and compiles the
    entry of the lowering table when the value is a safe integer. *)
Lemma every_accepts (interval digits : string) (unit : IntervalUnit) :
  intervalShape interval digits unit ->
  loweredValue (JS.parseInt10 digits) unit <= JS.MAX_SAFE_INTEGER ->
  0 < JS.parseInt10 digits ->
  exists b,
    every interval = Ok b
    /\ b_cron b = loweringTable (JS.parseInt10 digits) unit
    /\ b_humanReadable b = everyText (JS.parseInt10 digits) unit
    /\ b_type b = TInterval
    /\ b_timezone b = None
    /\ b_originalParams b = [("interval", PString interval)].
Proof.
  intros Hshape Hmax Hpos.
  pose proof (matchInterval_complete _ _ _ Hshape) as Hm.
  assert (Hsafe : JS.parseInt10 digits <= JS.MAX_SAFE_INTEGER).
  { destruct unit; cbn [loweredValue] in Hmax; lia. }
  pose proof (parseInt_safe digits (proj1 (proj2 Hshape)) Hsafe) as Hparse.
  unfold every, parseInterval. rewrite Hm, Hparse. cbn [JS.leb].
  replace (JS.parseInt10 digits <=? 0) with false by (symmetry; lia).
  cbn [rbind]. eexists. split; [reflexivity|].
  cbn [createScheduleBuilder b_cron b_humanReadable b_type b_timezone
       b_originalParams type cron_expr humanReadable timezone originalParams].
  split; [by apply intervalToCron_table|].
  split; [|by repeat split].
  apply intervalToHumanReadable_text. safe_integers. lia.
Qed.

(** [every] throws for the value 0. *)
Lemma every_rejects_zero (interval digits : string) (unit : IntervalUnit) :
  intervalShape interval digits unit ->
  JS.parseInt10 digits = 0 ->
  every interval = Throw (JS.newError "Interval value must be positive, got: 0").
Proof.
  intros Hshape Hzero.
  pose proof (matchInterval_complete _ _ _ Hshape) as Hm.
  unfold every, parseInterval, JS.parseInt. by rewrite Hm, Hzero.
Qed.



(** [every] rejects what is no interval: a string that does not match
    [^(\d+)(s|m|h|d|w)$]. *)
Lemma every_rejects_other_strings (interval : string) :
  (forall digits unit, ~ intervalShape interval digits unit) ->
  every interval = Throw (invalidIntervalError interval).
Proof.
  intros Hno. unfold every, parseInterval.
  destruct (matchInterval interval) as [[digits unit]|] eqn:Hm; [|reflexivity].
  destruct (Hno digits unit). by apply matchInterval_shape.
Qed.


(** ** weekly *)

Lemma validateDay_token (day : string) (d : DayOfWeek) :
  validateDay day = Ok d -> dayToken d = day.
Proof.
  unfold validateDay. destruct (dayOfToken day) as [d'|] eqn:H; [|discriminate].
  intros [= <-]. unfold dayOfToken in H.
  apply find_some in H as [_ H]. by apply String.eqb_eq in H.
Qed.

Lemma mapResult_validateDay (tokens : list string) (validated : list DayOfWeek) :
  mapResult validateDay tokens = Ok validated -> map dayToken validated = tokens.
Proof.
  revert validated. induction tokens as [|tok tokens IH]; intros validated; simpl.
  - by intros [= <-].
  - destruct (validateDay tok) as [d|] eqn:Hd; [|discriminate]. simpl.
    destruct (mapResult validateDay tokens) as [ds|]; [|discriminate]. simpl.
    intros [= <-]. simpl. by rewrite (validateDay_token _ _ Hd), (IH ds).
Qed.

Lemma sortNumbers_sorted (xs : list Z) : StronglySorted Z.le (sortNumbers xs).
Proof. apply StronglySorted_merge_sort; apply _. Qed.

Lemma sortNumbers_permutation (xs : list Z) : sortNumbers xs ≡ₚ xs.
Proof. apply merge_sort_Permutation. Qed.

Lemma validateDay_dayToken (d : DayOfWeek) : validateDay (dayToken d) = Ok d.
Proof. by destruct d. Qed.

Lemma mapResult_validateDay_tokens (validated : list DayOfWeek) :
  mapResult validateDay (map dayToken validated) = Ok validated.
Proof.
  induction validated as [|d ds IH]; [reflexivity|].
  cbn [map mapResult]. by rewrite validateDay_dayToken, IH.
Qed.

(** C6, as amended.  [weekly] accepts every call with valid day tokens,
    at least one, and a valid time, and only those.  The day-of-week list
    of the cron expression is the list of the day numbers of the tokens
    sorted ascending, each token counted as often as it was given; the
    readable text names the days in the order given.  So
    [weekly(["fri","mon","wed"], "09:00")] has cron [0 9 * * 1,3,5] and reads
    "every Friday, Monday, and Wednesday at 9:00 AM". *)
Theorem weekly_sorts_day_numbers
        (days : DaysArg) (time : string) (validated : list DayOfWeek)
        (parsed : ParsedTime) :
  dayArrayOf days = map dayToken validated -> validated <> [] ->
  parseTime time = Some parsed ->
  (exists b cronDays,
      weekly days time = Ok b
      /\ StronglySorted Z.le cronDays
      /\ cronDays ≡ₚ map dayOfWeekToCron validated
      /\ b_cron b = JS.numToString (minute parsed) +:+ " "
                    +:+ JS.numToString (hour parsed) +:+ " * * "
                    +:+ joinNumbers "," cronDays
      /\ b_humanReadable b =
           "every " +:+ listPhrase (map dayOfWeekToName validated) +:+ " at "
           +:+ formatTime12Hour (hour parsed) (minute parsed)
      /\ b_type b = TWeekly)
  /\ (days = DayArray ["fri"; "mon"; "wed"] -> time = "09:00" ->
      exists b, weekly days time = Ok b
        /\ b_cron b = "0 9 * * 1,3,5"
        /\ b_humanReadable b = "every Friday, Monday, and Wednesday at 9:00 AM").
Proof.
  intros Hdays Hne Hp. split.
  - unfold weekly. fold (dayArrayOf days). rewrite Hdays.
    destruct validated as [|d ds]; [congruence|].
    rewrite mapResult_validateDay_tokens.
    cbn [map length Nat.eqb rbind]. rewrite Hp.
    eexists _, (sortNumbers (map dayOfWeekToCron (d :: ds))).
    split; [reflexivity|].
    split; [apply sortNumbers_sorted|].
    split; [apply sortNumbers_permutation|]. by repeat split.
  - intros -> ->. eexists. split; [by vm_compute|]. split; by vm_compute.
Qed.

Lemma weekly_sorts_day_numbers_witness :
  exists b cronDays,
    weekly (OneDay "sun") "7:05" = Ok b
    /\ StronglySorted Z.le cronDays
    /\ cronDays ≡ₚ map dayOfWeekToCron [sun]
    /\ b_cron b = "5" +:+ " " +:+ "7" +:+ " * * " +:+ joinNumbers "," cronDays
    /\ b_humanReadable b = "every " +:+ "Sunday" +:+ " at " +:+ "7:05 AM"
    /\ b_type b = TWeekly.
Proof.
  refine (proj1 (weekly_sorts_day_numbers (OneDay "sun") "7:05" [sun]
                   {| hour := 7; minute := 5 |} _ _ _));
    [reflexivity | discriminate | reflexivity].
Defined.

(** [weekly] accepts nothing else: the tokens of an accepted call are
    tokens of days, of which there is one at least, and its time parses. *)
Lemma weekly_accepts_only_valid (days : DaysArg) (time : string) (b : ScheduleBuilder) :
  weekly days time = Ok b ->
  exists validated parsed,
    dayArrayOf days = map dayToken validated /\ validated <> []
    /\ parseTime time = Some parsed.
Proof.
  unfold weekly. fold (dayArrayOf days).
  destruct (dayArrayOf days) as [|tok toks] eqn:E; [discriminate|].
  cbn [length Nat.eqb].
  destruct (mapResult validateDay (tok :: toks)) as [validated|] eqn:Hv; [|discriminate].
  cbn [rbind]. destruct (parseTime time) as [parsed|]; [|discriminate].
  intros _. exists validated, parsed.
  pose proof (mapResult_validateDay _ _ Hv) as Hmap.
  split; [by rewrite Hmap|]. split; [|reflexivity].
  intros ->. discriminate.
Qed.

(** C6 as stated fails: a repeated token stays repeated in the cron
    expression, and the readable text follows the order of the arguments. *)
Lemma weekly_keeps_duplicates_and_order :
  (exists b, weekly (DayArray ["mon"; "mon"]) "09:00" = Ok b
             /\ b_cron b = "0 9 * * 1,1")
  /\ (exists b, weekly (DayArray ["fri"; "mon"; "wed"]) "09:00" = Ok b
                /\ b_humanReadable b
                   <> "every Monday, Wednesday, and Friday at 9:00 AM").
Proof.
  split; eexists; (split; [vm_compute; reflexivity|]); [by vm_compute|].
  vm_compute. discriminate.
Qed.

(** ** cron *)

Lemma dropWhile_idem {A} (p : A -> bool) (l : list A) :
  JS.dropWhile p (JS.dropWhile p l) = JS.dropWhile p l.
Proof.
  induction l as [|x l IH]; simpl; [reflexivity|].
  destruct (p x) eqn:E; [exact IH | simpl; by rewrite E].
Qed.

Lemma dropWhile_snoc {A} (p : A -> bool) (l : list A) (x : A) :
  p x = false -> JS.dropWhile p (l ++ [x]) = JS.dropWhile p l ++ [x].
Proof.
  intros Hx. induction l as [|y l IH]; simpl; [by rewrite Hx|].
  destruct (p y); [exact IH | reflexivity].
Qed.

Lemma trimEnd_cons (x : ascii) (l : list ascii) :
  JS.isWhitespace x = false -> JS.trimEnd (x :: l) = x :: JS.trimEnd l.
Proof.
  intros Hx. unfold JS.trimEnd. simpl.
  by rewrite dropWhile_snoc, rev_app_distr.
Qed.

Lemma trimEnd_idem (l : list ascii) : JS.trimEnd (JS.trimEnd l) = JS.trimEnd l.
Proof. unfold JS.trimEnd. by rewrite rev_involutive, dropWhile_idem. Qed.

Lemma trimStart_trimEnd_trimStart (l : list ascii) :
  JS.trimStart (JS.trimEnd (JS.trimStart l)) = JS.trimEnd (JS.trimStart l).
Proof.
  unfold JS.trimStart at 2 3.
  induction l as [|x l IH]; simpl; [reflexivity|].
  destruct (JS.isWhitespace x) eqn:E; [exact IH|].
  rewrite trimEnd_cons by exact E. unfold JS.trimStart. simpl. by rewrite E.
Qed.

(** Trimming a trimmed string changes nothing. *)
Lemma trim_idem (s : string) : JS.trim (JS.trim s) = JS.trim s.
Proof.
  unfold JS.trim. rewrite chars_ofChars.
  by rewrite trimStart_trimEnd_trimStart, trimEnd_idem.
Qed.

Lemma validateCronExpression_accepts (expression : string) :
  validateCronExpression (JS.trim expression) = cronFieldsAccepted expression.
Proof.
  unfold validateCronExpression, cronFieldsAccepted. rewrite trim_idem.
  destruct (length _ =? 5)%nat, (length _ =? 6)%nat; reflexivity.
Qed.

(** C7, as amended.  [cron(expr)] accepts exactly the expressions that,
    after trimming, split on whitespace into 5 or 6 fields each matching
    [[0-9*,/\-LW#]+], and rejects any other with an invalid-expression error
    that quotes the argument; the accepted expression is stored trimmed, the
    whitespace between its fields unchanged. *)
Theorem cron_accepts_fields_and_stores_trimmed (expression : string) :
  match cron expression with
  | Ok b =>
      cronFieldsAccepted expression = true
      /\ b_cron b = JS.trim expression
      /\ b_type b = TCron
      /\ b_originalParams b = [("expression", PString (JS.trim expression))]
  | Throw e =>
      cronFieldsAccepted expression = false
      /\ JS.message e = invalidCronMessage expression
  end.
Proof.
  unfold cron. rewrite validateCronExpression_accepts.
  destruct (cronFieldsAccepted expression); simpl; auto.
Qed.

(** C7 as stated fails: two spaces between fields are stored as given. *)
Lemma cron_keeps_whitespace_runs :
  exists b, cron "0  9 * * *" = Ok b
    /\ b_cron b = "0  9 * * *"
    /\ b_cron b <> "0 9 * * *".
Proof.
  eexists. split; [vm_compute; reflexivity|].
  split; [by vm_compute | vm_compute; discriminate].
Qed.

(** ** withTimezone *)

(** C8. For a builder [d] made from any descriptor and any timezone [tz],
    [d.withTimezone(tz)] returns a new object whose timezone is [tz] and
    whose type, cron, humanReadable and originalParams are those of [d];
    the call leaves [d], and every other object, as it was. *)
Theorem withTimezone_returns_new_descriptor
        (st : gmap Store.addr ScheduleBuilder) (this : Store.addr)
        (descriptor : ScheduleDescriptor) (tz : string) :
  st !! this = Some (createScheduleBuilder descriptor) ->
  let d := createScheduleBuilder descriptor in
  exists a st' new,
    Store.callWithTimezone st this tz = Some (a, st')
    /\ st !! a = None
    /\ st' !! a = Some new
    /\ b_timezone new = Some tz
    /\ b_type new = b_type d
    /\ b_cron new = b_cron d
    /\ b_humanReadable new = b_humanReadable d
    /\ b_originalParams new = b_originalParams d
    /\ st' !! this = Some d
    /\ (forall l, l <> a -> st' !! l = st !! l).
Proof.
  intros Hthis d. unfold Store.callWithTimezone. rewrite Hthis.
  set (a := Store.freshAddr st).
  assert (Hfresh : st !! a = None).
  { apply not_elem_of_dom. unfold a, Store.freshAddr. apply is_fresh. }
  exists a, (<[a := withTimezone d tz]> st), (withTimezone d tz).
  split; [reflexivity|]. split; [exact Hfresh|].
  split; [apply lookup_insert_eq|].
  repeat (split; [reflexivity|]).
  split.
  - rewrite lookup_insert_ne; [exact Hthis|]. intros ->. congruence.
  - intros l Hl. by rewrite lookup_insert_ne.
Qed.

Lemma withTimezone_returns_new_descriptor_witness :
  exists a st' new,
    Store.callWithTimezone sampleStore 1%positive "Europe/London" = Some (a, st')
    /\ st' !! a = Some new
    /\ b_timezone new = Some "Europe/London"
    /\ b_cron new = "*/15 * * * *"
    /\ st' !! 1%positive = Some (createScheduleBuilder sampleDescriptor).
Proof.
  destruct (withTimezone_returns_new_descriptor sampleStore 1%positive
              sampleDescriptor "Europe/London" eq_refl)
    as (a & st' & new & H1 & _ & H3 & H4 & _ & H6 & _ & _ & H9 & _).
  exists a, st', new. exact (conj H1 (conj H3 (conj H4 (conj H6 H9)))).
Defined.

(** ** The time parser *)

Lemma allDigits_cons (c : ascii) (s : string) :
  JS.allDigits (String c s) = JS.isDigit c && JS.allDigits s.
Proof. reflexivity. Qed.

Lemma matchTime_shape (time g1 g2 : string) :
  matchTime time = Some (g1, g2) <-> timeShape time g1 g2.
Proof.
  unfold matchTime, timeShape. split.
  - intros H. rewrite <- (ofChars_chars time).
    destruct (JS.chars time) as [|a [|b [|c [|d [|e [|f l]]]]]];
      try discriminate.
    + destruct (JS.isDigit a) eqn:Ha; [|discriminate].
      destruct (Ascii.eqb b ":") eqn:Hb; [|discriminate].
      destruct (JS.isDigit c) eqn:Hc; [|discriminate].
      destruct (JS.isDigit d) eqn:Hd; [|discriminate].
      apply Ascii.eqb_eq in Hb. subst b. injection H as <- <-.
      simpl. rewrite !allDigits_cons, Ha, Hc, Hd. repeat split; lia.
    + destruct (JS.isDigit a) eqn:Ha; [|discriminate].
      destruct (JS.isDigit b) eqn:Hb; [|discriminate].
      destruct (Ascii.eqb c ":") eqn:Hcolon; [|discriminate].
      destruct (JS.isDigit d) eqn:Hd; [|discriminate].
      destruct (JS.isDigit e) eqn:He; [|discriminate].
      apply Ascii.eqb_eq in Hcolon. subst c. injection H as <- <-.
      simpl. rewrite !allDigits_cons, Ha, Hb, Hd, He. repeat split; lia.
  - intros (-> & Hh & Hm & Hlh & Hlm).
    destruct g2 as [|m1 [|m2 [|x g2]]]; try discriminate.
    rewrite !allDigits_cons in Hm.
    apply andb_true_iff in Hm as [Hm1 Hm2].
    apply andb_true_iff in Hm2 as [Hm2 _].
    destruct g1 as [|h1 [|h2 [|y g1]]]; simpl in Hlh; try lia;
      rewrite !allDigits_cons in Hh.
    + apply andb_true_iff in Hh as [Hh1 _].
      simpl. by rewrite Hh1, Hm1, Hm2.
    + apply andb_true_iff in Hh as [Hh1 Hh2].
      apply andb_true_iff in Hh2 as [Hh2 _].
      simpl. by rewrite Hh1, Hh2, Hm1, Hm2.
Qed.

(** [parseTime] accepts exactly the strings of the shape of the regular
    expression whose hour is at most 23 and whose minute is at most 59. *)
Lemma parseTime_accepts (time : string) (t : ParsedTime) :
  parseTime time = Some t <->
  exists hh mm, timeShape time hh mm
    /\ t = {| hour := JS.parseInt10 hh; minute := JS.parseInt10 mm |}
    /\ JS.parseInt10 hh <= 23 /\ JS.parseInt10 mm <= 59.
Proof.
  unfold parseTime. split.
  - destruct (matchTime time) as [[g1 g2]|] eqn:Hm; [|discriminate].
    apply matchTime_shape in Hm.
    destruct (_ || _) eqn:Hrange; [discriminate|].
    intros [= <-]. exists g1, g2.
    apply orb_false_iff in Hrange as [Hrange H4].
    apply orb_false_iff in Hrange as [Hrange H3].
    apply orb_false_iff in Hrange as [H1 H2].
    repeat split; try apply Hm; lia.
  - intros (hh & mm & Hshape & -> & Hh & Hm).
    pose proof (parseInt10_nonneg hh (proj1 (proj2 Hshape))) as Hh0.
    pose proof (parseInt10_nonneg mm (proj1 (proj2 (proj2 Hshape)))) as Hm0.
    apply matchTime_shape in Hshape. rewrite Hshape.
    replace (_ || _) with false; [reflexivity|].
    symmetry. rewrite !orb_false_iff. repeat split; lia.
Qed.












(** ** The monad *)

Lemma bind_Returns {A B} (m : M A) (k : A -> M B) (w w1 : World) (a : A) :
  m w = (Returns a, w1) -> bind m k w = k a w1.
Proof. unfold bind. by intros ->. Qed.

Lemma bind_Throws {A B} (m : M A) (k : A -> M B) (w w1 : World) (err : Thrown) :
  m w = (Throws err, w1) -> bind m k w = (Throws err, w1).
Proof. unfold bind. by intros ->. Qed.

Lemma bind_NeverSettles {A B} (m : M A) (k : A -> M B) (w w1 : World) :
  m w = (NeverSettles, w1) -> bind m k w = (NeverSettles, w1).
Proof. unfold bind. by intros ->. Qed.

Lemma bind_OutOfFuel {A B} (m : M A) (k : A -> M B) (w w1 : World) :
  m w = (OutOfFuel, w1) -> bind m k w = (OutOfFuel, w1).
Proof. unfold bind. by intros ->. Qed.

Lemma bind_assoc {A B C} (m : M A) (k : A -> M B) (k' : B -> M C) (w : World) :
  bind (bind m k) k' w = bind m (fun a => bind (k a) k') w.
Proof. unfold bind. by destruct (m w) as [[a|err| |] w1]. Qed.

Lemma bind_at {A B} (m m' : M A) (k : A -> M B) (w w' : World) :
  m w = m' w' -> bind m k w = bind m' k w'.
Proof. unfold bind. by intros ->. Qed.

Lemma bind_ret {A B} (a : A) (k : A -> M B) (w : World) : bind (ret a) k w = k a w.
Proof. reflexivity. Qed.

Lemma started_at {A} (m : M A) (w w' : World) (o : Outcome A) :
  m w = (o, w') -> started m w = (Returns o, w').
Proof. unfold started. by intros ->. Qed.

(** Running the first computation of a [bind] whose outcome [H] states. *)
Ltac returns H := erewrite bind_Returns; [|exact H].
Ltac throws H := erewrite bind_Throws; [|exact H].
Ltac never_settles H := erewrite bind_NeverSettles; [|exact H].
Ltac out_of_fuel H := erewrite bind_OutOfFuel; [|exact H].

(** The same on both sides of an equation between two computations. *)
Ltac both_return H := rewrite !(bind_Returns _ _ _ _ _ H).
Ltac both_throw H := rewrite !(bind_Throws _ _ _ _ _ H).

(** ** How the world changes *)

Lemma Step_refl (w : World) : Step w w [].
Proof. split; [reflexivity | reflexivity | by rewrite app_nil_r]. Qed.

Lemma Step_trans (w w1 w2 : World) (e1 e2 : list ExecutionEvent) :
  Step w w1 e1 -> Step w1 w2 e2 -> Step w w2 (e1 ++ e2).
Proof.
  intros [L1 C1 E1] [L2 C2 E2]. split.
  - by rewrite L2.
  - by rewrite C2.
  - by rewrite E2, E1, app_assoc.
Qed.

Lemma emittedEvents_app (t1 t2 : list Action) :
  emittedEvents (t1 ++ t2) = emittedEvents t1 ++ emittedEvents t2.
Proof. apply omap_app. Qed.

Lemma listenerCalls_app (t1 t2 : list Action) :
  listenerCalls (t1 ++ t2) = listenerCalls t1 ++ listenerCalls t2.
Proof. apply omap_app. Qed.

Lemma quietWorld_Step (w w' : World) (evs : list ExecutionEvent) :
  Step w w' evs -> quietWorld w -> quietWorld w'.
Proof. intros [L _ _] Q key ls l event. rewrite L. apply Q. Qed.

(** ** The attempts of a run as numbers *)

(** Comparisons of integers that were computed, as propositions. *)
Ltac compared :=
  repeat match goal with
         | H : (_ <=? _) = true |- _ => apply Z.leb_le in H
         | H : (_ <=? _) = false |- _ => apply Z.leb_gt in H
         | H : (_ <? _) = true |- _ => apply Z.ltb_lt in H
         | H : (_ <? _) = false |- _ => apply Z.ltb_ge in H
         end.

(** While the condition of the loop holds of an attempt and
    [retry.attempts] is not above [2^53], the loop has fuel left. *)
Lemma leb_loopFuel (attempt : Z) (maxAttempts : JS.Number) :
  1 <= attempt ->
  JS.leb (JS.Int attempt) maxAttempts = true ->
  JS.ltb (JS.Int (2 ^ 53)) maxAttempts = false ->
  (Z.to_nat attempt < loopFuel maxAttempts)%nat.
Proof.
  intros H1 Hle Hb. destruct maxAttempts as [n|m k| | |]; try discriminate.
  - cbn [JS.leb loopFuel] in *. lia.
  - cbn [JS.leb JS.fraction loopFuel] in *.
    apply Z.leb_le in Hle. rewrite Z.mul_1_r in Hle.
    assert (attempt <= m / 2 ^ Z.pos k).
    { apply Z.div_le_lower_bound; [by apply Z.pow_pos_nonneg | lia]. }
    lia.
Qed.

(** An attempt below [retry.attempts], which is not above [2^53], is
    below [2^53]: the next attempt is the next integer. *)
Lemma ltb_increment (attempt : Z) (maxAttempts : JS.Number) :
  1 <= attempt ->
  JS.ltb (JS.Int attempt) maxAttempts = true ->
  JS.ltb (JS.Int (2 ^ 53)) maxAttempts = false ->
  JS.increment attempt = attempt + 1.
Proof.
  intros H1 Hlt Hb. apply increment_safe.
  destruct maxAttempts as [n|m k| | |]; try discriminate.
  - cbn [JS.ltb] in *. lia.
  - cbn [JS.ltb JS.fraction] in *.
    apply Z.ltb_lt in Hlt. apply Z.ltb_ge in Hb. rewrite Z.mul_1_r in *.
    assert (0 < 2 ^ Z.pos k) by by apply Z.pow_pos_nonneg.
    assert (attempt < 2 ^ 53) by nia. lia.
Qed.

(** The number [shouldRetry] compares the attempt with is
    [retry.attempts] itself once the loop has been entered. *)
Lemma shouldRetry_in_loop (attempt : Z) (rc : RetryConfig) :
  1 <= attempt -> JS.leb (JS.Int attempt) (attempts rc) = true ->
  shouldRetry attempt rc = JS.ltb (JS.Int attempt) (attempts rc).
Proof.
  intros H1 Hle. unfold shouldRetry.
  destruct (attempts rc) as [n|m k| | |]; try discriminate; try reflexivity.
  cbn [JS.leb JS.truthy] in *.
  destruct (n =? 0) eqn:E; [lia | reflexivity].
Qed.

(** With an integer [retry.attempts], an attempt that is retried is
    followed by one that the loop admits. *)
Lemma ltb_leb_succ (attempt n : Z) :
  JS.ltb (JS.Int attempt) (JS.Int n) = true ->
  JS.leb (JS.Int (attempt + 1)) (JS.Int n) = true.
Proof. cbn [JS.ltb JS.leb]. lia. Qed.

Lemma integerAttempts_bounded (job : JobDefinition) :
  integerAttempts job -> boundedAttempts job.
Proof.
  intros Hi rc Hrc. destruct (Hi rc Hrc) as (n & -> & Hn).
  cbn [JS.ltb]. lia.
Qed.

Lemma boundedAttempts_max (job : JobDefinition) :
  boundedAttempts job -> JS.ltb (JS.Int (2 ^ 53)) (maxAttemptsOf job) = false.
Proof.
  intros Hb. unfold maxAttemptsOf.
  destruct (retry (config job)) as [rc|] eqn:E; [by apply Hb | reflexivity].
Qed.

Lemma integerAttempts_max (job : JobDefinition) :
  integerAttempts job ->
  exists n, maxAttemptsOf job = JS.Int n /\ 1 <= n <= 2 ^ 53.
Proof.
  intros Hi. unfold maxAttemptsOf.
  destruct (retry (config job)) as [rc|] eqn:E; [by apply Hi|].
  exists 1. split; [reflexivity | lia].
Qed.

Section EngineFacts.

Variable rt : Runtime.

Lemma now_Step (w : World) :
  exists t w', now rt w = (Returns t, w') /\ Step w w' []
               /\ listenerCalls (trace w') = listenerCalls (trace w).
Proof.
  eexists _, _. split; [reflexivity|]. split; [|reflexivity].
  split; simpl; [reflexivity | reflexivity | by rewrite app_nil_r].
Qed.

Lemma record_Step (a : Action) (w : World) :
  exists w', record a w = (Returns tt, w')
    /\ Step w w' (emittedEvents [a])
    /\ listenerCalls (trace w') = listenerCalls (trace w) ++ listenerCalls [a].
Proof.
  eexists. split; [reflexivity|]. split.
  - split; simpl; [reflexivity | reflexivity | apply emittedEvents_app].
  - simpl. apply listenerCalls_app.
Qed.

(** Calling listeners that do not throw: all of them are called, in order. *)
Lemma forEach_quiet (event : ExecutionEvent) (ls : list ExecutionEventListener)
      (w : World) :
  (forall l, l ∈ ls -> listen l event = None) ->
  exists w', forEach (callListener event) ls w = (Returns tt, w')
    /\ Step w w' []
    /\ listenerCalls (trace w')
       = listenerCalls (trace w) ++ map (fun l => (listenerId l, event)) ls.
Proof.
  revert w. induction ls as [|l ls IH]; intros w Hq.
  - exists w. split; [reflexivity|]. split; [apply Step_refl|].
    by rewrite app_nil_r.
  - destruct (record_Step (ListenerCalled (listenerId l) event) w)
      as (w1 & Hr & S1 & C1).
    destruct (IH w1) as (w2 & Hf & S2 & C2).
    { intros l' Hl'. apply Hq. by right. }
    exists w2. split; [|split].
    + cbn [forEach]. unfold callListener at 1.
      rewrite (Hq l) by left.
      erewrite bind_Returns; [exact Hf|].
      erewrite bind_Returns; [reflexivity | exact Hr].
    + exact (Step_trans _ _ _ _ _ S1 S2).
    + rewrite C2, C1. simpl. by rewrite <- app_assoc.
Qed.

(** Calling any listeners: the loop stops at the first that throws. *)
Lemma forEach_any (event : ExecutionEvent) (ls : list ExecutionEventListener)
      (w w' : World) (o : Outcome unit) :
  forEach (callListener event) ls w = (o, w') ->
  Step w w' [] /\ (o = Returns tt \/ exists err, o = Throws err).
Proof.
  revert w. induction ls as [|l ls IH]; intros w.
  - intros [= <- <-]. split; [apply Step_refl | by left].
  - cbn [forEach]. unfold callListener at 1.
    destruct (record_Step (ListenerCalled (listenerId l) event) w)
      as (w1 & Hr & S1 & _).
    destruct (listen l event) as [err|].
    + erewrite bind_Throws; [|erewrite bind_Returns; [reflexivity | exact Hr]].
      intros [= <- <-]. split; [exact S1 | right; by exists err].
    + erewrite bind_Returns; [|erewrite bind_Returns; [reflexivity | exact Hr]].
      intros H. destruct (IH _ H) as [S2 Ho].
      split; [exact (Step_trans _ _ _ _ _ S1 S2) | exact Ho].
Qed.

Lemma getListeners_quiet (key : string) (w : World) :
  quietWorld w ->
  forall l event, l ∈ default [] (listeners w !! key) -> listen l event = None.
Proof.
  intros Q l event. destruct (listeners w !! key) as [ls|] eqn:E; simpl.
  - intros Hl. exact (Q key ls l event E Hl).
  - intros Hl. by apply elem_of_nil in Hl.
Qed.

(** When no listener throws, [emit] calls every subscriber and returns. *)
Lemma emit_quiet (event : ExecutionEvent) (w : World) :
  quietWorld w ->
  exists w', emit event w = (Returns tt, w')
    /\ Step w w' [event]
    /\ listenerCalls (trace w')
       = listenerCalls (trace w)
         ++ map (fun l => (listenerId l, event)) (subscribers w event).
Proof.
  intros Q. unfold emit.
  destruct (record_Step (Emitted event) w) as (w1 & Hr & S1 & C1).
  pose proof (quietWorld_Step _ _ _ S1 Q) as Q1.
  destruct (forEach_quiet event
              (default [] (listeners w1 !! eventTypeName (ev_type event))) w1)
    as (w2 & Hf2 & S2 & C2).
  { intros l. apply getListeners_quiet. exact Q1. }
  pose proof (quietWorld_Step _ _ _ S2 Q1) as Q2.
  destruct (forEach_quiet event (default [] (listeners w2 !! "*")) w2)
    as (w3 & Hf3 & S3 & C3).
  { intros l. apply getListeners_quiet. exact Q2. }
  exists w3. split; [|split].
  - returns Hr.
    unfold getListeners at 1. unfold bind at 1.
    returns Hf2.
    unfold getListeners. unfold bind. exact Hf3.
  - pose proof (Step_trans _ _ _ _ _ S1 (Step_trans _ _ _ _ _ S2 S3)) as S.
    simpl in S. exact S.
  - rewrite C3, C2, C1. simpl. rewrite app_nil_r, <- app_assoc.
    unfold subscribers. rewrite map_app.
    rewrite (step_listeners _ _ _ S2), (step_listeners _ _ _ S1).
    reflexivity.
Qed.

(** Whatever the listeners do, [emit] records its event, and it returns
    or throws what a listener threw. *)
Lemma emit_any (event : ExecutionEvent) (w w' : World) (o : Outcome unit) :
  emit event w = (o, w') ->
  Step w w' [event] /\ (o = Returns tt \/ exists err, o = Throws err).
Proof.
  unfold emit.
  destruct (record_Step (Emitted event) w) as (w1 & Hr & S1 & _).
  returns Hr.
  unfold getListeners at 1. unfold bind at 1.
  destruct (forEach (callListener event)
              (default [] (listeners w1 !! eventTypeName (ev_type event))) w1)
    as [o2 w2] eqn:Hf2.
  destruct (forEach_any _ _ _ _ _ Hf2) as [S2 Ho2].
  pose proof (Step_trans _ _ _ _ _ S1 S2) as S12. simpl in S12.
  destruct Ho2 as [-> | [err ->]].
  - returns Hf2.
    unfold getListeners, bind. intros Hf3.
    destruct (forEach_any _ _ _ _ _ Hf3) as [S3 Ho3].
    pose proof (Step_trans _ _ _ _ _ S12 S3) as S. simpl in S.
    split; [exact S | exact Ho3].
  - throws Hf2.
    intros [= <- <-]. split; [exact S12 | right; by exists err].
Qed.

(** The two loops of [emit] are one loop over the subscribers. *)
Lemma forEach_app {A} (f : A -> M unit) (xs ys : list A) (w : World) :
  forEach f (xs ++ ys) w = bind (forEach f xs) (fun _ => forEach f ys) w.
Proof.
  revert w. induction xs as [|x xs IH]; intros w; [reflexivity|].
  cbn [app forEach]. unfold bind.
  destruct (f x w) as [[[]|err| |] w1]; try reflexivity.
  rewrite IH. reflexivity.
Qed.

Lemma emit_forEach (event : ExecutionEvent) (w : World) :
  emit event w
  = bind (record (Emitted event))
         (fun _ => forEach (callListener event) (subscribers w event)) w.
Proof.
  destruct (record_Step (Emitted event) w) as (w1 & Hr & S1 & _).
  transitivity (forEach (callListener event) (subscribers w event) w1);
    [|symmetry; returns Hr; reflexivity].
  unfold emit, subscribers. returns Hr. rewrite forEach_app.
  unfold getListeners at 1. unfold bind at 1.
  rewrite (step_listeners _ _ _ S1).
  destruct (forEach (callListener event)
              (default [] (listeners w !! eventTypeName (ev_type event))) w1)
    as [o2 w2] eqn:Hf2.
  destruct (forEach_any _ _ _ _ _ Hf2) as [S2 Ho2].
  unfold bind. rewrite Hf2.
  destruct Ho2 as [-> | [err ->]]; [|reflexivity].
  unfold getListeners.
  by rewrite (step_listeners _ _ _ S2), (step_listeners _ _ _ S1).
Qed.

(** The loop over the listeners stops at the first one that throws: the
    ones before it have been called, the ones after it are not, and the
    loop throws what the listener threw. *)
Lemma forEach_throws (event : ExecutionEvent)
      (before : list ExecutionEventListener) (l : ExecutionEventListener)
      (after : list ExecutionEventListener) (err : Thrown) (w : World) :
  (forall x, x ∈ before -> listen x event = None) ->
  listen l event = Some err ->
  exists w', forEach (callListener event) (before ++ l :: after) w = (Throws err, w')
    /\ Step w w' []
    /\ listenerCalls (trace w')
       = listenerCalls (trace w)
         ++ map (fun x => (listenerId x, event)) (before ++ [l]).
Proof.
  intros Hq Hl.
  destruct (forEach_quiet event before w Hq) as (w1 & H1 & S1 & C1).
  destruct (record_Step (ListenerCalled (listenerId l) event) w1)
    as (w2 & H2 & S2 & C2).
  exists w2. split; [|split].
  - rewrite forEach_app. returns H1. cbn [forEach]. unfold callListener at 1.
    rewrite Hl.
    erewrite bind_Throws; [reflexivity|]. returns H2. reflexivity.
  - exact (Step_trans _ _ _ _ _ S1 S2).
  - rewrite C2, C1, map_app, <- app_assoc. reflexivity.
Qed.

(** [emit] does not catch: it throws what the first listener that throws
    has thrown, after the subscribers before it and none after it. *)
Lemma emit_throws (event : ExecutionEvent) (w : World)
      (before : list ExecutionEventListener) (l : ExecutionEventListener)
      (after : list ExecutionEventListener) (err : Thrown) :
  subscribers w event = before ++ l :: after ->
  (forall x, x ∈ before -> listen x event = None) ->
  listen l event = Some err ->
  exists w', emit event w = (Throws err, w')
    /\ Step w w' [event]
    /\ listenerCalls (trace w')
       = listenerCalls (trace w)
         ++ map (fun x => (listenerId x, event)) (before ++ [l]).
Proof.
  intros Hsub Hq Hl. rewrite emit_forEach, Hsub.
  destruct (record_Step (Emitted event) w) as (w1 & Hr & S1 & C1).
  destruct (forEach_throws event before l after err w1 Hq Hl) as (w2 & Hf & S2 & C2).
  exists w2. split; [|split].
  - returns Hr. exact Hf.
  - pose proof (Step_trans _ _ _ _ _ S1 S2) as S. simpl in S. exact S.
  - rewrite C2, C1. simpl. by rewrite app_nil_r.
Qed.

(** When none of the subscribers of the event throws, [emit] calls them
    all, in order, and returns. *)
Lemma emit_returns (event : ExecutionEvent) (w : World) :
  (forall l, l ∈ subscribers w event -> listen l event = None) ->
  exists w', emit event w = (Returns tt, w')
    /\ Step w w' [event]
    /\ listenerCalls (trace w')
       = listenerCalls (trace w)
         ++ map (fun l => (listenerId l, event)) (subscribers w event).
Proof.
  intros Hq. rewrite emit_forEach.
  destruct (record_Step (Emitted event) w) as (w1 & Hr & S1 & C1).
  destruct (forEach_quiet event (subscribers w event) w1 Hq) as (w2 & Hf & S2 & C2).
  exists w2. split; [|split].
  - returns Hr. exact Hf.
  - pose proof (Step_trans _ _ _ _ _ S1 S2) as S. simpl in S. exact S.
  - rewrite C2, C1. simpl. by rewrite app_nil_r.
Qed.

Lemma liftResult_cases {A} (r : Result A) (w : World) :
  (exists a, r = Ok a /\ liftResult r w = (Returns a, w))
  \/ (exists e, r = Throw e /\ liftResult r w = (Throws (ThrownError e), w)).
Proof. destruct r as [a|e]; [left; by exists a | right; by exists e]. Qed.

(** The race of an attempt, awaited: the [finally] block clears the
    timer whatever the race gives. *)
Lemma settleAttempt_ends (job : JobDefinition) (ms : JS.Number) (h : HandlerRun) :
  (forall err, h = Rejects err -> printableRejections job -> printable err) ->
  AttemptEnds job (settleAttempt (ms, h)).
Proof.
  intros Hp w w' o. unfold settleAttempt, tryFinally. cbn [fst snd].
  destruct (record_Step TimerCleared w) as (w1 & H1 & S1 & _).
  destruct h as [|err|]; simpl; (returns H1); intros [= <- <-];
    (split; [exact S1|]); [by left | right | right].
  - exists err. split; [reflexivity | by apply Hp].
  - eexists. split; [reflexivity | done].
Qed.

(** [executeAttempt] is its part before the [await] followed by its part
    after it. *)
Lemma executeAttempt_split (job : JobDefinition) (runId : string) (attempt : Z)
      (signal : Signal) (w : World) :
  executeAttempt rt job runId attempt signal w
  = bind (startAttempt rt job runId attempt signal) (settleAttempt) w.
Proof.
  unfold executeAttempt, startAttempt.
  destruct (now_Step w) as (t1 & w1 & H1 & _).
  rewrite bind_assoc. both_return H1.
  destruct (now_Step w1) as (t2 & w2 & H2 & _).
  rewrite bind_assoc. both_return H2.
  cbv zeta. rewrite bind_assoc.
  destruct (truthyString (timeout (config job))) as [t|].
  - destruct (liftResult_cases (parseDuration t) w2)
      as [(ms & _ & Hms) | (e & _ & He)].
    + both_return Hms. reflexivity.
    + both_throw He. reflexivity.
  - reflexivity.
Qed.

(** What [startAttempt] leaves to await: a race whose handler is the one
    of the job, or the error of a timeout that is no duration. *)
Lemma startAttempt_any (job : JobDefinition) (runId : string) (attempt : Z)
      (signal : Signal) (w w' : World) (o : Outcome (JS.Number * HandlerRun)) :
  startAttempt rt job runId attempt signal w = (o, w') ->
  Step w w' [] /\ startedBy job o.
Proof.
  unfold startAttempt, startedBy.
  destruct (now_Step w) as (t1 & w1 & H1 & S1 & _). returns H1.
  destruct (now_Step w1) as (t2 & w2 & H2 & S2 & _). returns H2.
  pose proof (Step_trans _ _ _ _ _ S1 S2) as S12. simpl in S12.
  cbv zeta. set (context := mkContext _ _ _ _ _ _ _).
  assert (Hrest : forall ms w3 w4 o4,
             Step w w3 [] ->
             (do record (TimerSet ms) then
              do record (HandlerCalled context) then
              ret (ms, handler job context)) w3 = (o4, w4) ->
             Step w w4 []
             /\ ((exists ms context, o4 = Returns (ms, handler job context))
                 \/ (exists e, o4 = Throws (ThrownError e)))).
  { intros ms w3 w4 o4 S3.
    destruct (record_Step (TimerSet ms) w3) as (w5 & H5 & S5 & _). returns H5.
    destruct (record_Step (HandlerCalled context) w5) as (w6 & H6 & S6 & _).
    returns H6. intros [= <- <-].
    pose proof (Step_trans _ _ _ _ _ S3 (Step_trans _ _ _ _ _ S5 S6)) as S.
    simpl in S. split; [exact S | left; eauto]. }
  destruct (truthyString (timeout (config job))) as [t|].
  - destruct (liftResult_cases (parseDuration t) w2)
      as [(ms & _ & Hms) | (e & _ & He)].
    + returns Hms. apply Hrest. exact S12.
    + throws He. intros [= <- <-]. split; [exact S12 | right; eauto].
  - unfold ret at 1. unfold bind at 1. apply Hrest. exact S12.
Qed.

(** One attempt emits nothing; it returns or throws. *)
Lemma executeAttempt_ends (job : JobDefinition) (runId : string) (attempt : Z)
      (signal : Signal) :
  AttemptEnds job (executeAttempt rt job runId attempt signal).
Proof.
  intros w w' o. rewrite executeAttempt_split.
  destruct (startAttempt rt job runId attempt signal w) as [o1 w1] eqn:E1.
  destruct (startAttempt_any _ _ _ _ _ _ _ E1)
    as [S1 [(ms & context & ->) | (e & ->)]].
  - returns E1. intros H.
    destruct (settleAttempt_ends job ms (handler job context)
                ltac:(intros err Herr Hp; exact (Hp _ _ Herr)) _ _ _ H) as [S2 Ho].
    pose proof (Step_trans _ _ _ _ _ S1 S2) as S. simpl in S. by split.
  - throws E1. intros [= <- <-]. split; [exact S1|]. right.
    eexists. split; [reflexivity | done].
Qed.

(** The first attempt of a run, awaited where [runStart] left it. *)
Lemma awaited_ends (job : JobDefinition) (o : Outcome (JS.Number * HandlerRun)) :
  startedBy job o ->
  AttemptEnds job (let* race := await o in settleAttempt race).
Proof.
  intros [(ms & context & ->) | (e & ->)] w w' o'.
  - unfold await. unfold bind at 1.
    apply (settleAttempt_ends job ms (handler job context)).
    intros err Herr Hp. exact (Hp _ _ Herr).
  - unfold await, bind. intros [= <- <-]. split; [apply Step_refl|]. right.
    eexists. split; [reflexivity | done].
Qed.

Lemma executeAttempt_any (job : JobDefinition) (runId : string) (attempt : Z)
      (signal : Signal) (w w' : World) (o : Outcome unit) :
  executeAttempt rt job runId attempt signal w = (o, w') ->
  Step w w' [] /\ (o = Returns tt \/ exists err, o = Throws err).
Proof.
  intros H. destruct (executeAttempt_ends _ _ _ _ _ _ _ H) as [S [-> | (err & -> & _)]];
    (split; [exact S|]); [by left | right; eauto].
Qed.

(** A callback is called inside its own [try]: what it throws is dropped. *)
Lemma callback_any (a : Action) (r : CallbackRun) (w w' : World) (o : Outcome unit) :
  tryCatch (do record a then awaitCallback r) (fun _ => ret tt) w = (o, w') ->
  emittedEvents [a] = [] ->
  Step w w' [] /\ (o = Returns tt \/ (o = NeverSettles /\ r = CallbackNeverSettles)).
Proof.
  intros H Ha. revert H. unfold tryCatch.
  destruct (record_Step a w) as (w1 & H1 & S1 & _). rewrite Ha in S1.
  returns H1.
  destruct r as [|err|]; simpl; intros [= <- <-]; (split; [exact S1|]);
    [by left | by left | by right].
Qed.

Lemma successBranch_spec (job : JobDefinition) (runId : string) (startedAt : Z)
      (signal : Signal) (attempt : Z) (w w' : World) (o : Outcome Iteration) :
  quietWorld w ->
  successBranch rt job runId startedAt signal attempt w = (o, w') ->
  exists ev,
    Step w w' [ev] /\ ev_type ev = job_success /\ ev_attempt ev = attempt
    /\ ((exists r, o = Returns (Return r) /\ res_attempt r = attempt
                   /\ res_status r = status_success)
        \/ (o = NeverSettles /\ ~ callbacksSettle job)).
Proof.
  intros Q. unfold successBranch.
  destruct (now_Step w) as (t & w2 & H2 & S2 & _).
  returns H2. cbv beta zeta.
  match goal with |- context [emit ?e] => set (ev := e) end.
  destruct (emit_quiet ev w2 (quietWorld_Step _ _ _ S2 Q)) as (w3 & H3 & S3 & _).
  returns H3.
  pose proof (Step_trans _ _ _ _ _ S2 S3) as S123. simpl in S123.
  intros H. exists ev. split; [|split; [reflexivity|split; [reflexivity|]]].
  - destruct (onSuccess (config job)) as [cb|] eqn:Hcb.
    + match type of H with
      | bind ?m _ _ = _ => destruct (m w3) as [o4 w4] eqn:E4
      end.
      destruct (callback_any _ _ _ _ _ E4 eq_refl) as [S4 [-> | [-> _]]].
      * erewrite bind_Returns in H; [|exact E4]. injection H as <- <-.
        pose proof (Step_trans _ _ _ _ _ S123 S4) as S. by rewrite app_nil_r in S.
      * erewrite bind_NeverSettles in H; [|exact E4]. injection H as <- <-.
        pose proof (Step_trans _ _ _ _ _ S123 S4) as S. by rewrite app_nil_r in S.
    + injection H as <- <-. exact S123.
  - destruct (onSuccess (config job)) as [cb|] eqn:Hcb.
    + match type of H with
      | bind ?m _ _ = _ => destruct (m w3) as [o4 w4] eqn:E4
      end.
      destruct (callback_any _ _ _ _ _ E4 eq_refl) as [S4 [-> | [-> Hr]]].
      * erewrite bind_Returns in H; [|exact E4]. injection H as <- <-.
        left. eexists. split; [reflexivity|]. split; reflexivity.
      * erewrite bind_NeverSettles in H; [|exact E4]. injection H as <- <-.
        right. split; [reflexivity|]. intros [Hs _]. exact (Hs cb _ Hcb Hr).
    + injection H as <- <-. left. eexists. split; [reflexivity|]. split; reflexivity.
Qed.

Lemma failBranch_spec (job : JobDefinition) (runId : string) (startedAt : Z)
      (signal : Signal) (attempt : Z) (lastError : JS.Error) (isTimeout : bool)
      (errorInfo : ExecutionError) (w w' : World) (o : Outcome Iteration) :
  quietWorld w ->
  failBranch rt job runId startedAt signal attempt lastError isTimeout errorInfo w
  = (o, w') ->
  exists ev,
    Step w w' [ev]
    /\ ev_type ev = (if isTimeout then job_timeout else job_failure)
    /\ ev_attempt ev = attempt
    /\ ((exists r, o = Returns (Return r) /\ res_attempt r = attempt
                   /\ res_status r
                      = if isTimeout then status_timeout else status_failure)
        \/ (o = NeverSettles /\ ~ callbacksSettle job)).
Proof.
  intros Q. unfold failBranch.
  destruct (now_Step w) as (t & w1 & H1 & S1 & _).
  returns H1. cbv beta zeta.
  match goal with |- context [emit ?e] => set (ev := e) end.
  destruct (emit_quiet ev w1 (quietWorld_Step _ _ _ S1 Q)) as (w2 & H2 & S2 & _).
  returns H2.
  pose proof (Step_trans _ _ _ _ _ S1 S2) as S12. simpl in S12.
  intros H. exists ev. split; [|split; [reflexivity|split; [reflexivity|]]].
  - destruct (onFailure (config job)) as [cb|] eqn:Hcb.
    + match type of H with
      | bind ?m _ _ = _ => destruct (m w2) as [o3 w3] eqn:E3
      end.
      destruct (callback_any _ _ _ _ _ E3 eq_refl) as [S3 [-> | [-> _]]].
      * erewrite bind_Returns in H; [|exact E3]. injection H as <- <-.
        pose proof (Step_trans _ _ _ _ _ S12 S3) as S. by rewrite app_nil_r in S.
      * erewrite bind_NeverSettles in H; [|exact E3]. injection H as <- <-.
        pose proof (Step_trans _ _ _ _ _ S12 S3) as S. by rewrite app_nil_r in S.
    + injection H as <- <-. exact S12.
  - destruct (onFailure (config job)) as [cb|] eqn:Hcb.
    + match type of H with
      | bind ?m _ _ = _ => destruct (m w2) as [o3 w3] eqn:E3
      end.
      destruct (callback_any _ _ _ _ _ E3 eq_refl) as [S3 [-> | [-> Hr]]].
      * erewrite bind_Returns in H; [|exact E3]. injection H as <- <-.
        left. eexists. split; [reflexivity|]. split; reflexivity.
      * erewrite bind_NeverSettles in H; [|exact E3]. injection H as <- <-.
        right. split; [reflexivity|]. intros [_ Hs]. exact (Hs cb _ _ Hcb Hr).
    + injection H as <- <-. left. eexists. split; [reflexivity|]. split; reflexivity.
Qed.

Lemma calculateRetryDelay_Ok (job : JobDefinition) (rc : RetryConfig) (attempt : Z) :
  validInitialDelay job -> retry (config job) = Some rc ->
  exists delay, calculateRetryDelay attempt rc = Ok delay.
Proof.
  intros Hv Hrc. unfold calculateRetryDelay.
  destruct (truthyString (initialDelay rc)) as [d|] eqn:Hd.
  - specialize (Hv rc d Hrc Hd).
    destruct (parseDuration d) as [ms|]; [|discriminate]. simpl.
    destruct (default linear (backoff rc)); eauto.
  - change (parseDuration "1s") with (Ok (JS.Int 1000)). simpl.
    destruct (default linear (backoff rc)); eauto.
Qed.

Lemma retryBranch_spec (job : JobDefinition) (runId : string) (attempt : Z)
      (rc : RetryConfig) (lastError : JS.Error) (errorInfo : ExecutionError)
      (w w' : World) (o : Outcome Iteration) :
  quietWorld w -> validInitialDelay job -> retry (config job) = Some rc ->
  retryBranch rt job runId attempt rc lastError errorInfo w = (o, w') ->
  exists ev,
    Step w w' [ev] /\ ev_type ev = job_retry /\ ev_attempt ev = attempt
    /\ o = Returns (Continue (JS.increment attempt) lastError).
Proof.
  intros Q Hv Hrc. unfold retryBranch.
  destruct (now_Step w) as (t & w1 & H1 & S1 & _).
  returns H1. cbv beta.
  match goal with |- context [emit ?e] => set (ev := e) end.
  destruct (emit_quiet ev w1 (quietWorld_Step _ _ _ S1 Q)) as (w2 & H2 & S2 & _).
  returns H2.
  destruct (calculateRetryDelay_Ok job rc attempt Hv Hrc) as [delay ->].
  cbn [liftResult]. unfold ret at 1. unfold bind at 1.
  destruct (record_Step (Slept delay) w2) as (w3 & H3 & S3 & _).
  unfold sleep. returns H3.
  intros [= <- <-]. exists ev.
  pose proof (Step_trans _ _ _ _ _ S1 (Step_trans _ _ _ _ _ S2 S3)) as S.
  simpl in S. split; [exact S|]. by repeat split.
Qed.

Lemma toError_printable (err : Thrown) (w : World) :
  printable err -> toError err w = (Returns (errorOf err), w).
Proof. by destruct err. Qed.

(** The [catch] block, when no listener throws, the delay parses and what
    was thrown is printable: it emits [job:retry] and continues when
    another attempt is due, and otherwise emits the terminal event and ends
    the run. *)
Lemma catchBlock_spec (job : JobDefinition) (runId : string) (startedAt : Z)
      (signal : Signal) (attempt : Z) (err : Thrown) (w w' : World)
      (o : Outcome Iteration) :
  quietWorld w -> validInitialDelay job -> printable err ->
  catchBlock rt job runId startedAt signal attempt err w = (o, w') ->
  exists ev,
    Step w w' [ev] /\ ev_attempt ev = attempt
    /\ ((exists rc, retry (config job) = Some rc /\ shouldRetry attempt rc = true
                    /\ ev_type ev = job_retry
                    /\ o = Returns (Continue (JS.increment attempt) (errorOf err)))
        \/ (isTerminal (ev_type ev) = true /\ ev_type ev <> job_success
            /\ wantsRetry job attempt = false
            /\ ((exists r, o = Returns (Return r) /\ res_attempt r = attempt)
                \/ (o = NeverSettles /\ ~ callbacksSettle job)))).
Proof.
  intros Q Hv Hp. unfold catchBlock.
  erewrite bind_Returns; [|by apply toError_printable]. cbv zeta.
  assert (Hfail : wantsRetry job attempt = false ->
                  failBranch rt job runId startedAt signal attempt (errorOf err)
                    (isTimeoutError err) (errorInfoOf (errorOf err)) w = (o, w') ->
                  exists ev,
                    Step w w' [ev] /\ ev_attempt ev = attempt
                    /\ ((exists rc, retry (config job) = Some rc
                                    /\ shouldRetry attempt rc = true
                                    /\ ev_type ev = job_retry
                                    /\ o = Returns (Continue (JS.increment attempt)
                                                             (errorOf err)))
                        \/ (isTerminal (ev_type ev) = true /\ ev_type ev <> job_success
                            /\ wantsRetry job attempt = false
                            /\ ((exists r, o = Returns (Return r) /\ res_attempt r = attempt)
                                \/ (o = NeverSettles /\ ~ callbacksSettle job))))).
  { intros Hno H. destruct (failBranch_spec _ _ _ _ _ _ _ _ _ _ _ Q H)
      as (ev & S & Ht & Ha & Ho).
    exists ev. split; [exact S|]. split; [exact Ha|]. right.
    rewrite Ht. split; [by destruct (isTimeoutError err)|].
    split; [by destruct (isTimeoutError err)|]. split; [exact Hno|].
    destruct Ho as [(r & -> & Hr & _) | Hn]; [left; eauto | by right]. }
  unfold wantsRetry in *.
  destruct (retry (config job)) as [rc|] eqn:Hrc; [|by apply Hfail].
  destruct (shouldRetry attempt rc) eqn:Hs; [|by apply Hfail].
  intros H. destruct (retryBranch_spec _ _ _ _ _ _ _ _ _ Q Hv Hrc H)
    as (ev & S & Ht & Ha & ->).
  exists ev. split; [exact S|]. split; [exact Ha|]. left. exists rc. by repeat split.
Qed.

Lemma tryCatch_Throws {A} (m : M A) (h : Thrown -> M A) (w w1 : World) (err : Thrown) :
  m w = (Throws err, w1) -> tryCatch m h w = h err w1.
Proof. unfold tryCatch. by intros ->. Qed.

Lemma tryCatch_Returns {A} (m : M A) (h : Thrown -> M A) (w w1 : World) (a : A) :
  m w = (Returns a, w1) -> tryCatch m h w = (Returns a, w1).
Proof. unfold tryCatch. by intros ->. Qed.

Lemma tryCatch_NeverSettles {A} (m : M A) (h : Thrown -> M A) (w w1 : World) :
  m w = (NeverSettles, w1) -> tryCatch m h w = (NeverSettles, w1).
Proof. unfold tryCatch. by intros ->. Qed.

(** One iteration of the loop, whose attempt is [m]: when no listener
    throws, the delay parses and the rejections of the handler are
    printable, it emits one event, [job:retry] when it continues with the
    next attempt and a terminal event when it ends the run. *)
Lemma iteration_spec (job : JobDefinition) (runId : string) (startedAt : Z)
      (signal : Signal) (attempt : Z) (m : M unit) (w w' : World)
      (o : Outcome Iteration) :
  AttemptEnds job m ->
  quietWorld w -> validInitialDelay job -> printableRejections job ->
  tryCatch (do m then successBranch rt job runId startedAt signal attempt)
           (catchBlock rt job runId startedAt signal attempt) w = (o, w') ->
  exists ev,
    Step w w' [ev] /\ ev_attempt ev = attempt
    /\ ((exists rc lastError,
            retry (config job) = Some rc /\ shouldRetry attempt rc = true
            /\ ev_type ev = job_retry
            /\ o = Returns (Continue (JS.increment attempt) lastError))
        \/ (isTerminal (ev_type ev) = true
            /\ ((exists w1, m w = (Returns tt, w1))
                \/ wantsRetry job attempt = false)
            /\ ((exists r, o = Returns (Return r) /\ res_attempt r = attempt)
                \/ (o = NeverSettles /\ ~ callbacksSettle job)))).
Proof.
  intros Hm Q Hv Hp.
  destruct (m w) as [o1 w1] eqn:E1.
  destruct (Hm _ _ _ E1) as [S1 [-> | (err & -> & Herr)]].
  - (* the attempt succeeded *)
    destruct (successBranch rt job runId startedAt signal attempt w1) as [o2 w2] eqn:E2.
    destruct (successBranch_spec _ _ _ _ _ _ _ _ (quietWorld_Step _ _ _ S1 Q) E2)
      as (ev & S2 & Ht & Ha & Ho).
    pose proof (Step_trans _ _ _ _ _ S1 S2) as S12. simpl in S12.
    assert (Hterm : isTerminal (ev_type ev) = true) by by rewrite Ht.
    destruct Ho as [(r & -> & Hr & _) | [-> Hn]].
    + erewrite tryCatch_Returns; [|returns E1; exact E2].
      intros [= <- <-]. exists ev. split; [exact S12|]. split; [exact Ha|].
      right. split; [exact Hterm|]. split; [left; eauto|]. left. eauto.
    + erewrite tryCatch_NeverSettles; [|returns E1; exact E2].
      intros [= <- <-]. exists ev. split; [exact S12|]. split; [exact Ha|].
      right. split; [exact Hterm|]. split; [left; eauto|]. by right.
  - (* the attempt failed *)
    erewrite tryCatch_Throws; [|throws E1; reflexivity].
    intros E2.
    destruct (catchBlock_spec _ _ _ _ _ _ _ _ _ (quietWorld_Step _ _ _ S1 Q) Hv
                (Herr Hp) E2) as (ev & S2 & Ha & Hcase).
    pose proof (Step_trans _ _ _ _ _ S1 S2) as S12. simpl in S12.
    exists ev. split; [exact S12|]. split; [exact Ha|].
    destruct Hcase as [(rc & Hrc & Hs & Ht & ->) | (Hterm & _ & Hno & Ho)].
    + left. exists rc, (errorOf err). by repeat split.
    + right. split; [exact Hterm|]. split; [by right | exact Ho].
Qed.

Lemma tryBlock_iteration (job : JobDefinition) (runId : string) (startedAt : Z)
      (signal : Signal) (attempt : Z) (w w' : World) (o : Outcome Iteration) :
  quietWorld w -> validInitialDelay job -> printableRejections job ->
  tryCatch (tryBlock rt job runId startedAt signal attempt)
           (catchBlock rt job runId startedAt signal attempt) w = (o, w') ->
  exists ev,
    Step w w' [ev] /\ ev_attempt ev = attempt
    /\ ((exists rc lastError,
            retry (config job) = Some rc /\ shouldRetry attempt rc = true
            /\ ev_type ev = job_retry
            /\ o = Returns (Continue (JS.increment attempt) lastError))
        \/ (isTerminal (ev_type ev) = true
            /\ ((exists w1, executeAttempt rt job runId attempt signal w
                            = (Returns tt, w1))
                \/ wantsRetry job attempt = false)
            /\ ((exists r, o = Returns (Return r) /\ res_attempt r = attempt)
                \/ (o = NeverSettles /\ ~ callbacksSettle job)))).
Proof.
  unfold tryBlock. apply iteration_spec. apply executeAttempt_ends.
Qed.

Lemma retriesFrom_nil (attempt : Z) (terminal : ExecutionEvent) :
  isTerminal (ev_type terminal) = true -> ev_attempt terminal = attempt ->
  retriesFrom attempt [] terminal.
Proof.
  intros Ht Ha. unfold retriesFrom. cbn [length map]. rewrite Z.add_0_r.
  by repeat split.
Qed.

Lemma retriesFrom_cons (attempt : Z) (e : ExecutionEvent)
      (retries : list ExecutionEvent) (terminal : ExecutionEvent) :
  ev_type e = job_retry -> ev_attempt e = attempt ->
  retriesFrom (attempt + 1) retries terminal ->
  retriesFrom attempt (e :: retries) terminal.
Proof.
  intros Ht Ha (Hall & Hnum & Hterm & Hta). unfold retriesFrom.
  split; [by constructor|]. split; [|split; [exact Hterm|]].
  - cbn [map length]. rewrite Hnum, Ha, (seqZ_cons attempt) by lia.
    f_equal. f_equal; lia.
  - cbn [length]. lia.
Qed.

Lemma retryEvents_cons (attempt : Z) (e : ExecutionEvent)
      (retries : list ExecutionEvent) :
  ev_type e = job_retry -> ev_attempt e = attempt ->
  retryEvents (attempt + 1) retries -> retryEvents attempt (e :: retries).
Proof.
  intros Ht Ha (Hall & Hnum). split; [by constructor|].
  cbn [map length]. rewrite Hnum, Ha, (seqZ_cons attempt) by lia.
  f_equal. f_equal; lia.
Qed.

(** The loop of [run], when no listener throws, the delay parses, the
    rejections are printable and [retry.attempts] is not above [2^53]: it
    emits a [job:retry] for each attempt that fails while [shouldRetry]
    holds, numbered from the attempt it starts with; then it ends the run
    with one terminal event, or its condition fails of the next attempt. *)
Lemma attemptLoop_spec (job : JobDefinition) (runId : string) (startedAt : Z)
      (signal : Signal) :
  boundedAttempts job -> validInitialDelay job -> printableRejections job ->
  forall (fuel : nat) (attempt : Z) (lastError : option JS.Error)
         (w w' : World) (o : Outcome LoopExit),
    quietWorld w ->
    1 <= attempt ->
    (loopFuel (maxAttemptsOf job) <= fuel + Z.to_nat (attempt - 1))%nat ->
    attemptLoop rt fuel job runId startedAt signal (maxAttemptsOf job)
                attempt lastError w = (o, w') ->
    exists retries,
      retryEvents attempt retries
      /\ ((exists terminal,
             Step w w' (retries ++ [terminal])
             /\ isTerminal (ev_type terminal) = true
             /\ ev_attempt terminal = attempt + Z.of_nat (length retries)
             /\ ((exists r, o = Returns (Returned r)
                            /\ res_attempt r = attempt + Z.of_nat (length retries))
                 \/ (o = NeverSettles /\ ~ callbacksSettle job)))
          \/ (Step w w' retries
              /\ (exists le, o = Returns (ConditionFalse
                                            (attempt + Z.of_nat (length retries)) le))
              /\ JS.leb (JS.Int (attempt + Z.of_nat (length retries)))
                        (maxAttemptsOf job) = false
              /\ (retries = []
                  \/ JS.ltb (JS.Int (attempt + Z.of_nat (length retries) - 1))
                            (maxAttemptsOf job) = true))).
Proof.
  intros Hb Hv Hp. pose proof (boundedAttempts_max job Hb) as Hmax.
  induction fuel as [|fuel IH]; intros attempt lastError w w' o Q H1 Hfuel.
  - cbn [attemptLoop].
    destruct (JS.leb (JS.Int attempt) (maxAttemptsOf job)) eqn:Hle; cbn [negb].
    + pose proof (leb_loopFuel _ _ H1 Hle Hmax). lia.
    + intros [= <- <-]. exists []. split; [by split|]. right.
      cbn [length]. rewrite Z.add_0_r.
      split; [apply Step_refl|]. split; [eauto|]. split; [exact Hle | by left].
  - cbn [attemptLoop].
    destruct (JS.leb (JS.Int attempt) (maxAttemptsOf job)) eqn:Hle; cbn [negb].
    2: { intros [= <- <-]. exists []. split; [by split|]. right.
         cbn [length]. rewrite Z.add_0_r.
         split; [apply Step_refl|]. split; [eauto|]. split; [exact Hle | by left]. }
    destruct (tryCatch (tryBlock rt job runId startedAt signal attempt)
                (catchBlock rt job runId startedAt signal attempt) w)
      as [o1 w1] eqn:E1.
    destruct (tryBlock_iteration _ _ _ _ _ _ _ _ Q Hv Hp E1)
      as (ev & S1 & Ha & Hcase).
    destruct Hcase as [(rc & le & Hrc & Hs & Ht & ->) | (Hterm & _ & Ho)].
    + (* another attempt *)
      returns E1.
      assert (Hmaxrc : maxAttemptsOf job = attempts rc)
        by (unfold maxAttemptsOf; by rewrite Hrc).
      rewrite shouldRetry_in_loop in Hs; [|exact H1|by rewrite <- Hmaxrc].
      rewrite <- Hmaxrc in Hs.
      rewrite (ltb_increment _ _ H1 Hs Hmax).
      intros Hloop.
      destruct (IH (attempt + 1) _ w1 w' o (quietWorld_Step _ _ _ S1 Q)
                   ltac:(lia) ltac:(lia) Hloop)
        as (retries & Hretries & Hend).
      exists (ev :: retries). split; [by apply retryEvents_cons|].
      cbn [length].
      replace (attempt + Z.of_nat (S (length retries)))
        with (attempt + 1 + Z.of_nat (length retries)) by lia.
      destruct Hend as [(terminal & S2 & Hterm & Hta & Ho)
                       | (S2 & Ho & Hle' & Hlast)].
      * left. exists terminal.
        split; [exact (Step_trans _ _ _ _ _ S1 S2)|]. by repeat split.
      * right. split; [exact (Step_trans _ _ _ _ _ S1 S2)|].
        split; [exact Ho|]. split; [exact Hle'|]. right.
        destruct Hlast as [-> | Hlast]; [|exact Hlast].
        cbn [length]. by replace (attempt + 1 + Z.of_nat 0 - 1) with attempt by lia.
    + assert (Hend : forall o, (exists r, o = Returns (Returned r)
                                          /\ res_attempt r = attempt)
                               \/ (o = NeverSettles /\ ~ callbacksSettle job) ->
                     exists retries,
                       retryEvents attempt retries
                       /\ ((exists terminal,
                              Step w w1 (retries ++ [terminal])
                              /\ isTerminal (ev_type terminal) = true
                              /\ ev_attempt terminal
                                 = attempt + Z.of_nat (length retries)
                              /\ ((exists r, o = Returns (Returned r)
                                             /\ res_attempt r
                                                = attempt + Z.of_nat (length retries))
                                  \/ (o = NeverSettles /\ ~ callbacksSettle job)))
                           \/ (Step w w1 retries
                               /\ (exists le,
                                      o = Returns (ConditionFalse
                                                     (attempt + Z.of_nat (length retries))
                                                     le))
                               /\ JS.leb (JS.Int (attempt + Z.of_nat (length retries)))
                                         (maxAttemptsOf job) = false
                               /\ (retries = []
                                   \/ JS.ltb (JS.Int (attempt + Z.of_nat (length retries)
                                                      - 1))
                                             (maxAttemptsOf job) = true)))).
      { intros o' Ho'. exists []. split; [by split|]. left. exists ev.
        cbn [length app]. rewrite Z.add_0_r.
        split; [exact S1|]. split; [exact Hterm|]. split; [exact Ha | exact Ho']. }
      destruct Ho as [(r & -> & Hr) | [-> Hn]].
      * returns E1. intros [= <- <-]. apply Hend. left. eauto.
      * never_settles E1. intros [= <- <-]. apply Hend. by right.
Qed.

Lemma randomSuffix_Step (w : World) :
  exists r w', randomSuffix rt w = (Returns r, w') /\ Step w w' [].
Proof.
  eexists _, _. split; [reflexivity|].
  split; simpl; [reflexivity | reflexivity | by rewrite app_nil_r].
Qed.
(** [run] up to its [job:start] event. *)
Lemma runTracedWith_start (fuel : nat) (job : JobDefinition) (w : World) :
  runTracedWith rt fuel job w
  = bind (emit (startEventIn rt job w))
         (fun _ =>
            let* exit := attemptLoop rt fuel job (runIdIn rt w) (startedAtIn rt w)
                                     (length (controllers w)) (maxAttemptsOf job)
                                     1 None in
            afterLoop rt job (runIdIn rt w) (startedAtIn rt w) exit)
         (startedWorld w).
Proof. reflexivity. Qed.

Lemma runStart_start (job : JobDefinition) (w : World) :
  runStart rt job w
  = bind (emit (startEventIn rt job w))
         (fun _ =>
            if negb (JS.leb (JS.Int 1) (maxAttemptsOf job))
            then
              let* traced := afterLoop rt job (runIdIn rt w) (startedAtIn rt w)
                                       (ConditionFalse 1 None) in
              ret (Finished traced)
            else
              let* attemptStarted :=
                started (startAttempt rt job (runIdIn rt w) 1
                                      (length (controllers w))) in
              ret (AtFirstAwait (runIdIn rt w) (startedAtIn rt w)
                                (length (controllers w)) attemptStarted))
         (startedWorld w).
Proof. reflexivity. Qed.

Lemma quietWorld_started (w : World) : quietWorld w -> quietWorld (startedWorld w).
Proof. intros Q key ls l event. apply Q. Qed.

Lemma loopFuel_S (maxAttempts : JS.Number) :
  loopFuel maxAttempts = S (Nat.pred (loopFuel maxAttempts)).
Proof. by destruct maxAttempts. Qed.

(** A run, when no listener throws, the delay parses, the rejections are
    printable and [retry.attempts] is an integer from 1 to [2^53]: the
    events of the run, a new controller that stays as created, and a
    result returned from inside the loop unless a callback never settles. *)
Lemma runTraced_quiet (job : JobDefinition) (w : World) :
  integerAttempts job -> validInitialDelay job -> printableRejections job ->
  quietWorld w ->
  exists o w' evs,
    runTraced rt job w = (o, w')
    /\ listeners w' = listeners w
    /\ controllers w' = controllers w ++ [false]
    /\ emittedEvents (trace w') = emittedEvents (trace w) ++ evs
    /\ runEvents evs
    /\ ((exists r, o = Returns (InsideLoop, r))
        \/ (o = NeverSettles /\ ~ callbacksSettle job)).
Proof.
  intros Hatt Hv Hp Q. unfold runTraced. rewrite runTracedWith_start.
  destruct (emit_quiet (startEventIn rt job w) _ (quietWorld_started w Q))
    as (w6 & H6 & S6 & _).
  returns H6.
  destruct (attemptLoop rt (loopFuel (maxAttemptsOf job)) job (runIdIn rt w)
              (startedAtIn rt w) (length (controllers w)) (maxAttemptsOf job)
              1 None w6) as [o7 w7] eqn:E7.
  destruct (attemptLoop_spec job _ _ _ (integerAttempts_bounded job Hatt) Hv Hp
              (loopFuel (maxAttemptsOf job)) 1 None w6 w7 o7
              (quietWorld_Step _ _ _ S6 (quietWorld_started w Q))
              ltac:(lia) ltac:(lia) E7)
    as (retries & [Hall Hnum] & Hend).
  destruct (integerAttempts_max job Hatt) as (n & Hn & Hrange).
  destruct Hend as [(terminal & S7 & Hterm & Hta & Ho) | (_ & _ & Hle & Hlast)].
  2: { exfalso. rewrite Hn in *. cbn [JS.leb JS.ltb] in *.
       destruct Hlast as [-> | Hlast]; cbn [length] in *; compared; lia. }
  pose proof (Step_trans _ _ _ _ _ S6 S7) as S67. simpl in S67.
  assert (Hevs : runEvents (startEventIn rt job w :: retries ++ [terminal])).
  { exists (startEventIn rt job w), retries, terminal.
    split; [reflexivity|]. split; [reflexivity|]. by repeat split. }
  assert (Hw7 : listeners w7 = listeners w
                /\ controllers w7 = controllers w ++ [false]
                /\ emittedEvents (trace w7)
                   = emittedEvents (trace w)
                     ++ (startEventIn rt job w :: retries ++ [terminal])).
  { split; [|split].
    - by rewrite (step_listeners _ _ _ S67).
    - by rewrite (step_controllers _ _ _ S67).
    - by rewrite (step_events _ _ _ S67). }
  destruct Hw7 as (HL & HC & HE).
  destruct Ho as [(r & -> & _) | [-> Hn']].
  - exists (Returns (InsideLoop, r)), w7, (startEventIn rt job w :: retries ++ [terminal]).
    split; [returns E7; reflexivity|].
    repeat (split; [assumption|]). left. eauto.
  - exists NeverSettles, w7, (startEventIn rt job w :: retries ++ [terminal]).
    split; [never_settles E7; reflexivity|].
    repeat (split; [assumption|]). by right.
Qed.

(** When no listener throws, the delay parses, the rejections are
    printable, the callbacks settle and [retry.attempts] is not above
    [2^53], a run resolves to a result. *)
Lemma runTraced_resolves (job : JobDefinition) (w : World) :
  quietWorld w -> validInitialDelay job -> callbacksSettle job ->
  boundedAttempts job -> printableRejections job ->
  exists traced w', runTraced rt job w = (Returns traced, w').
Proof.
  intros Q Hv Hs Hb Hp. unfold runTraced. rewrite runTracedWith_start.
  destruct (emit_quiet (startEventIn rt job w) _ (quietWorld_started w Q))
    as (w6 & H6 & S6 & _).
  returns H6.
  destruct (attemptLoop rt (loopFuel (maxAttemptsOf job)) job (runIdIn rt w)
              (startedAtIn rt w) (length (controllers w)) (maxAttemptsOf job)
              1 None w6) as [o7 w7] eqn:E7.
  destruct (attemptLoop_spec job _ _ _ Hb Hv Hp
              (loopFuel (maxAttemptsOf job)) 1 None w6 w7 o7
              (quietWorld_Step _ _ _ S6 (quietWorld_started w Q))
              ltac:(lia) ltac:(lia) E7)
    as (retries & _ & Hend).
  destruct Hend as [(terminal & _ & _ & _ & [(r & -> & _) | [_ Hn]])
                   | (_ & (le & ->) & _)].
  - returns E7. by eexists _, _.
  - contradiction.
  - returns E7. cbn [afterLoop].
    destruct (now_Step w7) as (t & w8 & H8 & _). returns H8. by eexists _, _.
Qed.

Lemma run_resolves (job : JobDefinition) (w : World) :
  quietWorld w -> validInitialDelay job -> callbacksSettle job ->
  boundedAttempts job -> printableRejections job ->
  exists r w', run rt job w = (Returns r, w').
Proof.
  intros Q Hv Hs Hb Hp.
  destruct (runTraced_resolves job w Q Hv Hs Hb Hp) as (traced & w' & Hrun).
  exists (snd traced), w'. unfold run. returns Hrun. reflexivity.
Qed.

(** *** A call of [run] as its caller sees it *)

(** [run] is [runStart] followed by [runResume]. *)
Lemma runTraced_split (job : JobDefinition) (w : World) :
  runTraced rt job w
  = bind (runStart rt job) (runResume rt (loopFuel (maxAttemptsOf job)) job) w.
Proof.
  unfold runTraced.
  rewrite runTracedWith_start, (bind_at _ _ _ _ _ (runStart_start job w)), bind_assoc.
  rewrite (loopFuel_S (maxAttemptsOf job)).
  set (w5 := startedWorld w).
  destruct (emit (startEventIn rt job w) w5) as [[[]|err| |] w6] eqn:E6.
  2: { by both_throw E6. }
  2: { unfold bind. by rewrite E6. }
  2: { unfold bind. by rewrite E6. }
  both_return E6. cbn [attemptLoop].
  destruct (JS.leb (JS.Int 1) (maxAttemptsOf job)); cbn [negb].
  - (* the loop is entered *)
    destruct (startAttempt rt job (runIdIn rt w) 1 (length (controllers w)) w6)
      as [o7 w7] eqn:E7.
    rewrite (bind_assoc (started _)).
    rewrite (bind_Returns (started _) _ w6 w7 o7 (started_at _ _ _ _ E7)).
    rewrite bind_ret. cbn [runResume]. cbv zeta.
    rewrite bind_assoc. apply bind_at.
    unfold tryBlock, tryCatch, bind. rewrite executeAttempt_split.
    unfold bind. rewrite E7. unfold await.
    destruct o7 as [race|err| |]; reflexivity.
  - (* the condition of the loop fails at once *)
    rewrite bind_ret, bind_assoc. unfold bind.
    destruct (afterLoop rt job (runIdIn rt w) (startedAtIn rt w)
                (ConditionFalse 1 None) w6) as [[traced|err| |] w7]; reflexivity.
Qed.

(** [emit] reads neither the clock nor the random generator. *)
Lemma forEach_reads (event : ExecutionEvent) (ls : list ExecutionEventListener)
      (w : World) :
  clockReads (snd (forEach (callListener event) ls w)) = clockReads w
  /\ randomReads (snd (forEach (callListener event) ls w)) = randomReads w.
Proof.
  revert w. induction ls as [|x ls IH]; intros w; [by split|].
  cbn [forEach]. unfold callListener at 1 3, bind, record.
  destruct (listen x event); [by split|]. cbn [ret].
  match goal with |- context [forEach _ ls ?w1] => exact (IH w1) end.
Qed.

Lemma emit_reads (event : ExecutionEvent) (w : World) :
  clockReads (snd (emit event w)) = clockReads w
  /\ randomReads (snd (emit event w)) = randomReads w.
Proof.
  rewrite emit_forEach. unfold bind, record.
  match goal with |- context [forEach _ ?ls ?w1] => exact (forEach_reads event ls w1) end.
Qed.

(** [runStart], when no listener throws: it has emitted [job:start], and
    it has read the clock five times when the loop is entered, for the run
    id, [startedAt], the timestamp of the event and the two times of the
    context, and four times otherwise. *)
Lemma runStart_quiet (job : JobDefinition) (w : World) :
  quietWorld w ->
  exists suspended w1,
    runStart rt job w = (Returns suspended, w1)
    /\ Step (startedWorld w) w1 [startEventIn rt job w]
    /\ resumable job suspended
    /\ clockReads w1
       = ((if JS.leb (JS.Int 1) (maxAttemptsOf job) then 5 else 4) + clockReads w)%nat
    /\ randomReads w1 = S (randomReads w).
Proof.
  intros Q. rewrite runStart_start.
  destruct (emit_quiet (startEventIn rt job w) _ (quietWorld_started w Q))
    as (w6 & H6 & S6 & _).
  assert (C6 : clockReads w6 = (3 + clockReads w)%nat
               /\ randomReads w6 = S (randomReads w)).
  { pose proof (emit_reads (startEventIn rt job w) (startedWorld w)) as H.
    by rewrite H6 in H. }
  destruct C6 as [C6 R6].
  returns H6.
  destruct (JS.leb (JS.Int 1) (maxAttemptsOf job)) eqn:Hle; cbn [negb].
  - destruct (startAttempt rt job (runIdIn rt w) 1 (length (controllers w)) w6)
      as [o7 w7] eqn:E7.
    destruct (startAttempt_any _ _ _ _ _ _ _ E7) as [S7 Ho7].
    exists (AtFirstAwait (runIdIn rt w) (startedAtIn rt w)
                         (length (controllers w)) o7), w7.
    split; [erewrite bind_Returns; [reflexivity | by apply started_at]|].
    pose proof (Step_trans _ _ _ _ _ S6 S7) as S. rewrite app_nil_r in S.
    split; [exact S|]. split; [by split|].
    revert E7. unfold startAttempt, bind, now. cbn [fst snd].
    destruct (truthyString (timeout (config job))) as [t|].
    + destruct (parseDuration t) as [ms|e]; cbn [liftResult ret throw record];
        intros [= _ <-]; cbn [clockReads randomReads]; split; lia.
    + cbn [ret record]. intros [= _ <-]. cbn [clockReads randomReads]. split; lia.
  - cbn [afterLoop].
    destruct (now_Step w6) as (t & w7 & H7 & S7 & _).
    eexists _, w7.
    split; [erewrite bind_Returns; [reflexivity | returns H7; reflexivity]|].
    pose proof (Step_trans _ _ _ _ _ S6 S7) as S. rewrite app_nil_r in S.
    split; [exact S|]. split; [exact I|].
    injection H7 as _ <-. cbn [clockReads randomReads]. split; lia.
Qed.

(** The rest of a run, from its first [await] on, resolves to a result
    under the conditions under which a whole run does. *)
Lemma runResume_resolves (job : JobDefinition) (suspended : Suspended) (w : World) :
  quietWorld w -> validInitialDelay job -> callbacksSettle job ->
  boundedAttempts job -> printableRejections job ->
  resumable job suspended ->
  exists traced w',
    runResume rt (loopFuel (maxAttemptsOf job)) job suspended w = (Returns traced, w').
Proof.
  intros Q Hv Hs Hb Hp Hres.
  destruct suspended as [traced | runId startedAt signal o]; [by eexists _, _|].
  destruct Hres as [Hstarted Hle].
  pose proof (boundedAttempts_max job Hb) as Hmax.
  rewrite (loopFuel_S (maxAttemptsOf job)). cbn [runResume]. cbv zeta.
  match goal with |- context [bind (tryCatch ?m ?h) _ w] =>
    destruct (tryCatch m h w) as [o1 w1] eqn:E1 end.
  destruct (iteration_spec _ _ _ _ _ _ _ _ _ (awaited_ends job o Hstarted) Q Hv Hp E1)
    as (ev & S1 & Ha & Hcase).
  assert (Hafter : forall exit w2,
             exists traced w', afterLoop rt job runId startedAt exit w2
                               = (Returns traced, w')).
  { intros [r | a le] w2; [by eexists _, _|]. cbn [afterLoop].
    destruct (now_Step w2) as (t & w3 & H3 & _). returns H3. by eexists _, _. }
  destruct Hcase as [(rc & le & Hrc & Hsr & Ht & ->)
                    | (Hterm & _ & [(r & -> & _) | [_ Hn]])];
    [| |contradiction].
  - returns E1.
    assert (Hmaxrc : maxAttemptsOf job = attempts rc)
      by (unfold maxAttemptsOf; by rewrite Hrc).
    rewrite shouldRetry_in_loop in Hsr; [|lia|by rewrite <- Hmaxrc].
    rewrite <- Hmaxrc in Hsr.
    rewrite (ltb_increment 1 _ ltac:(lia) Hsr Hmax).
    match goal with |- context [bind (attemptLoop rt ?f _ _ _ _ _ ?a ?e) _ w1] =>
      destruct (attemptLoop rt f job runId startedAt signal (maxAttemptsOf job) a e w1)
        as [o2 w2] eqn:E2 end.
    destruct (attemptLoop_spec job _ _ _ Hb Hv Hp
                (Nat.pred (loopFuel (maxAttemptsOf job))) (1 + 1) _ w1 w2 o2
                (quietWorld_Step _ _ _ S1 Q) ltac:(lia)
                ltac:(pose proof (loopFuel_S (maxAttemptsOf job)); lia) E2)
      as (retries & _ & Hend).
    destruct Hend as [(terminal & _ & _ & _ & [(r & -> & _) | [_ Hn]])
                     | (_ & (le' & ->) & _)]; [| contradiction |].
    + returns E2. apply Hafter.
    + returns E2. apply Hafter.
  - returns E1. cbv beta iota. rewrite bind_ret. apply Hafter.
Qed.

(** *** What a run leaves as it was *)

Lemma framed_ret {A} (a : A) : framed (ret a).
Proof. by intros w. Qed.

Lemma framed_throw {A} (err : Thrown) : framed (throw (A := A) err).
Proof. by intros w. Qed.

Lemma framed_bind {A B} (m : M A) (k : A -> M B) :
  framed m -> (forall a, framed (k a)) -> framed (bind m k).
Proof.
  intros Hm Hk w. specialize (Hm w). unfold bind.
  destruct (m w) as [[a|err| |] w1]; cbn [snd] in *; try exact Hm.
  destruct (Hk a w1) as [L C]. split; [by rewrite L, (proj1 Hm) | by rewrite C, (proj2 Hm)].
Qed.

Lemma framed_tryCatch {A} (m : M A) (h : Thrown -> M A) :
  framed m -> (forall err, framed (h err)) -> framed (tryCatch m h).
Proof.
  intros Hm Hh w. specialize (Hm w). unfold tryCatch.
  destruct (m w) as [[a|err| |] w1]; cbn [snd] in *; try exact Hm.
  destruct (Hh err w1) as [L C]. split; [by rewrite L, (proj1 Hm) | by rewrite C, (proj2 Hm)].
Qed.

Lemma framed_tryFinally {A} (m : M A) (f : M unit) :
  framed m -> framed f -> framed (tryFinally m f).
Proof.
  intros Hm Hf w. specialize (Hm w). unfold tryFinally.
  destruct (m w) as [[a|err| |] w1]; cbn [snd] in *; try exact Hm.
  - destruct (framed_bind f (fun _ => ret a) Hf (fun _ => framed_ret a) w1) as [L C].
    split; [by rewrite L, (proj1 Hm) | by rewrite C, (proj2 Hm)].
  - destruct (framed_bind f (fun _ => throw (A := A) err) Hf
                (fun _ => framed_throw err) w1) as [L C].
    split; [by rewrite L, (proj1 Hm) | by rewrite C, (proj2 Hm)].
Qed.

Lemma framed_record (a : Action) : framed (record a).
Proof. by intros w. Qed.

Lemma framed_now : framed (now rt).
Proof. by intros w. Qed.

Lemma framed_liftResult {A} (r : Result A) : framed (liftResult r).
Proof. intros w. by destruct r. Qed.

Lemma framed_getListeners (key : string) : framed (getListeners key).
Proof. by intros w. Qed.

Lemma framed_toError (err : Thrown) : framed (toError err).
Proof. intros w. by destruct err. Qed.

Lemma framed_awaitCallback (r : CallbackRun) : framed (awaitCallback r).
Proof. intros w. by destruct r. Qed.

Create HintDb framed.
#[local] Hint Resolve framed_ret framed_throw framed_record framed_now
  framed_liftResult framed_getListeners framed_toError framed_awaitCallback : framed.

(** One [bind] of a computation that is framed. *)
Ltac framed_step := apply framed_bind; [auto with framed | intros ?].

Lemma framed_forEach {A} (f : A -> M unit) (l : list A) :
  (forall x, framed (f x)) -> framed (forEach f l).
Proof.
  intros Hf. induction l as [|x l IH]; [auto with framed|].
  cbn [forEach]. framed_step. exact IH.
Qed.

Lemma framed_callListener (event : ExecutionEvent) (l : ExecutionEventListener) :
  framed (callListener event l).
Proof.
  unfold callListener. framed_step. destruct (listen l event); auto with framed.
Qed.

#[local] Hint Resolve framed_forEach framed_callListener : framed.

Lemma framed_emit (event : ExecutionEvent) : framed (emit event).
Proof. unfold emit. do 4 framed_step. auto with framed. Qed.

#[local] Hint Resolve framed_emit : framed.

Lemma framed_executeAttempt (job : JobDefinition) (runId : string) (attempt : Z)
      (signal : Signal) :
  framed (executeAttempt rt job runId attempt signal).
Proof.
  unfold executeAttempt. do 2 framed_step. cbv zeta.
  apply framed_bind; [destruct (truthyString _); auto with framed | intros ms].
  framed_step.
  apply framed_tryFinally; [|auto with framed].
  framed_step. destruct (handler job _); auto with framed.
Qed.

Lemma framed_callback (a : Action) (r : CallbackRun) :
  framed (tryCatch (do record a then awaitCallback r) (fun _ => ret tt)).
Proof.
  apply framed_tryCatch; [|auto with framed]. framed_step. auto with framed.
Qed.

#[local] Hint Resolve framed_executeAttempt framed_callback : framed.

Lemma framed_tryBlock (job : JobDefinition) (runId : string) (startedAt : Z)
      (signal : Signal) (attempt : Z) :
  framed (tryBlock rt job runId startedAt signal attempt).
Proof.
  unfold tryBlock, successBranch. do 2 framed_step. cbv zeta. framed_step.
  apply framed_bind; [destruct (onSuccess _); auto with framed | intros _].
  auto with framed.
Qed.

Lemma framed_failBranch (job : JobDefinition) (runId : string) (startedAt : Z)
      (signal : Signal) (attempt : Z) (lastError : JS.Error) (isTimeout : bool)
      (errorInfo : ExecutionError) :
  framed (failBranch rt job runId startedAt signal attempt lastError isTimeout errorInfo).
Proof.
  unfold failBranch. framed_step. cbv zeta. framed_step.
  apply framed_bind; [destruct (onFailure _); auto with framed | intros _].
  auto with framed.
Qed.

Lemma framed_catchBlock (job : JobDefinition) (runId : string) (startedAt : Z)
      (signal : Signal) (attempt : Z) (err : Thrown) :
  framed (catchBlock rt job runId startedAt signal attempt err).
Proof.
  unfold catchBlock. framed_step. cbv zeta.
  destruct (retry (config job)) as [rc|]; [|apply framed_failBranch].
  destruct (shouldRetry attempt rc); [|apply framed_failBranch].
  unfold retryBranch, sleep. do 4 framed_step. auto with framed.
Qed.

Lemma framed_attemptLoop (job : JobDefinition) (runId : string) (startedAt : Z)
      (signal : Signal) (maxAttempts : JS.Number) (fuel : nat) :
  forall attempt lastError,
    framed (attemptLoop rt fuel job runId startedAt signal maxAttempts
                        attempt lastError).
Proof.
  induction fuel as [|fuel IH]; intros attempt lastError; cbn [attemptLoop];
    destruct (negb _); try (intros w; split; reflexivity).
  apply framed_bind.
  - apply framed_tryCatch; [apply framed_tryBlock | intros err; apply framed_catchBlock].
  - intros [r | attempt' lastError']; [auto with framed | apply IH].
Qed.

Lemma framed_afterLoop (job : JobDefinition) (runId : string) (startedAt : Z)
      (exit : LoopExit) :
  framed (afterLoop rt job runId startedAt exit).
Proof. destruct exit; cbn [afterLoop]; [auto with framed|]. framed_step. auto with framed. Qed.

(** Whatever the job, the listeners and the fuel, and however the run
    ends, a run creates one controller, which it leaves as created, and
    leaves the other controllers and the listeners as they were. *)
Lemma runTracedWith_frame (fuel : nat) (job : JobDefinition) (w : World) :
  listeners (snd (runTracedWith rt fuel job w)) = listeners w
  /\ controllers (snd (runTracedWith rt fuel job w)) = controllers w ++ [false].
Proof.
  rewrite runTracedWith_start.
  match goal with |- context [bind ?m ?k (startedWorld w)] =>
    assert (Hf : framed (bind m k)) end.
  { framed_step. apply framed_bind; [apply framed_attemptLoop|].
    intros exit. apply framed_afterLoop. }
  exact (Hf (startedWorld w)).
Qed.

Lemma run_frame (job : JobDefinition) (w : World) :
  listeners (snd (run rt job w)) = listeners w
  /\ controllers (snd (run rt job w)) = controllers w ++ [false].
Proof.
  pose proof (runTracedWith_frame (loopFuel (maxAttemptsOf job)) job w) as H.
  unfold run, runTraced, bind.
  by destruct (runTracedWith rt (loopFuel (maxAttemptsOf job)) job w)
    as [[traced|err| |] w'].
Qed.
(** *** What the computations of the engine can return *)

Lemma yields_ret {A} (a : A) (P : A -> Prop) : P a -> yields (ret a) P.
Proof. intros H w. exact H. Qed.

Lemma yields_throw {A} (err : Thrown) (P : A -> Prop) : yields (throw err) P.
Proof. intros w. exact I. Qed.

Lemma yields_bind {A B} (m : M A) (k : A -> M B) (Q : A -> Prop) (P : B -> Prop) :
  yields m Q -> (forall a, Q a -> yields (k a) P) -> yields (bind m k) P.
Proof.
  intros Hm Hk w. specialize (Hm w). unfold bind.
  destruct (m w) as [[a|err| |] w1]; simpl in *; try done.
  by apply Hk.
Qed.

Lemma yields_weaken {A} (m : M A) (Q P : A -> Prop) :
  yields m Q -> (forall a, Q a -> P a) -> yields m P.
Proof.
  intros Hm HQP w. specialize (Hm w).
  destruct (fst (m w)); try done. by apply HQP.
Qed.

Lemma yields_tryCatch {A} (m : M A) (h : Thrown -> M A) (P : A -> Prop) :
  yields m P -> (forall err, yields (h err) P) -> yields (tryCatch m h) P.
Proof.
  intros Hm Hh w. specialize (Hm w). unfold tryCatch.
  destruct (m w) as [[a|err| |] w1]; simpl in *; try done.
  apply Hh.
Qed.

Lemma yields_tryFinally {A} (m : M A) (f : M unit) (P : A -> Prop) :
  yields m P -> yields f (fun _ => True) -> yields (tryFinally m f) P.
Proof.
  intros Hm Hf w. specialize (Hm w). unfold tryFinally.
  destruct (m w) as [[a|err| |] w1]; simpl in *; try done.
  - apply (yields_bind f _ (fun _ => True)); [exact Hf|].
    intros _ _. by apply yields_ret.
  - apply (yields_bind f _ (fun _ => True)); [exact Hf|].
    intros _ _. apply yields_throw.
Qed.

Lemma yields_record (a : Action) : yields (record a) (fun _ => True).
Proof. intros w. exact I. Qed.

Lemma yields_now : yields (now rt) (fun _ => True).
Proof. intros w. exact I. Qed.

Lemma yields_liftResult {A} (r : Result A) : yields (liftResult r) (fun _ => True).
Proof. intros w. by destruct r. Qed.

Lemma yields_ret_True {A} (a : A) : yields (ret a) (fun _ => True).
Proof. by apply yields_ret. Qed.

Create HintDb yields.
#[local] Hint Resolve yields_record yields_now yields_liftResult yields_throw
  yields_ret_True : yields.

(** One [bind] whose first computation returns nothing of interest. *)
Ltac yields_step :=
  apply (yields_bind _ _ (fun _ => True)); [auto with yields | intros ? _].

Lemma yields_forEach {A} (f : A -> M unit) (l : list A) :
  (forall x, yields (f x) (fun _ => True)) -> yields (forEach f l) (fun _ => True).
Proof.
  intros Hf. induction l as [|x l IH]; [auto with yields|].
  cbn [forEach]. yields_step. exact IH.
Qed.

Lemma yields_getListeners (key : string) : yields (getListeners key) (fun _ => True).
Proof. by intros w. Qed.

Lemma yields_callListener (event : ExecutionEvent) (l : ExecutionEventListener) :
  yields (callListener event l) (fun _ => True).
Proof.
  unfold callListener. yields_step. destruct (listen l event); auto with yields.
Qed.

#[local] Hint Resolve yields_getListeners yields_callListener yields_forEach : yields.

Lemma yields_emit (event : ExecutionEvent) : yields (emit event) (fun _ => True).
Proof. unfold emit. do 4 yields_step. auto with yields. Qed.

#[local] Hint Resolve yields_emit : yields.

Lemma yields_executeAttempt (job : JobDefinition) (runId : string) (attempt : Z)
      (signal : Signal) :
  yields (executeAttempt rt job runId attempt signal) (fun _ => True).
Proof.
  unfold executeAttempt. do 2 yields_step. cbv zeta.
  apply (yields_bind _ _ (fun _ => True));
    [destruct (truthyString _); auto with yields | intros ms _].
  yields_step.
  apply yields_tryFinally; [|auto with yields].
  yields_step. destruct (handler job _); auto with yields.
Qed.

Lemma yields_callback (a : Action) (r : CallbackRun) :
  yields (tryCatch (do record a then awaitCallback r) (fun _ => ret tt))
         (fun _ => True).
Proof.
  apply yields_tryCatch; [|auto with yields].
  yields_step. destruct r; [auto with yields | auto with yields | by intros w].
Qed.

#[local] Hint Resolve yields_executeAttempt yields_callback : yields.

(** The [try] block only ever returns a result. *)
Lemma yields_tryBlock (job : JobDefinition) (runId : string) (startedAt : Z)
      (signal : Signal) (attempt : Z) :
  yields (tryBlock rt job runId startedAt signal attempt)
         (fun it => exists r, it = Return r).
Proof.
  unfold tryBlock, successBranch. do 2 yields_step. cbv zeta. yields_step.
  apply (yields_bind _ _ (fun _ => True));
    [destruct (onSuccess _); auto with yields | intros _ _].
  apply yields_ret. eauto.
Qed.

Lemma yields_failBranch (job : JobDefinition) (runId : string) (startedAt : Z)
      (signal : Signal) (attempt : Z) (lastError : JS.Error) (isTimeout : bool)
      (errorInfo : ExecutionError) :
  yields (failBranch rt job runId startedAt signal attempt lastError isTimeout errorInfo)
         (fun it => exists r, it = Return r).
Proof.
  unfold failBranch. yields_step. cbv zeta. yields_step.
  apply (yields_bind _ _ (fun _ => True));
    [destruct (onFailure _); auto with yields | intros _ _].
  apply yields_ret. eauto.
Qed.

(** The [catch] block returns a result, or continues with the next
    attempt, and that only when [shouldRetry] holds. *)
Lemma yields_catchBlock (job : JobDefinition) (runId : string) (startedAt : Z)
      (signal : Signal) (attempt : Z) (err : Thrown) :
  yields (catchBlock rt job runId startedAt signal attempt err)
         (fun it =>
            (exists r, it = Return r)
            \/ (exists rc le, retry (config job) = Some rc
                              /\ shouldRetry attempt rc = true
                              /\ it = Continue (JS.increment attempt) le)).
Proof.
  unfold catchBlock.
  apply (yields_bind _ _ (fun _ => True)); [by destruct err | intros lastError _].
  cbv zeta.
  assert (Hfail := yields_failBranch job runId startedAt signal attempt lastError
                     (isTimeoutError err) (errorInfoOf lastError)).
  destruct (retry (config job)) as [rc|] eqn:Hrc;
    [|eapply yields_weaken; [exact Hfail | by left]].
  destruct (shouldRetry attempt rc) eqn:Hs;
    [|eapply yields_weaken; [exact Hfail | by left]].
  unfold retryBranch, sleep. do 4 yields_step.
  apply yields_ret. right. eauto.
Qed.

(** With [retry.attempts] an integer from 1 to [2^53], the loop is only
    left by a [return] (or by an exception): its condition never becomes
    false, whatever the listeners, the handler and the callbacks do. *)
Lemma yields_attemptLoop (job : JobDefinition) (runId : string) (startedAt : Z)
      (signal : Signal) :
  integerAttempts job ->
  forall (fuel : nat) (attempt : Z) (lastError : option JS.Error),
    1 <= attempt ->
    JS.leb (JS.Int attempt) (maxAttemptsOf job) = true ->
    (loopFuel (maxAttemptsOf job) <= fuel + Z.to_nat (attempt - 1))%nat ->
    yields (attemptLoop rt fuel job runId startedAt signal (maxAttemptsOf job)
                        attempt lastError)
           (fun exit => exists r, exit = Returned r).
Proof.
  intros Hatt.
  pose proof (boundedAttempts_max job (integerAttempts_bounded job Hatt)) as Hmax.
  destruct (integerAttempts_max job Hatt) as (n & Hn & Hrange).
  induction fuel as [|fuel IH]; intros attempt lastError H1 Hle Hfuel.
  { pose proof (leb_loopFuel _ _ H1 Hle Hmax). lia. }
  cbn [attemptLoop]. rewrite Hle. cbn [negb].
  apply (yields_bind _ _
           (fun it => (exists r, it = Return r)
                      \/ (exists rc le, retry (config job) = Some rc
                                        /\ shouldRetry attempt rc = true
                                        /\ it = Continue (JS.increment attempt) le))).
  - apply yields_tryCatch.
    + eapply yields_weaken; [apply yields_tryBlock|]. intros it Hit. left. exact Hit.
    + intros err. apply yields_catchBlock.
  - intros it [[r ->] | (rc & le & Hrc & Hs & ->)].
    + apply yields_ret. eauto.
    + assert (Hmaxrc : maxAttemptsOf job = attempts rc)
        by (unfold maxAttemptsOf; by rewrite Hrc).
      rewrite shouldRetry_in_loop in Hs; [|exact H1|by rewrite <- Hmaxrc].
      rewrite <- Hmaxrc in Hs.
      rewrite (ltb_increment _ _ H1 Hs Hmax).
      apply IH; [lia | | lia].
      rewrite Hn in *. by apply ltb_leb_succ.
Qed.

Lemma yields_runTraced (job : JobDefinition) :
  integerAttempts job ->
  yields (runTraced rt job) (fun traced => fst traced = InsideLoop).
Proof.
  intros Hatt. unfold runTraced, runTracedWith.
  apply (yields_bind _ _ (fun _ => True)); [by intros w | intros runId _].
  yields_step. cbv zeta.
  apply (yields_bind _ _ (fun _ => True)); [by intros w | intros signal _].
  do 2 yields_step.
  destruct (integerAttempts_max job Hatt) as (n & Hn & Hrange).
  apply (yields_bind _ _ (fun exit => exists r, exit = Returned r)).
  - apply (yields_attemptLoop job runId _ signal Hatt); [lia | | lia].
    rewrite Hn. cbn [JS.leb]. lia.
  - intros exit [r ->]. by apply yields_ret.
Qed.

(** *** Runs that have nothing to return *)

(** With [retry.attempts] below 1, or [NaN], the loop body never runs. *)
Lemma runTraced_no_attempts (job : JobDefinition) (w : World) :
  quietWorld w -> JS.leb (JS.Int 1) (maxAttemptsOf job) = false ->
  exists r w', runTraced rt job w = (Returns (AfterLoop, r), w')
               /\ res_error r = Some {| err_message := "Unknown error";
                                        err_stack := None |}.
Proof.
  intros Q Hmax. unfold runTraced. rewrite runTracedWith_start.
  destruct (emit_quiet (startEventIn rt job w) _ (quietWorld_started w Q))
    as (w6 & H6 & S6 & _).
  returns H6.
  rewrite (loopFuel_S (maxAttemptsOf job)). cbn [attemptLoop].
  rewrite Hmax. cbn [negb]. rewrite bind_ret. cbn [afterLoop].
  destruct (now_Step w6) as (t4 & w7 & H7 & S7 & _).
  returns H7. by eexists _, _.
Qed.

(** An attempt of a handler that never fulfils does not return. *)
Lemma executeAttempt_fails (job : JobDefinition) (runId : string) (attempt : Z)
      (signal : Signal) (w w1 : World) :
  neverFulfils job ->
  executeAttempt rt job runId attempt signal w <> (Returns tt, w1).
Proof.
  intros Hnever. rewrite executeAttempt_split.
  destruct (startAttempt rt job runId attempt signal w) as [o0 w0] eqn:E0.
  destruct (startAttempt_any _ _ _ _ _ _ _ E0) as [_ [(ms & context & ->) | (e & ->)]].
  - returns E0. unfold settleAttempt, tryFinally, bind, record. cbn [fst snd].
    specialize (Hnever context).
    by destruct (handler job context).
  - by throws E0.
Qed.

(** With [retry.attempts] above [2^53] ([Infinity] too) and a handler that
    never fulfils, the loop of a run never ends: the attempt, which stops
    growing at [2^53], stays below [retry.attempts], so that each attempt
    is followed by another, whatever number of iterations is followed. *)
Lemma attemptLoop_never_ends (job : JobDefinition) (runId : string) (startedAt : Z)
      (signal : Signal) (rc : RetryConfig) :
  retry (config job) = Some rc ->
  JS.ltb (JS.Int (2 ^ 53)) (attempts rc) = true ->
  neverFulfils job -> validInitialDelay job -> printableRejections job ->
  forall (fuel : nat) (attempt : Z) (lastError : option JS.Error) (w : World),
    quietWorld w -> 1 <= attempt <= 2 ^ 53 ->
    fst (attemptLoop rt fuel job runId startedAt signal (attempts rc)
                     attempt lastError w) = OutOfFuel.
Proof.
  intros Hrc Hbig Hnever Hv Hp.
  assert (Hlt : forall a, 1 <= a <= 2 ^ 53 -> JS.ltb (JS.Int a) (attempts rc) = true).
  { intros a Ha. destruct (attempts rc) as [n|m k| | |]; try discriminate;
      try reflexivity.
    - cbn [JS.ltb] in *. lia.
    - cbn [JS.ltb JS.fraction] in *. rewrite Z.mul_1_r in *.
      assert (0 < 2 ^ Z.pos k) by by apply Z.pow_pos_nonneg.
      apply Z.ltb_lt in Hbig. apply Z.ltb_lt. nia. }
  assert (Hleb : forall a, 1 <= a <= 2 ^ 53 -> JS.leb (JS.Int a) (attempts rc) = true).
  { intros a Ha. specialize (Hlt a Ha).
    destruct (attempts rc) as [n|m k| | |]; try discriminate; try reflexivity.
    - cbn [JS.ltb JS.leb] in *. lia.
    - cbn [JS.ltb JS.leb JS.fraction] in *. lia. }
  assert (Hinc : forall a, 1 <= a <= 2 ^ 53 -> 1 <= JS.increment a <= 2 ^ 53).
  { intros a Ha. destruct (Z.eq_dec a (2 ^ 53)) as [-> | Hne].
    - by vm_compute.
    - rewrite increment_safe by lia. lia. }
  assert (Hmaxrc : maxAttemptsOf job = attempts rc)
    by (unfold maxAttemptsOf; by rewrite Hrc).
  induction fuel as [|fuel IH]; intros attempt lastError w Q Ha;
    cbn [attemptLoop]; rewrite (Hleb attempt Ha); cbn [negb]; [reflexivity|].
  destruct (tryCatch (tryBlock rt job runId startedAt signal attempt)
              (catchBlock rt job runId startedAt signal attempt) w)
    as [o1 w1] eqn:E1.
  destruct (tryBlock_iteration _ _ _ _ _ _ _ _ Q Hv Hp E1)
    as (ev & S1 & _ & Hcase).
  destruct Hcase as [(rc' & le & _ & _ & _ & ->) | (_ & [[w2 Hret] | Hno] & _)].
  - returns E1. apply IH; [exact (quietWorld_Step _ _ _ S1 Q) | by apply Hinc].
  - by apply executeAttempt_fails in Hret.
  - unfold wantsRetry in Hno. rewrite Hrc in Hno.
    rewrite shouldRetry_in_loop in Hno; [|lia|by apply Hleb].
    by rewrite (Hlt attempt Ha) in Hno.
Qed.

Lemma runWith_never_ends (job : JobDefinition) (rc : RetryConfig) (w : World) :
  retry (config job) = Some rc ->
  JS.ltb (JS.Int (2 ^ 53)) (attempts rc) = true ->
  neverFulfils job -> validInitialDelay job -> printableRejections job ->
  quietWorld w ->
  forall fuel, fst (runWith rt fuel job w) = OutOfFuel.
Proof.
  intros Hrc Hbig Hnever Hv Hp Q fuel.
  unfold runWith. rewrite (bind_at _ _ _ _ _ (runTracedWith_start fuel job w)).
  destruct (emit_quiet (startEventIn rt job w) _ (quietWorld_started w Q))
    as (w6 & H6 & S6 & _).
  rewrite bind_assoc. returns H6.
  assert (Hmaxrc : maxAttemptsOf job = attempts rc)
    by (unfold maxAttemptsOf; by rewrite Hrc).
  rewrite Hmaxrc.
  pose proof (attemptLoop_never_ends job (runIdIn rt w) (startedAtIn rt w)
                (length (controllers w)) rc Hrc Hbig Hnever Hv Hp fuel 1 None w6
                (quietWorld_Step _ _ _ S6 (quietWorld_started w Q))
                ltac:(lia)) as Hloop.
  unfold bind.
  destruct (attemptLoop rt fuel job (runIdIn rt w) (startedAtIn rt w)
              (length (controllers w)) (attempts rc) 1 None w6) as [o7 w7].
  cbn [fst] in Hloop. by subst o7.
Qed.

End EngineFacts.

(** ** The execution engine: events of a run *)

Lemma run_world (rt : Runtime) (job : JobDefinition) (w : World) :
  snd (run rt job w) = snd (runTraced rt job w)
  /\ fst (run rt job w)
     = match fst (runTraced rt job w) with
       | Returns traced => Returns (snd traced)
       | Throws err => Throws err
       | NeverSettles => NeverSettles
       | OutOfFuel => OutOfFuel
       end.
Proof.
  unfold run, bind. by destruct (runTraced rt job w) as [[traced|err| |] w'].
Qed.

Lemma quietWorld_empty : quietWorld emptyWorld.
Proof.
  intros key ls l event H. unfold emptyWorld in H. cbn [listeners] in H.
  by rewrite lookup_empty in H.
Qed.

Lemma integerAttempts_flakyJob : integerAttempts flakyJob.
Proof. intros rc [= <-]. exists 3. split; [reflexivity | lia]. Qed.

Lemma validInitialDelay_flakyJob : validInitialDelay flakyJob.
Proof. intros rc d [= <-] [= <-]. reflexivity. Qed.

Lemma printableRejections_flakyJob : printableRejections flakyJob.
Proof.
  intros context err. cbn. destruct (ctx_attempt context <? 3); [|discriminate].
  by intros [= <-].
Qed.

Lemma callbacksSettle_flakyJob : callbacksSettle flakyJob.
Proof. split; [intros cb context [=] | intros cb error context [=]]. Qed.

(** C1, as amended.  For a job whose [retry.attempts], when present, is an
    integer from 1 to [2^53], whose [retry.initialDelay], when given, is a
    duration, and whose handler rejects with nothing but values that have a
    string form, and when no subscribed listener throws, one call of [run]
    emits one [job:start], then [job:retry] events, then one terminal event
    among [job:success], [job:failure], [job:timeout], in that order; the
    j-th [job:retry] carries the attempt j, the attempt that just failed,
    and the terminal event the attempt after the last retry. *)
Theorem run_emits_start_retries_terminal
        (rt : Runtime) (job : JobDefinition) (w : World) :
  integerAttempts job -> validInitialDelay job -> printableRejections job ->
  quietWorld w ->
  exists evs,
    emittedEvents (trace (snd (run rt job w))) = emittedEvents (trace w) ++ evs
    /\ runEvents evs.
Proof.
  intros Hatt Hv Hp Q.
  destruct (runTraced_quiet rt job w Hatt Hv Hp Q)
    as (o & w' & evs & Hrun & _ & _ & Hevs & Hshape & _).
  exists evs. rewrite (proj1 (run_world rt job w)), Hrun. by split.
Qed.

Lemma run_emits_start_retries_terminal_witness :
  exists evs,
    emittedEvents (trace (snd (run sampleRuntime flakyJob emptyWorld)))
    = emittedEvents (trace emptyWorld) ++ evs
    /\ runEvents evs.
Proof.
  apply (run_emits_start_retries_terminal sampleRuntime flakyJob emptyWorld).
  - intros rc [= <-]. exists 3. split; [reflexivity | lia].
  - intros rc d [= <-] [= <-]. reflexivity.
  - intros context err. cbn. destruct (ctx_attempt context <? 3); [|discriminate].
    by intros [= <-].
  - intros key ls l event H. unfold emptyWorld in H. cbn [listeners] in H.
    by rewrite lookup_empty in H.
Defined.

(** The run of the witness: two retries, then success at the third attempt. *)
Example flakyJob_events :
  map (fun e => (ev_type e, ev_attempt e))
      (emittedEvents (trace (snd (run sampleRuntime flakyJob emptyWorld))))
  = [(job_start, 1); (job_retry, 1); (job_retry, 2); (job_success, 3)].
Proof. by vm_compute. Qed.

(** The same run, with the calls of the handler: each [job:retry] follows
    the call of the attempt it names. *)
Example flakyJob_attempts_and_events :
  omap (fun a => match a with
                 | HandlerCalled c => Some (inl (ctx_attempt c))
                 | Emitted e => Some (inr (ev_type e, ev_attempt e))
                 | _ => None
                 end)
       (trace (snd (run sampleRuntime flakyJob emptyWorld)))
  = [inr (job_start, 1);
     inl 1; inr (job_retry, 1);
     inl 2; inr (job_retry, 2);
     inl 3; inr (job_success, 3)].
Proof. by vm_compute. Qed.

Lemma neverFulfils_foreverJob : neverFulfils foreverJob.
Proof. by intros context. Qed.

Lemma validInitialDelay_foreverJob : validInitialDelay foreverJob.
Proof. intros rc d [= <-] [= <-]. reflexivity. Qed.

Lemma printableRejections_foreverJob : printableRejections foreverJob.
Proof. intros context err [= <-]. exact I. Qed.

(** With [retry.attempts] [Infinity] and a handler that always fails, a
    run never ends, however many iterations of its loop are followed. *)
Lemma foreverJob_never_ends (fuel : nat) :
  fst (runWith sampleRuntime fuel foreverJob emptyWorld) = OutOfFuel.
Proof.
  eapply runWith_never_ends;
    [reflexivity | reflexivity | exact neverFulfils_foreverJob
     | exact validInitialDelay_foreverJob | exact printableRejections_foreverJob
     | exact quietWorld_empty].
Qed.

(** C1 as stated fails.  With [retry.attempts] 1.5, which is at least 1,
    the run emits [job:start] and [job:retry] and returns with no terminal
    event; with [retry.attempts] [Infinity] and a handler that always fails
    it never comes to a terminal event; when a listener of [job:success]
    throws, the run emits two terminal events; when [retry.initialDelay] is
    no duration, the run ends after [job:retry] with no terminal event; and
    when the handler throws a value that has no string form, the run ends
    after [job:start]. *)
Lemma run_event_order_counterexamples :
  (JS.leb (JS.Int 1) (maxAttemptsOf fractionalJob) = true
   /\ (exists r, fst (run sampleRuntime fractionalJob emptyWorld) = Returns r)
   /\ map ev_type (emittedEvents (trace (snd
        (run sampleRuntime fractionalJob emptyWorld))))
      = [job_start; job_retry])
  /\ (JS.leb (JS.Int 1) (maxAttemptsOf foreverJob) = true
      /\ forall fuel, fst (runWith sampleRuntime fuel foreverJob emptyWorld) = OutOfFuel)
  /\ map ev_type (emittedEvents (trace (snd
      (run sampleRuntime successJob (worldWith [("job:success", throwingListener)])))))
     = [job_start; job_success; job_failure]
  /\ map ev_type (emittedEvents (trace (snd (run sampleRuntime badDelayJob emptyWorld))))
     = [job_start; job_retry]
  /\ map ev_type (emittedEvents (trace (snd (run sampleRuntime unprintableJob emptyWorld))))
     = [job_start]
  /\ integerAttempts successJob /\ integerAttempts badDelayJob
  /\ integerAttempts unprintableJob.
Proof.
  split; [split; [reflexivity|]; split; [eexists; by vm_compute | by vm_compute]|].
  split; [split; [reflexivity | exact foreverJob_never_ends]|].
  split; [by vm_compute|]. split; [by vm_compute|]. split; [by vm_compute|].
  split; [intros rc [=]|].
  split; [|intros rc [=]].
  intros rc [= <-]. exists 2. split; [reflexivity | lia].
Qed.

(** ** Listeners and errors *)

(** The world in which the scheduler starts the run: it has read the
    clock twice, for its run id and for [startedAt], and the random
    generator once. *)
Lemma scheduler_executeJobCall_run (rt : Runtime) (job : JobDefinition)
      (s : CronScheduler.State) (w : World) :
  CronScheduler.shuttingDown s = false ->
  CronScheduler.executeJobCall rt job s w
  = (let '(promise, w') := run rt job (schedulerWorld w) in
     (Returns (Awaiting (runIdIn rt w) promise,
               CronScheduler.setInFlight s
                 (<[runIdIn rt w :=
                      {| CronScheduler.jobId := id job;
                         CronScheduler.runId := runIdIn rt w;
                         CronScheduler.startedAt := startedAtIn rt w;
                         CronScheduler.promise := promise |}]>
                    (CronScheduler.inFlightJobs s))), w')).
Proof.
  intros Hs. unfold CronScheduler.executeJobCall. rewrite Hs.
  unfold bind, now, randomSuffix, started.
  cbn [fst snd clockReads randomReads controllers listeners trace].
  fold (schedulerWorld w).
  by destruct (run rt job (schedulerWorld w)) as [promise w'].
Qed.

Lemma quietWorld_schedulerWorld (w : World) : quietWorld w -> quietWorld (schedulerWorld w).
Proof. intros Q key ls l event. apply Q. Qed.

Lemma scheduler_executeJob_resolves (rt : Runtime) (job : JobDefinition)
      (s : CronScheduler.State) (w : World) :
  quietWorld w -> validInitialDelay job -> callbacksSettle job ->
  boundedAttempts job -> printableRejections job ->
  exists r s' w', CronScheduler.executeJob rt job s w = ((Returns r, s'), w').
Proof.
  intros Q Hv Hs Hb Hp. unfold CronScheduler.executeJob.
  destruct (CronScheduler.shuttingDown s) eqn:Hdown.
  { unfold CronScheduler.executeJobCall. rewrite Hdown. by eexists _, _, _. }
  rewrite scheduler_executeJobCall_run by exact Hdown.
  destruct (run_resolves rt job _ (quietWorld_schedulerWorld w Q) Hv Hs Hb Hp)
    as (r & w4 & ->).
  by eexists _, _, _.
Qed.

(** What the worker does when it is not shutting down: the run goes up to
    its first [await], the clock is read for the key, and the run goes
    on. *)
Lemma worker_executeJobCall_run (rt : Runtime) (job : JobDefinition)
      (s : CronletWorker.State) (w : World) :
  CronletWorker.shuttingDown s = false ->
  CronletWorker.executeJobCall rt job s w
  = (let '(running, w1) := runStart rt job w in
     let key := id job +:+ "_" +:+ JS.numToString (clock rt (clockReads w1)) in
     let '(promise, w') := runSettle rt job running (snd (now rt w1)) in
     (Returns (Awaiting key promise,
               CronletWorker.setInFlight s (<[key := promise]> (CronletWorker.inFlight s))),
      w')).
Proof.
  intros Hs. unfold CronletWorker.executeJobCall. rewrite Hs.
  unfold bind at 1, started at 1.
  destruct (runStart rt job w) as [running w1].
  unfold bind, started, now. cbn [fst snd].
  by destruct (runSettle rt job running _) as [promise w'].
Qed.

Lemma worker_executeJob_resolves (rt : Runtime) (job : JobDefinition)
      (s : CronletWorker.State) (w : World) :
  quietWorld w -> validInitialDelay job -> callbacksSettle job ->
  boundedAttempts job -> printableRejections job ->
  exists r s' w', CronletWorker.executeJob rt job s w = ((Returns r, s'), w').
Proof.
  intros Q Hv Hs Hb Hp. unfold CronletWorker.executeJob.
  destruct (CronletWorker.shuttingDown s) eqn:Hdown.
  { unfold CronletWorker.executeJobCall. rewrite Hdown. by eexists _, _, _. }
  rewrite worker_executeJobCall_run by exact Hdown.
  destruct (runStart_quiet rt job w Q) as (suspended & w1 & -> & S1 & Hres & _).
  assert (Q2 : quietWorld (snd (now rt w1))).
  { intros key ls l event. cbn. rewrite (step_listeners _ _ _ S1). apply Q. }
  destruct (runResume_resolves rt job suspended _ Q2 Hv Hs Hb Hp Hres)
    as (traced & w' & Hresume).
  unfold runSettle. erewrite (bind_Returns (await _)); [|reflexivity].
  erewrite bind_Returns; [|exact Hresume].
  by eexists _, _, _.
Qed.

(** [run] is what its caller sees of it: the call up to the first
    [await], then the promise awaited. *)
Lemma run_split (rt : Runtime) (job : JobDefinition) (w : World) :
  run rt job w
  = (let* running := started (runStart rt job) in runSettle rt job running) w.
Proof.
  unfold run. rewrite (bind_at _ _ _ _ _ (runTraced_split rt job w)).
  unfold bind, started, runSettle, await.
  by destruct (runStart rt job w) as [[suspended|err| |] w1].
Qed.

(** C2, as amended.  [emit] calls the subscribers of the event, those of
    its type first and those of ["*"] after, in subscription order, and
    does not catch: what the first listener that throws has thrown
    propagates to the emitter, and the subscribers after that listener are
    not called; when none of them throws, they are all called.  When no
    subscribed listener throws, [retry.initialDelay], if given, is a
    duration, [retry.attempts], if given, is not above [2^53], the handler
    rejects with nothing but values that have a string form and the
    callbacks of the job settle, [engine.run] and the [executeJob] of
    the scheduler and of the worker resolve to an [ExecutionResult],
    whatever else the handler does and whatever the callbacks throw. *)
Theorem run_resolves_when_listeners_return
        (rt : Runtime) (job : JobDefinition) (w : World) :
  (forall event,
      (forall before l after err,
          subscribers w event = before ++ l :: after ->
          (forall x, x ∈ before -> listen x event = None) ->
          listen l event = Some err ->
          exists w', emit event w = (Throws err, w')
            /\ listenerCalls (trace w')
               = listenerCalls (trace w)
                 ++ map (fun x => (listenerId x, event)) (before ++ [l]))
      /\ ((forall l, l ∈ subscribers w event -> listen l event = None) ->
          exists w', emit event w = (Returns tt, w')
            /\ listenerCalls (trace w')
               = listenerCalls (trace w)
                 ++ map (fun l => (listenerId l, event)) (subscribers w event)))
  /\ (quietWorld w -> validInitialDelay job -> callbacksSettle job ->
      boundedAttempts job -> printableRejections job ->
      (exists r w', run rt job w = (Returns r, w'))
      /\ (forall s, exists r s' w',
             CronScheduler.executeJob rt job s w = ((Returns r, s'), w'))
      /\ (forall s, exists r s' w',
             CronletWorker.executeJob rt job s w = ((Returns r, s'), w'))).
Proof.
  split.
  - intros event. split.
    + intros before l after err Hsub Hq Hl.
      destruct (emit_throws event w before l after err Hsub Hq Hl)
        as (w' & He & _ & Hc).
      eauto.
    + intros Hq. destruct (emit_returns event w Hq) as (w' & He & _ & Hc). eauto.
  - intros Q Hv Hs Hb Hp. split; [|split].
    + by apply run_resolves.
    + intros s. by apply scheduler_executeJob_resolves.
    + intros s. by apply worker_executeJob_resolves.
Qed.

Lemma quietWorld_quietListener : quietWorld (worldWith [("*", quietListener)]).
Proof.
  intros key ls l event H Hl.
  unfold worldWith, on, setListeners, emptyWorld in H. cbn in H.
  apply lookup_insert_Some in H as [[_ <-] | [_ H]].
  - apply list_elem_of_singleton in Hl. by subst l.
  - by rewrite lookup_empty in H.
Qed.

Lemma run_resolves_when_listeners_return_witness :
  exists r w',
    run sampleRuntime flakyJob (worldWith [("*", quietListener)]) = (Returns r, w').
Proof.
  refine (proj1 (proj2 (run_resolves_when_listeners_return sampleRuntime flakyJob
                          (worldWith [("*", quietListener)])) _ _ _ _ _)).
  - exact quietWorld_quietListener.
  - intros rc d [= <-] [= <-]. reflexivity.
  - split; [intros cb context [=] | intros cb error context [=]].
  - intros rc [= <-]. reflexivity.
  - intros context err. cbn. destruct (ctx_attempt context <? 3); [|discriminate].
    by intros [= <-].
Defined.

(** C2 as stated fails.  A listener of [job:start] that throws makes [run]
    and [executeJob] reject, and the listener subscribed after it is not
    called; a [retry.initialDelay] that is no duration makes [run] reject;
    a handler that throws a value whose conversion to a string throws makes
    [run] reject with what the conversion threw; a callback whose promise
    never settles keeps [run] from resolving, and so does [retry.attempts]
    [Infinity] with a handler that always fails. *)
Lemma listener_exception_propagates :
  let w := worldWith [("job:start", throwingListener); ("job:start", quietListener)] in
  fst (run sampleRuntime successJob w) = Throws (ThrownValue "boom")
  /\ map fst (listenerCalls (trace (snd (run sampleRuntime successJob w))))
     = [listenerId throwingListener]
  /\ fst (fst (CronScheduler.executeJob sampleRuntime successJob idleScheduler w))
     = Throws (ThrownValue "boom")
  /\ fst (fst (CronletWorker.executeJob sampleRuntime successJob idleWorker w))
     = Throws (ThrownValue "boom")
  /\ (exists e, fst (run sampleRuntime badDelayJob emptyWorld) = Throws (ThrownError e))
  /\ fst (run sampleRuntime unprintableJob emptyWorld) = Throws cannotConvert
  /\ fst (run sampleRuntime hangingCallbackJob emptyWorld) = NeverSettles
  /\ (forall fuel, fst (runWith sampleRuntime fuel foreverJob emptyWorld) = OutOfFuel).
Proof.
  cbv zeta. split; [by vm_compute|]. split; [by vm_compute|].
  split; [by vm_compute|]. split; [by vm_compute|].
  split; [eexists; vm_compute; reflexivity|].
  split; [by vm_compute|]. split; [by vm_compute|].
  exact foreverJob_never_ends.
Qed.

(** ** Timeouts and the cancellation signal *)

(** C3 fails on the code.  At a timeout the run ends with status [timeout]
    but nothing aborts the controller: the signal of the context that was
    given to the handler is still not aborted when the run has ended.  More
    generally a run only creates its controller, and leaves it and all the
    others as they were, whatever the job and the listeners and however
    the run ends. *)
Theorem timeout_leaves_signal_unaborted :
  (let end_ := run sampleRuntime timeoutJob emptyWorld in
   (exists r, fst end_ = Returns r /\ res_status r = status_timeout)
   /\ map ev_type (emittedEvents (trace (snd end_))) = [job_start; job_timeout]
   /\ exists context,
       handlerCalls (trace (snd end_)) = [context]
       /\ handler timeoutJob context = StillPending
       /\ signalAborted (snd end_) (ctx_signal context) = false)
  /\ (forall rt job w,
         controllers (snd (run rt job w)) = controllers w ++ [false]).
Proof.
  split.
  - cbv zeta. split; [eexists; split; by vm_compute|].
    split; [by vm_compute|].
    eexists. split; [by vm_compute|]. split; by vm_compute.
  - intros rt job w. exact (proj2 (run_frame rt job w)).
Qed.

(** ** The fallback after the loop *)

(** C9 fails on the code.  With [retry.attempts] 1.5, a number that is at
    least 1, and a handler that fails, [run] retries once, leaves the loop
    by its condition and returns the result built after the loop, which
    the comment of the source holds for unreachable: a failure of attempt
    2, of which no [job:failure] event and no call of [onFailure] tells.
    With [retry.attempts] an integer from 1 to [2^53], or without
    [config.retry], a run that returns does return from inside the loop,
    whatever the listeners, the handler and the callbacks do. *)
Theorem fractional_attempts_reach_fallback :
  (JS.leb (JS.Int 1) (maxAttemptsOf fractionalJob) = true
   /\ exists r w',
       runTraced sampleRuntime fractionalJob emptyWorld = (Returns (AfterLoop, r), w')
       /\ res_status r = status_failure
       /\ res_attempt r = 2
       /\ res_error r = Some {| err_message := "Always fails";
                                err_stack := Some JS.CapturedTrace |}
       /\ map (fun e => (ev_type e, ev_attempt e)) (emittedEvents (trace w'))
          = [(job_start, 1); (job_retry, 1)]
       /\ map ctx_attempt (handlerCalls (trace w')) = [1]
       /\ onFailure (config fractionalJob) <> None
       /\ failureCallbacks (trace w') = [])
  /\ (forall rt job w,
         integerAttempts job ->
         match fst (runTraced rt job w) with
         | Returns (site, _) => site = InsideLoop
         | Throws _ | NeverSettles => True
         | OutOfFuel => False
         end).
Proof.
  split.
  - split; [reflexivity|]. eexists _, _. split; [by vm_compute|].
    repeat (split; [by vm_compute|]). by vm_compute.
  - intros rt job w Hatt.
    pose proof (yields_runTraced rt job Hatt w) as H.
    destruct (fst (runTraced rt job w)) as [[site r]|err| |]; exact H.
Qed.

(** With [retry.attempts] zero the fallback is reached as well: the loop
    body never runs, and the result is the failure "Unknown error" of
    attempt 1. *)
Example zero_attempts_reach_fallback :
  exists r w',
    runTraced sampleRuntime zeroAttemptsJob emptyWorld = (Returns (AfterLoop, r), w')
    /\ res_status r = status_failure
    /\ res_error r = Some {| err_message := "Unknown error"; err_stack := None |}
    /\ handlerCalls (trace w') = [].
Proof. eexists _, _. split; [by vm_compute|]. by vm_compute. Qed.

(** ** executeJob *)

(** C4, as amended.  While [shuttingDown] is set, [executeJob] returns at
    once, without running the engine, a result with status [failure],
    attempt 0 and run id [skipped_<unix-ms>], whose error message is
    "Scheduler is shutting down" in the scheduler and "Worker is shutting
    down" in the worker.  Otherwise the scheduler makes a run id
    [run_<unix-ms>_<random>] of its own, reads the clock for [startedAt],
    calls [engine.run] and registers the promise under that run id; the
    worker calls [engine.run], which runs up to its first [await], then
    reads the clock and registers the promise under [<jobId>_<unix-ms>];
    both remove the entry when the promise settles. *)
Theorem executeJob_skips_or_tracks (rt : Runtime) (job : JobDefinition) (w : World) :
  (forall s,
      if CronScheduler.shuttingDown s then
        exists result w',
          CronScheduler.executeJobCall rt job s w = (Returns (Immediate result, s), w')
          /\ res_status result = status_failure
          /\ res_attempt result = 0
          /\ res_runId result = "skipped_" +:+ JS.numToString (clock rt (clockReads w))
          /\ res_error result = Some {| err_message := "Scheduler is shutting down";
                                        err_stack := None |}
          /\ trace w' = trace w /\ controllers w' = controllers w
          /\ randomReads w' = randomReads w
      else
        exists handle promise s' w',
          let runId := "run_" +:+ JS.numToString (clock rt (clockReads w)) +:+ "_"
                       +:+ random36 rt (randomReads w) in
          CronScheduler.executeJobCall rt job s w
          = (Returns (Awaiting runId promise, s'), w')
          /\ run rt job (schedulerWorld w) = (promise, w')
          /\ CronScheduler.inFlightJobs s' !! runId = Some handle
          /\ CronScheduler.jobId handle = id job
          /\ CronScheduler.runId handle = runId
          /\ CronScheduler.startedAt handle = clock rt (S (clockReads w))
          /\ CronScheduler.promise handle = promise
          /\ (forall key, key <> runId ->
                CronScheduler.inFlightJobs s' !! key = CronScheduler.inFlightJobs s !! key)
          /\ ((forall r, promise <> Returns r) /\ (forall err, promise <> Throws err)
              \/ fst (CronScheduler.executeJobSettle runId promise s') = promise
                 /\ CronScheduler.inFlightJobs
                      (snd (CronScheduler.executeJobSettle runId promise s')) !! runId
                    = None))
  /\ (forall s,
        if CronletWorker.shuttingDown s then
          exists result w',
            CronletWorker.executeJobCall rt job s w = (Returns (Immediate result, s), w')
            /\ res_status result = status_failure
            /\ res_attempt result = 0
            /\ res_runId result = "skipped_" +:+ JS.numToString (clock rt (clockReads w))
            /\ res_error result = Some {| err_message := "Worker is shutting down";
                                          err_stack := None |}
            /\ trace w' = trace w /\ controllers w' = controllers w
            /\ randomReads w' = randomReads w
        else
          exists key running promise s' w1 w',
            CronletWorker.executeJobCall rt job s w
            = (Returns (Awaiting key promise, s'), w')
            /\ runStart rt job w = (running, w1)
            /\ key = id job +:+ "_" +:+ JS.numToString (clock rt (clockReads w1))
            /\ (quietWorld w ->
                clockReads w1
                = ((if JS.leb (JS.Int 1) (maxAttemptsOf job) then 5 else 4)
                   + clockReads w)%nat)
            /\ runSettle rt job running (snd (now rt w1)) = (promise, w')
            /\ CronletWorker.inFlight s' !! key = Some promise
            /\ (forall k, k <> key ->
                  CronletWorker.inFlight s' !! k = CronletWorker.inFlight s !! k)
            /\ ((forall r, promise <> Returns r) /\ (forall err, promise <> Throws err)
                \/ fst (CronletWorker.executeJobSettle key promise s') = promise
                   /\ CronletWorker.inFlight
                        (snd (CronletWorker.executeJobSettle key promise s')) !! key
                      = None)).
Proof.
  split; intros s.
  - destruct (CronScheduler.shuttingDown s) eqn:Hdown.
    + unfold CronScheduler.executeJobCall. rewrite Hdown.
      eexists _, _. split; [reflexivity|]. by repeat split.
    + rewrite scheduler_executeJobCall_run by exact Hdown.
      destruct (run rt job (schedulerWorld w)) as [promise w4] eqn:Hrun.
      eexists _, promise, _, w4. cbv zeta.
      split; [reflexivity|].
      split; [reflexivity|].
      split; [cbn; apply lookup_insert_eq|].
      do 4 (split; [reflexivity|]).
      split; [intros key Hkey; cbn; by rewrite lookup_insert_ne|].
      destruct promise as [r|err| |];
        [right | right | left; by split | left; by split];
        (split; [reflexivity | cbn; apply lookup_delete_eq]).
  - destruct (CronletWorker.shuttingDown s) eqn:Hdown.
    + unfold CronletWorker.executeJobCall. rewrite Hdown.
      eexists _, _. split; [reflexivity|]. by repeat split.
    + rewrite worker_executeJobCall_run by exact Hdown.
      destruct (runStart rt job w) as [running w1] eqn:Hstart.
      destruct (runSettle rt job running (snd (now rt w1))) as [promise w'] eqn:Hsettle.
      eexists _, running, promise, _, w1, w'. cbv zeta.
      split; [reflexivity|].
      split; [reflexivity|].
      split; [reflexivity|].
      split.
      { intros Q. destruct (runStart_quiet rt job w Q) as (s0 & w0 & H0 & _ & _ & Hc & _).
        rewrite Hstart in H0. by injection H0 as _ <-. }
      split; [exact Hsettle|].
      split; [cbn; apply lookup_insert_eq|].
      split; [intros k Hk; cbn; by rewrite lookup_insert_ne|].
      destruct promise as [r|err| |];
        [right | right | left; by split | left; by split];
        (split; [reflexivity | cbn; apply lookup_delete_eq]).
Qed.

(** C4 as stated fails on the worker: its result says that the worker,
    not the scheduler, is shutting down, and its in-flight key is made of
    the job id and of the time read when the run has reached its first
    [await], after five readings of the clock by the run: it is no run
    id. *)
Lemma worker_shutdown_message :
  (exists result s' w',
      CronletWorker.executeJob sampleRuntime successJob stoppingWorker emptyWorld
      = ((Returns result, s'), w')
      /\ res_error result = Some {| err_message := "Worker is shutting down";
                                    err_stack := None |}
      /\ res_error result <> Some {| err_message := "Scheduler is shutting down";
                                     err_stack := None |})
  /\ (exists promise s' w',
        CronletWorker.executeJobCall sampleRuntime successJob idleWorker emptyWorld
        = (Returns (Awaiting "test-job_1700000000005" promise, s'), w')
        /\ map res_runId (match promise with Returns r => [r] | _ => [] end)
           = ["run_1700000000000_k3x9q0w2z"]).
Proof.
  split.
  - eexists _, _, _. split; [by vm_compute|]. split; [by vm_compute|].
    vm_compute. discriminate.
  - eexists _, _, _. split; by vm_compute.
Qed.

(** * Further properties of the code *)

(** ** Rendering and reading numbers *)

Lemma pretty_N_char_digit (d : N) :
  (d < 10)%N ->
  JS.isDigit (pretty_N_char d) = true /\ JS.digitValue (pretty_N_char d) = Z.of_N d.
Proof.
  intros H.
  assert (d = 0 \/ d = 1 \/ d = 2 \/ d = 3 \/ d = 4 \/ d = 5 \/ d = 6
          \/ d = 7 \/ d = 8 \/ d = 9)%N as Hd by lia.
  repeat (destruct Hd as [-> | Hd]; [by vm_compute|]). subst d. by vm_compute.
Qed.

(** Reading the digits written before [s] continues from their value. *)
Lemma pretty_N_go_read (x : N) (s : string) :
  fold_left (fun acc c => acc * 10 + JS.digitValue c)
            (JS.chars (pretty_N_go x s)) 0
  = fold_left (fun acc c => acc * 10 + JS.digitValue c) (JS.chars s) (Z.of_N x).
Proof.
  revert s. induction (N.lt_wf_0 x) as [x _ IH]. intros s.
  destruct (decide (x = 0)%N) as [-> | Hx].
  - by rewrite pretty_N_go_0.
  - rewrite pretty_N_go_step by lia.
    rewrite IH by (apply N.div_lt; lia).
    cbn [JS.chars list_ascii_of_string fold_left].
    destruct (pretty_N_char_digit (x `mod` 10)%N) as [_ ->].
    { apply N.mod_lt. lia. }
    f_equal. rewrite (N.div_mod x 10) at 3 by lia. lia.
Qed.

Lemma pretty_N_go_digits (x : N) (s : string) :
  forallb JS.isDigit (JS.chars s) = true ->
  forallb JS.isDigit (JS.chars (pretty_N_go x s)) = true.
Proof.
  revert s. induction (N.lt_wf_0 x) as [x _ IH]. intros s Hs.
  destruct (decide (x = 0)%N) as [-> | Hx].
  - by rewrite pretty_N_go_0.
  - rewrite pretty_N_go_step by lia.
    apply IH; [apply N.div_lt; lia|].
    cbn [JS.chars list_ascii_of_string forallb].
    destruct (pretty_N_char_digit (x `mod` 10)%N) as [-> _].
    { apply N.mod_lt. lia. }
    exact Hs.
Qed.

Lemma pretty_N_go_nonempty (x : N) (s : string) :
  (0 < x)%N -> pretty_N_go x s <> EmptyString.
Proof.
  revert s. induction (N.lt_wf_0 x) as [x _ IH]. intros s Hx.
  rewrite pretty_N_go_step by lia.
  destruct (decide (x `div` 10 = 0)%N) as [E | E].
  - rewrite E, pretty_N_go_0. discriminate.
  - apply IH; [apply N.div_lt; lia | ]. apply N.neq_0_lt_0. exact E.
Qed.

(** A number that is not negative is written with digits only, and
    [parseInt] reads it back. *)
Lemma numToString_digits (n : Z) :
  0 <= n ->
  JS.allDigits (JS.numToString n) = true
  /\ JS.parseInt10 (JS.numToString n) = n
  /\ JS.numToString n <> EmptyString.
Proof.
  intros Hn. unfold JS.allDigits, JS.parseInt10, JS.numToString.
  destruct n as [|p|p]; [by vm_compute | | lia].
  change (pretty (Z.pos p)) with (pretty (N.pos p)).
  unfold pretty, pretty_N.
  destruct (decide (N.pos p = 0%N)) as [E|_]; [discriminate|].
  split; [by apply pretty_N_go_digits|].
  split; [by rewrite pretty_N_go_read | by apply pretty_N_go_nonempty].
Qed.

(** ** Durations *)

Lemma takeWhile_dropWhile {A} (p : A -> bool) (l : list A) :
  takeWhile p l ++ JS.dropWhile p l = l.
Proof.
  induction l as [|x l IH]; [reflexivity|]. simpl.
  destruct (p x); [simpl; by rewrite IH | reflexivity].
Qed.

Lemma forallb_takeWhile {A} (p : A -> bool) (l : list A) :
  forallb p (takeWhile p l) = true.
Proof.
  induction l as [|x l IH]; [reflexivity|]. simpl.
  destruct (p x) eqn:E; [simpl; by rewrite E | reflexivity].
Qed.

(** A run of characters that satisfy [p], followed by one that does not. *)
Lemma takeWhile_app_stop {A} (p : A -> bool) (l rest : list A) :
  forallb p l = true ->
  match rest with [] => True | x :: _ => p x = false end ->
  takeWhile p (l ++ rest) = l /\ JS.dropWhile p (l ++ rest) = rest.
Proof.
  intros Hl Hrest. induction l as [|x l IH]; simpl.
  - destruct rest as [|y rest]; [done|]. simpl. by rewrite Hrest.
  - simpl in Hl. apply andb_true_iff in Hl as [Hx Hl]. rewrite Hx.
    destruct (IH Hl) as [-> ->]. done.
Qed.

Lemma durationUnitOf_text (s : string) (unit : DurationUnit) :
  durationUnitOf s = Some unit <-> s = durationUnitText unit.
Proof.
  unfold durationUnitOf. split.
  - destruct (String.eqb_spec s "ms") as [-> | _]; [by intros [= <-]|].
    destruct (String.eqb_spec s "s") as [-> | _]; [by intros [= <-]|].
    destruct (String.eqb_spec s "m") as [-> | _]; [by intros [= <-]|].
    destruct (String.eqb_spec s "h") as [-> | _]; [by intros [= <-]|].
    destruct (String.eqb_spec s "d") as [-> | _]; [by intros [= <-]|].
    discriminate.
  - intros ->. by destruct unit.
Qed.

Lemma matchDuration_shape (duration digits : string) (unit : DurationUnit) :
  matchDuration duration = Some (digits, unit) <-> durationShape duration digits unit.
Proof.
  unfold matchDuration, durationShape. split.
  - destruct (takeWhile JS.isDigit (JS.chars duration)) as [|c cs] eqn:Ht;
      [discriminate|].
    destruct (durationUnitOf _) as [u|] eqn:Hu; [|discriminate].
    intros [= <- <-]. apply durationUnitOf_text in Hu.
    change (String c (JS.ofChars cs)) with (JS.ofChars (c :: cs)).
    split; [|split].
    + rewrite <- Hu, <- ofChars_app, <- Ht, takeWhile_dropWhile.
      symmetry. apply ofChars_chars.
    + unfold JS.allDigits. rewrite chars_ofChars, <- Ht.
      apply forallb_takeWhile.
    + rewrite <- length_chars, chars_ofChars. simpl. lia.
  - intros (-> & Hd & Hlen).
    rewrite chars_append.
    destruct (takeWhile_app_stop JS.isDigit (JS.chars digits)
                (JS.chars (durationUnitText unit)) Hd) as [-> ->].
    { by destruct unit. }
    rewrite ofChars_chars.
    destruct (JS.chars digits) as [|c cs] eqn:Hc.
    { rewrite <- length_chars, Hc in Hlen. simpl in Hlen. lia. }
    rewrite (proj2 (durationUnitOf_text _ unit) eq_refl).
    by rewrite <- Hc, ofChars_chars.
Qed.

(** The number of an integer that is not negative, and its products with
    positive integers, are integers that are not negative, or [Infinity]. *)
Lemma ofZ_whole (v : Z) : 0 <= v -> wholeNumber (JS.ofZ v).
Proof.
  intros Hv. unfold JS.ofZ.
  destruct (Z.abs v <=? 2 ^ 53) eqn:E; [exact Hv|]. apply Z.leb_gt in E.
  assert (Hbig : 2 ^ 53 < v) by lia.
  unfold JS.roundRational.
  destruct (Z.eqb_spec v 0) as [-> | _]; [exact (Z.le_refl 0)|].
  replace (0 <? v) with true by (symmetry; apply Z.ltb_lt; lia).
  unfold JS.roundPositive.
  assert (He : 52 <= JS.log2Ratio v 1).
  { unfold JS.log2Ratio. change (Z.log2 1) with 0. rewrite Z.sub_0_r.
    assert (53 <= Z.log2 v).
    { change 53 with (Z.log2 (2 ^ 53)). apply Z.log2_le_mono. lia. }
    destruct (JS.scaledGeb _ _ _); lia. }
  set (p := Z.max (JS.log2Ratio v 1 - 52) (- 1074)).
  assert (Hp : 0 <= p) by lia.
  replace (0 <=? p) with true by (symmetry; apply Z.leb_le; exact Hp).
  cbn [andb].
  set (q := JS.divHalfEven v (1 * 2 ^ p)).
  assert (Hq : 0 <= q).
  { unfold q, JS.divHalfEven.
    assert (0 < 1 * 2 ^ p) by (rewrite Z.mul_1_l; by apply Z.pow_pos_nonneg).
    assert (0 <= v / (1 * 2 ^ p)) by (apply Z.div_pos; lia).
    repeat match goal with |- context [if ?b then _ else _] => destruct b end; lia. }
  destruct (2 ^ 1024 <=? q * 2 ^ p); [exact I|].
  unfold JS.ofDyadic.
  replace (0 <=? p) with true by (symmetry; apply Z.leb_le; exact Hp).
  cbn [wholeNumber].
  assert (0 < 2 ^ p) by by apply Z.pow_pos_nonneg. nia.
Qed.

Lemma mul_whole (a : JS.Number) (c : Z) :
  wholeNumber a -> 0 < c -> wholeNumber (a *# c).
Proof.
  intros Ha Hc. destruct a as [n|m k| | |]; try done.
  - cbn [JS.mul wholeNumber] in *. apply ofZ_whole. nia.
  - by destruct c.
Qed.

Lemma parseInt_whole (digits : string) :
  JS.allDigits digits = true -> wholeNumber (JS.parseInt digits).
Proof. intros Hd. apply ofZ_whole. by apply parseInt10_nonneg. Qed.

(** [parseDuration] returns no negative number and no fraction. *)
Lemma parseDuration_whole (duration : string) (ms : JS.Number) :
  parseDuration duration = Ok ms -> wholeNumber ms.
Proof.
  unfold parseDuration.
  destruct (matchDuration duration) as [[digits unit]|] eqn:Hm; [|discriminate].
  intros [= <-]. apply matchDuration_shape in Hm.
  pose proof (parseInt_whole digits (proj1 (proj2 Hm))) as Hv.
  destruct unit; repeat apply mul_whole; (exact Hv || lia).
Qed.

Lemma wholeNumber_not_negative (a : JS.Number) :
  wholeNumber a -> JS.ltb a (JS.Int 0) = false.
Proof. destruct a; try done. cbn [wholeNumber JS.ltb]. lia. Qed.

(** The value of a duration whose milliseconds are a safe integer. *)
Lemma parseDuration_value (duration digits : string) (unit : DurationUnit) :
  durationShape duration digits unit ->
  JS.parseInt10 digits * durationFactor unit <= JS.MAX_SAFE_INTEGER ->
  parseDuration duration = Ok (JS.Int (JS.parseInt10 digits * durationFactor unit)).
Proof.
  intros H Hsafe. apply matchDuration_shape in H as Hm.
  unfold parseDuration. rewrite Hm. f_equal.
  pose proof (parseInt10_nonneg digits (proj1 (proj2 H))) as Hv.
  unfold JS.parseInt. safe_integers.
  rewrite ofZ_safe by (destruct unit; cbn [durationFactor] in Hsafe; lia).
  destruct unit; cbn [durationFactor] in *;
    rewrite ?mul_safe by lia; f_equal; lia.
Qed.

(** X1. A whole number of milliseconds, seconds, minutes, hours or days
    whose value in milliseconds does not exceed [Number.MAX_SAFE_INTEGER],
    written by the engine itself (the number rendered as a template
    literal, followed by the unit), is read back by [parseDuration] as
    that number times the milliseconds of the unit. *)
Theorem parseDuration_reads_rendered_duration (n : Z) (unit : DurationUnit) :
  0 <= n ->
  n * durationFactor unit <= JS.MAX_SAFE_INTEGER ->
  parseDuration (JS.toString (JS.Int n) +:+ durationUnitText unit)
  = Ok (JS.Int (n * durationFactor unit)).
Proof.
  intros Hn Hsafe.
  assert (Hn' : Z.abs n < 2 ^ 53).
  { safe_integers. destruct unit; cbn [durationFactor] in Hsafe; lia. }
  rewrite (toString_safe n Hn'). unfold decimal.
  destruct (numToString_digits n Hn) as (Hd & Hv & Hne).
  unfold JS.numToString in *.
  rewrite (parseDuration_value _ (pretty n) unit); rewrite ?Hv; [reflexivity | | exact Hsafe].
  split; [reflexivity|]. split; [exact Hd|].
  destruct (pretty n); [done | simpl; lia].
Qed.

Lemma parseDuration_reads_rendered_duration_witness :
  parseDuration "90s" = Ok (JS.Int 90000).
Proof.
  exact (parseDuration_reads_rendered_duration 90 dur_s ltac:(lia) ltac:(by vm_compute)).
Defined.

(** Beyond the safe integers the digits are rounded to the nearest
    double. *)
Example parseDuration_rounds_large_values :
  parseDuration "9007199254740993ms" = Ok (JS.Int 9007199254740992).
Proof. by vm_compute. Qed.

(** X2. [parseDuration] accepts nothing but digits followed by one of the
    five units, and what it returns is never a negative number; it is the
    value of the digits times the milliseconds of the unit when that
    product does not exceed [Number.MAX_SAFE_INTEGER]. *)
Theorem parseDuration_accepts_only_durations (duration : string) (ms : JS.Number) :
  parseDuration duration = Ok ms ->
  exists digits unit,
    durationShape duration digits unit
    /\ JS.ltb ms (JS.Int 0) = false
    /\ (JS.parseInt10 digits * durationFactor unit <= JS.MAX_SAFE_INTEGER ->
        ms = JS.Int (JS.parseInt10 digits * durationFactor unit)).
Proof.
  intros H.
  pose proof (wholeNumber_not_negative _ (parseDuration_whole _ _ H)) as Hpos.
  revert H. unfold parseDuration.
  destruct (matchDuration duration) as [[digits unit]|] eqn:Hm; [|discriminate].
  intros H. apply matchDuration_shape in Hm.
  exists digits, unit. split; [exact Hm|]. split; [exact Hpos|].
  intros Hsafe. pose proof (parseDuration_value _ _ _ Hm Hsafe) as Hv.
  unfold parseDuration in Hv. apply matchDuration_shape in Hm. rewrite Hm in Hv.
  congruence.
Qed.

Lemma parseDuration_accepts_only_durations_witness :
  exists digits unit,
    durationShape "5m" digits unit
    /\ JS.ltb (JS.Int 300000) (JS.Int 0) = false
    /\ (JS.parseInt10 digits * durationFactor unit <= JS.MAX_SAFE_INTEGER ->
        JS.Int 300000 = JS.Int (JS.parseInt10 digits * durationFactor unit)).
Proof.
  exact (parseDuration_accepts_only_durations "5m" (JS.Int 300000) eq_refl).
Defined.

(** ** Retry delays *)

Lemma pow2_safe (k : Z) : 0 <= k < 1024 -> JS.pow2 k = JS.Int (2 ^ k).
Proof.
  intros Hk. unfold JS.pow2.
  replace (0 <=? k) with true by (symmetry; apply Z.leb_le; lia).
  by replace (k <? 1024) with true by (symmetry; apply Z.ltb_lt; lia).
Qed.

(** The delay before a retry, when the initial delay is the integer [d]
    and the product is a safe integer. *)
Lemma calculateRetryDelay_safe (config : RetryConfig) (d attempt : Z) :
  initialDelayOf config = Ok (JS.Int d) ->
  1 <= attempt < 1025 -> 0 <= d ->
  d * backoffFactor (default linear (backoff config)) attempt <= JS.MAX_SAFE_INTEGER ->
  calculateRetryDelay attempt config
  = Ok (JS.Int (d * backoffFactor (default linear (backoff config)) attempt)).
Proof.
  intros Hd Ha Hd0 Hsafe. unfold calculateRetryDelay.
  fold (initialDelayOf config). rewrite Hd. cbn [rbind].
  assert (0 <= d * backoffFactor (default linear (backoff config)) attempt).
  { apply Z.mul_nonneg_nonneg; [exact Hd0|].
    destruct (default linear (backoff config)); cbn [backoffFactor]; [lia|].
    apply Z.pow_nonneg. lia. }
  safe_integers.
  destruct (default linear (backoff config)); cbn [backoffFactor] in *.
  - by rewrite mul_safe by lia.
  - rewrite pow2_safe by lia. by rewrite mul_safe by lia.
Qed.

(** X3. The delay before a retry never shrinks from one attempt to the
    next, as long as the delays are safe integers: when the initial delay
    is the integer [d], the attempt is at most 1023 and the delay after the
    next attempt does not exceed [Number.MAX_SAFE_INTEGER], the first delay
    is the initial delay, a linear backoff adds the initial delay at each
    attempt and an exponential backoff doubles the delay. *)
Theorem calculateRetryDelay_grows (config : RetryConfig) (d attempt : Z) :
  initialDelayOf config = Ok (JS.Int d) ->
  1 <= attempt <= 1023 ->
  d * backoffFactor (default linear (backoff config)) (attempt + 1)
  <= JS.MAX_SAFE_INTEGER ->
  exists delay next,
    calculateRetryDelay 1 config = Ok (JS.Int d)
    /\ calculateRetryDelay attempt config = Ok (JS.Int delay)
    /\ calculateRetryDelay (attempt + 1) config = Ok (JS.Int next)
    /\ 0 <= d <= delay
    /\ delay <= next
    /\ next = match default linear (backoff config) with
              | linear => delay + d
              | exponential => 2 * delay
              end.
Proof.
  intros Hd Ha Hsafe.
  assert (Hd0 : 0 <= d).
  { unfold initialDelayOf in Hd.
    destruct (truthyString (initialDelay config));
      exact (parseDuration_whole _ _ Hd). }
  assert (Hpow : 2 ^ (attempt + 1 - 1) = 2 * 2 ^ (attempt - 1)).
  { replace (attempt + 1 - 1) with (Z.succ (attempt - 1)) by lia.
    apply Z.pow_succ_r. lia. }
  assert (Hpos : 1 <= 2 ^ (attempt - 1)).
  { pose proof (Z.pow_pos_nonneg 2 (attempt - 1)). lia. }
  assert (Hmono : forall a, 1 <= a <= attempt + 1 ->
             d * backoffFactor (default linear (backoff config)) a
             <= JS.MAX_SAFE_INTEGER).
  { intros a Ha'. etransitivity; [|exact Hsafe].
    apply Z.mul_le_mono_nonneg_l; [exact Hd0|].
    destruct (default linear (backoff config)); cbn [backoffFactor]; [lia|].
    apply Z.pow_le_mono_r; lia. }
  exists (d * backoffFactor (default linear (backoff config)) attempt),
         (d * backoffFactor (default linear (backoff config)) (attempt + 1)).
  split.
  { rewrite (calculateRetryDelay_safe config d 1 Hd) by (try apply Hmono; lia).
    do 2 f_equal. destruct (default linear (backoff config)); cbn; lia. }
  split; [apply calculateRetryDelay_safe; try apply Hmono; (exact Hd || lia)|].
  split; [apply calculateRetryDelay_safe; try apply Hmono; (exact Hd || lia)|].
  destruct (default linear (backoff config)); cbn [backoffFactor];
    rewrite ?Hpow; repeat split; nia.
Qed.

Lemma calculateRetryDelay_grows_witness :
  exists delay next,
    calculateRetryDelay 1 (mkRetry (JS.Int 5) (Some exponential) (Some "100ms"))
    = Ok (JS.Int 100)
    /\ calculateRetryDelay 3 (mkRetry (JS.Int 5) (Some exponential) (Some "100ms"))
       = Ok (JS.Int delay)
    /\ calculateRetryDelay (3 + 1) (mkRetry (JS.Int 5) (Some exponential) (Some "100ms"))
       = Ok (JS.Int next)
    /\ 0 <= 100 <= delay
    /\ delay <= next
    /\ next = 2 * delay.
Proof.
  exact (calculateRetryDelay_grows
           (mkRetry (JS.Int 5) (Some exponential) (Some "100ms")) 100 3
           eq_refl ltac:(lia) ltac:(by vm_compute)).
Defined.

(** Beyond the safe integers the products are rounded: the third delay of
    a linear backoff from 9007199254740991 ms is not three times it. *)
Example calculateRetryDelay_rounds_large_values :
  calculateRetryDelay 3 (mkRetry (JS.Int 5) None (Some "9007199254740991ms"))
  = Ok (JS.Int 27021597764222972).
Proof. by vm_compute. Qed.

(** ** Ordinals *)

Lemma ordinal_suffix_below_100 (k : nat) :
  (k < 100)%nat ->
  match suffixAt (Z.rem (Z.of_nat k - 20) 10) with
  | Some s => s
  | None => match suffixAt (Z.of_nat k) with Some s => s | None => "th" end
  end = ordinalSuffixRule (Z.of_nat k).
Proof.
  intros Hk. do 100 (destruct k as [|k]; [by vm_compute|]). lia.
Qed.

(** X4. [getOrdinalSuffix] writes a number that is not negative with the
    suffix of English ordinals: [th] for 11, 12 and 13 in every hundred,
    otherwise [st], [nd], [rd] after a last digit 1, 2, 3 and [th] after
    any other. *)
Theorem getOrdinalSuffix_follows_english_rule (n : Z) :
  0 <= n ->
  getOrdinalSuffix n = JS.numToString n +:+ ordinalSuffixRule n.
Proof.
  intros Hn. unfold getOrdinalSuffix. cbv zeta. f_equal.
  rewrite (Z.rem_mod_nonneg n 100) by lia.
  assert (Hv : 0 <= n mod 100 < 100) by (apply Z.mod_pos_bound; lia).
  rewrite <- (Z2Nat.id (n mod 100)) by lia.
  rewrite ordinal_suffix_below_100 by lia.
  rewrite Z2Nat.id by lia.
  unfold ordinalSuffixRule.
  replace ((n mod 100) mod 100) with (n mod 100) by (symmetry; apply Z.mod_mod; lia).
  rewrite (Z.mod_mod_divide n 100 10); [reflexivity|].
  exists 10. lia.
Qed.

Lemma getOrdinalSuffix_follows_english_rule_witness :
  getOrdinalSuffix 22 = "22nd".
Proof.
  exact (getOrdinalSuffix_follows_english_rule 22 ltac:(lia)).
Defined.

(** ** Fields separated by single spaces *)

Lemma chars_inj (s t : string) : JS.chars s = JS.chars t -> s = t.
Proof. intros H. by rewrite <- (ofChars_chars s), H, ofChars_chars. Qed.

(** Two strings built by concatenation are equal when their characters are. *)
Ltac string_eq :=
  apply chars_inj; cbn [JS.join]; rewrite ?chars_append;
  cbn [JS.chars list_ascii_of_string app]; rewrite <- ?app_assoc;
  cbn [app]; try reflexivity.

Lemma isCronChar_not_whitespace (c : ascii) :
  isCronChar c = true -> JS.isWhitespace c = false.
Proof.
  destruct c as [[] [] [] [] [] [] [] []]; vm_compute; congruence.
Qed.

Lemma validPattern_chars (f : string) :
  validPattern f = true <->
  JS.chars f <> [] /\ forallb isCronChar (JS.chars f) = true.
Proof.
  unfold validPattern. rewrite andb_true_iff, negb_true_iff, Nat.eqb_neq.
  split; intros [H1 H2]; (split; [|exact H2]).
  - intros E. by rewrite E in H1.
  - destruct (JS.chars f); [done | simpl; lia].
Qed.

Lemma validPattern_append (a b : string) :
  forallb isCronChar (JS.chars a) = true -> validPattern b = true ->
  validPattern (a +:+ b) = true.
Proof.
  intros Ha Hb. apply validPattern_chars in Hb as [Hne Hb].
  apply validPattern_chars. rewrite chars_append. split.
  - intros E. apply app_eq_nil in E as [_ E]. by apply Hne.
  - by rewrite forallb_app, Ha, Hb.
Qed.

Lemma validPattern_append_l (a b : string) :
  validPattern a = true -> forallb isCronChar (JS.chars b) = true ->
  validPattern (a +:+ b) = true.
Proof.
  intros Ha Hb. apply validPattern_chars in Ha as [Hne Ha].
  apply validPattern_chars. rewrite chars_append. split.
  - intros E. apply app_eq_nil in E as [E _]. by apply Hne.
  - by rewrite forallb_app, Ha, Hb.
Qed.

(** A rendered integer is a field of cron characters: digits, after a
    minus sign when it is negative. *)
Lemma numToString_validPattern (n : Z) : validPattern (JS.numToString n) = true.
Proof.
  assert (Hdigits : forall s, forallb JS.isDigit (JS.chars s) = true ->
                              forallb isCronChar (JS.chars s) = true).
  { intros s. rewrite !forallb_forall. intros H c Hc.
    unfold isCronChar. by rewrite (H c Hc). }
  destruct (Z_le_gt_dec 0 n) as [Hn | Hn].
  - destruct (numToString_digits n Hn) as (Hd & _ & Hne).
    apply validPattern_chars. split; [|by apply Hdigits].
    intros E. apply Hne. by rewrite <- (ofChars_chars (JS.numToString n)), E.
  - destruct n as [|p|p]; [lia | lia |].
    change (JS.numToString (Z.neg p)) with ("-" +:+ JS.numToString (Z.pos p)).
    apply validPattern_append; [reflexivity|].
    destruct (numToString_digits (Z.pos p)) as (Hd & _ & Hne); [lia|].
    apply validPattern_chars. split; [|by apply Hdigits].
    intros E. apply Hne. by rewrite <- (ofChars_chars (JS.numToString _)), E.
Qed.

Lemma joinNumbers_validPattern (x : Z) (xs : list Z) :
  validPattern (joinNumbers "," (x :: xs)) = true.
Proof.
  revert x. induction xs as [|y xs IH]; intros x.
  - apply numToString_validPattern.
  - change (joinNumbers "," (x :: y :: xs))
      with (JS.numToString x +:+ "," +:+ joinNumbers "," (y :: xs)).
    apply validPattern_append.
    { apply validPattern_chars, numToString_validPattern. }
    apply validPattern_append; [reflexivity | apply IH].
Qed.

Lemma splitGo_field (f rest cur : list ascii) :
  forallb isCronChar f = true ->
  JS.splitGo (f ++ rest) cur false = JS.splitGo rest (rev f ++ cur) false.
Proof.
  revert cur. induction f as [|c f IH]; intros cur Hf; [reflexivity|].
  simpl in Hf. apply andb_true_iff in Hf as [Hc Hf].
  simpl. rewrite (isCronChar_not_whitespace c Hc), IH by exact Hf.
  by rewrite <- app_assoc.
Qed.

Lemma splitGo_join (f : string) (fs : list string) (gap : bool) :
  Forall (fun f => validPattern f = true) (f :: fs) ->
  JS.splitGo (JS.chars (JS.join " " (f :: fs))) [] gap = map JS.chars (f :: fs).
Proof.
  revert f gap. induction fs as [|g fs IH]; intros f gap Hall.
  - apply Forall_inv in Hall. apply validPattern_chars in Hall as [Hne Hf].
    cbn [JS.join map]. destruct (JS.chars f) as [|c l]; [done|].
    simpl in Hf. apply andb_true_iff in Hf as [Hc Hf].
    cbn [JS.splitGo]. rewrite (isCronChar_not_whitespace c Hc).
    rewrite <- (app_nil_r l) at 1. rewrite splitGo_field by exact Hf.
    cbn [JS.splitGo]. by rewrite rev_app_distr, rev_involutive.
  - pose proof (Forall_inv Hall) as Hf0. apply Forall_inv_tail in Hall.
    apply validPattern_chars in Hf0 as [Hne Hf].
    change (JS.join " " (f :: g :: fs))
      with (f +:+ " " +:+ JS.join " " (g :: fs)).
    rewrite !chars_append. cbn [map].
    destruct (JS.chars f) as [|c l]; [done|].
    simpl in Hf. apply andb_true_iff in Hf as [Hc Hf].
    cbn [app JS.splitGo]. rewrite (isCronChar_not_whitespace c Hc).
    rewrite splitGo_field by exact Hf.
    change (JS.chars " ") with [" "%char].
    cbn [app JS.splitGo]. change (JS.isWhitespace " ") with true. cbn iota.
    rewrite IH by exact Hall.
    by rewrite rev_app_distr, rev_involutive.
Qed.

Lemma splitWhitespace_join (f : string) (fs : list string) :
  Forall (fun f => validPattern f = true) (f :: fs) ->
  JS.splitWhitespace (JS.join " " (f :: fs)) = f :: fs.
Proof.
  intros Hall. unfold JS.splitWhitespace. rewrite splitGo_join by exact Hall.
  rewrite map_map. rewrite <- (map_id (f :: fs)) at 2.
  apply map_ext. intros s. apply ofChars_chars.
Qed.

(** The text of fields separated by single spaces starts and ends with a
    cron character. *)
Lemma join_head (f : string) (fs : list string) :
  validPattern f = true ->
  exists c l, JS.chars (JS.join " " (f :: fs)) = c :: l /\ isCronChar c = true.
Proof.
  intros Hf. apply validPattern_chars in Hf as [Hne Hf].
  destruct (JS.chars f) as [|c l] eqn:E; [done|].
  simpl in Hf. apply andb_true_iff in Hf as [Hc _].
  destruct fs as [|g fs].
  - exists c, l. by cbn [JS.join].
  - change (JS.join " " (f :: g :: fs))
      with (f +:+ " " +:+ JS.join " " (g :: fs)).
    rewrite chars_append, E. eexists c, _. split; [reflexivity | exact Hc].
Qed.

Lemma join_last (f : string) (fs : list string) :
  Forall (fun f => validPattern f = true) (f :: fs) ->
  exists c l, rev (JS.chars (JS.join " " (f :: fs))) = c :: l
              /\ isCronChar c = true.
Proof.
  revert f. induction fs as [|g fs IH]; intros f Hall.
  - apply Forall_inv in Hall. apply validPattern_chars in Hall as [Hne Hf].
    cbn [JS.join]. destruct (rev (JS.chars f)) as [|c l] eqn:E.
    { exfalso. apply Hne. by rewrite <- (rev_involutive (JS.chars f)), E. }
    exists c, l. split; [reflexivity|].
    rewrite forallb_forall in Hf. apply Hf, in_rev. rewrite E. by left.
  - apply Forall_inv_tail in Hall.
    change (JS.join " " (f :: g :: fs))
      with (f +:+ " " +:+ JS.join " " (g :: fs)).
    rewrite !chars_append, !rev_app_distr.
    destruct (IH g Hall) as (c & l & -> & Hc).
    eexists c, _. split; [reflexivity | exact Hc].
Qed.

Lemma trim_join (f : string) (fs : list string) :
  Forall (fun f => validPattern f = true) (f :: fs) ->
  JS.trim (JS.join " " (f :: fs)) = JS.join " " (f :: fs).
Proof.
  intros Hall. unfold JS.trim, JS.trimStart, JS.trimEnd.
  destruct (join_head f fs (Forall_inv Hall)) as (c & l & E & Hc).
  destruct (join_last f fs Hall) as (c' & l' & E' & Hc').
  rewrite E. cbn [JS.dropWhile]. rewrite (isCronChar_not_whitespace c Hc).
  rewrite <- E, E'. cbn [JS.dropWhile].
  rewrite (isCronChar_not_whitespace c' Hc'), <- E', rev_involutive.
  apply ofChars_chars.
Qed.

(** [cron] accepts five or six fields of cron characters separated by
    single spaces, and stores them as they are. *)
Lemma cron_of_fields (expression : string) (fields : list string) :
  cronFieldsOf expression fields ->
  (length fields = 5 \/ length fields = 6)%nat ->
  JS.splitWhitespace (JS.trim expression) = fields
  /\ exists b, cron expression = Ok b /\ b_cron b = expression.
Proof.
  intros [-> Hall] Hlen.
  destruct fields as [|f fs]; [simpl in Hlen; lia|].
  assert (Hsplit : JS.splitWhitespace (JS.trim (JS.join " " (f :: fs))) = f :: fs).
  { by rewrite trim_join, splitWhitespace_join. }
  split; [exact Hsplit|].
  unfold cron, validateCronExpression.
  rewrite (trim_join f fs Hall), Hsplit.
  assert (Hvalid : forallb validPattern (f :: fs) = true).
  { apply forallb_forall. intros x Hx.
    exact (proj1 (List.Forall_forall _ _) Hall x Hx). }
  rewrite Hvalid.
  destruct Hlen as [-> | ->]; cbn; eexists; (split; [reflexivity|]);
    reflexivity.
Qed.

(** ** The fields of the expressions the builders emit *)

Ltac valid_field :=
  first [ apply numToString_validPattern
        | apply joinNumbers_validPattern
        | apply validPattern_append; [reflexivity | valid_field]
        | apply validPattern_append_l; [valid_field | reflexivity]
        | reflexivity ].

(** [fields l]: the expression of the goal is made of the fields [l]. *)
Ltac fields l :=
  exists l; split; [split; [string_eq | repeat constructor; valid_field]|].

Lemma lowerDays_fields (n : Z) :
  exists fs, cronFieldsOf (lowerDays n) fs /\ length fs = 5%nat.
Proof.
  unfold lowerDays. change decimal with JS.numToString. destruct (n =? 1).
  - fields ["0"; "0"; "*"; "*"; "*"]. reflexivity.
  - fields ["0"; "0"; "*/" +:+ JS.numToString n; "*"; "*"]. reflexivity.
Qed.

Lemma lowerHours_fields (n : Z) :
  exists fs, cronFieldsOf (lowerHours n) fs /\ length fs = 5%nat.
Proof.
  unfold lowerHours. change decimal with JS.numToString.
  destruct (n <? 24); [|apply lowerDays_fields].
  fields ["0"; "*/" +:+ JS.numToString n; "*"; "*"; "*"]. reflexivity.
Qed.

Lemma lowerMinutes_fields (n : Z) :
  exists fs, cronFieldsOf (lowerMinutes n) fs /\ length fs = 5%nat.
Proof.
  unfold lowerMinutes. change decimal with JS.numToString.
  destruct (n <? 60); [|apply lowerHours_fields].
  fields ["*/" +:+ JS.numToString n; "*"; "*"; "*"; "*"]. reflexivity.
Qed.

(** Only an interval of less than sixty seconds has a seconds field. *)
Lemma loweringTable_fields (n : Z) (unit : IntervalUnit) :
  exists fs, cronFieldsOf (loweringTable n unit) fs
    /\ length fs = match unit with
                   | unit_s => if n <? 60 then 6%nat else 5%nat
                   | _ => 5%nat
                   end.
Proof.
  destruct unit; simpl.
  - unfold lowerSeconds. change decimal with JS.numToString.
    destruct (n <? 60); [|apply lowerMinutes_fields].
    fields ["*/" +:+ JS.numToString n; "*"; "*"; "*"; "*"; "*"]. reflexivity.
  - apply lowerMinutes_fields.
  - apply lowerHours_fields.
  - apply lowerDays_fields.
  - unfold lowerWeeks. destruct (n =? 1); [|apply lowerDays_fields].
    fields ["0"; "0"; "*"; "*"; "0"]. reflexivity.
Qed.

Lemma every_fields (interval digits : string) (unit : IntervalUnit)
      (b : ScheduleBuilder) :
  every interval = Ok b ->
  intervalShape interval digits unit ->
  loweredValue (JS.parseInt10 digits) unit <= JS.MAX_SAFE_INTEGER ->
  exists fs, cronFieldsOf (b_cron b) fs
             /\ (length fs = 5 \/ length fs = 6)%nat.
Proof.
  intros Hb Hshape Hsafe.
  pose proof (parseInt10_nonneg digits (proj1 (proj2 Hshape))) as Hn.
  destruct (Z.eq_dec (JS.parseInt10 digits) 0) as [Hzero | Hpos].
  { rewrite (every_rejects_zero _ _ _ Hshape Hzero) in Hb. discriminate. }
  destruct (every_accepts _ _ _ Hshape Hsafe ltac:(lia)) as (b' & Hb' & Hcron & _).
  rewrite Hb in Hb'. injection Hb' as <-. rewrite Hcron.
  destruct (loweringTable_fields (JS.parseInt10 digits) unit) as (fs & Hfs & Hlen).
  exists fs. split; [exact Hfs|].
  destruct unit; try (left; exact Hlen).
  destruct (JS.parseInt10 digits <? 60); [right | left]; exact Hlen.
Qed.

Lemma mapResult_length {A B} (f : A -> Result B) (l : list A) (ys : list B) :
  mapResult f l = Ok ys -> length ys = length l.
Proof.
  revert ys. induction l as [|x l IH]; intros ys; simpl.
  - by intros [= <-].
  - destruct (f x); [|discriminate]. simpl.
    destruct (mapResult f l); [|discriminate]. simpl.
    intros [= <-]. simpl. by rewrite (IH _ eq_refl).
Qed.

Lemma sortNumbers_cons (xs : list Z) :
  xs <> [] -> exists y ys, sortNumbers xs = y :: ys.
Proof.
  intros Hne. destruct (sortNumbers xs) as [|y ys] eqn:E; [|eauto].
  pose proof (sortNumbers_permutation xs) as Hp. rewrite E in Hp.
  symmetry in Hp. apply Permutation_nil_r in Hp. by subst.
Qed.

Lemma daily_fields (times : list string) (b : ScheduleBuilder) :
  daily times = Ok b ->
  exists fs, cronFieldsOf (b_cron b) fs /\ length fs = 5%nat.
Proof.
  unfold daily. destruct (length times =? 0)%nat eqn:Hlen; [discriminate|].
  destruct (mapResult _ times) as [parsedTimes|] eqn:Hmap; [|discriminate].
  apply mapResult_length in Hmap. apply Nat.eqb_neq in Hlen. simpl.
  destruct parsedTimes as [|t [|t' ts]]; [simpl in Hmap; lia | |].
  - simpl. intros [= <-]. simpl.
    fields [JS.numToString (minute t); JS.numToString (hour t); "*"; "*"; "*"].
    reflexivity.
  - destruct (sortNumbers_cons (unique (map hour (t :: t' :: ts))))
      as (h & hs & Eh).
    { unfold unique. simpl. done. }
    destruct (sortNumbers_cons (unique (map minute (t :: t' :: ts))))
      as (m & ms & Em).
    { unfold unique. simpl. done. }
    rewrite Eh, Em.
    destruct ms as [|m' ms].
    + simpl. intros [= <-]. simpl.
      fields [JS.numToString m; joinNumbers "," (h :: hs); "*"; "*"; "*"].
      reflexivity.
    + destruct hs as [|h' hs]; simpl; [|discriminate].
      intros [= <-]. simpl.
      fields [joinNumbers "," (m :: m' :: ms); JS.numToString h; "*"; "*"; "*"].
      reflexivity.
Qed.

Lemma weekly_fields (days : DaysArg) (time : string) (b : ScheduleBuilder) :
  weekly days time = Ok b ->
  exists fs, cronFieldsOf (b_cron b) fs /\ length fs = 5%nat.
Proof.
  unfold weekly. fold (dayArrayOf days).
  destruct (length (dayArrayOf days) =? 0)%nat eqn:Hlen; [discriminate|].
  destruct (mapResult validateDay _) as [validated|] eqn:Hmap; [|discriminate].
  apply mapResult_length in Hmap. apply Nat.eqb_neq in Hlen. simpl.
  destruct (parseTime time) as [t|]; [|discriminate].
  intros [= <-]. simpl.
  destruct (sortNumbers_cons (map dayOfWeekToCron validated)) as (d & ds & E).
  { destruct validated; [simpl in Hmap; lia | done]. }
  rewrite E.
  fields [JS.numToString (minute t); JS.numToString (hour t); "*"; "*";
          joinNumbers "," (d :: ds)].
  reflexivity.
Qed.

Lemma monthly_fields (day : MonthlyDay) (time : string) (b : ScheduleBuilder) :
  monthly day time = Ok b ->
  exists fs, cronFieldsOf (b_cron b) fs /\ length fs = 5%nat.
Proof.
  unfold monthly. destruct (parseTime time) as [t|]; [|discriminate].
  destruct day as [n|s].
  - destruct (negb (isValidDayOfMonth n)); [discriminate|].
    intros [= <-]. simpl.
    fields [JS.numToString (minute t); JS.numToString (hour t);
            JS.numToString n; "*"; "*"].
    reflexivity.
  - destruct (parseLastDay s) as [d|]; [|discriminate].
    intros [= <-]. simpl.
    fields [JS.numToString (minute t); JS.numToString (hour t); "*"; "*";
            JS.numToString (dayOfWeekToCron d) +:+ "L"].
    reflexivity.
Qed.

(** X5. Whatever [daily], [weekly] or [monthly] compiles, and whatever
    [every] compiles from an interval whose value N is a safe integer (N up
    to [Number.MAX_SAFE_INTEGER], 7 N for weeks), is an expression that
    [cron] accepts and stores unchanged: the compiled expression is a fixed
    point of the raw-cron builder. *)
Theorem builders_emit_expressions_cron_accepts (b : ScheduleBuilder) :
  (exists interval digits unit,
      every interval = Ok b
      /\ intervalShape interval digits unit
      /\ loweredValue (JS.parseInt10 digits) unit <= JS.MAX_SAFE_INTEGER)
  \/ (exists times, daily times = Ok b)
  \/ (exists days time, weekly days time = Ok b)
  \/ (exists day time, monthly day time = Ok b) ->
  exists fields raw,
    JS.splitWhitespace (b_cron b) = fields
    /\ (length fields = 5 \/ length fields = 6)%nat
    /\ cron (b_cron b) = Ok raw
    /\ b_cron raw = b_cron b.
Proof.
  intros H.
  assert (Hfs : exists fs, cronFieldsOf (b_cron b) fs
                           /\ (length fs = 5 \/ length fs = 6)%nat).
  { destruct H as [(i & ds & u & H & Hshape & Hsafe)
                  | [[ts H] | [(ds & t & H) | (d & t & H)]]].
    - exact (every_fields _ _ _ _ H Hshape Hsafe).
    - destruct (daily_fields _ _ H) as (fs & ? & ?). eauto.
    - destruct (weekly_fields _ _ _ H) as (fs & ? & ?). eauto.
    - destruct (monthly_fields _ _ _ H) as (fs & ? & ?). eauto. }
  destruct Hfs as (fs & Hfs & Hlen).
  destruct (cron_of_fields _ _ Hfs Hlen) as (Hsplit & raw & Hraw & Hcron).
  exists fs, raw. repeat split; try assumption.
  destruct Hfs as [-> Hall].
  destruct fs as [|f fs]; [simpl in Hlen; lia|].
  by apply splitWhitespace_join.
Qed.

Lemma builders_emit_expressions_cron_accepts_witness :
  exists fields raw,
    JS.splitWhitespace (b_cron fridayMondayMorning) = fields
    /\ (length fields = 5 \/ length fields = 6)%nat
    /\ cron (b_cron fridayMondayMorning) = Ok raw
    /\ b_cron raw = b_cron fridayMondayMorning.
Proof.
  apply (builders_emit_expressions_cron_accepts fridayMondayMorning).
  right. right. left. exists (DayArray ["fri"; "mon"]), "09:30".
  by vm_compute.
Defined.

(** Beyond the safe integers [every] compiles what [cron] rejects: from
    [10^21] on the number is rendered with an exponent. *)
Example every_emits_what_cron_rejects :
  exists b, every "1000000000000000000000d" = Ok b
            /\ isOk (cron (b_cron b)) = false.
Proof. eexists. split; [by vm_compute|]. vm_compute. reflexivity. Qed.

(** ** The description [cron] gives of a compiled daily time *)

Lemma digit_is_plain (c : ascii) :
  JS.isDigit c = true ->
  JS.isWhitespace c = false /\ Ascii.eqb c "-" = false
  /\ Ascii.eqb c "+" = false /\ Ascii.eqb "*" c = false.
Proof.
  destruct c as [[] [] [] [] [] [] [] []]; vm_compute; try discriminate; done.
Qed.

Lemma digits_have_no_star (s : string) :
  JS.allDigits s = true ->
  includesStar s = false /\ String.eqb s "*" = false
  /\ String.prefix "*/" s = false.
Proof.
  unfold JS.allDigits, includesStar. intros H. split; [|split].
  - induction (JS.chars s) as [|c l IH]; [reflexivity|].
    cbn [existsb forallb] in *. apply andb_true_iff in H as [Hc Hl].
    destruct (digit_is_plain c Hc) as (_ & _ & _ & ->). by apply IH.
  - destruct s as [|c s]; [reflexivity|].
    cbn [JS.chars list_ascii_of_string forallb] in H.
    apply andb_true_iff in H as [Hc _].
    destruct (digit_is_plain c Hc) as (_ & _ & _ & Hstar).
    cbn [String.eqb]. rewrite Ascii.eqb_sym. by rewrite Hstar.
  - destruct s as [|c s]; [reflexivity|].
    cbn [JS.chars list_ascii_of_string forallb] in H.
    apply andb_true_iff in H as [Hc _].
    destruct (digit_is_plain c Hc) as (_ & _ & _ & Hstar).
    cbn [String.prefix]. destruct (ascii_dec "*" c) as [<- | Hne]; [discriminate|].
    reflexivity.
Qed.

Lemma takeWhile_all {A} (p : A -> bool) (l : list A) :
  forallb p l = true -> takeWhile p l = l.
Proof.
  induction l as [|x l IH]; [reflexivity|]. simpl.
  intros H. apply andb_true_iff in H as [-> H]. by rewrite IH.
Qed.

(** [parseInt] reads back a rendered number that is not negative. *)
Lemma parseIntPrefix_numToString (n : Z) :
  0 <= n <= 2 ^ 53 -> parseIntPrefix (JS.numToString n) = JS.Int n.
Proof.
  intros Hn. destruct (numToString_digits n (proj1 Hn)) as (Hd & Hv & Hne).
  unfold parseIntPrefix, JS.trimStart. unfold JS.allDigits in Hd.
  unfold JS.parseInt10 in Hv.
  destruct (JS.chars (JS.numToString n)) as [|c l] eqn:E.
  { exfalso. apply Hne. by rewrite <- (ofChars_chars (JS.numToString n)), E. }
  pose proof Hd as Hd'. simpl in Hd'. apply andb_true_iff in Hd' as [Hc _].
  destruct (digit_is_plain c Hc) as (Hws & Hminus & Hplus & _).
  cbn [JS.dropWhile]. rewrite Hws, Hminus, Hplus.
  rewrite (takeWhile_all _ _ Hd).
  unfold JS.parseInt10. rewrite chars_ofChars, Hv.
  rewrite Z.mul_1_l. apply ofZ_safe. lia.
Qed.

Lemma nonEmpty_numToString (n : Z) : 0 <= n -> nonEmpty (JS.numToString n) = true.
Proof.
  intros Hn. destruct (numToString_digits n Hn) as (_ & _ & Hne).
  unfold nonEmpty. by destruct (JS.numToString n).
Qed.

Lemma parseTime_range (time : string) (t : ParsedTime) :
  parseTime time = Some t -> 0 <= hour t <= 23 /\ 0 <= minute t <= 59.
Proof.
  intros H. apply parseTime_accepts in H as (hh & mm & Hshape & -> & Hh & Hm).
  pose proof (parseInt10_nonneg hh (proj1 (proj2 Hshape))).
  pose proof (parseInt10_nonneg mm (proj1 (proj2 (proj2 Hshape)))).
  simpl. lia.
Qed.

(** The text [cron] gives for [M H * * *] is the text [daily] gives for
    the time. *)
Lemma cronToHumanReadable_daily (h m : Z) :
  0 <= h <= 23 -> 0 <= m <= 59 ->
  cronToHumanReadable (JS.numToString m +:+ " " +:+ JS.numToString h +:+ " * * *")
  = "daily at " +:+ formatTime12Hour h m.
Proof.
  intros Hh Hm.
  assert (Hfs : cronFieldsOf
                  (JS.numToString m +:+ " " +:+ JS.numToString h +:+ " * * *")
                  [JS.numToString m; JS.numToString h; "*"; "*"; "*"]).
  { split; [string_eq | repeat constructor; valid_field]. }
  destruct (cron_of_fields _ _ Hfs ltac:(by left)) as [Hsplit _].
  unfold cronToHumanReadable. rewrite Hsplit.
  destruct (numToString_digits m (proj1 Hm)) as (Hdm & _ & _).
  destruct (numToString_digits h (proj1 Hh)) as (Hdh & _ & _).
  destruct (digits_have_no_star _ Hdm) as (Hm1 & Hm2 & Hm3).
  destruct (digits_have_no_star _ Hdh) as (Hh1 & Hh2 & Hh3).
  change (String.eqb "*" "*") with true.
  rewrite Hm2, Hm3, Hh2, Hh3, Hm1, Hh1.
  rewrite !nonEmpty_numToString by lia.
  rewrite !parseIntPrefix_numToString by (safe_integers; lia).
  cbn [andb negb]. rewrite !andb_false_r. cbn [andb].
  unfold formatTime12Hour. cbv zeta.
  cbn [JS.leb JS.eqb JS.ltb JS.sub JS.negate JS.add].
  rewrite Z.geb_leb, Z.gtb_ltb.
  rewrite (toString_safe m) by (safe_integers; lia).
  assert (Hh12 : JS.toString (if h =? 0 then JS.Int 12
                              else if 12 <? h then JS.ofZ (h + - (12)) else JS.Int h)
                 = JS.numToString (if h =? 0 then 12
                                   else if 12 <? h then h - 12 else h)).
  { destruct (h =? 0); [reflexivity|].
    destruct (12 <? h).
    - rewrite ofZ_safe by (safe_integers; lia).
      rewrite toString_safe by (safe_integers; lia). reflexivity.
    - by rewrite toString_safe by (safe_integers; lia). }
  rewrite Hh12. reflexivity.
Qed.

(** X6. For one time, [cron] gives back the description of [daily]: the
    expression compiled by [daily(time)] is accepted by [cron], which
    describes it with the same words and keeps the expression. *)
Theorem cron_describes_daily_time_as_daily (time : string) (b : ScheduleBuilder) :
  daily [time] = Ok b ->
  exists raw,
    cron (b_cron b) = Ok raw
    /\ b_humanReadable raw = b_humanReadable b
    /\ b_cron raw = b_cron b.
Proof.
  intros H. pose proof H as Hfs. apply daily_fields in Hfs as (fs & Hfs & Hlen).
  destruct (cron_of_fields _ _ Hfs (or_introl Hlen)) as (_ & raw & Hraw & Hcron).
  exists raw. split; [exact Hraw|]. split; [|exact Hcron].
  revert H Hraw. unfold daily. cbn [length Nat.eqb mapResult].
  destruct (parseTime time) as [t|] eqn:Ht; [|discriminate].
  destruct (parseTime_range _ _ Ht) as [Hh Hm].
  cbn. intros [= <-]. cbn [b_cron createScheduleBuilder cron_expr].
  unfold cron.
  destruct (negb (validateCronExpression _)); [discriminate|].
  intros [= <-]. cbn [b_humanReadable createScheduleBuilder humanReadable].
  destruct (cron_of_fields _ _ Hfs (or_introl Hlen)) as (_ & raw' & _ & _).
  cbn [b_cron createScheduleBuilder cron_expr] in Hfs.
  destruct Hfs as [Hjoin Hall].
  assert (Htrim : JS.trim (JS.numToString (minute t) +:+ " "
                           +:+ JS.numToString (hour t) +:+ " * * *")
                  = JS.numToString (minute t) +:+ " "
                    +:+ JS.numToString (hour t) +:+ " * * *").
  { rewrite Hjoin. destruct fs as [|f fs]; [simpl in Hlen; lia|].
    by apply trim_join. }
  rewrite Htrim. apply cronToHumanReadable_daily; lia.
Qed.

Lemma cron_describes_daily_time_as_daily_witness :
  exists raw,
    cron "30 17 * * *" = Ok raw
    /\ b_humanReadable raw = "daily at 5:30 PM"
    /\ b_cron raw = "30 17 * * *".
Proof.
  exact (cron_describes_daily_time_as_daily "17:30"
           (createScheduleBuilder
              {| type := TDaily; cron_expr := "30 17 * * *"; timezone := None;
                 humanReadable := "daily at 5:30 PM";
                 originalParams := [("times", PStrings ["17:30"])] |})
           ltac:(by vm_compute)).
Defined.

(** ** The hours and minutes [daily] lists *)

Lemma uniqueGo_spec (xs seen : list Z) :
  NoDup (uniqueGo xs seen)
  /\ forall x, x ∈ uniqueGo xs seen <-> x ∈ xs /\ x ∉ seen.
Proof.
  revert seen. induction xs as [|y xs IH]; intros seen; simpl.
  - split; [constructor|]. intros x. rewrite elem_of_nil. tauto.
  - destruct (bool_decide_reflect (y ∈ seen)) as [Hy | Hy].
    + destruct (IH seen) as [Hnd Hin]. split; [exact Hnd|].
      intros x. rewrite Hin, elem_of_cons. split; [tauto|].
      intros [[-> | Hx] Hs]; [contradiction | tauto].
    + destruct (IH (y :: seen)) as [Hnd Hin]. split.
      * constructor; [|exact Hnd]. rewrite Hin, elem_of_cons. tauto.
      * intros x. rewrite !elem_of_cons, Hin, elem_of_cons.
        destruct (decide (x = y)) as [-> | Hne]; tauto.
Qed.

Lemma unique_spec (xs : list Z) :
  NoDup (unique xs) /\ forall x, x ∈ unique xs <-> x ∈ xs.
Proof.
  destruct (uniqueGo_spec xs []) as [Hnd Hin]. split; [exact Hnd|].
  intros x. unfold unique. rewrite Hin, elem_of_nil. tauto.
Qed.

(** A sorted list without duplicates is strictly ascending. *)
Lemma sorted_NoDup_strict (l : list Z) :
  StronglySorted Z.le l -> NoDup l -> StronglySorted Z.lt l.
Proof.
  induction 1 as [|x l Hs IH Hall]; intros Hnd; constructor.
  - apply IH. by apply NoDup_cons in Hnd as [_ ?].
  - apply NoDup_cons in Hnd as [Hx _].
    rewrite List.Forall_forall in Hall. apply List.Forall_forall.
    intros y Hy. specialize (Hall y Hy).
    assert (x <> y); [|lia]. intros ->. apply Hx.
    by apply list_elem_of_In.
Qed.

Lemma sorted_unique (xs : list Z) :
  StronglySorted Z.lt (sortNumbers (unique xs))
  /\ forall x, x ∈ sortNumbers (unique xs) <-> x ∈ xs.
Proof.
  destruct (unique_spec xs) as [Hnd Hin].
  pose proof (sortNumbers_permutation (unique xs)) as Hp. split.
  - apply sorted_NoDup_strict; [apply sortNumbers_sorted|].
    by rewrite Hp.
  - intros x. by rewrite Hp.
Qed.

Lemma mapResult_Forall2 {A B} (f : A -> Result B) (l : list A) (ys : list B) :
  Forall2 (fun x y => f x = Ok y) l ys -> mapResult f l = Ok ys.
Proof.
  induction 1 as [|x y l ys Hxy _ IH]; [reflexivity|].
  simpl. by rewrite Hxy, IH.
Qed.

Lemma strict_constant_singleton (l : list Z) (m : Z) :
  StronglySorted Z.lt l -> (forall x, x ∈ l <-> x = m) -> l = [m].
Proof.
  intros Hs Hin. destruct l as [|a [|c l]].
  - exfalso. apply (not_elem_of_nil m), Hin. reflexivity.
  - f_equal. apply Hin. by left.
  - exfalso. apply StronglySorted_inv in Hs as [_ Hall].
    apply Forall_inv in Hall.
    assert (a = m) by (apply Hin; by left).
    assert (c = m) by (apply Hin; right; by left). lia.
Qed.

(** X7. Given several times that share their minute, [daily] lists in the
    hour field each distinct hour once, in ascending order, whatever the
    order and the repetitions of the times given. *)
Theorem daily_lists_each_hour_once_ascending
        (times : list string) (parsed : list ParsedTime) (m : Z) :
  Forall2 (fun time t => parseTime time = Some t) times parsed ->
  (2 <= length times)%nat ->
  Forall (fun t => minute t = m) parsed ->
  exists b hours,
    daily times = Ok b
    /\ b_cron b = JS.numToString m +:+ " " +:+ joinNumbers "," hours +:+ " * * *"
    /\ StronglySorted Z.lt hours
    /\ forall h, h ∈ hours <-> h ∈ map hour parsed.
Proof.
  intros Hparsed Hlen Hmin.
  pose proof (Forall2_length _ _ _ Hparsed) as Hlen'.
  unfold daily.
  destruct (length times =? 0)%nat eqn:E; [apply Nat.eqb_eq in E; lia|].
  erewrite mapResult_Forall2; cycle 1.
  { eapply Forall2_impl; [exact Hparsed|]. intros time t Ht. cbv beta.
    by rewrite Ht. }
  cbn [rbind].
  destruct (sorted_unique (map hour parsed)) as [Hsorted Hin].
  destruct (sorted_unique (map minute parsed)) as [Hmsorted Hmin'].
  assert (Hminutes : sortNumbers (unique (map minute parsed)) = [m]).
  { apply strict_constant_singleton; [exact Hmsorted|].
    intros x. rewrite Hmin', list_elem_of_fmap. split.
    - intros (t & -> & Ht). rewrite Forall_forall in Hmin. by apply Hmin.
    - intros ->. destruct parsed as [|t ts]; [simpl in Hlen'; lia|].
      exists t. split; [|by left]. symmetry. by apply Forall_inv in Hmin. }
  rewrite Hminutes.
  destruct parsed as [|t [|t' ts]]; [simpl in Hlen'; lia | simpl in Hlen'; lia |].
  cbn [rbind]. eexists _, _. split; [reflexivity|].
  cbn [b_cron createScheduleBuilder cron_expr].
  split; [reflexivity|]. split; [exact Hsorted | exact Hin].
Qed.

Lemma daily_lists_each_hour_once_ascending_witness :
  exists b hours,
    daily ["17:00"; "09:00"; "17:00"] = Ok b
    /\ b_cron b = JS.numToString 0 +:+ " " +:+ joinNumbers "," hours +:+ " * * *"
    /\ StronglySorted Z.lt hours
    /\ forall h, h ∈ hours <-> h ∈ [17; 9; 17].
Proof.
  apply (daily_lists_each_hour_once_ascending
           ["17:00"; "09:00"; "17:00"]
           [mkTime 17 0; mkTime 9 0; mkTime 17 0] 0).
  - repeat constructor.
  - simpl. lia.
  - repeat constructor.
Defined.

(** ** The job registry *)

Lemma registry_has_elem (jobs : JobRegistry.State) (jobId : string) :
  JobRegistry.has jobs jobId = true <-> jobId ∈ map fst jobs.
Proof.
  unfold JobRegistry.has. rewrite existsb_exists, list_elem_of_fmap. split.
  - intros (e & He & Heq). apply String.eqb_eq in Heq.
    exists e. split; [done | by apply list_elem_of_In].
  - intros (e & -> & He). exists e. split; [by apply list_elem_of_In|].
    apply String.eqb_refl.
Qed.

Lemma registry_getById_elem (jobs : JobRegistry.State) (jobId : string)
      (job : JobDefinition) :
  NoDup (map fst jobs) ->
  JobRegistry.getById jobs jobId = Some job <-> (jobId, job) ∈ jobs.
Proof.
  unfold JobRegistry.getById. induction jobs as [|[k j] jobs IH]; intros Hnd.
  - simpl. rewrite elem_of_nil. split; [discriminate | done].
  - simpl in Hnd. apply NoDup_cons in Hnd as [Hk Hnd].
    cbn [find fst]. rewrite elem_of_cons.
    destruct (String.eqb_spec k jobId) as [-> | Hne].
    + simpl. split.
      * intros [= ->]. by left.
      * intros [[= ->] | Hin]; [done|].
        exfalso. apply Hk. apply list_elem_of_fmap. by exists (jobId, job).
    + rewrite (IH Hnd). split; [tauto|].
      intros [[= -> ->] | Hin]; [done | exact Hin].
Qed.

Lemma registryInvariant_call (jobs : JobRegistry.State) (c : JobRegistry.Call) :
  registryInvariant jobs -> registryInvariant (JobRegistry.call jobs c).
Proof.
  intros [Hnd Hkeys]. destruct c as [job | jobId |]; simpl.
  - unfold JobRegistry.register.
    destruct (JobRegistry.has jobs (id job)) eqn:Hhas; [by split|].
    split.
    + rewrite map_app. apply NoDup_app. split; [exact Hnd|]. split.
      * intros k Hk. simpl. rewrite list_elem_of_singleton. intros ->.
        apply registry_has_elem in Hk. congruence.
      * simpl. apply NoDup_singleton.
    + apply Forall_app. split; [exact Hkeys|]. by constructor.
  - split.
    + induction jobs as [|[k j] jobs IH]; [constructor|].
      simpl in Hnd. apply NoDup_cons in Hnd as [Hk Hnd].
      apply Forall_cons in Hkeys as [_ Hkeys].
      cbn [List.filter fst]. destruct (negb (String.eqb k jobId)).
      * simpl. constructor; [|by apply IH].
        intros Hin. apply Hk. apply list_elem_of_fmap in Hin as (e & -> & He).
        apply list_elem_of_In, filter_In in He as [He _].
        apply list_elem_of_fmap. exists e. split; [done | by apply list_elem_of_In].
      * by apply IH.
    + apply Forall_forall. intros e He.
      apply list_elem_of_In, filter_In in He as [He _].
      rewrite Forall_forall in Hkeys. by apply Hkeys, list_elem_of_In.
  - split; constructor.
Qed.

Lemma registryInvariant_after (calls : list JobRegistry.Call) :
  registryInvariant (JobRegistry.after calls).
Proof.
  unfold JobRegistry.after.
  assert (G : forall jobs, registryInvariant jobs ->
                           registryInvariant (fold_left JobRegistry.call calls jobs)).
  { induction calls as [|c calls IH]; intros jobs Hinv; [exact Hinv|].
    simpl. apply IH. by apply registryInvariant_call. }
  apply G. split; constructor.
Qed.

(** X8. Whatever sequence of [register], [remove] and [clear] calls a new
    registry receives, no two of the jobs it holds share an id; its size is
    the number of these jobs, and [getById] finds exactly the job stored
    with that id. *)
Theorem registry_ids_stay_unique (calls : list JobRegistry.Call) :
  NoDup (map id (JobRegistry.getAll (JobRegistry.after calls)))
  /\ JobRegistry.size (JobRegistry.after calls)
     = Z.of_nat (length (JobRegistry.getAll (JobRegistry.after calls)))
  /\ forall jobId job,
       JobRegistry.getById (JobRegistry.after calls) jobId = Some job
       <-> job ∈ JobRegistry.getAll (JobRegistry.after calls) /\ id job = jobId.
Proof.
  destruct (registryInvariant_after calls) as [Hnd Hkeys].
  set (jobs := JobRegistry.after calls) in *.
  assert (Hids : map id (JobRegistry.getAll jobs) = map fst jobs).
  { unfold JobRegistry.getAll. rewrite map_map. symmetry.
    apply map_ext_Forall. exact Hkeys. }
  split; [by rewrite Hids|]. split.
  { unfold JobRegistry.size, JobRegistry.getAll. by rewrite length_map. }
  intros jobId job. rewrite (registry_getById_elem _ _ _ Hnd).
  unfold JobRegistry.getAll. rewrite list_elem_of_fmap.
  rewrite Forall_forall in Hkeys. split.
  - intros Hin. split; [by exists (jobId, job)|].
    symmetry. exact (Hkeys _ Hin).
  - intros [(e & -> & He) <-]. destruct e as [k j].
    rewrite <- (Hkeys _ He). exact He.
Qed.

Lemma registry_getById_app (jobs : JobRegistry.State) (job : JobDefinition)
      (jobId : string) :
  JobRegistry.getById (jobs ++ [(id job, job)]) jobId
  = match JobRegistry.getById jobs jobId with
    | Some found => Some found
    | None => if String.eqb (id job) jobId then Some job else None
    end.
Proof.
  unfold JobRegistry.getById. induction jobs as [|[k j] jobs IH].
  - simpl. by destruct (String.eqb (id job) jobId).
  - cbn [app find fst]. destruct (String.eqb k jobId); [reflexivity | exact IH].
Qed.

Lemma registry_has_getById (jobs : JobRegistry.State) (jobId : string) :
  JobRegistry.has jobs jobId = true
  <-> exists job, JobRegistry.getById jobs jobId = Some job.
Proof.
  unfold JobRegistry.has, JobRegistry.getById.
  induction jobs as [|[k j] jobs IH].
  - simpl. split; [discriminate | by intros [? ?]].
  - cbn [existsb find fst]. destruct (String.eqb k jobId); simpl.
    + split; [eauto | done].
    + exact IH.
Qed.

(** X9. [register] either throws, exactly when a job is already stored
    under the id (and then it names the id in its message), or adds the job
    after the others; after that [getById] finds the job under its id and
    finds under any other id what it found before. *)
Theorem register_adds_the_job_or_throws (jobs : JobRegistry.State) (job : JobDefinition) :
  match JobRegistry.register job jobs with
  | Ok jobs' =>
      JobRegistry.getById jobs (id job) = None
      /\ JobRegistry.getAll jobs' = JobRegistry.getAll jobs ++ [job]
      /\ JobRegistry.getById jobs' (id job) = Some job
      /\ forall other, other <> id job ->
           JobRegistry.getById jobs' other = JobRegistry.getById jobs other
  | Throw e =>
      (exists registered, JobRegistry.getById jobs (id job) = Some registered)
      /\ e = JobRegistry.alreadyRegistered (id job)
  end.
Proof.
  unfold JobRegistry.register.
  destruct (JobRegistry.has jobs (id job)) eqn:Hhas.
  - split; [by apply registry_has_getById | reflexivity].
  - assert (Hnone : JobRegistry.getById jobs (id job) = None).
    { destruct (JobRegistry.getById jobs (id job)) as [found|] eqn:E; [|done].
      assert (JobRegistry.has jobs (id job) = true) by
        (apply registry_has_getById; eauto).
      congruence. }
    split; [exact Hnone|]. split.
    { unfold JobRegistry.getAll. by rewrite map_app. }
    split.
    + by rewrite registry_getById_app, Hnone, String.eqb_refl.
    + intros other Hother. rewrite registry_getById_app.
      destruct (JobRegistry.getById jobs other); [reflexivity|].
      destruct (String.eqb_spec (id job) other); [congruence | reflexivity].
Qed.

Lemma registry_getById_remove (jobs : JobRegistry.State) (jobId other : string) :
  JobRegistry.getById (snd (JobRegistry.remove jobId jobs)) other
  = if String.eqb jobId other then None else JobRegistry.getById jobs other.
Proof.
  unfold JobRegistry.getById, JobRegistry.remove. cbn [snd].
  induction jobs as [|[k j] jobs IH].
  - simpl. by destruct (String.eqb jobId other).
  - cbn [List.filter fst find].
    destruct (String.eqb_spec k jobId) as [-> | Hk]; cbn [negb].
    + rewrite IH. destruct (String.eqb_spec jobId other); reflexivity.
    + cbn [find fst]. destruct (String.eqb_spec k other) as [-> | Hko].
      * destruct (String.eqb_spec jobId other); [congruence | reflexivity].
      * exact IH.
Qed.

(** X10. [remove] tells whether a job was stored under the id; afterwards
    no job is stored under it, the other ids find what they found before,
    and a job with the removed id can be registered again. *)
Theorem remove_frees_the_id (jobs : JobRegistry.State) (job : JobDefinition) :
  fst (JobRegistry.remove (id job) jobs) = JobRegistry.has jobs (id job)
  /\ JobRegistry.getById (snd (JobRegistry.remove (id job) jobs)) (id job) = None
  /\ (forall other, other <> id job ->
        JobRegistry.getById (snd (JobRegistry.remove (id job) jobs)) other
        = JobRegistry.getById jobs other)
  /\ isOk (JobRegistry.register job (snd (JobRegistry.remove (id job) jobs))) = true.
Proof.
  split; [reflexivity|].
  assert (Hnone : JobRegistry.getById (snd (JobRegistry.remove (id job) jobs)) (id job)
                  = None).
  { by rewrite registry_getById_remove, String.eqb_refl. }
  split; [exact Hnone|]. split.
  - intros other Hother. rewrite registry_getById_remove.
    destruct (String.eqb_spec (id job) other); [congruence | reflexivity].
  - unfold JobRegistry.register.
    destruct (JobRegistry.has _ (id job)) eqn:Hhas; [|reflexivity].
    apply registry_has_getById in Hhas as [found Hfound]. congruence.
Qed.

(** ** schedule *)

Lemma anonymousIds_S (n : nat) :
  anonymousIds 0 (S n)
  = anonymousIds 0 n ++ ["anonymous-job-" +:+ JS.numToString (Z.of_nat n + 1)].
Proof.
  unfold anonymousIds. rewrite seqZ_S, map_app. cbn [map].
  replace (0 + 1 + Z.of_nat n) with (Z.of_nat n + 1) by lia. reflexivity.
Qed.

Lemma anonymousIds_fresh (n : nat) :
  "anonymous-job-" +:+ JS.numToString (Z.of_nat n + 1) ∉ anonymousIds 0 n.
Proof.
  unfold anonymousIds. rewrite list_elem_of_fmap. intros (k & Heq & Hk).
  apply String.app_inj in Heq. apply (inj pretty) in Heq.
  apply elem_of_seqZ in Hk. lia.
Qed.

Lemma anonymousIds_NoDup (n : nat) : NoDup (anonymousIds 0 n).
Proof.
  unfold anonymousIds. apply NoDup_fmap_2; [|apply NoDup_seqZ].
  intros a b Heq. apply String.app_inj in Heq. by apply (inj pretty) in Heq.
Qed.

(** Scheduling one more job without a name. *)
Lemma schedule_anonymous (timing : ScheduleBuilder) (h : JobHandler)
      (st : JobSchedule.State) (n : nat) :
  anonymousOnly st n ->
  exists job st',
    JobSchedule.schedule timing (GivenHandler h) None st = (Ok job, st')
    /\ id job = "anonymous-job-" +:+ JS.numToString (Z.of_nat n + 1)
    /\ name job = id job
    /\ schedule job = descriptorOf timing
    /\ handler job = h
    /\ JobSchedule.registry st' = JobSchedule.registry st ++ [(id job, job)]
    /\ anonymousOnly st' (S n).
Proof.
  intros (Hc & Hkeys & Hids).
  unfold JobSchedule.schedule, JobSchedule.createJobDefinition, JobSchedule.generateAnonymousId.
  cbn [cfg_name emptyConfig reg_config reg_schedule reg_handler].
  cbv zeta. cbn [JobSchedule.registry JobSchedule.anonymousCounter id].
  unfold JobRegistry.register. cbn [id].
  rewrite Hc.
  destruct (JobRegistry.has (JobSchedule.registry st) _) eqn:Hhas.
  { exfalso. apply registry_has_elem in Hhas. rewrite Hkeys in Hhas.
    by apply anonymousIds_fresh in Hhas. }
  eexists _, _. split; [reflexivity|].
  cbn [id name default].
  repeat split; cbn [JobSchedule.registry JobSchedule.anonymousCounter].
  - lia.
  - by rewrite map_app, Hkeys, anonymousIds_S.
  - apply Forall_app. split; [exact Hids|]. by constructor.
Qed.

Lemma scheduleAll_anonymous (calls : list (ScheduleBuilder * JobHandler))
      (st : JobSchedule.State) (n : nat) :
  anonymousOnly st n ->
  exists jobs st',
    JobSchedule.scheduleAll calls st = (map Ok jobs, st')
    /\ JobSchedule.registry st' = JobSchedule.registry st ++ map (fun job => (id job, job)) jobs
    /\ anonymousOnly st' (n + length calls)
    /\ Forall2 (fun call job =>
                  schedule job = descriptorOf (fst call)
                  /\ handler job = snd call
                  /\ name job = id job) calls jobs.
Proof.
  revert st n. induction calls as [|[timing handler] calls IH]; intros st n Hst.
  - exists [], st. simpl. rewrite app_nil_r, Nat.add_0_r.
    split; [reflexivity|]. split; [reflexivity|]. split; [exact Hst | constructor].
  - destruct (schedule_anonymous timing handler st n Hst)
      as (job & st1 & Hs & Hid & Hname & Hsched & Hhandler & Hreg & Hst1).
    destruct (IH st1 (S n) Hst1) as (jobs & st2 & Hall & Hreg2 & Hst2 & Hjobs).
    exists (job :: jobs), st2. cbn [JobSchedule.scheduleAll]. rewrite Hs, Hall.
    split; [reflexivity|]. split; [|split].
    + rewrite Hreg2, Hreg, <- app_assoc. reflexivity.
    + replace (n + length ((timing, handler) :: calls))%nat
        with (S n + length calls)%nat by (simpl; lia).
      exact Hst2.
    + constructor; [by repeat split | exact Hjobs].
Qed.

(** X11. Jobs scheduled without a name on a new module never collide:
    however many there are, each call registers its job, the ids are
    [anonymous-job-1], [anonymous-job-2], ... in the order of the calls and
    pairwise distinct, each job carries the schedule and the handler of its
    call, and the registry lists the jobs in that order. *)
Theorem anonymous_jobs_get_distinct_ids (calls : list (ScheduleBuilder * JobHandler)) :
  exists jobs st,
    JobSchedule.scheduleAll calls JobSchedule.initial = (map Ok jobs, st)
    /\ map id jobs = anonymousIds 0 (length calls)
    /\ NoDup (map id jobs)
    /\ JobRegistry.getAll (JobSchedule.registry st) = jobs
    /\ JobSchedule.anonymousCounter st = Z.of_nat (length calls)
    /\ Forall2 (fun call job =>
                  schedule job = descriptorOf (fst call)
                  /\ handler job = snd call
                  /\ name job = id job) calls jobs.
Proof.
  destruct (scheduleAll_anonymous calls JobSchedule.initial 0)
    as (jobs & st & Hall & Hreg & (Hc & Hkeys & Hids) & Hjobs).
  { repeat split; constructor. }
  exists jobs, st. simpl in Hreg, Hc, Hkeys.
  assert (Hmap : map id jobs = anonymousIds 0 (length calls)).
  { rewrite <- Hkeys, Hreg, map_map. reflexivity. }
  repeat split; try assumption.
  - rewrite Hmap. apply anonymousIds_NoDup.
  - unfold JobRegistry.getAll. rewrite Hreg, map_map. apply map_id.
Qed.

(** X12. A name can be scheduled once: of two [schedule] calls that give the
    same name in their configuration, the second throws the error of the
    registry and leaves the registry and the counter as the first call left
    them, whatever the first call did. *)
Theorem schedule_rejects_a_reused_name
        (timing1 timing2 : ScheduleBuilder) (config1 config2 : JobConfig)
        (handler1 handler2 : JobHandler) (jobName : string) (st : JobSchedule.State) :
  cfg_name config1 = Some jobName ->
  cfg_name config2 = Some jobName ->
  exists r1 st1,
    JobSchedule.schedule timing1 (GivenConfig config1) (Some handler1) st = (r1, st1)
    /\ JobSchedule.schedule timing2 (GivenConfig config2) (Some handler2) st1
       = (Throw (JobRegistry.alreadyRegistered jobName), st1)
    /\ exists registered,
         JobRegistry.getById (JobSchedule.registry st1) jobName = Some registered
         /\ (r1 = Ok registered \/ r1 = Throw (JobRegistry.alreadyRegistered jobName)).
Proof.
  intros H1 H2.
  unfold JobSchedule.schedule, JobSchedule.createJobDefinition. cbv zeta.
  cbn [reg_config reg_schedule reg_handler].
  rewrite H1, H2. cbn [default from_option]. unfold Datatypes.id.
  set (job1 := mkJob jobName jobName (descriptorOf timing1) config1 handler1 None).
  set (job2 := mkJob jobName jobName (descriptorOf timing2) config2 handler2 None).
  unfold JobRegistry.register. cbn [id job1 job2].
  destruct (JobRegistry.has (JobSchedule.registry st) jobName) eqn:Hhas.
  - eexists _, _. split; [reflexivity|]. rewrite Hhas.
    split; [reflexivity|].
    apply registry_has_getById in Hhas as [found Hfound].
    exists found. split; [exact Hfound | by right].
  - eexists _, _. split; [reflexivity|]. cbn [JobSchedule.registry JobSchedule.anonymousCounter].
    assert (Hfound : JobRegistry.getById (JobSchedule.registry st ++ [(jobName, job1)]) jobName
                     = Some job1).
    { change jobName with (id job1) at 1. rewrite registry_getById_app.
      destruct (JobRegistry.getById (JobSchedule.registry st) jobName) as [found|] eqn:E.
      - assert (JobRegistry.has (JobSchedule.registry st) jobName = true)
          by (apply registry_has_getById; eauto).
        congruence.
      - cbn [id job1]. by rewrite String.eqb_refl. }
    assert (Hhas' : JobRegistry.has (JobSchedule.registry st ++ [(jobName, job1)]) jobName = true).
    { apply registry_has_getById. eauto. }
    rewrite Hhas'. split; [reflexivity|].
    exists job1. split; [exact Hfound | by left].
Qed.

Lemma schedule_rejects_a_reused_name_witness :
  exists r1 st1,
    JobSchedule.schedule fridayMondayMorning
      (GivenConfig (mkConfig (Some "digest") None None None None))
      (Some (fun _ => Fulfils)) JobSchedule.initial = (r1, st1)
    /\ JobSchedule.schedule fridayMondayMorning
         (GivenConfig (mkConfig (Some "digest") None (Some "5m") None None))
         (Some (fun _ => StillPending)) st1
       = (Throw (JobRegistry.alreadyRegistered "digest"), st1)
    /\ exists registered,
         JobRegistry.getById (JobSchedule.registry st1) "digest" = Some registered
         /\ (r1 = Ok registered
             \/ r1 = Throw (JobRegistry.alreadyRegistered "digest")).
Proof.
  exact (schedule_rejects_a_reused_name
           fridayMondayMorning fridayMondayMorning
           (mkConfig (Some "digest") None None None None)
           (mkConfig (Some "digest") None (Some "5m") None None)
           (fun _ => Fulfils) (fun _ => StillPending)
           "digest" JobSchedule.initial eq_refl eq_refl).
Defined.

(** ** Cron requests *)

Lemma truthyString_Some (s : option string) (t : string) :
  truthyString s = Some t <-> s = Some t /\ t <> EmptyString.
Proof.
  unfold truthyString, nonEmpty. destruct s as [[|c u]|]; simpl.
  - split; [discriminate | by intros [[= <-] ?]].
  - split; [by intros [= <-] | by intros [[= <-] _]].
  - split; [discriminate | by intros [? _]].
Qed.

(** X13. Outside development mode [verifyCronRequest] lets a request
    through only when a non-empty secret is configured and the request
    carries exactly the header [Bearer <secret>]; in development mode it
    lets every request through.  A result that is not ok always carries an
    error, and an ok result never does. *)
Theorem verifyCronRequest_demands_the_bearer_secret (env : Verify.Env) (request : Verify.CronRequest) :
  (Verify.ok (Verify.verifyCronRequest env request) = true <->
   Verify.NODE_ENV env = Some "development"
   \/ exists secret,
        Verify.CRON_SECRET env = Some secret /\ secret <> EmptyString
        /\ Verify.authorizationOf request = Some ("Bearer " +:+ secret))
  /\ (Verify.ok (Verify.verifyCronRequest env request) = false <->
      Verify.error (Verify.verifyCronRequest env request) <> None).
Proof.
  unfold Verify.verifyCronRequest.
  destruct (bool_decide_reflect (Verify.NODE_ENV env = Some "development")) as [Hdev | Hdev].
  { simpl. split; split; try done. by left. }
  cbv zeta. fold (Verify.authorizationOf request).
  destruct (truthyString (Verify.CRON_SECRET env)) as [secret|] eqn:Hs.
  - apply truthyString_Some in Hs as [Hs Hne].
    destruct (truthyString (Verify.authorizationOf request)) as [header|] eqn:Hh.
    + apply truthyString_Some in Hh as [Hh _].
      destruct (String.eqb_spec header ("Bearer " +:+ secret)) as [-> | Hneq]; simpl.
      * split; split; try done. intros _. right. by exists secret.
      * split; split; try done.
        intros [? | (secret' & Hs' & _ & Ha)]; [done|].
        rewrite Hs in Hs'. injection Hs' as <-. congruence.
    + simpl. split; split; try done.
      intros [? | (secret' & Hs' & _ & Ha)]; [done|].
      assert (truthyString (Verify.authorizationOf request) = Some ("Bearer " +:+ secret')).
      { apply truthyString_Some. split; [exact Ha | discriminate]. }
      congruence.
  - simpl. split; split; try done.
    intros [? | (secret' & Hs' & Hne & _)]; [done|].
    assert (truthyString (Verify.CRON_SECRET env) = Some secret')
      by (by apply truthyString_Some).
    congruence.
Qed.

(** ** Deployment to Vercel *)

(** X14. [flattenJobId] leaves no slash in an id and keeps its length;
    flattening twice is flattening once, and an id without a slash is
    left as it is. *)
Theorem flattenJobId_removes_every_slash (jobId : string) :
  ("/"%char ∉ JS.chars (Validation.flattenJobId jobId))
  /\ String.length (Validation.flattenJobId jobId) = String.length jobId
  /\ Validation.flattenJobId (Validation.flattenJobId jobId)
     = Validation.flattenJobId jobId
  /\ (("/"%char ∉ JS.chars jobId) -> Validation.flattenJobId jobId = jobId).
Proof.
  unfold Validation.flattenJobId.
  set (f := fun c : ascii => if Ascii.eqb c "/" then "-"%char else c).
  assert (Hf : forall c, f c <> "/"%char).
  { intros c. unfold f. destruct (Ascii.eqb_spec c "/"); [discriminate | done]. }
  assert (Hfix : forall l, "/"%char ∉ l -> map f l = l).
  { induction l as [|c l IH]; [reflexivity|]. rewrite not_elem_of_cons.
    intros [Hc Hl]. simpl. rewrite (IH Hl). f_equal. unfold f.
    destruct (Ascii.eqb_spec c "/"); congruence. }
  assert (Hnone : forall l, "/"%char ∉ map f l).
  { intros l Hin. apply list_elem_of_fmap in Hin as (c & Hc & _).
    by apply (Hf c). }
  split; [|split; [|split]].
  - rewrite chars_ofChars. apply Hnone.
  - by rewrite <- !length_chars, chars_ofChars, length_map.
  - rewrite chars_ofChars. f_equal. apply Hfix, Hnone.
  - intros H. rewrite (Hfix _ H). apply ofChars_chars.
Qed.

Lemma filter_none {A} (f : A -> bool) (l : list A) :
  (forall x, In x l -> f x = false) -> List.filter f l = [].
Proof.
  induction l as [|x l IH]; intros H; [reflexivity|].
  simpl. rewrite (H x) by (by left). apply IH. intros y Hy. apply H. by right.
Qed.

Lemma hasPath_In (entries : list Vercel.VercelCronEntry) (e : Vercel.VercelCronEntry) :
  In e entries -> Vercel.hasPath entries (Vercel.path e) = true.
Proof.
  intros H. unfold Vercel.hasPath. apply existsb_exists.
  exists e. split; [exact H | apply String.eqb_refl].
Qed.

(** Comparing the entries [entries] with a file whose crons are [merged]:
    nothing is added when the file holds them all, and nothing is removed
    when every entry of the file is outside the prefix or among them. *)
Lemma nothing_to_add_or_remove (merged entries : list Vercel.VercelCronEntry)
      (others : list (string * string)) (prefix : string) :
  (forall e, In e entries -> In e merged) ->
  (forall e, In e merged ->
             Vercel.startsWith prefix (Vercel.path e) = false \/ In e entries) ->
  let config :=
    {| Vercel.crons := if (0 <? length merged)%nat then Some merged else None;
       Vercel.otherProperties := others |} in
  Vercel.getAddedCrons (Some config) entries prefix = []
  /\ Vercel.getRemovedCrons (Some config) entries prefix = [].
Proof.
  intros Hall Hmerged. destruct merged as [|x l].
  - cbn. split; [|reflexivity]. destruct entries as [|e es]; [reflexivity|].
    destruct (Hall e (or_introl eq_refl)).
  - change (0 <? length (x :: l))%nat with true. cbv zeta.
    cbn [Vercel.getAddedCrons Vercel.getRemovedCrons].
    split; apply filter_none; intros e He.
    + by rewrite (hasPath_In _ _ (Hall e He)).
    + destruct (Hmerged e He) as [-> | Hin]; [reflexivity|].
      by rewrite (hasPath_In _ _ Hin), andb_false_r.
Qed.

(** X15. Once the entries of a deployment are merged into [vercel.json],
    comparing the same entries with the merged file reports nothing to add
    and nothing to remove; the merge keeps the other properties of the
    file and every entry whose path is outside the prefix. *)
Theorem merge_leaves_nothing_to_add_or_remove
        (existing : option Vercel.VercelConfig)
        (newEntries : list Vercel.VercelCronEntry) (prefix : string) :
  Vercel.getAddedCrons
    (Some (Vercel.mergeVercelConfig existing newEntries prefix)) newEntries prefix = []
  /\ Vercel.getRemovedCrons
       (Some (Vercel.mergeVercelConfig existing newEntries prefix)) newEntries prefix = []
  /\ (forall config,
        existing = Some config ->
        Vercel.otherProperties (Vercel.mergeVercelConfig existing newEntries prefix)
        = Vercel.otherProperties config
        /\ forall entry,
             In entry (default [] (Vercel.crons config)) ->
             Vercel.startsWith prefix (Vercel.path entry) = false ->
             In entry (default [] (Vercel.crons
                         (Vercel.mergeVercelConfig existing newEntries prefix)))).
Proof.
  destruct existing as [config|]; cbn [Vercel.mergeVercelConfig].
  - set (user := List.filter _ (default [] (Vercel.crons config))).
    destruct (nothing_to_add_or_remove (user ++ newEntries) newEntries
                (Vercel.otherProperties config) prefix) as [Hadd Hrem].
    { intros e He. apply in_or_app. by right. }
    { intros e He. apply in_app_or in He as [He | He]; [left | by right].
      apply filter_In in He as [_ He]. by apply negb_true_iff. }
    split; [exact Hadd|]. split; [exact Hrem|].
    intros config' [= <-]. split; [reflexivity|].
    intros entry Hin Hstart. cbn [Vercel.crons].
    assert (Hentry : In entry (user ++ newEntries)).
    { apply in_or_app. left. apply filter_In. split; [exact Hin|].
      by rewrite Hstart. }
    destruct (user ++ newEntries) as [|x l]; [destruct Hentry | exact Hentry].
  - cbn. split; [|split; [|intros ? [=]]].
    + apply filter_none. intros e He. by rewrite (hasPath_In _ _ He).
    + apply filter_none. intros e He.
      by rewrite (hasPath_In _ _ He), andb_false_r.
Qed.

Lemma startsWith_append (prefix s : string) :
  Vercel.startsWith prefix (prefix +:+ s) = true.
Proof.
  unfold Vercel.startsWith. induction prefix as [|c prefix IH]; [by destruct s|].
  change (String c prefix +:+ s) with (String c (prefix +:+ s)).
  cbn [String.prefix]. destruct (ascii_dec c c); [exact IH | done].
Qed.

Lemma generateCronEntries_startsWith (jobs : list JobDefinition) (prefix : string)
      (e : Vercel.VercelCronEntry) :
  In e (Vercel.generateCronEntries jobs prefix) ->
  Vercel.startsWith prefix (Vercel.path e) = true.
Proof.
  unfold Vercel.generateCronEntries. rewrite in_map_iff.
  intros (job & <- & _). apply startsWith_append.
Qed.

Lemma generateCronEntries_NoDup (jobs : list JobDefinition) (prefix : string) :
  NoDup (map (fun job => Validation.flattenJobId (id job)) jobs) ->
  NoDup (map Vercel.path (Vercel.generateCronEntries jobs prefix)).
Proof.
  unfold Vercel.generateCronEntries. rewrite map_map. cbn [Vercel.path].
  intros H.
  rewrite <- (map_map (fun job => Validation.flattenJobId (id job))
                      (fun flat => prefix +:+ "/" +:+ flat)).
  apply NoDup_fmap_2; [|exact H].
  intros a b Hab. by do 2 apply String.app_inj in Hab.
Qed.

Lemma filter_idem {A} (f : A -> bool) (l : list A) :
  List.filter f (List.filter f l) = List.filter f l.
Proof.
  induction l as [|x l IH]; [reflexivity|]. simpl.
  destruct (f x) eqn:E; [simpl; by rewrite E, IH | exact IH].
Qed.

Lemma find_app {A} (f : A -> bool) (l1 l2 : list A) :
  find f (l1 ++ l2) = match find f l1 with Some x => Some x | None => find f l2 end.
Proof.
  induction l1 as [|x l1 IH]; [reflexivity|]. simpl. by destruct (f x).
Qed.

Lemma path_determines_entry (entries : list Vercel.VercelCronEntry)
      (a b : Vercel.VercelCronEntry) :
  NoDup (map Vercel.path entries) -> In a entries -> In b entries ->
  Vercel.path a = Vercel.path b -> a = b.
Proof.
  induction entries as [|x entries IH]; [by intros _ []|].
  simpl. intros Hnd Ha Hb Hpath. apply NoDup_cons in Hnd as [Hx Hnd].
  assert (Hin : forall e, In e entries -> Vercel.path e ∈ map Vercel.path entries).
  { intros e He. apply list_elem_of_fmap. exists e.
    split; [reflexivity | by apply list_elem_of_In]. }
  destruct Ha as [<- | Ha], Hb as [<- | Hb].
  - reflexivity.
  - exfalso. apply Hx. rewrite Hpath. by apply Hin.
  - exfalso. apply Hx. rewrite <- Hpath. by apply Hin.
  - by apply IH.
Qed.

(** In a file that ends with the entries [entries], whose paths are
    pairwise distinct, each of them has its own schedule. *)
Lemma scheduleOfPath_own (user entries : list Vercel.VercelCronEntry)
      (e : Vercel.VercelCronEntry) :
  NoDup (map Vercel.path entries) -> In e entries ->
  Vercel.scheduleOfPath (user ++ entries) (Vercel.path e) = Some (Vercel.schedule e).
Proof.
  intros Hnd He. unfold Vercel.scheduleOfPath. rewrite rev_app_distr, find_app.
  destruct (find _ (rev entries)) as [x|] eqn:E.
  - apply find_some in E as [Hx Hpath]. apply String.eqb_eq in Hpath.
    apply in_rev in Hx.
    by rewrite (path_determines_entry entries x e Hnd Hx He Hpath).
  - exfalso. apply in_rev in He.
    pose proof (find_none _ _ E e He) as Hfalse. cbv beta in Hfalse.
    by rewrite String.eqb_refl in Hfalse.
Qed.

(** X16. Deploying the same jobs again changes nothing: when the jobs have
    pairwise distinct flattened ids, merging their entries into the file
    that already holds them gives the same file, and no entry is reported
    as updated. *)
Theorem redeploying_the_same_jobs_changes_nothing
        (existing : option Vercel.VercelConfig) (jobs : list JobDefinition)
        (prefix : string) :
  jobs <> [] ->
  NoDup (map (fun job => Validation.flattenJobId (id job)) jobs) ->
  Vercel.mergeVercelConfig
    (Some (Vercel.mergeVercelConfig existing
             (Vercel.generateCronEntries jobs prefix) prefix))
    (Vercel.generateCronEntries jobs prefix) prefix
  = Vercel.mergeVercelConfig existing (Vercel.generateCronEntries jobs prefix) prefix
  /\ Vercel.getUpdatedCrons
       (Some (Vercel.mergeVercelConfig existing
                (Vercel.generateCronEntries jobs prefix) prefix))
       (Vercel.generateCronEntries jobs prefix) = [].
Proof.
  intros Hjobs Hnd.
  pose proof (generateCronEntries_NoDup jobs prefix Hnd) as Hpaths.
  pose proof (generateCronEntries_startsWith jobs prefix) as Hstart.
  set (entries := Vercel.generateCronEntries jobs prefix) in *.
  assert (Hne : entries <> []).
  { unfold entries, Vercel.generateCronEntries. by destruct jobs. }
  assert (Hnone : List.filter
                    (fun cron => negb (Vercel.startsWith prefix (Vercel.path cron)))
                    entries = []).
  { apply filter_none. intros e He. by rewrite (Hstart e He). }
  assert (Hupdated : forall user,
             List.filter
               (fun cron =>
                  match Vercel.scheduleOfPath (user ++ entries) (Vercel.path cron) with
                  | Some existingSchedule =>
                      negb (String.eqb existingSchedule (Vercel.schedule cron))
                  | None => false
                  end) entries = []).
  { intros user. apply filter_none. intros e He.
    by rewrite (scheduleOfPath_own user entries e Hpaths He), String.eqb_refl. }
  assert (Hlen : forall user, (0 <? length (user ++ entries))%nat = true).
  { intros user. apply Nat.ltb_lt. rewrite length_app.
    destruct entries; [done | simpl; lia]. }
  destruct existing as [config|]; cbn [Vercel.mergeVercelConfig].
  - set (user := List.filter _ (default [] (Vercel.crons config))).
    rewrite Hlen. cbn [Vercel.crons Vercel.otherProperties default from_option].
    rewrite !Hlen. cbn [from_option]. unfold Datatypes.id. split.
    + rewrite List.filter_app, Hnone, app_nil_r. unfold user.
      by rewrite filter_idem.
    + cbn [Vercel.getUpdatedCrons]. apply Hupdated.
  - cbn [Vercel.crons Vercel.otherProperties default from_option].
    unfold Datatypes.id. rewrite Hnone. cbn [app].
    pose proof (Hlen []) as Hlen0. cbn [app] in Hlen0. rewrite Hlen0.
    split; [reflexivity|].
    cbn [Vercel.getUpdatedCrons]. apply (Hupdated []).
Qed.

Lemma redeploying_the_same_jobs_changes_nothing_witness :
  Vercel.mergeVercelConfig
    (Some (Vercel.mergeVercelConfig None
             (Vercel.generateCronEntries [successJob] "/api/cron") "/api/cron"))
    (Vercel.generateCronEntries [successJob] "/api/cron") "/api/cron"
  = Vercel.mergeVercelConfig None
      (Vercel.generateCronEntries [successJob] "/api/cron") "/api/cron"
  /\ Vercel.getUpdatedCrons
       (Some (Vercel.mergeVercelConfig None
                (Vercel.generateCronEntries [successJob] "/api/cron") "/api/cron"))
       (Vercel.generateCronEntries [successJob] "/api/cron") = [].
Proof.
  apply (redeploying_the_same_jobs_changes_nothing None [successJob] "/api/cron").
  - discriminate.
  - simpl. apply NoDup_singleton.
Defined.

(** ** The estimate of the longest execution *)

Lemma parseDurationMs_parseDuration (duration : string) :
  match parseDuration duration with
  | Ok ms => Validation.parseDurationMs duration = ms
  | Throw _ => Validation.parseDurationMs duration = JS.Int 0
  end.
Proof.
  unfold parseDuration, Validation.parseDurationMs.
  destruct (matchDuration duration) as [[digits unit]|]; reflexivity.
Qed.

Lemma parseDurationMs_whole (duration : string) :
  wholeNumber (Validation.parseDurationMs duration).
Proof.
  pose proof (parseDurationMs_parseDuration duration) as H.
  destruct (parseDuration duration) as [ms|e] eqn:E; rewrite H.
  - exact (parseDuration_whole _ _ E).
  - exact (Z.le_refl 0).
Qed.

Lemma delaySum_step (backoff : BackoffStrategy) (k : Z) :
  0 <= k ->
  delaySum backoff (k + 1) = delaySum backoff k + backoffFactor backoff (k + 1).
Proof.
  intros Hk. destruct backoff; cbn [delaySum backoffFactor].
  - replace ((k + 1) * (k + 1 + 1)) with (k * (k + 1) + (k + 1) * 2) by lia.
    rewrite Z.div_add by lia. lia.
  - replace (k + 1 - 1) with k by lia. rewrite Z.pow_add_r by lia. lia.
Qed.

Lemma backoffFactor_pos (backoff : BackoffStrategy) (k : Z) :
  1 <= k -> 1 <= backoffFactor backoff k.
Proof.
  intros Hk. destruct backoff; cbn [backoffFactor]; [lia|].
  pose proof (Z.pow_pos_nonneg 2 (k - 1)). lia.
Qed.

Lemma delaySum_nonneg (backoff : BackoffStrategy) (k : Z) :
  0 <= k -> 0 <= delaySum backoff k.
Proof.
  intros Hk. destruct backoff; cbn [delaySum].
  - apply Z.div_pos; nia.
  - pose proof (Z.pow_pos_nonneg 2 k). lia.
Qed.

Lemma delaySum_mono (backoff : BackoffStrategy) (j k : Z) :
  0 <= j <= k -> delaySum backoff j <= delaySum backoff k.
Proof.
  intros Hjk. destruct backoff; cbn [delaySum].
  - apply Z.div_le_mono; nia.
  - assert (2 ^ j <= 2 ^ k) by (apply Z.pow_le_mono_r; lia). lia.
Qed.

(** The loop of the estimate from [i] on, while the sums are safe
    integers. *)
Lemma delayLoop_safe (backoff : BackoffStrategy) (d n total : Z) (steps : nat) :
  forall (fuel : nat) (i : Z),
    0 <= d -> 0 <= total -> 1 <= i -> n <= 1025 ->
    n - i = Z.of_nat steps ->
    (steps <= fuel)%nat ->
    total + d * delaySum backoff (n - 1) <= JS.MAX_SAFE_INTEGER ->
    Validation.delayLoop fuel backoff (JS.Int d) (JS.Int n) i
      (JS.Int (total + d * delaySum backoff (i - 1)))
    = Some (JS.Int (total + d * delaySum backoff (n - 1))).
Proof.
  induction steps as [|steps IH]; intros fuel i Hd Ht Hi Hn Hsteps Hfuel Hsafe.
  - assert (i = n) by lia. subst i.
    destruct fuel; cbn [Validation.delayLoop JS.ltb]; by rewrite Z.ltb_irrefl.
  - destruct fuel as [|fuel]; [lia|].
    cbn [Validation.delayLoop JS.ltb].
    replace (i <? n) with true by (symmetry; apply Z.ltb_lt; lia).
    pose proof (delaySum_mono backoff i (n - 1) ltac:(lia)) as Hmono.
    pose proof (delaySum_nonneg backoff (i - 1) ltac:(lia)) as Hprev.
    pose proof (delaySum_step backoff (i - 1) ltac:(lia)) as Hstep.
    replace (i - 1 + 1) with i in Hstep by lia.
    pose proof (backoffFactor_pos backoff i Hi) as Hfactor.
    assert (Hbound : total + d * delaySum backoff i <= JS.MAX_SAFE_INTEGER) by nia.
    safe_integers.
    rewrite increment_safe by lia.
    assert (Hadd : Validation.addDelay backoff (JS.Int d)
                     (JS.Int (total + d * delaySum backoff (i - 1))) i
                   = JS.Int (total + d * delaySum backoff (i + 1 - 1))).
    { replace (i + 1 - 1) with i by lia.
      unfold Validation.addDelay.
      destruct backoff; cbn [backoffFactor] in *.
      - rewrite mul_safe by nia. rewrite add_safe by nia. f_equal. nia.
      - rewrite pow2_safe by lia. rewrite mul_safe by nia.
        rewrite add_safe by nia. f_equal. nia. }
    rewrite Hadd. apply IH; lia.
Qed.

(** X17. For a job with an integer number [n] of attempts from 1 to 1025,
    a timeout of [t] and an initial delay of [d] milliseconds, the longest
    execution [validateForVercel] estimates is n timeouts plus the delays
    between them, the initial delay times n(n-1)/2 with a linear backoff
    and times 2^(n-1) - 1 with an exponential one, as long as that sum
    does not exceed [Number.MAX_SAFE_INTEGER]. *)
Theorem calculateMaxExecutionTime_closed_form
        (job : JobDefinition) (rc : RetryConfig) (n t d : Z) :
  retry (config job) = Some rc ->
  attempts rc = JS.Int n ->
  1 <= n <= 1025 ->
  Validation.parseDurationMs (default "30s" (timeout (config job))) = JS.Int t ->
  Validation.parseDurationMs (default "1s" (initialDelay rc)) = JS.Int d ->
  n * t + d * match default linear (backoff rc) with
              | linear => (n - 1) * n / 2
              | exponential => 2 ^ (n - 1) - 1
              end <= JS.MAX_SAFE_INTEGER ->
  Validation.calculateMaxExecutionTime job
  = Some (JS.Int (n * t + d * match default linear (backoff rc) with
                              | linear => (n - 1) * n / 2
                              | exponential => 2 ^ (n - 1) - 1
                              end)).
Proof.
  intros Hrc Hatt Hn Ht Hd Hsafe.
  assert (Ht0 : 0 <= t).
  { pose proof (parseDurationMs_whole (default "30s" (timeout (config job)))) as H.
    by rewrite Ht in H. }
  assert (Hd0 : 0 <= d).
  { pose proof (parseDurationMs_whole (default "1s" (initialDelay rc))) as H.
    by rewrite Hd in H. }
  assert (Hsum : match default linear (backoff rc) with
                 | linear => (n - 1) * n / 2
                 | exponential => 2 ^ (n - 1) - 1
                 end = delaySum (default linear (backoff rc)) (n - 1)).
  { destruct (default linear (backoff rc)); cbn [delaySum]; [|reflexivity].
    f_equal. lia. }
  rewrite Hsum in *.
  pose proof (delaySum_nonneg (default linear (backoff rc)) (n - 1) ltac:(lia)) as Hs0.
  unfold Validation.calculateMaxExecutionTime. rewrite Hrc. cbv zeta.
  rewrite Hatt, Ht, Hd. safe_integers.
  rewrite mul_safe by nia.
  pose proof (delayLoop_safe (default linear (backoff rc)) d n (n * t)
                (Z.to_nat (n - 1)) (loopFuel (JS.Int n)) 1
                Hd0 ltac:(nia) ltac:(lia) ltac:(lia) ltac:(lia)) as Hloop.
  replace (1 - 1) with 0 in Hloop by lia.
  replace (delaySum (default linear (backoff rc)) 0) with 0 in Hloop
    by (by destruct (default linear (backoff rc))).
  rewrite Z.mul_0_r, Z.add_0_r in Hloop.
  apply Hloop; [cbn [loopFuel]; lia | exact Hsafe].
Qed.

Lemma calculateMaxExecutionTime_closed_form_witness :
  Validation.calculateMaxExecutionTime
    (sampleJob (mkConfig None (Some (mkRetry (JS.Int 4) (Some exponential) (Some "2s")))
                         (Some "10s") None None) (fun _ => Fulfils))
  = Some (JS.Int (4 * 10000 + 2000 * (2 ^ (4 - 1) - 1))).
Proof.
  exact (calculateMaxExecutionTime_closed_form
           (sampleJob (mkConfig None
                                (Some (mkRetry (JS.Int 4) (Some exponential) (Some "2s")))
                                (Some "10s") None None) (fun _ => Fulfils))
           (mkRetry (JS.Int 4) (Some exponential) (Some "2s")) 4 10000 2000
           eq_refl eq_refl ltac:(lia) eq_refl eq_refl ltac:(by vm_compute)).
Defined.

(** With 2.5 attempts the loop of the estimate adds the delays of two
    attempts; with [Infinity] attempts it does not end. *)
Example calculateMaxExecutionTime_of_fractional_attempts :
  Validation.calculateMaxExecutionTime
    (sampleJob (mkConfig None (Some (mkRetry (JS.Frac 5 1) None (Some "1d")))
                         (Some "0ms") None None) (fun _ => Fulfils))
  = Some (JS.Int (3 * 86400000)).
Proof. by vm_compute. Qed.

(** X18. The delay the estimate adds for an attempt is the delay the engine
    sleeps after that attempt, whenever the engine accepts the initial
    delay and the initial delay is not the empty string (which the engine
    replaces by one second and the estimate counts as zero). *)
Theorem estimate_adds_the_delays_of_the_engine
        (rc : RetryConfig) (attempt : Z) (total delay : JS.Number) :
  1 <= attempt ->
  initialDelay rc <> Some EmptyString ->
  calculateRetryDelay attempt rc = Ok delay ->
  Validation.addDelay (default linear (backoff rc))
    (Validation.parseDurationMs (default "1s" (initialDelay rc))) total attempt
  = JS.add total delay.
Proof.
  intros Ha Hne. unfold calculateRetryDelay.
  assert (Hsame : match truthyString (initialDelay rc) with
                  | Some d => parseDuration d
                  | None => parseDuration "1s"
                  end = parseDuration (default "1s" (initialDelay rc))).
  { destruct (initialDelay rc) as [[|c s]|]; [congruence | reflexivity | reflexivity]. }
  rewrite Hsame.
  pose proof (parseDurationMs_parseDuration (default "1s" (initialDelay rc))) as Hms.
  destruct (parseDuration (default "1s" (initialDelay rc))) as [ms|e]; [|discriminate].
  rewrite Hms. cbn [rbind].
  destruct (default linear (backoff rc)); intros [= <-]; reflexivity.
Qed.

Lemma estimate_adds_the_delays_of_the_engine_witness :
  Validation.addDelay exponential (Validation.parseDurationMs "100ms") (JS.Int 7) 3
  = JS.add (JS.Int 7) (JS.Int 400).
Proof.
  exact (estimate_adds_the_delays_of_the_engine
           (mkRetry (JS.Int 5) (Some exponential) (Some "100ms")) 3 (JS.Int 7)
           (JS.Int 400) ltac:(lia) ltac:(discriminate) eq_refl).
Defined.

(** ** What Vercel validation makes of compiled schedules *)

Lemma daily_type (times : list string) (b : ScheduleBuilder) :
  daily times = Ok b -> b_type b = TDaily.
Proof.
  unfold daily. destruct (length times =? 0)%nat; [discriminate|].
  destruct (mapResult _ times) as [parsedTimes|]; [|discriminate]. cbn [rbind].
  match goal with |- rbind ?c _ = _ -> _ => destruct c; [|discriminate] end.
  cbn [rbind]. by intros [= <-].
Qed.

Lemma weekly_type (days : DaysArg) (time : string) (b : ScheduleBuilder) :
  weekly days time = Ok b -> b_type b = TWeekly.
Proof.
  unfold weekly. destruct (length _ =? 0)%nat; [discriminate|].
  destruct (mapResult validateDay _); [|discriminate]. cbn [rbind].
  destruct (parseTime time); [|discriminate]. by intros [= <-].
Qed.

Lemma monthly_type (day : MonthlyDay) (time : string) (b : ScheduleBuilder) :
  monthly day time = Ok b -> b_type b = TMonthly.
Proof.
  unfold monthly. destruct (parseTime time); [|discriminate].
  destruct day as [n|s].
  - destruct (negb _); [discriminate|]. by intros [= <-].
  - destruct (parseLastDay s); [|discriminate]. by intros [= <-].
Qed.

(** The interval made of digits and the letter of a unit. *)
Lemma matchInterval_letter (digits : string) (unit : IntervalUnit)
      (found : string * IntervalUnit) :
  matchInterval (digits +:+ unitLetter unit) = Some found -> snd found = unit.
Proof.
  unfold matchInterval. rewrite chars_append, rev_app_distr.
  destruct unit; cbn [unitLetter JS.chars list_ascii_of_string rev app];
    change (unitOfChar "s") with (Some unit_s);
    change (unitOfChar "m") with (Some unit_m);
    change (unitOfChar "h") with (Some unit_h);
    change (unitOfChar "d") with (Some unit_d);
    change (unitOfChar "w") with (Some unit_w);
    (destruct (rev (JS.chars digits)); [discriminate|]);
    (destruct (forallb _ _); [|discriminate]); by intros [= <-].
Qed.

Lemma nonEmpty_append_letter (digits : string) (unit : IntervalUnit) :
  nonEmpty (digits +:+ unitLetter unit) = true.
Proof.
  unfold nonEmpty. rewrite <- length_chars, chars_append, length_app.
  destruct unit; simpl; apply negb_true_iff, Nat.eqb_neq; lia.
Qed.

(** What [every] keeps of an interval it accepts: the type and the
    interval itself. *)
Lemma every_keeps_interval (interval : string) (b : ScheduleBuilder) :
  every interval = Ok b ->
  b_type b = TInterval
  /\ b_originalParams b = [("interval", PString interval)]
  /\ exists digits unit, matchInterval interval = Some (digits, unit)
                         /\ JS.leb (JS.parseInt digits) (JS.Int 0) = false.
Proof.
  unfold every, parseInterval.
  destruct (matchInterval interval) as [[digits unit]|] eqn:Hm; [|discriminate].
  destruct (JS.leb (JS.parseInt digits) (JS.Int 0)) eqn:Hpos; [discriminate|].
  cbn [rbind]. intros [= <-]. split; [reflexivity|]. split; [reflexivity|]. eauto.
Qed.

(** The check of sub-minute intervals finds every interval in seconds. *)
Lemma intervalCheck_seconds (digits : string) (b : ScheduleBuilder)
      (job : JobDefinition) :
  every (digits +:+ "s") = Ok b ->
  schedule job = descriptorOf b ->
  exists message, Validation.intervalCheck job = Ok (Some message).
Proof.
  intros Hevery Hjob.
  destruct (every_keeps_interval _ _ Hevery) as (Htype & Hparams & ds & u & Hm & _).
  pose proof (matchInterval_letter digits unit_s _ Hm) as Hu. cbn [snd] in Hu. subst u.
  unfold Validation.intervalCheck. rewrite Hjob.
  cbn [descriptorOf type originalParams]. rewrite Htype, Hparams.
  change (paramLookup "interval" [("interval", PString (digits +:+ "s"))])
    with (Some (PString (digits +:+ "s"))).
  cbv beta iota.
  pose proof (nonEmpty_append_letter digits unit_s) as Hne.
  cbn [unitLetter] in Hne. rewrite Hne, Hm. eauto.
Qed.

(** X19. Vercel validation rejects every interval given in seconds: a job
    whose schedule [every] compiled from digits followed by [s] is not
    valid, with an error and no warning, also when the interval is a
    minute or more and its cron expression has no seconds field. *)
Theorem vercel_rejects_intervals_in_seconds
        (digits : string) (b : ScheduleBuilder) (job : JobDefinition)
        (maxFunctionDuration : JS.Number) :
  every (digits +:+ "s") = Ok b ->
  schedule job = descriptorOf b ->
  exists r,
    Validation.validateForVercel job maxFunctionDuration = Some (Ok r)
    /\ Validation.valid r = false
    /\ Validation.warnings r = []
    /\ Validation.error r <> None.
Proof.
  intros Hevery Hjob.
  destruct (intervalCheck_seconds digits b job Hevery Hjob) as [message Hcheck].
  unfold Validation.validateForVercel. cbv zeta.
  destruct (length _ =? 6)%nat.
  - eexists. split; [reflexivity|]. by repeat split.
  - rewrite Hcheck. eexists. split; [reflexivity|]. by repeat split.
Qed.

Lemma vercel_rejects_intervals_in_seconds_witness :
  exists r,
    Validation.validateForVercel
      (mkJob "poll" "poll"
             {| type := TInterval; cron_expr := "*/2 * * * *"; timezone := None;
                humanReadable := "every 90 seconds";
                originalParams := [("interval", PString "90s")] |}
             plainConfig (fun _ => Fulfils) None) (JS.Int 60000) = Some (Ok r)
    /\ Validation.valid r = false
    /\ Validation.warnings r = []
    /\ Validation.error r <> None.
Proof.
  apply (vercel_rejects_intervals_in_seconds "90"
           (createScheduleBuilder
              {| type := TInterval; cron_expr := "*/2 * * * *"; timezone := None;
                 humanReadable := "every 90 seconds";
                 originalParams := [("interval", PString "90s")] |})).
  - by vm_compute.
  - reflexivity.
Defined.

(** An attempt below a number is an attempt that the number admits. *)
Lemma ltb_leb (i : Z) (a : JS.Number) :
  JS.ltb (JS.Int i) a = true -> JS.leb (JS.Int i) a = true.
Proof.
  destruct a as [n|m k| | |]; try done.
  - cbn [JS.ltb JS.leb]. lia.
  - cbn [JS.ltb JS.leb JS.fraction]. lia.
Qed.

(** The loop of the estimate ends when [retry.attempts] is not above
    [2^53]. *)
Lemma delayLoop_ends (backoff : BackoffStrategy) (initialDelay attempts : JS.Number) :
  JS.ltb (JS.Int (2 ^ 53)) attempts = false ->
  forall (fuel : nat) (i : Z) (total : JS.Number),
    1 <= i ->
    (loopFuel attempts <= fuel + Z.to_nat (i - 1))%nat ->
    exists maxTime,
      Validation.delayLoop fuel backoff initialDelay attempts i total = Some maxTime.
Proof.
  intros Hb. induction fuel as [|fuel IH]; intros i total Hi Hfuel;
    cbn [Validation.delayLoop];
    destruct (JS.ltb (JS.Int i) attempts) eqn:Hlt; eauto.
  - pose proof (leb_loopFuel _ _ Hi (ltb_leb _ _ Hlt) Hb). lia.
  - rewrite (ltb_increment _ _ Hi Hlt Hb). apply IH; lia.
Qed.

Lemma retryWarning_returns (job : JobDefinition) (maxFunctionDuration : JS.Number) :
  boundedAttempts job ->
  exists retryWarnings,
    Validation.retryWarning job maxFunctionDuration = Some retryWarnings.
Proof.
  intros Hb. unfold Validation.retryWarning.
  destruct (retry (config job)) as [rc|] eqn:Hrc; [|eauto].
  destruct (JS.ltb (JS.Int 1) (attempts rc)); [|eauto].
  unfold Validation.calculateMaxExecutionTime. rewrite Hrc. cbv zeta.
  match goal with |- context [Validation.delayLoop ?f ?b ?d ?a 1 ?t] =>
    destruct (delayLoop_ends b d a (Hb rc Hrc) f 1 t ltac:(lia) ltac:(lia))
      as [maxTime ->] end.
  destruct (JS.ltb maxFunctionDuration maxTime); eauto.
Qed.

(** What [validateForVercel] does with a job whose schedule has five
    fields and no interval in seconds or below a minute. *)
Lemma validateForVercel_valid (job : JobDefinition) (maxFunctionDuration : JS.Number)
      (fs : list string) :
  cronFieldsOf (cronOf job) fs -> length fs = 5%nat ->
  Validation.intervalCheck job = Ok None ->
  boundedAttempts job ->
  exists r,
    Validation.validateForVercel job maxFunctionDuration = Some (Ok r)
    /\ Validation.valid r = true
    /\ Validation.error r = None.
Proof.
  intros Hfs Hlen Hcheck Hb.
  destruct (cron_of_fields _ _ Hfs (or_introl Hlen)) as [Hsplit _].
  unfold Validation.validateForVercel. cbv zeta.
  rewrite Hsplit, Hlen. cbn [Nat.eqb]. rewrite Hcheck.
  destruct (retryWarning_returns job maxFunctionDuration Hb) as [ws ->].
  eexists. split; [reflexivity|]. by split.
Qed.

(** X20. Vercel validation accepts what the other builders compile: a job
    whose schedule comes from [daily], [weekly] or [monthly], or from
    [every] with minutes, hours, days or weeks and a value that is a safe
    integer (up to [Number.MAX_SAFE_INTEGER], seven times the value for
    weeks), and whose [retry.attempts], if given, is not above [2^53], is
    valid and carries no error, whatever else its configuration says. *)
Theorem vercel_accepts_minute_precision
        (b : ScheduleBuilder) (job : JobDefinition) (maxFunctionDuration : JS.Number) :
  (exists interval digits unit,
      unit <> unit_s /\ every interval = Ok b
      /\ intervalShape interval digits unit
      /\ loweredValue (JS.parseInt10 digits) unit <= JS.MAX_SAFE_INTEGER)
  \/ (exists times, daily times = Ok b)
  \/ (exists days time, weekly days time = Ok b)
  \/ (exists day time, monthly day time = Ok b) ->
  schedule job = descriptorOf b ->
  boundedAttempts job ->
  exists r,
    Validation.validateForVercel job maxFunctionDuration = Some (Ok r)
    /\ Validation.valid r = true
    /\ Validation.error r = None.
Proof.
  intros Hb Hjob Hbounded.
  destruct Hb as [(interval & digits & unit & Hunit & Hevery & Hshape & Hsafe) | Hb].
  { pose proof (parseInt10_nonneg digits (proj1 (proj2 Hshape))) as Hn.
    destruct (Z.eq_dec (JS.parseInt10 digits) 0) as [Hzero | Hpos].
    { rewrite (every_rejects_zero _ _ _ Hshape Hzero) in Hevery. discriminate. }
    destruct (every_accepts _ _ _ Hshape Hsafe ltac:(lia))
      as (b' & Hb' & Hcron & _ & Htype & _ & Hparams).
    rewrite Hevery in Hb'. injection Hb' as <-.
    destruct (loweringTable_fields (JS.parseInt10 digits) unit) as (fs & Hfs & Hlen).
    apply (validateForVercel_valid job maxFunctionDuration fs).
    - unfold cronOf. rewrite Hjob. cbn [descriptorOf cron_expr]. by rewrite Hcron.
    - by destruct unit.
    - unfold Validation.intervalCheck. rewrite Hjob.
      cbn [descriptorOf type originalParams]. rewrite Htype, Hparams.
      change (paramLookup "interval" [("interval", PString interval)])
        with (Some (PString interval)).
      cbv beta iota.
      rewrite (matchInterval_complete _ _ _ Hshape).
      destruct (nonEmpty interval); [|reflexivity].
      assert (Hparse : JS.parseInt digits = JS.Int (JS.parseInt10 digits)).
      { apply parseInt_safe; [exact (proj1 (proj2 Hshape))|].
        destruct unit; cbn [loweredValue] in Hsafe; lia. }
      destruct unit; try reflexivity; [done|].
      rewrite Hparse. cbn [JS.ltb].
      by replace (JS.parseInt10 digits <? 1) with false by (symmetry; lia).
    - exact Hbounded. }
  assert (Hfs : exists fs, cronFieldsOf (b_cron b) fs /\ length fs = 5%nat).
  { destruct Hb as [[ts H] | [(ds & t & H) | (d & t & H)]];
      eauto using daily_fields, weekly_fields, monthly_fields. }
  assert (Htype : b_type b <> TInterval).
  { destruct Hb as [[ts H] | [(ds & t & H) | (d & t & H)]].
    - by rewrite (daily_type _ _ H).
    - by rewrite (weekly_type _ _ _ H).
    - by rewrite (monthly_type _ _ _ H). }
  destruct Hfs as (fs & Hfs & Hlen).
  apply (validateForVercel_valid job maxFunctionDuration fs).
  - unfold cronOf. by rewrite Hjob.
  - exact Hlen.
  - unfold Validation.intervalCheck. rewrite Hjob. cbn [descriptorOf type].
    by destruct (b_type b).
  - exact Hbounded.
Qed.

Lemma vercel_accepts_minute_precision_witness :
  exists r,
    Validation.validateForVercel
      (mkJob "digest" "digest" (descriptorOf fridayMondayMorning)
             plainConfig (fun _ => Fulfils) None) (JS.Int 60000) = Some (Ok r)
    /\ Validation.valid r = true
    /\ Validation.error r = None.
Proof.
  apply (vercel_accepts_minute_precision fridayMondayMorning).
  - right. right. left. exists (DayArray ["fri"; "mon"]), "09:30". by vm_compute.
  - reflexivity.
  - intros rc [=].
Defined.

(** With [retry.attempts] [Infinity] the estimate, and with it the
    validation, does not return. *)
Example validateForVercel_does_not_return :
  Validation.validateForVercel
    (mkJob "digest" "digest" (descriptorOf fridayMondayMorning)
           (retryNumber JS.PlusInfinity "1s") (fun _ => Fulfils) None) (JS.Int 60000)
  = None.
Proof. by vm_compute. Qed.

(** ** The actions of a run *)

Lemma Moves_refl (w : World) : Moves w w [].
Proof. split; [reflexivity | reflexivity | by rewrite app_nil_r]. Qed.

Lemma Moves_trans (w w1 w2 : World) (a1 a2 : list Action) :
  Moves w w1 a1 -> Moves w1 w2 a2 -> Moves w w2 (a1 ++ a2).
Proof.
  intros [L1 C1 T1] [L2 C2 T2]. split.
  - by rewrite L2.
  - by rewrite C2.
  - by rewrite T2, T1, app_assoc.
Qed.

Lemma quietWorld_Moves (w w' : World) (acts : list Action) :
  Moves w w' acts -> quietWorld w -> quietWorld w'.
Proof. intros [L _ _] Q key ls l event. rewrite L. apply Q. Qed.

Lemma record_Moves (a : Action) (w : World) :
  exists w', record a w = (Returns tt, w') /\ Moves w w' [a].
Proof. eexists. split; [reflexivity|]. by split. Qed.

Lemma forEach_Moves (event : ExecutionEvent) (ls : list ExecutionEventListener)
      (w : World) :
  (forall l, l ∈ ls -> listen l event = None) ->
  exists w', forEach (callListener event) ls w = (Returns tt, w')
    /\ Moves w w' (map (fun l => ListenerCalled (listenerId l) event) ls).
Proof.
  revert w. induction ls as [|l ls IH]; intros w Hq.
  - exists w. split; [reflexivity | apply Moves_refl].
  - destruct (record_Moves (ListenerCalled (listenerId l) event) w) as (w1 & Hr & M1).
    destruct (IH w1) as (w2 & Hf & M2).
    { intros l' Hl'. apply Hq. by right. }
    exists w2. split.
    + cbn [forEach]. unfold callListener at 1.
      rewrite (Hq l) by left.
      erewrite bind_Returns; [exact Hf|].
      erewrite bind_Returns; [reflexivity | exact Hr].
    + exact (Moves_trans _ _ _ _ _ M1 M2).
Qed.

Lemma emit_Moves (event : ExecutionEvent) (w : World) :
  quietWorld w ->
  exists w', emit event w = (Returns tt, w')
    /\ Moves w w' (emitted (listeners w) event).
Proof.
  intros Q. unfold emit.
  destruct (record_Moves (Emitted event) w) as (w1 & Hr & M1).
  pose proof (quietWorld_Moves _ _ _ M1 Q) as Q1.
  destruct (forEach_Moves event
              (default [] (listeners w1 !! eventTypeName (ev_type event))) w1)
    as (w2 & Hf2 & M2).
  { intros l. apply getListeners_quiet. exact Q1. }
  pose proof (quietWorld_Moves _ _ _ M2 Q1) as Q2.
  destruct (forEach_Moves event (default [] (listeners w2 !! "*")) w2)
    as (w3 & Hf3 & M3).
  { intros l. apply getListeners_quiet. exact Q2. }
  exists w3. split.
  - returns Hr.
    unfold getListeners at 1. unfold bind at 1.
    returns Hf2.
    unfold getListeners. unfold bind. exact Hf3.
  - pose proof (Moves_trans _ _ _ _ _ M1 (Moves_trans _ _ _ _ _ M2 M3)) as M.
    rewrite (moves_listeners _ _ _ M2), (moves_listeners _ _ _ M1) in M.
    unfold emitted. rewrite map_app. exact M.
Qed.

Section RunFacts.

Variable rt : Runtime.

Lemma now_Moves (w : World) :
  exists t w', now rt w = (Returns t, w') /\ Moves w w' [].
Proof.
  eexists _, _. split; [reflexivity|].
  split; simpl; [reflexivity | reflexivity | by rewrite app_nil_r].
Qed.

Lemma randomSuffix_Moves (w : World) :
  exists r w', randomSuffix rt w = (Returns r, w') /\ Moves w w' [].
Proof.
  eexists _, _. split; [reflexivity|].
  split; simpl; [reflexivity | reflexivity | by rewrite app_nil_r].
Qed.

(** One attempt: the timer, the call of the handler, the timer cleared;
    or nothing but a throw, when the timeout is no duration. *)
Lemma executeAttempt_Moves (job : JobDefinition) (runId : string) (attempt : Z)
      (signal : Signal) (w : World) :
  exists scheduledAt started w',
    executeAttempt rt job runId attempt signal w
    = (match snd (attemptRun job runId signal attempt scheduledAt started) with
       | None => Returns tt
       | Some err => Throws err
       end, w')
    /\ Moves w w' (fst (attemptRun job runId signal attempt scheduledAt started)).
Proof.
  unfold executeAttempt.
  destruct (now_Moves w) as (t1 & w1 & H1 & M1).
  destruct (now_Moves w1) as (t2 & w2 & H2 & M2).
  pose proof (Moves_trans _ _ _ _ _ M1 M2) as M12. cbn [app] in M12.
  exists t1, t2. unfold attemptRun, timeoutOf.
  destruct (truthyString (timeout (config job))) as [t|].
  - destruct (parseDuration t) as [ms|e] eqn:Hp.
    + destruct (record_Moves (TimerSet ms) w2) as (w3 & H3 & M3).
      destruct (record_Moves
                  (HandlerCalled (attemptContext job runId signal attempt t1 t2)) w3)
        as (w4 & H4 & M4).
      destruct (record_Moves TimerCleared w4) as (w5 & H5 & M5).
      exists w5. split.
      * returns H1. returns H2. cbv zeta. cbn [liftResult]. unfold ret at 1.
        unfold bind at 1. returns H3.
        unfold tryFinally. fold (attemptContext job runId signal attempt t1 t2).
        returns H4. cbn [snd].
        destruct (handler job _); cbn [failureOf]; simpl; (returns H5); reflexivity.
      * cbn [fst].
        exact (Moves_trans _ _ _ _ _ M12
                 (Moves_trans _ _ _ _ _ M3 (Moves_trans _ _ _ _ _ M4 M5))).
    + exists w2. split; [|exact M12].
      returns H1. returns H2. cbv zeta. cbn [liftResult snd].
      unfold throw at 1. unfold bind at 1. reflexivity.
  - destruct (record_Moves (TimerSet DEFAULT_TIMEOUT_MS) w2) as (w3 & H3 & M3).
    destruct (record_Moves
                (HandlerCalled (attemptContext job runId signal attempt t1 t2)) w3)
      as (w4 & H4 & M4).
    destruct (record_Moves TimerCleared w4) as (w5 & H5 & M5).
    exists w5. split.
    + returns H1. returns H2. cbv zeta. unfold ret at 1.
      unfold bind at 1. returns H3.
      unfold tryFinally. fold (attemptContext job runId signal attempt t1 t2).
      returns H4. cbn [snd].
      destruct (handler job _); cbn [failureOf]; simpl; (returns H5); reflexivity.
    + cbn [fst].
      exact (Moves_trans _ _ _ _ _ M12
               (Moves_trans _ _ _ _ _ M3 (Moves_trans _ _ _ _ _ M4 M5))).
Qed.

Lemma callback_Moves (a : Action) (r : CallbackRun) (w : World) :
  exists w',
    tryCatch (do record a then awaitCallback r) (fun _ => ret tt) w
    = (match r with CallbackNeverSettles => NeverSettles | _ => Returns tt end, w')
    /\ Moves w w' [a].
Proof.
  destruct (record_Moves a w) as (w1 & H1 & M1). exists w1.
  split; [|exact M1]. unfold tryCatch. returns H1.
  destruct r; reflexivity.
Qed.

(** The end of an iteration: the terminal event, then the callback. *)
Lemma finish_Moves (event : ExecutionEvent) (result : ExecutionResult)
      (callback : option (Action * CallbackRun)) (w1 : World) :
  quietWorld w1 ->
  exists w',
    (do emit event then
     do match callback with
        | Some (a, r) => tryCatch (do record a then awaitCallback r) (fun _ => ret tt)
        | None => ret tt
        end then
     ret (Return result)) w1
    = (mapOutcome Return (afterCallback (option_map snd callback) result), w')
    /\ Moves w1 w' (emitted (listeners w1) event
                    ++ match callback with Some (a, _) => [a] | None => [] end).
Proof.
  intros Q. destruct (emit_Moves event w1 Q) as (w2 & H2 & M2).
  returns H2. destruct callback as [[a r]|].
  - destruct (callback_Moves a r w2) as (w3 & H3 & M3). exists w3.
    split; [|exact (Moves_trans _ _ _ _ _ M2 M3)].
    destruct r; cbn [option_map snd afterCallback mapOutcome].
    + returns H3. reflexivity.
    + returns H3. reflexivity.
    + never_settles H3. reflexivity.
  - exists w2. split; [reflexivity|]. by rewrite app_nil_r.
Qed.

(** One iteration of the loop of [run], when no listener throws. *)
Lemma iteration_Moves (job : JobDefinition) (runId : string) (startedAt : Z)
      (signal : Signal) (attempt : Z) (w : World) :
  quietWorld w ->
  exists scheduledAt started acts failure o w' more,
    attemptRun job runId signal attempt scheduledAt started = (acts, failure)
    /\ tryCatch (tryBlock rt job runId startedAt signal attempt)
                (catchBlock rt job runId startedAt signal attempt) w = (o, w')
    /\ Moves w w' (acts ++ more)
    /\ match failure with
       | None =>
           exists completedAt,
             more = successActs job runId startedAt signal (listeners w)
                                attempt completedAt
             /\ o = mapOutcome Return
                      (successOutcome job runId startedAt signal attempt completedAt)
       | Some (ThrownUnprintable raised) => more = [] /\ o = Throws raised
       | Some err =>
           match retry (config job) with
           | Some retryConfig =>
               if shouldRetry attempt retryConfig then
                 exists timestamp,
                   match calculateRetryDelay attempt retryConfig with
                   | Ok delay =>
                       more = emitted (listeners w)
                                      (retryEvent job runId attempt timestamp err)
                              ++ [Slept delay]
                       /\ o = Returns (Continue (JS.increment attempt) (errorOf err))
                   | Throw e =>
                       more = emitted (listeners w)
                                      (retryEvent job runId attempt timestamp err)
                       /\ o = Throws (ThrownError e)
                   end
               else
                 exists completedAt,
                   more = failureActs job runId startedAt signal (listeners w)
                                      attempt completedAt err
                   /\ o = mapOutcome Return
                            (failureOutcome job runId startedAt signal attempt
                                            completedAt err)
           | None =>
               exists completedAt,
                 more = failureActs job runId startedAt signal (listeners w)
                                    attempt completedAt err
                 /\ o = mapOutcome Return
                          (failureOutcome job runId startedAt signal attempt
                                          completedAt err)
           end
       end.
Proof.
  intros Q.
  destruct (executeAttempt_Moves job runId attempt signal w)
    as (t1 & t2 & w1 & H1 & M1).
  destruct (attemptRun job runId signal attempt t1 t2) as [acts failure] eqn:Hrun.
  cbn [fst snd] in H1, M1.
  pose proof (quietWorld_Moves _ _ _ M1 Q) as Q1.
  pose proof (moves_listeners _ _ _ M1) as L1.
  exists t1, t2, acts, failure.
  assert (Hfail : forall err isTimeout,
             isTimeout = isTimeoutError err ->
             exists completedAt w',
               failBranch rt job runId startedAt signal attempt (errorOf err)
                          isTimeout (errorInfoOf (errorOf err)) w1
               = (mapOutcome Return
                    (failureOutcome job runId startedAt signal attempt completedAt err),
                  w')
               /\ Moves w1 w' (failureActs job runId startedAt signal (listeners w)
                                           attempt completedAt err)).
  { intros err isTimeout ->. unfold failBranch.
    destruct (now_Moves w1) as (tc & w2 & H2 & M2).
    pose proof (quietWorld_Moves _ _ _ M2 Q1) as Q2.
    destruct (finish_Moves
                (failureEvent job runId startedAt attempt tc err)
                (failureResult job runId startedAt attempt tc err)
                (option_map
                   (fun callback =>
                      (OnFailureCalled (errorOf err)
                         (callbackContext job runId startedAt attempt signal),
                       callback (errorOf err)
                                (callbackContext job runId startedAt attempt signal)))
                   (onFailure (config job))) w2 Q2) as (w3 & H3 & M3).
    exists tc, w3. split.
    - returns H2. cbv zeta. unfold failureOutcome.
      destruct (onFailure (config job)) as [callback|];
        cbn [option_map snd] in H3 |- *; exact H3.
    - pose proof (Moves_trans _ _ _ _ _ M2 M3) as M. cbn [app] in M.
      rewrite (moves_listeners _ _ _ M2), L1 in M. unfold failureActs.
      destruct (onFailure (config job)); exact M. }
  destruct failure as [err|].
  - (* the attempt throws: the catch block *)
    assert (Htry : tryBlock rt job runId startedAt signal attempt w = (Throws err, w1)).
    { unfold tryBlock. throws H1. reflexivity. }
    unfold tryCatch. rewrite Htry.
    assert (Hcatch :
              printable err ->
              exists o w' more,
                catchBlock rt job runId startedAt signal attempt err w1 = (o, w')
                /\ Moves w w' (acts ++ more)
                /\ match retry (config job) with
                   | Some retryConfig =>
                       if shouldRetry attempt retryConfig then
                         exists timestamp,
                           match calculateRetryDelay attempt retryConfig with
                           | Ok delay =>
                               more = emitted (listeners w)
                                        (retryEvent job runId attempt timestamp err)
                                      ++ [Slept delay]
                               /\ o = Returns (Continue (JS.increment attempt)
                                                        (errorOf err))
                           | Throw e =>
                               more = emitted (listeners w)
                                        (retryEvent job runId attempt timestamp err)
                               /\ o = Throws (ThrownError e)
                           end
                       else
                         exists completedAt,
                           more = failureActs job runId startedAt signal (listeners w)
                                              attempt completedAt err
                           /\ o = mapOutcome Return
                                    (failureOutcome job runId startedAt signal attempt
                                                    completedAt err)
                   | None =>
                       exists completedAt,
                         more = failureActs job runId startedAt signal (listeners w)
                                            attempt completedAt err
                         /\ o = mapOutcome Return
                                  (failureOutcome job runId startedAt signal attempt
                                                  completedAt err)
                   end).
    { intros Hp. unfold catchBlock.
      erewrite bind_Returns; [|by apply toError_printable]. cbv zeta.
      destruct (retry (config job)) as [retryConfig|] eqn:Hretry.
      + destruct (shouldRetry attempt retryConfig) eqn:Hshould.
        * unfold retryBranch.
          destruct (now_Moves w1) as (ts & w2 & H2 & M2).
          pose proof (quietWorld_Moves _ _ _ M2 Q1) as Q2.
          destruct (emit_Moves (retryEvent job runId attempt ts err) w2 Q2)
            as (w3 & H3 & M3).
          rewrite (moves_listeners _ _ _ M2), L1 in M3.
          destruct (calculateRetryDelay attempt retryConfig) as [delay|e] eqn:Hdelay.
          -- destruct (record_Moves (Slept delay) w3) as (w4 & H4 & M4).
             eexists _, w4, _. split.
             { returns H2. fold (retryEvent job runId attempt ts err).
               returns H3. cbn [liftResult]. unfold ret at 1. unfold bind at 1.
               unfold sleep. returns H4. reflexivity. }
             split.
             { exact (Moves_trans _ _ _ _ _ M1
                        (Moves_trans _ _ _ _ _ M2 (Moves_trans _ _ _ _ _ M3 M4))). }
             exists ts. by split.
          -- eexists _, w3, _. split.
             { returns H2. fold (retryEvent job runId attempt ts err).
               returns H3. cbn [liftResult]. unfold throw at 1. unfold bind at 1.
               reflexivity. }
             split.
             { exact (Moves_trans _ _ _ _ _ M1 (Moves_trans _ _ _ _ _ M2 M3)). }
             exists ts. by split.
        * destruct (Hfail err _ eq_refl) as (tc & w2 & H2 & M2).
          eexists _, w2, _. split; [exact H2|].
          split; [exact (Moves_trans _ _ _ _ _ M1 M2)|].
          exists tc. by split.
      + destruct (Hfail err _ eq_refl) as (tc & w2 & H2 & M2).
        eexists _, w2, _. split; [exact H2|].
        split; [exact (Moves_trans _ _ _ _ _ M1 M2)|].
        exists tc. by split. }
    destruct err as [e|text|raised].
    + destruct (Hcatch I) as (o & w' & more & Ho & M & Hcase).
      exists o, w', more. by repeat (split; [assumption|]).
    + destruct (Hcatch I) as (o & w' & more & Ho & M & Hcase).
      exists o, w', more. by repeat (split; [assumption|]).
    + exists (Throws raised), w1, []. split; [exact Hrun|].
      split; [reflexivity|]. split; [by rewrite app_nil_r | by split].
  - (* the attempt returns: the rest of the try block *)
    destruct (now_Moves w1) as (tc & w2 & H2 & M2).
    pose proof (quietWorld_Moves _ _ _ M2 Q1) as Q2.
    destruct (finish_Moves
                (successEvent job runId startedAt attempt tc)
                (successResult job runId startedAt attempt tc)
                (option_map
                   (fun callback =>
                      (OnSuccessCalled
                         (callbackContext job runId startedAt attempt signal),
                       callback (callbackContext job runId startedAt attempt signal)))
                   (onSuccess (config job))) w2 Q2) as (w3 & H3 & M3).
    assert (Htry : tryBlock rt job runId startedAt signal attempt w
                   = (mapOutcome Return
                        (successOutcome job runId startedAt signal attempt tc), w3)).
    { unfold tryBlock, successBranch. returns H1. returns H2. cbv zeta.
      unfold successOutcome.
      destruct (onSuccess (config job)) as [callback|];
        cbn [option_map snd] in H3 |- *; exact H3. }
    exists (mapOutcome Return (successOutcome job runId startedAt signal attempt tc)),
      w3, (successActs job runId startedAt signal (listeners w) attempt tc).
    split; [exact Hrun|]. split.
    { unfold tryCatch. rewrite Htry.
      unfold successOutcome, afterCallback.
      destruct (onSuccess (config job)) as [callback|]; [|reflexivity].
      cbn [option_map]. by destruct (callback _). }
    split.
    { pose proof (Moves_trans _ _ _ _ _ M1 (Moves_trans _ _ _ _ _ M2 M3)) as M.
      cbn [app] in M. rewrite (moves_listeners _ _ _ M2), L1 in M.
      unfold successActs. by destruct (onSuccess (config job)). }
    exists tc. by split.
Qed.

Lemma afterCallback_cases (called : option CallbackRun) (result : ExecutionResult) :
  afterCallback called result = Returns result
  \/ afterCallback called result = NeverSettles.
Proof. destruct called as [[| |]|]; auto. Qed.

(** The loop of [run], when no listener throws and [retry.attempts] is an
    integer from 1 to [2^53]: what it does is a sequence of attempts, and
    it ends as the last of them ends. *)
Lemma attemptLoop_Attempts (job : JobDefinition) (runId : string) (startedAt : Z)
      (signal : Signal) :
  integerAttempts job ->
  forall (fuel : nat) (attempt : Z) (lastError : option JS.Error) (w : World),
    quietWorld w ->
    1 <= attempt ->
    JS.leb (JS.Int attempt) (maxAttemptsOf job) = true ->
    (loopFuel (maxAttemptsOf job) <= fuel + Z.to_nat (attempt - 1))%nat ->
    exists acts exit w',
      attemptLoop rt fuel job runId startedAt signal (maxAttemptsOf job)
                  attempt lastError w = (mapOutcome Returned exit, w')
      /\ Moves w w' acts
      /\ Attempts job runId startedAt signal (listeners w) attempt acts exit.
Proof.
  intros Hatt.
  pose proof (boundedAttempts_max job (integerAttempts_bounded job Hatt)) as Hmax.
  destruct (integerAttempts_max job Hatt) as (n & Hn & Hrange).
  induction fuel as [|fuel IH]; intros attempt lastError w Q H1 Hle Hfuel.
  { pose proof (leb_loopFuel _ _ H1 Hle Hmax). lia. }
  cbn [attemptLoop]. rewrite Hle. cbn [negb].
  destruct (iteration_Moves job runId startedAt signal attempt w Q)
    as (t1 & t2 & acts & failure & o & w1 & more & Hrun & Hiter & M & Hcase).
  assert (Hends : forall exit,
             o = mapOutcome Return exit ->
             (exists r, exit = Returns r) \/ exit = NeverSettles ->
             (let* iteration :=
                tryCatch (tryBlock rt job runId startedAt signal attempt)
                         (catchBlock rt job runId startedAt signal attempt) in
              match iteration with
              | Return result => ret (Returned result)
              | Continue attempt' lastError' =>
                  attemptLoop rt fuel job runId startedAt signal (maxAttemptsOf job)
                              attempt' (Some lastError')
              end) w = (mapOutcome Returned exit, w1)).
  { intros exit -> [[r ->] | ->]; cbn [mapOutcome] in Hiter |- *.
    - returns Hiter. reflexivity.
    - never_settles Hiter. reflexivity. }
  assert (Hprintable :
            forall err,
              failure = Some err -> printable err ->
              match retry (config job) with
              | Some retryConfig =>
                  if shouldRetry attempt retryConfig then
                    exists timestamp,
                      match calculateRetryDelay attempt retryConfig with
                      | Ok delay =>
                          more = emitted (listeners w)
                                         (retryEvent job runId attempt timestamp err)
                                 ++ [Slept delay]
                          /\ o = Returns (Continue (JS.increment attempt) (errorOf err))
                      | Throw e =>
                          more = emitted (listeners w)
                                         (retryEvent job runId attempt timestamp err)
                          /\ o = Throws (ThrownError e)
                      end
                  else
                    exists completedAt,
                      more = failureActs job runId startedAt signal (listeners w)
                                         attempt completedAt err
                      /\ o = mapOutcome Return
                               (failureOutcome job runId startedAt signal attempt
                                               completedAt err)
              | None =>
                  exists completedAt,
                    more = failureActs job runId startedAt signal (listeners w)
                                       attempt completedAt err
                    /\ o = mapOutcome Return
                             (failureOutcome job runId startedAt signal attempt
                                             completedAt err)
              end ->
              exists acts exit w',
                (let* iteration :=
                   tryCatch (tryBlock rt job runId startedAt signal attempt)
                            (catchBlock rt job runId startedAt signal attempt) in
                 match iteration with
                 | Return result => ret (Returned result)
                 | Continue attempt' lastError' =>
                     attemptLoop rt fuel job runId startedAt signal (maxAttemptsOf job)
                                 attempt' (Some lastError')
                 end) w = (mapOutcome Returned exit, w')
                /\ Moves w w' acts
                /\ Attempts job runId startedAt signal (listeners w) attempt acts exit).
  { intros err -> Hp Hcase'.
    destruct (retry (config job)) as [retryConfig|] eqn:Hretry.
    + destruct (shouldRetry attempt retryConfig) eqn:Hshould.
      * destruct Hcase' as [ts Hcase'].
        assert (Hmaxrc : maxAttemptsOf job = attempts retryConfig)
          by (unfold maxAttemptsOf; by rewrite Hretry).
        pose proof Hshould as Hlt.
        rewrite shouldRetry_in_loop in Hlt; [|exact H1|by rewrite <- Hmaxrc].
        rewrite <- Hmaxrc in Hlt.
        rewrite (ltb_increment _ _ H1 Hlt Hmax) in Hcase'.
        destruct (calculateRetryDelay attempt retryConfig) as [delay|e] eqn:Hdelay.
        -- destruct Hcase' as [-> ->].
           destruct (IH (attempt + 1) (Some (errorOf err)) w1) as
             (rest & exit & w2 & Hloop & M2 & Hrest).
           { exact (quietWorld_Moves _ _ _ M Q). }
           { lia. }
           { rewrite Hn in *. by apply ltb_leb_succ. }
           { lia. }
           rewrite (moves_listeners _ _ _ M) in Hrest.
           exists (acts ++ emitted (listeners w) (retryEvent job runId attempt ts err)
                        ++ [Slept delay] ++ rest), exit, w2.
           split; [returns Hiter; exact Hloop|]. split.
           ++ pose proof (Moves_trans _ _ _ _ _ M M2) as M'.
              by rewrite <- !app_assoc in M'.
           ++ eapply attempt_retries; eauto.
        -- destruct Hcase' as [-> ->].
           exists (acts ++ emitted (listeners w) (retryEvent job runId attempt ts err)),
             (Throws (ThrownError e)), w1.
           split; [throws Hiter; reflexivity|]. split; [exact M|].
           eapply attempt_retry_throws; eauto.
      * destruct Hcase' as (tc & -> & ->).
        eexists _, _, w1. split.
        { apply Hends; [reflexivity|].
          unfold failureOutcome.
          destruct (afterCallback_cases
                      (option_map
                         (fun callback =>
                            callback (errorOf err)
                              (callbackContext job runId startedAt attempt signal))
                         (onFailure (config job)))
                      (failureResult job runId startedAt attempt tc err)) as [-> | ->];
            eauto. }
        split; [exact M|].
        eapply attempt_fails; [exact Hrun | exact Hp |].
        unfold wantsRetry. by rewrite Hretry.
    + destruct Hcase' as (tc & -> & ->).
      eexists _, _, w1. split.
      { apply Hends; [reflexivity|].
        unfold failureOutcome.
        destruct (afterCallback_cases
                    (option_map
                       (fun callback =>
                          callback (errorOf err)
                            (callbackContext job runId startedAt attempt signal))
                       (onFailure (config job)))
                    (failureResult job runId startedAt attempt tc err)) as [-> | ->];
          eauto. }
      split; [exact M|].
      eapply attempt_fails; [exact Hrun | exact Hp |].
      unfold wantsRetry. by rewrite Hretry. }
  destruct failure as [[e|text|raised]|].
  - exact (Hprintable _ eq_refl I Hcase).
  - exact (Hprintable _ eq_refl I Hcase).
  - destruct Hcase as [-> ->]. rewrite app_nil_r in M.
    exists acts, (Throws raised), w1.
    split; [throws Hiter; reflexivity|]. split; [exact M|].
    eapply attempt_unprintable. exact Hrun.
  - destruct Hcase as (tc & -> & ->).
    eexists _, _, w1. split.
    { apply Hends; [reflexivity|].
      unfold successOutcome.
      destruct (afterCallback_cases
                  (option_map
                     (fun callback =>
                        callback (callbackContext job runId startedAt attempt signal))
                     (onSuccess (config job)))
                  (successResult job runId startedAt attempt tc)) as [-> | ->];
        eauto. }
    split; [exact M|].
    eapply attempt_succeeds. exact Hrun.
Qed.

(** A run, when no listener throws and [retry.attempts] is an integer
    from 1 to [2^53]: a new controller, the [job:start] event, then the
    attempts from the first on. *)
Lemma run_Attempts (job : JobDefinition) (w : World) :
  integerAttempts job -> quietWorld w ->
  exists runId startedAt timestamp acts exit w',
    run rt job w = (exit, w')
    /\ listeners w' = listeners w
    /\ controllers w' = controllers w ++ [false]
    /\ trace w' = trace w ++ emitted (listeners w) (startEvent job runId timestamp) ++ acts
    /\ Attempts job runId startedAt (length (controllers w)) (listeners w) 1 acts exit.
Proof.
  intros Hatt Q.
  destruct (integerAttempts_max job Hatt) as (n & Hn & Hrange).
  destruct (emit_Moves (startEventIn rt job w) _ (quietWorld_started w Q))
    as (w6 & H6 & M6).
  cbn [startedWorld listeners] in M6.
  destruct (attemptLoop_Attempts job (runIdIn rt w) (startedAtIn rt w)
              (length (controllers w)) Hatt
              (loopFuel (maxAttemptsOf job)) 1 None w6)
    as (acts & exit & w7 & Hloop & M7 & Hacts).
  { exact (quietWorld_Moves _ _ _ M6 (quietWorld_started w Q)). }
  { lia. }
  { rewrite Hn. cbn [JS.leb]. lia. }
  { lia. }
  rewrite (moves_listeners _ _ _ M6) in Hacts. cbn [startedWorld listeners] in Hacts.
  pose proof (Moves_trans _ _ _ _ _ M6 M7) as M67.
  assert (Htraced : runTraced rt job w
                    = (mapOutcome (fun r => (InsideLoop, r)) exit, w7)).
  { unfold runTraced. rewrite runTracedWith_start. returns H6.
    unfold bind at 1. rewrite Hloop. by destruct exit. }
  exists (runIdIn rt w), (startedAtIn rt w), (clock rt (S (S (clockReads w)))),
    acts, exit, w7.
  split; [|split; [|split; [|split; [|exact Hacts]]]].
  - unfold run, bind. rewrite Htraced. by destruct exit.
  - by rewrite (moves_listeners _ _ _ M67).
  - by rewrite (moves_controllers _ _ _ M67).
  - rewrite (moves_trace _ _ _ M67). reflexivity.
Qed.

End RunFacts.

(** ** What the attempts of a run add up to *)

Lemma emitted_projections (ls : gmap string (list ExecutionEventListener))
      (event : ExecutionEvent) :
  handlerCalls (emitted ls event) = []
  /\ sleeps (emitted ls event) = []
  /\ timers (emitted ls event) = []
  /\ successCallbacks (emitted ls event) = []
  /\ failureCallbacks (emitted ls event) = []
  /\ emittedEvents (emitted ls event) = [event].
Proof.
  unfold emitted. set (l := _ ++ _). clearbody l.
  unfold handlerCalls, sleeps, timers, successCallbacks, failureCallbacks,
    emittedEvents.
  cbn [omap list_omap]. repeat split; try f_equal; by induction l.
Qed.

Lemma attemptRun_inv (job : JobDefinition) (runId : string) (signal : Signal)
      (attempt t1 t2 : Z) (acts : list Action) (failure : option Thrown) :
  attemptRun job runId signal attempt t1 t2 = (acts, failure) ->
  (exists e, timeoutOf job = Throw e /\ acts = []
             /\ failure = Some (ThrownError e))
  \/ (exists ms, timeoutOf job = Ok ms
                 /\ acts = [TimerSet ms;
                            HandlerCalled (attemptContext job runId signal attempt t1 t2);
                            TimerCleared]
                 /\ failure = failureOf ms
                                (handler job (attemptContext job runId signal attempt t1 t2))).
Proof.
  unfold attemptRun. destruct (timeoutOf job) as [ms|e]; intros [= <- <-].
  - right. by exists ms.
  - left. by exists e.
Qed.

Lemma afterCallback_Returns (called : option CallbackRun)
      (result r : ExecutionResult) :
  afterCallback called result = Returns r -> r = result.
Proof. destruct called as [[| |]|]; by intros [= <-]. Qed.

Section AttemptsFacts.

Variable job : JobDefinition.
Variable runId : string.
Variable startedAt : Z.
Variable signal : Signal.
Variable ls : gmap string (list ExecutionEventListener).

Lemma successActs_projections (attempt completedAt : Z) :
  handlerCalls (successActs job runId startedAt signal ls attempt completedAt) = []
  /\ sleeps (successActs job runId startedAt signal ls attempt completedAt) = []
  /\ timers (successActs job runId startedAt signal ls attempt completedAt) = []
  /\ emittedEvents (successActs job runId startedAt signal ls attempt completedAt)
     = [successEvent job runId startedAt attempt completedAt]
  /\ failureCallbacks (successActs job runId startedAt signal ls attempt completedAt) = [].
Proof.
  destruct (emitted_projections ls (successEvent job runId startedAt attempt completedAt))
    as (H1 & H2 & H3 & H4 & H5 & H6).
  unfold successActs, handlerCalls, sleeps, timers, emittedEvents, failureCallbacks in *.
  rewrite !omap_app, H1, H2, H3, H5, H6.
  by destruct (onSuccess (config job)).
Qed.

Lemma failureActs_projections (attempt completedAt : Z) (err : Thrown) :
  handlerCalls (failureActs job runId startedAt signal ls attempt completedAt err) = []
  /\ sleeps (failureActs job runId startedAt signal ls attempt completedAt err) = []
  /\ timers (failureActs job runId startedAt signal ls attempt completedAt err) = []
  /\ emittedEvents (failureActs job runId startedAt signal ls attempt completedAt err)
     = [failureEvent job runId startedAt attempt completedAt err]
  /\ successCallbacks (failureActs job runId startedAt signal ls attempt completedAt err)
     = [].
Proof.
  destruct (emitted_projections ls
              (failureEvent job runId startedAt attempt completedAt err))
    as (H1 & H2 & H3 & H4 & H5 & H6).
  unfold failureActs, handlerCalls, sleeps, timers, emittedEvents, successCallbacks in *.
  rewrite !omap_app, H1, H2, H3, H4, H6.
  by destruct (onFailure (config job)).
Qed.

(** With a timeout that is a duration, the handler is called once in each
    attempt, with the number of the attempt; the calls before the last did
    not fulfil, and a result reflects the last one. *)
Lemma Attempts_handlerCalls (ms : JS.Number) (attempt : Z) (acts : list Action)
      (exit : Outcome ExecutionResult) :
  timeoutOf job = Ok ms ->
  Attempts job runId startedAt signal ls attempt acts exit ->
  exists calls last,
    handlerCalls acts = calls ++ [last]
    /\ map ctx_attempt (calls ++ [last]) = seqZ attempt (Z.of_nat (S (length calls)))
    /\ Forall (contextOfRun job runId signal) (calls ++ [last])
    /\ Forall (fun c => handler job c <> Fulfils) calls
    /\ timers acts
       = concat (replicate (S (length calls)) [SetTimer ms; ClearTimer])
    /\ length (sleeps acts) = length calls
    /\ forall r, exit = Returns r ->
         res_attempt r = ctx_attempt last
         /\ res_runId r = runId /\ res_jobId r = id job
         /\ res_startedAt r = startedAt
         /\ res_duration r = res_completedAt r - startedAt
         /\ resultReflects (failureOf ms (handler job last)) r.
Proof.
  intros Hms H.
  assert (Hone : forall a t1 t2 acts0 failure,
             attemptRun job runId signal a t1 t2 = (acts0, failure) ->
             acts0 = [TimerSet ms;
                      HandlerCalled (attemptContext job runId signal a t1 t2);
                      TimerCleared]
             /\ failure = failureOf ms
                            (handler job (attemptContext job runId signal a t1 t2))).
  { intros a t1 t2 acts0 failure Hrun.
    destruct (attemptRun_inv _ _ _ _ _ _ _ _ Hrun)
      as [(e & He & _) | (ms' & Hms' & -> & ->)]; [congruence|].
    rewrite Hms in Hms'. by injection Hms' as <-. }
  induction H as
    [a t1 t2 tc acts0 Hrun
    |a t1 t2 tc acts0 err Hrun Hp Hno
    |a t1 t2 ts acts0 err rc delay rest exit Hrun Hp Hrc Hshould Hdelay Hrest IH
    |a t1 t2 ts acts0 err rc e Hrun Hp Hrc Hshould Hdelay
    |a t1 t2 acts0 raised Hrun];
    destruct (Hone _ _ _ _ _ Hrun) as [-> Hfailure].
  - destruct (successActs_projections a tc) as (P1 & P2 & P3 & _).
    exists [], (attemptContext job runId signal a t1 t2).
    unfold handlerCalls, timers, sleeps in *. rewrite !omap_app, P1, P2, P3.
    repeat split; try reflexivity.
    + repeat constructor.
    + constructor.
    + apply afterCallback_Returns in H. by subst r.
    + apply afterCallback_Returns in H. by subst r.
    + apply afterCallback_Returns in H. by subst r.
    + apply afterCallback_Returns in H. by subst r.
    + apply afterCallback_Returns in H. by subst r.
    + rewrite <- Hfailure. apply afterCallback_Returns in H. by subst r.
  - destruct (failureActs_projections a tc err) as (P1 & P2 & P3 & _).
    exists [], (attemptContext job runId signal a t1 t2).
    unfold handlerCalls, timers, sleeps in *. rewrite !omap_app, P1, P2, P3.
    repeat split; try reflexivity.
    + repeat constructor.
    + constructor.
    + apply afterCallback_Returns in H. by subst r.
    + apply afterCallback_Returns in H. by subst r.
    + apply afterCallback_Returns in H. by subst r.
    + apply afterCallback_Returns in H. by subst r.
    + apply afterCallback_Returns in H. by subst r.
    + rewrite <- Hfailure. apply afterCallback_Returns in H. by subst r.
  - destruct IH as (calls & last & Hcalls & Hnum & Hctx & Hfailed & Htimers
                    & Hsleeps & Hresult).
    destruct (emitted_projections ls (retryEvent job runId a ts err))
      as (P1 & P2 & P3 & _).
    exists (attemptContext job runId signal a t1 t2 :: calls), last.
    unfold handlerCalls, timers, sleeps in *.
    rewrite !omap_app, P1, P2, P3, Hcalls, Htimers.
    split; [reflexivity|]. split; [|split; [|split; [|split; [|split]]]].
    + cbn [app map length]. rewrite (seqZ_cons a) by lia. f_equal.
      rewrite Hnum. f_equal; lia.
    + constructor; [by repeat split | exact Hctx].
    + constructor; [|exact Hfailed]. intros Hf. by rewrite Hf in Hfailure.
    + reflexivity.
    + cbn. by rewrite Hsleeps.
    + exact Hresult.
  - destruct (emitted_projections ls (retryEvent job runId a ts err))
      as (P1 & P2 & P3 & _).
    exists [], (attemptContext job runId signal a t1 t2).
    unfold handlerCalls, timers, sleeps in *. rewrite !omap_app, P1, P2, P3.
    repeat split; try reflexivity; try discriminate.
    + repeat constructor.
    + constructor.
  - exists [], (attemptContext job runId signal a t1 t2).
    repeat split; try reflexivity; try discriminate.
    + repeat constructor.
    + constructor.
Qed.

End AttemptsFacts.

Lemma attemptRun_projections (job : JobDefinition) (runId : string) (signal : Signal)
      (attempt t1 t2 : Z) (acts : list Action) (failure : option Thrown) :
  attemptRun job runId signal attempt t1 t2 = (acts, failure) ->
  sleeps acts = [] /\ emittedEvents acts = []
  /\ successCallbacks acts = [] /\ failureCallbacks acts = [].
Proof.
  intros H.
  destruct (attemptRun_inv _ _ _ _ _ _ _ _ H) as [(e & _ & -> & _) | (ms & _ & -> & _)];
    by repeat split.
Qed.

Lemma parseDuration_error_plain (duration : string) (e : JS.Error) :
  parseDuration duration = Throw e -> JS.isTimeoutInstance e = false.
Proof.
  unfold parseDuration. destruct (matchDuration duration) as [[digits unit]|];
    [discriminate|]. by intros [= <-].
Qed.

Lemma timeoutOf_error_plain (job : JobDefinition) (e : JS.Error) :
  timeoutOf job = Throw e -> JS.isTimeoutInstance e = false.
Proof.
  unfold timeoutOf. destruct (truthyString (timeout (config job))); [|discriminate].
  apply parseDuration_error_plain.
Qed.

(** With an integer [retry.attempts], an attempt of the loop is retried
    when it is not the last. *)
Lemma shouldRetry_integer (job : JobDefinition) (rc : RetryConfig) (n attempt : Z) :
  maxAttemptsOf job = JS.Int n -> retry (config job) = Some rc ->
  1 <= attempt <= n ->
  shouldRetry attempt rc = (attempt <? n).
Proof.
  intros Hn Hrc Ha. unfold maxAttemptsOf in Hn. rewrite Hrc in Hn.
  rewrite shouldRetry_in_loop; rewrite ?Hn; cbn [JS.ltb JS.leb]; [reflexivity|lia|lia].
Qed.

Section AttemptsSums.

Variable job : JobDefinition.
Variable runId : string.
Variable startedAt : Z.
Variable signal : Signal.
Variable ls : gmap string (list ExecutionEventListener).

(** The delays slept are those of the backoff, one after each attempt but
    the last. *)
Lemma Attempts_sleeps (attempt : Z) (acts : list Action)
      (exit : Outcome ExecutionResult) :
  Attempts job runId startedAt signal ls attempt acts exit ->
  match retry (config job) with
  | Some retryConfig =>
      mapResult (fun k => calculateRetryDelay k retryConfig)
                (seqZ attempt (Z.of_nat (length (sleeps acts))))
      = Ok (sleeps acts)
  | None => sleeps acts = []
  end.
Proof.
  induction 1 as
    [a t1 t2 tc acts0 Hrun
    |a t1 t2 tc acts0 err Hrun Hp Hno
    |a t1 t2 ts acts0 err rc delay rest exit Hrun Hp Hrc Hshould Hdelay Hrest IH
    |a t1 t2 ts acts0 err rc e Hrun Hp Hrc Hshould Hdelay
    |a t1 t2 acts0 raised Hrun];
    destruct (attemptRun_projections _ _ _ _ _ _ _ _ Hrun) as (S0 & _).
  - destruct (successActs_projections job runId startedAt signal ls a tc)
      as (_ & P2 & _).
    unfold sleeps in *. rewrite omap_app, S0, P2.
    by destruct (retry (config job)).
  - destruct (failureActs_projections job runId startedAt signal ls a tc err)
      as (_ & P2 & _).
    unfold sleeps in *. rewrite omap_app, S0, P2.
    by destruct (retry (config job)).
  - destruct (emitted_projections ls (retryEvent job runId a ts err))
      as (_ & P2 & _).
    rewrite Hrc in IH |- *.
    unfold sleeps in *. rewrite !omap_app, S0, P2. cbn [app omap list_omap].
    cbn [length]. rewrite (seqZ_cons a) by lia.
    cbn [mapResult]. rewrite Hdelay. cbn [rbind].
    replace (Z.pred (Z.of_nat (S (length (omap _ rest)))))
      with (Z.of_nat (length (omap (fun a => match a with
                                             | Slept ms => Some ms
                                             | _ => None
                                             end) rest))) by lia.
    replace (Z.succ a) with (a + 1) by lia.
    by rewrite IH.
  - destruct (emitted_projections ls (retryEvent job runId a ts err))
      as (_ & P2 & _).
    rewrite Hrc. unfold sleeps in *. by rewrite !omap_app, S0, P2.
  - rewrite S0. by destruct (retry (config job)).
Qed.

(** The events of the attempts: the retries, numbered from the first
    attempt, then the terminal event of a run that returns, which says what
    the result says. *)
Lemma Attempts_events (attempt : Z) (acts : list Action)
      (exit : Outcome ExecutionResult) :
  Attempts job runId startedAt signal ls attempt acts exit ->
  exists retries rest,
    emittedEvents acts = retries ++ rest
    /\ Forall (retryOfRun job runId) retries
    /\ map ev_attempt retries = seqZ attempt (Z.of_nat (length retries))
    /\ match exit with
       | Returns r => exists terminal, rest = [terminal] /\ terminalOf r terminal
       | NeverSettles => exists terminal, rest = [terminal]
                                          /\ isTerminal (ev_type terminal) = true
       | _ => rest = []
       end.
Proof.
  induction 1 as
    [a t1 t2 tc acts0 Hrun
    |a t1 t2 tc acts0 err Hrun Hp Hno
    |a t1 t2 ts acts0 err rc delay rest exit Hrun Hp Hrc Hshould Hdelay Hrest IH
    |a t1 t2 ts acts0 err rc e Hrun Hp Hrc Hshould Hdelay
    |a t1 t2 acts0 raised Hrun];
    destruct (attemptRun_projections _ _ _ _ _ _ _ _ Hrun) as (_ & E0 & _).
  - destruct (successActs_projections job runId startedAt signal ls a tc)
      as (_ & _ & _ & P4 & _).
    exists [], [successEvent job runId startedAt a tc].
    unfold emittedEvents in *. rewrite omap_app, E0, P4.
    split; [reflexivity|]. split; [constructor|]. split; [reflexivity|].
    unfold successOutcome.
    destruct (afterCallback _ _) as [r| | |] eqn:Hr.
    + apply afterCallback_Returns in Hr. subst r. eexists. split; [reflexivity|].
      by repeat split.
    + by destruct (option_map _ _) as [[| |]|].
    + eexists. by split.
    + by destruct (option_map _ _) as [[| |]|].
  - destruct (failureActs_projections job runId startedAt signal ls a tc err)
      as (_ & _ & _ & P4 & _).
    exists [], [failureEvent job runId startedAt a tc err].
    unfold emittedEvents in *. rewrite omap_app, E0, P4.
    split; [reflexivity|]. split; [constructor|]. split; [reflexivity|].
    unfold failureOutcome.
    destruct (afterCallback _ _) as [r| | |] eqn:Hr.
    + apply afterCallback_Returns in Hr. subst r. eexists. split; [reflexivity|].
      repeat split. cbn. by destruct (isTimeoutError err).
    + by destruct (option_map _ _) as [[| |]|].
    + eexists. split; [reflexivity|]. cbn. by destruct (isTimeoutError err).
    + by destruct (option_map _ _) as [[| |]|].
  - destruct IH as (retries & rest' & Hevs & Hall & Hnum & Hexit).
    destruct (emitted_projections ls (retryEvent job runId a ts err))
      as (_ & _ & _ & _ & _ & P6).
    exists (retryEvent job runId a ts err :: retries), rest'.
    unfold emittedEvents in *. rewrite !omap_app, E0, P6. cbn [app omap list_omap].
    rewrite Hevs. split; [reflexivity|]. split; [|split; [|exact Hexit]].
    + constructor; [by repeat split | exact Hall].
    + cbn [map length]. rewrite (seqZ_cons a) by lia. cbn [retryEvent ev_attempt].
      f_equal. rewrite Hnum. f_equal; lia.
  - destruct (emitted_projections ls (retryEvent job runId a ts err))
      as (_ & _ & _ & _ & _ & P6).
    exists [retryEvent job runId a ts err], [].
    unfold emittedEvents in *. rewrite !omap_app, E0, P6.
    split; [reflexivity|]. split; [|split; [reflexivity|reflexivity]].
    constructor; [by repeat split | constructor].
  - exists [], []. rewrite E0. split; [reflexivity|]. split; [constructor|]. by split.
Qed.

(** A run that returns called one callback, at most: [onSuccess] after a
    success and [onFailure] after a failure or a timeout, when the job has
    it, with the attempt of the result and the error of the result. *)
Lemma Attempts_callbacks (attempt : Z) (acts : list Action) (r : ExecutionResult) :
  Attempts job runId startedAt signal ls attempt acts (Returns r) ->
  match res_status r with
  | status_success =>
      failureCallbacks acts = []
      /\ successCallbacks acts
         = match onSuccess (config job) with
           | Some _ => [callbackContext job runId startedAt (res_attempt r) signal]
           | None => []
           end
  | _ =>
      successCallbacks acts = []
      /\ exists e,
           res_error r = Some (errorInfoOf e)
           /\ failureCallbacks acts
              = match onFailure (config job) with
                | Some _ => [(e, callbackContext job runId startedAt (res_attempt r) signal)]
                | None => []
                end
  end.
Proof.
  intros H. remember (Returns r) as exit eqn:Hexit.
  induction H as
    [a t1 t2 tc acts0 Hrun
    |a t1 t2 tc acts0 err Hrun Hp Hno
    |a t1 t2 ts acts0 err rc delay rest exit Hrun Hp Hrc Hshould Hdelay Hrest IH
    |a t1 t2 ts acts0 err rc e Hrun Hp Hrc Hshould Hdelay
    |a t1 t2 acts0 raised Hrun];
    destruct (attemptRun_projections _ _ _ _ _ _ _ _ Hrun) as (_ & _ & C1 & C2).
  - apply afterCallback_Returns in Hexit. subst r. cbn [res_status successResult].
    destruct (emitted_projections ls (successEvent job runId startedAt a tc))
      as (_ & _ & _ & Q1 & Q2 & _).
    unfold successActs, successCallbacks, failureCallbacks in *.
    rewrite !omap_app, C1, C2, Q1, Q2. cbn [res_attempt].
    by destruct (onSuccess (config job)).
  - apply afterCallback_Returns in Hexit. subst r.
    destruct (emitted_projections ls (failureEvent job runId startedAt a tc err))
      as (_ & _ & _ & Q1 & Q2 & _).
    assert (G : successCallbacks
                  (acts0 ++ failureActs job runId startedAt signal ls a tc err) = []
                /\ exists e,
                     res_error (failureResult job runId startedAt a tc err)
                     = Some (errorInfoOf e)
                     /\ failureCallbacks
                          (acts0 ++ failureActs job runId startedAt signal ls a tc err)
                        = match onFailure (config job) with
                          | Some _ =>
                              [(e, callbackContext job runId startedAt
                                     (res_attempt
                                        (failureResult job runId startedAt a tc err))
                                     signal)]
                          | None => []
                          end).
    { unfold failureActs, successCallbacks, failureCallbacks in *.
      rewrite !omap_app, C1, C2, Q1, Q2. split.
      - by destruct (onFailure (config job)).
      - exists (errorOf err). split; [reflexivity|].
        by destruct (onFailure (config job)). }
    cbn [res_status failureResult]. destruct (isTimeoutError err); exact G.
  - destruct (emitted_projections ls (retryEvent job runId a ts err))
      as (_ & _ & _ & Q1 & Q2 & _).
    specialize (IH Hexit).
    unfold successCallbacks, failureCallbacks in *.
    rewrite !omap_app, C1, C2, Q1, Q2. cbn [app omap list_omap]. exact IH.
  - discriminate.
  - discriminate.
Qed.

(** A run gives up only after its last attempt. *)
Lemma Attempts_last_attempt (n attempt : Z) (acts : list Action) (r : ExecutionResult) :
  maxAttemptsOf job = JS.Int n ->
  1 <= attempt <= n ->
  Attempts job runId startedAt signal ls attempt acts (Returns r) ->
  res_status r <> status_success ->
  res_attempt r = n.
Proof.
  intros Hn Hle H. remember (Returns r) as exit eqn:Hexit. revert Hle.
  induction H as
    [a t1 t2 tc acts0 Hrun
    |a t1 t2 tc acts0 err Hrun Hp Hno
    |a t1 t2 ts acts0 err rc delay rest exit Hrun Hp Hrc Hshould Hdelay Hrest IH
    |a t1 t2 ts acts0 err rc e Hrun Hp Hrc Hshould Hdelay
    |a t1 t2 acts0 raised Hrun]; intros Hle Hstatus.
  - apply afterCallback_Returns in Hexit. by subst r.
  - apply afterCallback_Returns in Hexit. subst r. cbn [res_attempt failureResult].
    unfold wantsRetry in Hno.
    destruct (retry (config job)) as [rc|] eqn:Hrc.
    + rewrite (shouldRetry_integer job rc n a Hn Hrc Hle) in Hno. lia.
    + unfold maxAttemptsOf in Hn. rewrite Hrc in Hn. injection Hn as <-. lia.
  - apply (IH Hexit); [|exact Hstatus].
    rewrite (shouldRetry_integer job rc n a Hn Hrc Hle) in Hshould. lia.
  - discriminate.
  - discriminate.
Qed.

End AttemptsSums.

Section AttemptsResult.

Variable job : JobDefinition.
Variable runId : string.
Variable startedAt : Z.
Variable signal : Signal.
Variable ls : gmap string (list ExecutionEventListener).

(** The result of a run names the run, and counts the attempts: one more
    than the delays slept. *)
Lemma Attempts_result (attempt : Z) (acts : list Action) (r : ExecutionResult) :
  Attempts job runId startedAt signal ls attempt acts (Returns r) ->
  res_runId r = runId /\ res_jobId r = id job /\ res_startedAt r = startedAt
  /\ res_duration r = res_completedAt r - startedAt
  /\ res_attempt r = attempt + Z.of_nat (length (sleeps acts)).
Proof.
  intros H. remember (Returns r) as exit eqn:Hexit.
  induction H as
    [a t1 t2 tc acts0 Hrun
    |a t1 t2 tc acts0 err Hrun Hp Hno
    |a t1 t2 ts acts0 err rc delay rest exit Hrun Hp Hrc Hshould Hdelay Hrest IH
    |a t1 t2 ts acts0 err rc e Hrun Hp Hrc Hshould Hdelay
    |a t1 t2 acts0 raised Hrun];
    destruct (attemptRun_projections _ _ _ _ _ _ _ _ Hrun) as (S0 & _).
  - apply afterCallback_Returns in Hexit. subst r.
    destruct (successActs_projections job runId startedAt signal ls a tc)
      as (_ & P2 & _).
    unfold sleeps in *. rewrite omap_app, S0, P2. cbn. repeat split. lia.
  - apply afterCallback_Returns in Hexit. subst r.
    destruct (failureActs_projections job runId startedAt signal ls a tc err)
      as (_ & P2 & _).
    unfold sleeps in *. rewrite omap_app, S0, P2. cbn. repeat split. lia.
  - destruct (IH Hexit) as (I1 & I2 & I3 & I4 & I5).
    destruct (emitted_projections ls (retryEvent job runId a ts err))
      as (_ & P2 & _).
    unfold sleeps in *. rewrite !omap_app, S0, P2. cbn [app omap list_omap length].
    repeat split; try assumption. lia.
  - discriminate.
  - discriminate.
Qed.

(** The attempts stay within [retry.attempts]. *)
Lemma Attempts_bounded (n attempt : Z) (acts : list Action)
      (exit : Outcome ExecutionResult) :
  maxAttemptsOf job = JS.Int n ->
  1 <= attempt <= n ->
  Attempts job runId startedAt signal ls attempt acts exit ->
  attempt + Z.of_nat (length (sleeps acts)) <= n.
Proof.
  intros Hn Hle H. revert Hle.
  induction H as
    [a t1 t2 tc acts0 Hrun
    |a t1 t2 tc acts0 err Hrun Hp Hno
    |a t1 t2 ts acts0 err rc delay rest exit Hrun Hp Hrc Hshould Hdelay Hrest IH
    |a t1 t2 ts acts0 err rc e Hrun Hp Hrc Hshould Hdelay
    |a t1 t2 acts0 raised Hrun]; intros Hle;
    destruct (attemptRun_projections _ _ _ _ _ _ _ _ Hrun) as (S0 & _).
  - destruct (successActs_projections job runId startedAt signal ls a tc)
      as (_ & P2 & _).
    unfold sleeps in *. rewrite omap_app, S0, P2. cbn. lia.
  - destruct (failureActs_projections job runId startedAt signal ls a tc err)
      as (_ & P2 & _).
    unfold sleeps in *. rewrite omap_app, S0, P2. cbn. lia.
  - destruct (emitted_projections ls (retryEvent job runId a ts err))
      as (_ & P2 & _).
    rewrite (shouldRetry_integer job rc n a Hn Hrc Hle) in Hshould.
    assert (Hnext : 1 <= a + 1 <= n) by lia.
    specialize (IH Hnext).
    unfold sleeps in *. rewrite !omap_app, S0, P2. cbn [app omap list_omap length].
    lia.
  - destruct (emitted_projections ls (retryEvent job runId a ts err))
      as (_ & P2 & _).
    unfold sleeps in *. rewrite !omap_app, S0, P2. cbn. lia.
  - rewrite S0. cbn. lia.
Qed.

(** With a timeout that is no duration, no attempt calls the handler or
    sets a timer, and every attempt fails with the error of the timeout. *)
Lemma Attempts_invalid_timeout (e : JS.Error) (attempt : Z) (acts : list Action)
      (exit : Outcome ExecutionResult) :
  timeoutOf job = Throw e ->
  Attempts job runId startedAt signal ls attempt acts exit ->
  handlerCalls acts = [] /\ timers acts = []
  /\ forall r, exit = Returns r ->
       res_status r = status_failure /\ res_error r = Some (errorInfoOf e).
Proof.
  intros He H.
  assert (Hone : forall a t1 t2 acts0 failure,
             attemptRun job runId signal a t1 t2 = (acts0, failure) ->
             acts0 = [] /\ failure = Some (ThrownError e)).
  { intros a t1 t2 acts0 failure Hrun.
    destruct (attemptRun_inv _ _ _ _ _ _ _ _ Hrun)
      as [(e' & He' & -> & ->) | (ms & Hms & _)]; [|congruence].
    rewrite He in He'. by injection He' as <-. }
  induction H as
    [a t1 t2 tc acts0 Hrun
    |a t1 t2 tc acts0 err Hrun Hp Hno
    |a t1 t2 ts acts0 err rc delay rest exit Hrun Hp Hrc Hshould Hdelay Hrest IH
    |a t1 t2 ts acts0 err rc e' Hrun Hp Hrc Hshould Hdelay
    |a t1 t2 acts0 raised Hrun];
    destruct (Hone _ _ _ _ _ Hrun) as [-> Hfailure]; try discriminate.
  - injection Hfailure as ->.
    destruct (failureActs_projections job runId startedAt signal ls a tc (ThrownError e))
      as (P1 & _ & P3 & _).
    cbn [app]. split; [exact P1|]. split; [exact P3|].
    intros r Hr. apply afterCallback_Returns in Hr. subst r.
    cbn [res_status res_error failureResult isTimeoutError toError].
    by rewrite (timeoutOf_error_plain job e He).
  - destruct IH as (I1 & I2 & I3).
    destruct (emitted_projections ls (retryEvent job runId a ts err))
      as (P1 & _ & P3 & _).
    unfold handlerCalls, timers in *. rewrite !omap_app, P1, P3, I1, I2.
    split; [reflexivity|]. split; [reflexivity|]. exact I3.
  - destruct (emitted_projections ls (retryEvent job runId a ts err))
      as (P1 & _ & P3 & _).
    cbn [app]. split; [exact P1|]. split; [exact P3|]. discriminate.
Qed.

End AttemptsResult.

(** ** Runs *)

(** What [run] did, in a world where no listener throws and for
    [retry.attempts] an integer from 1 to [2^53]: the [job:start] event,
    then the attempts. *)
Lemma run_did (rt : Runtime) (job : JobDefinition) (w : World) :
  integerAttempts job -> quietWorld w ->
  exists runId startedAt timestamp acts,
    runDid rt job w (emitted (listeners w) (startEvent job runId timestamp) ++ acts)
    /\ Attempts job runId startedAt (length (controllers w)) (listeners w) 1 acts
                (fst (run rt job w)).
Proof.
  intros Hatt Q.
  destruct (run_Attempts rt job w Hatt Q)
    as (runId & startedAt & ts & acts & exit & w' & Hrun & _ & _ & Htrace & Hacts).
  exists runId, startedAt, ts, acts. unfold runDid. rewrite Hrun. by split.
Qed.

(** X21. When [retry.attempts], if configured, is an integer from 1 to
    [2^53], no subscribed listener throws and the timeout of the job is a
    duration, [run] calls the handler once per attempt: the calls carry
    the attempts 1, 2, ... in order, the id and the name of the job, one
    run id and the signal of the controller of the run; there is at least
    one call and there are at most [retry.attempts] of them (one without a
    retry configuration), and as many as the attempt of the result, if the
    run returns one; and the timer of each attempt is cleared before the
    next is set. *)
Theorem run_calls_handler_once_per_attempt
        (rt : Runtime) (job : JobDefinition) (w : World) (ms : JS.Number) :
  integerAttempts job -> quietWorld w -> timeoutOf job = Ok ms ->
  exists acts runId,
    runDid rt job w acts
    /\ 1 <= Z.of_nat (length (handlerCalls acts))
    /\ JS.leb (JS.Int (Z.of_nat (length (handlerCalls acts)))) (maxAttemptsOf job) = true
    /\ map ctx_attempt (handlerCalls acts)
       = seqZ 1 (Z.of_nat (length (handlerCalls acts)))
    /\ Forall (contextOfRun job runId (length (controllers w))) (handlerCalls acts)
    /\ timers acts
       = concat (replicate (length (handlerCalls acts)) [SetTimer ms; ClearTimer])
    /\ forall r, fst (run rt job w) = Returns r ->
         res_attempt r = Z.of_nat (length (handlerCalls acts))
         /\ res_runId r = runId.
Proof.
  intros Hatt Q Hms.
  destruct (integerAttempts_max job Hatt) as (n & Hn & Hrange).
  destruct (run_did rt job w Hatt Q) as (runId & startedAt & ts & acts & Hdid & Hacts).
  destruct (Attempts_handlerCalls _ _ _ _ _ ms _ _ _ Hms Hacts)
    as (calls & last & Hcalls & Hnum & Hctx & _ & Htimers & Hsleeps & Hresult).
  assert (Hfirst : 1 <= 1 <= n) by lia.
  pose proof (Attempts_bounded _ _ _ _ _ n _ _ _ Hn Hfirst Hacts) as Hbound.
  destruct (emitted_projections (listeners w) (startEvent job runId ts))
    as (P1 & _ & P3 & _).
  exists (emitted (listeners w) (startEvent job runId ts) ++ acts), runId.
  split; [exact Hdid|].
  unfold handlerCalls, timers in *. rewrite !omap_app, P1, P3. cbn [app].
  rewrite Hcalls, Htimers, length_app. cbn [length].
  replace (length calls + 1)%nat with (S (length calls)) by lia.
  split; [lia|]. split; [rewrite Hn; cbn [JS.leb]; apply Z.leb_le; lia|].
  split; [exact Hnum|]. split; [exact Hctx|]. split; [reflexivity|].
  intros r Hr. destruct (Hresult r Hr) as (Ha & Hid & _). split; [|exact Hid].
  rewrite Ha.
  assert (Hlast : map ctx_attempt (calls ++ [last]) !! length calls
                  = Some (ctx_attempt last)).
  { rewrite map_app. rewrite lookup_app_r by (rewrite length_map; lia).
    rewrite length_map, Nat.sub_diag. reflexivity. }
  rewrite Hnum in Hlast. apply lookup_seqZ in Hlast. lia.
Qed.

Lemma run_calls_handler_once_per_attempt_witness :
  exists acts runId,
    runDid sampleRuntime flakyJob emptyWorld acts
    /\ 1 <= Z.of_nat (length (handlerCalls acts))
    /\ JS.leb (JS.Int (Z.of_nat (length (handlerCalls acts)))) (maxAttemptsOf flakyJob)
       = true
    /\ map ctx_attempt (handlerCalls acts)
       = seqZ 1 (Z.of_nat (length (handlerCalls acts)))
    /\ Forall (contextOfRun flakyJob runId (length (controllers emptyWorld)))
              (handlerCalls acts)
    /\ timers acts
       = concat (replicate (length (handlerCalls acts))
                           [SetTimer DEFAULT_TIMEOUT_MS; ClearTimer])
    /\ forall r, fst (run sampleRuntime flakyJob emptyWorld) = Returns r ->
         res_attempt r = Z.of_nat (length (handlerCalls acts))
         /\ res_runId r = runId.
Proof.
  apply (run_calls_handler_once_per_attempt sampleRuntime flakyJob emptyWorld
           DEFAULT_TIMEOUT_MS).
  - intros rc [= <-]. exists 3. split; [reflexivity | lia].
  - intros key ls l event H. unfold emptyWorld in H. cbn [listeners] in H.
    by rewrite lookup_empty in H.
  - reflexivity.
Defined.

(** X22. When [retry.attempts], if configured, is an integer from 1 to
    [2^53], no subscribed listener throws and the timeout of the job is a
    duration, the result that [run] returns is decided by its last
    attempt: every call of the handler before the last one failed; the
    last call carries the attempt of the result; the result is a success
    when the last call fulfilled, and otherwise a timeout or a failure (a
    timeout when the timer fired or the handler rejected with a
    [TimeoutError]) that carries the message and the stack of the error
    the [catch] block made of what the attempt threw. *)
Theorem run_result_reflects_last_attempt
        (rt : Runtime) (job : JobDefinition) (w : World) (ms : JS.Number)
        (r : ExecutionResult) :
  integerAttempts job -> quietWorld w -> timeoutOf job = Ok ms ->
  fst (run rt job w) = Returns r ->
  exists acts calls last,
    runDid rt job w acts
    /\ handlerCalls acts = calls ++ [last]
    /\ Forall (fun c => handler job c <> Fulfils) calls
    /\ ctx_attempt last = res_attempt r
    /\ resultReflects (failureOf ms (handler job last)) r.
Proof.
  intros Hatt Q Hms Hr.
  destruct (run_did rt job w Hatt Q) as (runId & startedAt & ts & acts & Hdid & Hacts).
  destruct (Attempts_handlerCalls _ _ _ _ _ ms _ _ _ Hms Hacts)
    as (calls & last & Hcalls & _ & _ & Hfailed & _ & _ & Hresult).
  destruct (Hresult r Hr) as (Ha & _ & _ & _ & _ & Hreflects).
  destruct (emitted_projections (listeners w) (startEvent job runId ts)) as (P1 & _).
  exists (emitted (listeners w) (startEvent job runId ts) ++ acts), calls, last.
  split; [exact Hdid|]. split.
  { unfold handlerCalls in *. by rewrite omap_app, P1, Hcalls. }
  by repeat split.
Qed.

Lemma run_result_reflects_last_attempt_witness :
  exists acts calls last,
    runDid sampleRuntime flakyJob emptyWorld acts
    /\ handlerCalls acts = calls ++ [last]
    /\ Forall (fun c => handler flakyJob c <> Fulfils) calls
    /\ ctx_attempt last = res_attempt flakyResult
    /\ resultReflects (failureOf DEFAULT_TIMEOUT_MS (handler flakyJob last)) flakyResult.
Proof.
  apply (run_result_reflects_last_attempt
           sampleRuntime flakyJob emptyWorld DEFAULT_TIMEOUT_MS flakyResult).
  - intros rc [= <-]. exists 3. split; [reflexivity | lia].
  - intros key ls l event H. unfold emptyWorld in H. cbn [listeners] in H.
    by rewrite lookup_empty in H.
  - reflexivity.
  - by vm_compute.
Defined.

(** A failed last attempt, in full: the result of [failingJob] carries the
    message of the error the handler rejected with and the stack it
    captured, at the second attempt. *)
Example failingJob_result :
  res_status failingResult = status_failure
  /\ res_attempt failingResult = 2
  /\ res_error failingResult
     = Some {| err_message := "Always fails"; err_stack := Some JS.CapturedTrace |}.
Proof. by vm_compute. Qed.

(** X23. When [retry.attempts], if configured, is an integer from 1 to
    [2^53] and no subscribed listener throws, [run] sleeps the delay of the
    backoff between two attempts: the delays it sleeps are, in order, those
    [calculateRetryDelay] gives for the attempts 1, 2, ... that failed with
    a retry due; it sleeps once less than the attempt of its result, if it
    returns one, and never without a retry configuration. *)
Theorem run_sleeps_the_backoff_between_attempts
        (rt : Runtime) (job : JobDefinition) (w : World) :
  integerAttempts job -> quietWorld w ->
  exists acts,
    runDid rt job w acts
    /\ match retry (config job) with
       | Some retryConfig =>
           mapResult (fun k => calculateRetryDelay k retryConfig)
                     (seqZ 1 (Z.of_nat (length (sleeps acts))))
           = Ok (sleeps acts)
       | None => sleeps acts = []
       end
    /\ forall r, fst (run rt job w) = Returns r ->
         res_attempt r = 1 + Z.of_nat (length (sleeps acts)).
Proof.
  intros Hatt Q.
  destruct (run_did rt job w Hatt Q) as (runId & startedAt & ts & acts & Hdid & Hacts).
  pose proof (Attempts_sleeps _ _ _ _ _ _ _ _ Hacts) as Hsleeps.
  destruct (emitted_projections (listeners w) (startEvent job runId ts))
    as (_ & P2 & _).
  exists (emitted (listeners w) (startEvent job runId ts) ++ acts).
  split; [exact Hdid|].
  assert (E : sleeps (emitted (listeners w) (startEvent job runId ts) ++ acts)
              = sleeps acts).
  { unfold sleeps in *. by rewrite omap_app, P2. }
  rewrite E. split; [exact Hsleeps|].
  intros r Hr. rewrite Hr in Hacts.
  by destruct (Attempts_result _ _ _ _ _ _ _ _ Hacts) as (_ & _ & _ & _ & ?).
Qed.

Lemma run_sleeps_the_backoff_between_attempts_witness :
  exists acts,
    runDid sampleRuntime flakyJob emptyWorld acts
    /\ mapResult (fun k => calculateRetryDelay k (mkRetry (JS.Int 3) None (Some "10ms")))
                 (seqZ 1 (Z.of_nat (length (sleeps acts))))
       = Ok (sleeps acts)
    /\ forall r, fst (run sampleRuntime flakyJob emptyWorld) = Returns r ->
         res_attempt r = 1 + Z.of_nat (length (sleeps acts)).
Proof.
  apply (run_sleeps_the_backoff_between_attempts sampleRuntime flakyJob emptyWorld).
  - intros rc [= <-]. exists 3. split; [reflexivity | lia].
  - intros key ls l event H. unfold emptyWorld in H. cbn [listeners] in H.
    by rewrite lookup_empty in H.
Defined.

(** The delays of the run of [flakyJob]: 10 ms, then 20 ms. *)
Example flakyJob_sleeps :
  sleeps (trace (snd (run sampleRuntime flakyJob emptyWorld)))
  = [JS.Int 10; JS.Int 20].
Proof. by vm_compute. Qed.

(** X24. When [retry.attempts], if configured, is an integer from 1 to
    [2^53] and no subscribed listener throws, the events of a run that
    returns say what its result says: after one [job:start] and the
    [job:retry] events, all of the job and of the run id of the result, the
    terminal event has the type of the status, the attempt, the completion
    time, the duration and the error of the result; and the result counts
    one attempt more than there were retries. *)
Theorem run_events_agree_with_result
        (rt : Runtime) (job : JobDefinition) (w : World) (r : ExecutionResult) :
  integerAttempts job -> quietWorld w ->
  fst (run rt job w) = Returns r ->
  exists acts start retries terminal,
    runDid rt job w acts
    /\ emittedEvents acts = start :: retries ++ [terminal]
    /\ ev_type start = job_start /\ ev_attempt start = 1
    /\ ev_jobId start = res_jobId r /\ ev_runId start = res_runId r
    /\ Forall (retryOfRun job (res_runId r)) retries
    /\ terminalOf r terminal
    /\ res_attempt r = 1 + Z.of_nat (length retries)
    /\ res_jobId r = id job.
Proof.
  intros Hatt Q Hr.
  destruct (run_did rt job w Hatt Q) as (runId & startedAt & ts & acts & Hdid & Hacts).
  rewrite Hr in Hacts.
  destruct (Attempts_events _ _ _ _ _ _ _ _ Hacts)
    as (retries & rest & Hevs & Hretries & Hnum & terminal & -> & Hterminal).
  destruct (Attempts_result _ _ _ _ _ _ _ _ Hacts) as (Hid & Hjob & _ & _ & Hattempt).
  destruct (emitted_projections (listeners w) (startEvent job runId ts))
    as (_ & _ & _ & _ & _ & P6).
  exists (emitted (listeners w) (startEvent job runId ts) ++ acts),
    (startEvent job runId ts), retries, terminal.
  split; [exact Hdid|]. split.
  { unfold emittedEvents in *. by rewrite omap_app, P6, Hevs. }
  rewrite Hid, Hjob. repeat split; try assumption; try apply Hterminal.
  destruct Hterminal as (_ & _ & _ & Hta & _).
  assert (Hcount : length (emittedEvents acts) = S (length (sleeps acts))).
  { clear -Hacts. remember (Returns r) as exit eqn:Hexit.
    induction Hacts as
      [a t1 t2 tc acts0 Hrun
      |a t1 t2 tc acts0 err Hrun Hp Hno
      |a t1 t2 ts acts0 err rc delay rest exit Hrun Hp Hrc Hshould Hdelay Hrest IH
      |a t1 t2 ts acts0 err rc e Hrun Hp Hrc Hshould Hdelay
      |a t1 t2 acts0 raised Hrun];
      destruct (attemptRun_projections _ _ _ _ _ _ _ _ Hrun) as (S0 & E0 & _).
    - destruct (successActs_projections job runId startedAt
                  (length (controllers w)) (listeners w) a tc)
        as (_ & P2 & _ & P4 & _).
      unfold emittedEvents, sleeps in *. by rewrite !omap_app, S0, E0, P2, P4.
    - destruct (failureActs_projections job runId startedAt
                  (length (controllers w)) (listeners w) a tc err)
        as (_ & P2 & _ & P4 & _).
      unfold emittedEvents, sleeps in *. by rewrite !omap_app, S0, E0, P2, P4.
    - destruct (emitted_projections (listeners w) (retryEvent job runId a ts err))
        as (_ & P2 & _ & _ & _ & P6').
      specialize (IH Hexit).
      unfold emittedEvents, sleeps in *.
      rewrite !omap_app, S0, E0, P2, P6'. cbn [app omap list_omap length].
      by rewrite IH.
    - discriminate.
    - discriminate. }
  rewrite Hevs, length_app in Hcount. cbn [length] in Hcount. lia.
Qed.

Lemma run_events_agree_with_result_witness :
  exists acts start retries terminal,
    runDid sampleRuntime flakyJob emptyWorld acts
    /\ emittedEvents acts = start :: retries ++ [terminal]
    /\ ev_type start = job_start /\ ev_attempt start = 1
    /\ ev_jobId start = res_jobId flakyResult /\ ev_runId start = res_runId flakyResult
    /\ Forall (retryOfRun flakyJob (res_runId flakyResult)) retries
    /\ terminalOf flakyResult terminal
    /\ res_attempt flakyResult = 1 + Z.of_nat (length retries)
    /\ res_jobId flakyResult = id flakyJob.
Proof.
  apply (run_events_agree_with_result sampleRuntime flakyJob emptyWorld flakyResult).
  - intros rc [= <-]. exists 3. split; [reflexivity | lia].
  - intros key ls l event H. unfold emptyWorld in H. cbn [listeners] in H.
    by rewrite lookup_empty in H.
  - by vm_compute.
Defined.

(** X25. When [retry.attempts], if configured, is an integer from 1 to
    [2^53] and no subscribed listener throws, a run that returns has called
    one callback at most, the one of its status: after a success
    [onSuccess], if the job has one, and never [onFailure]; after a failure
    or a timeout [onFailure], if the job has one, with the error whose
    message and stack the result carries, and never [onSuccess].  The
    callback gets the attempt and the run id of the result, and the start
    of the run as both of its times. *)
Theorem run_calls_the_callback_of_its_status
        (rt : Runtime) (job : JobDefinition) (w : World) (r : ExecutionResult) :
  integerAttempts job -> quietWorld w ->
  fst (run rt job w) = Returns r ->
  exists acts,
    runDid rt job w acts
    /\ match res_status r with
       | status_success =>
           failureCallbacks acts = []
           /\ successCallbacks acts
              = match onSuccess (config job) with
                | Some _ => [callbackContext job (res_runId r) (res_startedAt r)
                                             (res_attempt r) (length (controllers w))]
                | None => []
                end
       | _ =>
           successCallbacks acts = []
           /\ exists e,
                res_error r = Some (errorInfoOf e)
                /\ failureCallbacks acts
                   = match onFailure (config job) with
                     | Some _ =>
                         [(e, callbackContext job (res_runId r) (res_startedAt r)
                                              (res_attempt r) (length (controllers w)))]
                     | None => []
                     end
       end.
Proof.
  intros Hatt Q Hr.
  destruct (run_did rt job w Hatt Q) as (runId & startedAt & ts & acts & Hdid & Hacts).
  rewrite Hr in Hacts.
  pose proof (Attempts_callbacks _ _ _ _ _ _ _ _ Hacts) as Hcb.
  destruct (Attempts_result _ _ _ _ _ _ _ _ Hacts) as (-> & _ & -> & _).
  destruct (emitted_projections (listeners w) (startEvent job runId ts))
    as (_ & _ & _ & P4 & P5 & _).
  exists (emitted (listeners w) (startEvent job runId ts) ++ acts).
  split; [exact Hdid|].
  unfold successCallbacks, failureCallbacks in *. rewrite !omap_app, P4, P5.
  exact Hcb.
Qed.

Lemma run_calls_the_callback_of_its_status_witness :
  exists acts,
    runDid sampleRuntime failingJob emptyWorld acts
    /\ successCallbacks acts = []
    /\ exists e,
         res_error failingResult = Some (errorInfoOf e)
         /\ failureCallbacks acts
            = [(e, callbackContext failingJob (res_runId failingResult)
                                   (res_startedAt failingResult)
                                   (res_attempt failingResult)
                                   (length (controllers emptyWorld)))].
Proof.
  apply (run_calls_the_callback_of_its_status
           sampleRuntime failingJob emptyWorld failingResult).
  - intros rc [= <-]. exists 2. split; [reflexivity | lia].
  - intros key ls l event H. unfold emptyWorld in H. cbn [listeners] in H.
    by rewrite lookup_empty in H.
  - by vm_compute.
Defined.

(** X26. When [retry.attempts], if configured, is an integer from 1 to
    [2^53] and no subscribed listener throws, a run gives up only after
    its last attempt: a result that is no success carries the attempt
    [retry.attempts] (1 without a retry configuration), and the attempt of
    a success is at least 1 and at most that. *)
Theorem run_gives_up_only_after_the_last_attempt
        (rt : Runtime) (job : JobDefinition) (w : World) (r : ExecutionResult) :
  integerAttempts job -> quietWorld w ->
  fst (run rt job w) = Returns r ->
  1 <= res_attempt r
  /\ JS.leb (JS.Int (res_attempt r)) (maxAttemptsOf job) = true
  /\ (res_status r <> status_success -> JS.Int (res_attempt r) = maxAttemptsOf job).
Proof.
  intros Hatt Q Hr.
  destruct (integerAttempts_max job Hatt) as (n & Hn & Hrange).
  destruct (run_did rt job w Hatt Q) as (runId & startedAt & ts & acts & Hdid & Hacts).
  assert (Hfirst : 1 <= 1 <= n) by lia.
  pose proof (Attempts_bounded _ _ _ _ _ n _ _ _ Hn Hfirst Hacts) as Hbound.
  rewrite Hr in Hacts.
  destruct (Attempts_result _ _ _ _ _ _ _ _ Hacts) as (_ & _ & _ & _ & Hattempt).
  split; [lia|]. rewrite Hn. split; [cbn [JS.leb]; apply Z.leb_le; lia|].
  intros Hstatus. f_equal.
  exact (Attempts_last_attempt _ _ _ _ _ n _ _ _ Hn Hfirst Hacts Hstatus).
Qed.

Lemma run_gives_up_only_after_the_last_attempt_witness :
  1 <= res_attempt failingResult
  /\ JS.leb (JS.Int (res_attempt failingResult)) (maxAttemptsOf failingJob) = true
  /\ (res_status failingResult <> status_success ->
      JS.Int (res_attempt failingResult) = maxAttemptsOf failingJob).
Proof.
  apply (run_gives_up_only_after_the_last_attempt
           sampleRuntime failingJob emptyWorld failingResult).
  - intros rc [= <-]. exists 2. split; [reflexivity | lia].
  - intros key ls l event H. unfold emptyWorld in H. cbn [listeners] in H.
    by rewrite lookup_empty in H.
  - by vm_compute.
Defined.

(** X27. When [retry.attempts], if configured, is an integer from 1 to
    [2^53], no subscribed listener throws and the timeout of the job is no
    duration, [run] never calls the handler and sets no timer: every
    attempt fails with the error of [parseDuration] before the handler is
    reached, the attempts are retried as failures are, and a result is a
    failure (not a timeout) that carries the message and the stack of that
    error, and the last attempt. *)
Theorem run_with_invalid_timeout_never_calls_handler
        (rt : Runtime) (job : JobDefinition) (w : World) (e : JS.Error) :
  integerAttempts job -> quietWorld w -> timeoutOf job = Throw e ->
  exists acts,
    runDid rt job w acts
    /\ handlerCalls acts = []
    /\ timers acts = []
    /\ forall r, fst (run rt job w) = Returns r ->
         res_status r = status_failure
         /\ res_error r = Some (errorInfoOf e)
         /\ JS.Int (res_attempt r) = maxAttemptsOf job.
Proof.
  intros Hatt Q He.
  destruct (integerAttempts_max job Hatt) as (n & Hn & Hrange).
  destruct (run_did rt job w Hatt Q) as (runId & startedAt & ts & acts & Hdid & Hacts).
  destruct (Attempts_invalid_timeout _ _ _ _ _ e _ _ _ He Hacts) as (H1 & H2 & H3).
  destruct (emitted_projections (listeners w) (startEvent job runId ts))
    as (P1 & _ & P3 & _).
  exists (emitted (listeners w) (startEvent job runId ts) ++ acts).
  split; [exact Hdid|].
  unfold handlerCalls, timers in *. rewrite !omap_app, P1, P3, H1, H2.
  split; [reflexivity|]. split; [reflexivity|].
  intros r Hr. destruct (H3 r Hr) as [Hs Herr]. split; [exact Hs|]. split; [exact Herr|].
  rewrite Hr in Hacts. rewrite Hn. f_equal.
  assert (Hfirst : 1 <= 1 <= n) by lia.
  apply (Attempts_last_attempt _ _ _ _ _ n _ _ _ Hn Hfirst Hacts).
  by rewrite Hs.
Qed.

Lemma run_with_invalid_timeout_never_calls_handler_witness :
  exists acts e,
    timeoutOf badTimeoutJob = Throw e
    /\ runDid sampleRuntime badTimeoutJob emptyWorld acts
    /\ handlerCalls acts = []
    /\ timers acts = []
    /\ forall r, fst (run sampleRuntime badTimeoutJob emptyWorld) = Returns r ->
         res_status r = status_failure
         /\ res_error r = Some (errorInfoOf e)
         /\ JS.Int (res_attempt r) = maxAttemptsOf badTimeoutJob.
Proof.
  destruct (run_with_invalid_timeout_never_calls_handler
              sampleRuntime badTimeoutJob emptyWorld
              (JS.newError
                 ("Invalid duration format: " +:+ JS.quoted "soon"
                  +:+ ". Expected format: number + unit (ms/s/m/h/d). Examples: "
                  +:+ JS.quoted "100ms" +:+ ", " +:+ JS.quoted "30s" +:+ ", "
                  +:+ JS.quoted "5m" +:+ ", " +:+ JS.quoted "1h")))
    as (acts & H).
  - intros rc [= <-]. exists 2. split; [reflexivity | lia].
  - intros key ls l event H. unfold emptyWorld in H. cbn [listeners] in H.
    by rewrite lookup_empty in H.
  - reflexivity.
  - exists acts. eexists. split; [reflexivity | exact H].
Defined.

(** The result of the run of [badTimeoutJob]: the error of [parseDuration]
    with the stack it captured, at the second attempt. *)
Example badTimeoutJob_result :
  res_status badTimeoutResult = status_failure
  /\ res_attempt badTimeoutResult = 2
  /\ option_map err_stack (res_error badTimeoutResult) = Some (Some JS.CapturedTrace).
Proof. by vm_compute. Qed.

(** An integer [retry.attempts] below 1 fails the condition of the loop at
    the first attempt; so does [NaN]. *)
Lemma no_attempts_below_one (job : JobDefinition) (n : Z) :
  maxAttemptsOf job = JS.Int n -> n < 1 ->
  JS.leb (JS.Int 1) (maxAttemptsOf job) = false.
Proof. intros -> H. cbn [JS.leb]. apply Z.leb_gt. lia. Qed.

Lemma no_attempts_when_NaN (job : JobDefinition) :
  maxAttemptsOf job = JS.NaN -> JS.leb (JS.Int 1) (maxAttemptsOf job) = false.
Proof. by intros ->. Qed.

(** X28. With [retry.attempts] below 1 (or [NaN]), so that the condition
    [attempt <= maxAttempts] of the loop fails at the first attempt, the
    loop of [run] never runs: when no subscribed listener throws, [run]
    emits [job:start] and nothing else, never calls the handler nor a
    callback, and returns the failure "Unknown error" with attempt 1,
    although no attempt was made. *)
Theorem run_without_attempts_never_calls_handler
        (rt : Runtime) (job : JobDefinition) (w : World) :
  quietWorld w -> JS.leb (JS.Int 1) (maxAttemptsOf job) = false ->
  exists r acts start,
    fst (run rt job w) = Returns r
    /\ runDid rt job w acts
    /\ handlerCalls acts = []
    /\ successCallbacks acts = [] /\ failureCallbacks acts = []
    /\ emittedEvents acts = [start] /\ ev_type start = job_start
    /\ res_status r = status_failure
    /\ res_attempt r = 1
    /\ res_error r = Some {| err_message := "Unknown error"; err_stack := None |}.
Proof.
  intros Q Hmax.
  destruct (emit_Moves (startEventIn rt job w) _ (quietWorld_started w Q))
    as (w6 & H6 & M6).
  cbn [startedWorld listeners] in M6.
  destruct (now_Moves rt w6) as (t4 & w7 & H7 & M7).
  pose proof (Moves_trans _ _ _ _ _ M6 M7) as M67. rewrite app_nil_r in M67.
  set (r := {| res_jobId := id job; res_runId := runIdIn rt w;
               res_status := status_failure;
               res_startedAt := startedAtIn rt w; res_completedAt := t4;
               res_duration := t4 - startedAtIn rt w; res_attempt := 1;
               res_error := Some {| err_message := "Unknown error";
                                    err_stack := None |} |}).
  assert (Htraced : runTraced rt job w = (Returns (AfterLoop, r), w7)).
  { unfold runTraced. rewrite runTracedWith_start. returns H6.
    rewrite (loopFuel_S (maxAttemptsOf job)). cbn [attemptLoop].
    rewrite Hmax. cbn [negb]. rewrite bind_ret. cbn [afterLoop].
    returns H7. reflexivity. }
  assert (Hrun : run rt job w = (Returns r, w7)).
  { unfold run. returns Htraced. reflexivity. }
  destruct (emitted_projections (listeners w) (startEventIn rt job w))
    as (P1 & _ & _ & P4 & P5 & P6).
  exists r, (emitted (listeners w) (startEventIn rt job w)), (startEventIn rt job w).
  unfold runDid. rewrite Hrun. cbn [fst snd].
  split; [reflexivity|]. split.
  { by rewrite (moves_trace _ _ _ M67). }
  by repeat split.
Qed.

Lemma run_without_attempts_never_calls_handler_witness :
  exists r acts start,
    fst (run sampleRuntime zeroAttemptsJob emptyWorld) = Returns r
    /\ runDid sampleRuntime zeroAttemptsJob emptyWorld acts
    /\ handlerCalls acts = []
    /\ successCallbacks acts = [] /\ failureCallbacks acts = []
    /\ emittedEvents acts = [start] /\ ev_type start = job_start
    /\ res_status r = status_failure
    /\ res_attempt r = 1
    /\ res_error r = Some {| err_message := "Unknown error"; err_stack := None |}.
Proof.
  apply (run_without_attempts_never_calls_handler
           sampleRuntime zeroAttemptsJob emptyWorld).
  - intros key ls l event H. unfold emptyWorld in H. cbn [listeners] in H.
    by rewrite lookup_empty in H.
  - reflexivity.
Defined.
(** *** The dashboard *)

Lemma take_app_take {A} (n : nat) (l k : list A) :
  take n (l ++ take n k) = take n (l ++ k).
Proof.
  rewrite !take_app, take_take. do 2 f_equal. lia.
Qed.

Lemma unshiftTrimmed_take (entry : Dashboard.HistoryEntry)
      (jobHistory : list Dashboard.HistoryEntry) :
  (length jobHistory <= Dashboard.MAX_HISTORY_PER_JOB)%nat ->
  Dashboard.unshiftTrimmed entry jobHistory
  = take Dashboard.MAX_HISTORY_PER_JOB (entry :: jobHistory).
Proof.
  intros Hlen. unfold Dashboard.unshiftTrimmed. cbv zeta.
  destruct (Nat.ltb_spec Dashboard.MAX_HISTORY_PER_JOB (length (entry :: jobHistory)))
    as [Hlt | Hge].
  - rewrite removelast_firstn_len. f_equal.
    unfold Dashboard.MAX_HISTORY_PER_JOB in *. cbn [length] in *. lia.
  - by rewrite take_ge.
Qed.

Lemma unshiftTrimmed_head (entry : Dashboard.HistoryEntry)
      (jobHistory : list Dashboard.HistoryEntry) :
  head (Dashboard.unshiftTrimmed entry jobHistory) = Some entry.
Proof.
  unfold Dashboard.unshiftTrimmed. cbv zeta.
  destruct (Nat.ltb_spec Dashboard.MAX_HISTORY_PER_JOB (length (entry :: jobHistory)))
    as [Hlt | Hge]; [|reflexivity].
  destruct jobHistory as [|e' h]; [|reflexivity].
  unfold Dashboard.MAX_HISTORY_PER_JOB in Hlt. cbn [length] in Hlt. lia.
Qed.

(** The history of a job after one event. *)
Lemma onEvent_historyOf (registry : JobRegistry.State) (job : JobDefinition)
      (state : Dashboard.ServerState) (event : ExecutionEvent) (jobId : string) :
  JobRegistry.getById registry jobId = Some job ->
  (length (Dashboard.historyOf state jobId) <= Dashboard.MAX_HISTORY_PER_JOB)%nat ->
  Dashboard.historyOf (Dashboard.onEvent registry state event) jobId
  = take Dashboard.MAX_HISTORY_PER_JOB
         (rev (recordedRuns job jobId [event]) ++ Dashboard.historyOf state jobId).
Proof.
  intros Hjob Hlen. unfold recordedRuns. cbn [omap list_omap].
  assert (Hsame : Dashboard.historyOf state jobId
                  = take Dashboard.MAX_HISTORY_PER_JOB
                         (rev [] ++ Dashboard.historyOf state jobId)).
  { cbn [rev app]. by rewrite take_ge. }
  unfold Dashboard.onEvent.
  destruct (ev_type event) eqn:Ht; cbn [isTerminal andb]; try exact Hsame.
  all: destruct (String.eqb_spec (ev_jobId event) jobId) as [-> | Hne].
  all: try (rewrite Hjob; unfold Dashboard.historyOf at 1;
            cbn [Dashboard.history]; rewrite lookup_insert_eq;
            cbn [default from_option]; unfold Datatypes.id;
            cbn [rev app]; by apply unshiftTrimmed_take).
  all: destruct (JobRegistry.getById registry (ev_jobId event)); try exact Hsame.
  all: unfold Dashboard.historyOf at 1; cbn [Dashboard.history];
    rewrite lookup_insert_ne by done; exact Hsame.
Qed.

Lemma afterEvents_historyOf (registry : JobRegistry.State) (job : JobDefinition)
      (jobId : string) (events : list ExecutionEvent) (state : Dashboard.ServerState) :
  JobRegistry.getById registry jobId = Some job ->
  (length (Dashboard.historyOf state jobId) <= Dashboard.MAX_HISTORY_PER_JOB)%nat ->
  Dashboard.historyOf (Dashboard.afterEvents registry state events) jobId
  = take Dashboard.MAX_HISTORY_PER_JOB
         (rev (recordedRuns job jobId events) ++ Dashboard.historyOf state jobId).
Proof.
  intros Hjob. revert state.
  induction events as [|event events IH]; intros state Hlen.
  - cbn. by rewrite take_ge.
  - unfold Dashboard.afterEvents. cbn [fold_left].
    fold (Dashboard.afterEvents registry (Dashboard.onEvent registry state event) events).
    pose proof (onEvent_historyOf registry job state event jobId Hjob Hlen) as Hone.
    rewrite IH.
    + rewrite Hone, take_app_take.
      change (event :: events) with ([event] ++ events).
      unfold recordedRuns. rewrite omap_app, rev_app_distr.
      by rewrite <- app_assoc.
    + rewrite Hone, length_take. lia.
Qed.

(** The registry stores a job under its own id. *)
Lemma registry_getById_id (registry : JobRegistry.State) (jobId : string)
      (job : JobDefinition) :
  registryInvariant registry ->
  JobRegistry.getById registry jobId = Some job -> id job = jobId.
Proof.
  intros [Hnd Hkeys] Hjob.
  apply (registry_getById_elem _ _ _ Hnd) in Hjob.
  rewrite Forall_forall in Hkeys. symmetry. exact (Hkeys _ Hjob).
Qed.

(** X29. For a job that the registry finds under [jobId], and a history
    of [jobId] of at most [MAX_HISTORY_PER_JOB] (50) entries, the
    dashboard keeps the 50 newest runs, newest first: after any events
    the history of [jobId] is what the terminal events of [jobId]
    recorded, in the reverse of their order, before what the history
    held, cut after 50 entries; and, when the registry stores each job
    under its own id with no id twice (as every call of the registry
    leaves it), [GET /api/jobs/jobId/runs] answers with these entries in
    that order, each without its [jobId] and [jobName]. *)
Theorem dashboard_keeps_the_newest_runs
        (registry : JobRegistry.State) (job : JobDefinition) (jobId : string)
        (events : list ExecutionEvent) (state : Dashboard.ServerState) :
  JobRegistry.getById registry jobId = Some job ->
  (length (Dashboard.historyOf state jobId) <= Dashboard.MAX_HISTORY_PER_JOB)%nat ->
  let state' := Dashboard.afterEvents registry state events in
  let kept :=
    take Dashboard.MAX_HISTORY_PER_JOB
         (rev (recordedRuns job jobId events) ++ Dashboard.historyOf state jobId) in
  Dashboard.historyOf state' jobId = kept
  /\ (length kept <= Dashboard.MAX_HISTORY_PER_JOB)%nat
  /\ (registryInvariant registry ->
      Dashboard.runsOf registry state' jobId = Some (map Dashboard.summaryOf kept)).
Proof.
  intros Hjob Hlen state' kept.
  pose proof (afterEvents_historyOf registry job jobId events state Hjob Hlen) as H.
  split; [exact H|]. split.
  - subst kept. rewrite length_take. lia.
  - intros Hinv. unfold Dashboard.runsOf. rewrite Hjob.
    rewrite (registry_getById_id registry jobId job Hinv Hjob).
    subst state'. by rewrite H.
Qed.

Lemma dashboard_keeps_the_newest_runs_witness :
  let state' := Dashboard.afterEvents sampleRegistry Dashboard.initialState sampleEvents in
  let kept :=
    take Dashboard.MAX_HISTORY_PER_JOB
         (rev (recordedRuns flakyJob "test-job" sampleEvents)
          ++ Dashboard.historyOf Dashboard.initialState "test-job") in
  Dashboard.historyOf state' "test-job" = kept
  /\ (length kept <= Dashboard.MAX_HISTORY_PER_JOB)%nat
  /\ (registryInvariant sampleRegistry ->
      Dashboard.runsOf sampleRegistry state' "test-job"
      = Some (map Dashboard.summaryOf kept)).
Proof.
  apply (dashboard_keeps_the_newest_runs
           sampleRegistry flakyJob "test-job" sampleEvents Dashboard.initialState).
  - reflexivity.
  - vm_compute. lia.
Defined.

(** The sample registry stores its job under its id, and the runs
    endpoint answers with the one run of the sample events, without the
    id and the name of the job. *)
Example sampleRegistry_runs :
  registryInvariant sampleRegistry
  /\ Dashboard.runsOf sampleRegistry
       (Dashboard.afterEvents sampleRegistry Dashboard.initialState sampleEvents)
       "test-job"
     = Some [ {| Dashboard.run_runId := "run_1";
                 Dashboard.run_status := status_success;
                 Dashboard.run_startedAt := 25;
                 Dashboard.run_completedAt := 25;
                 Dashboard.run_duration := 15;
                 Dashboard.run_attempt := 1;
                 Dashboard.run_error := None |} ].
Proof.
  split; [|by vm_compute].
  split; [|by repeat constructor].
  apply NoDup_singleton.
Qed.

(** A registry that stores a job under another id than its own: the
    listener files the runs under the id of the events, the endpoint reads
    the history of the id of the job it found, and finds none. *)
Example runsOf_reads_the_id_of_the_job :
  let registry := [("other-id", flakyJob)] in
  let events :=
    [ {| ev_type := job_success; ev_jobId := "other-id"; ev_runId := "run_1";
         ev_timestamp := 25; ev_attempt := 1; ev_error := None;
         ev_duration := Some 15 |} ] in
  let state' := Dashboard.afterEvents registry Dashboard.initialState events in
  length (Dashboard.historyOf state' "other-id") = 1%nat
  /\ Dashboard.runsOf registry state' "other-id" = Some [].
Proof. by vm_compute. Qed.

Lemma Attempts_status (job : JobDefinition) (runId : string) (startedAt : Z)
      (signal : Signal) (ls : gmap string (list ExecutionEventListener))
      (attempt : Z) (acts : list Action) (r : ExecutionResult) :
  Attempts job runId startedAt signal ls attempt acts (Returns r) ->
  res_status r <> status_retrying.
Proof.
  intros H. remember (Returns r) as exit eqn:Hexit.
  induction H as
    [a t1 t2 tc acts0 Hrun
    |a t1 t2 tc acts0 err Hrun Hp Hno
    |a t1 t2 ts acts0 err rc delay rest exit Hrun Hp Hrc Hshould Hdelay Hrest IH
    |a t1 t2 ts acts0 err rc e Hrun Hp Hrc Hshould Hdelay
    |a t1 t2 acts0 raised Hrun].
  - apply afterCallback_Returns in Hexit. by subst r.
  - apply afterCallback_Returns in Hexit. subst r.
    cbn [failureResult res_status]. by destruct (isTimeoutError err).
  - by apply IH.
  - discriminate.
  - discriminate.
Qed.

(** The entry the dashboard builds from the terminal event of a run. *)
Lemma entryOf_terminal (registered : JobDefinition) (r : ExecutionResult)
      (terminal : ExecutionEvent) :
  terminalOf r terminal -> res_status r <> status_retrying ->
  Dashboard.entryOf registered terminal = recordedResult (name registered) r.
Proof.
  intros (Ht & Hj & Hr & Ha & Hts & Hd & He) Hs.
  unfold Dashboard.entryOf, recordedResult.
  rewrite Ht, Hj, Hr, Ha, Hts, Hd, He. cbn [default from_option].
  by destruct (res_status r).
Qed.

(** X30. When [retry.attempts], if configured, is an integer from 1 to
    [2^53], no subscribed listener throws, the run returns a result and the
    registry finds a job under the id of the job run: given the events of
    the run in the order of their emission, the dashboard no longer shows
    the job as running; the newest entry of its history is the result of
    the run under the name of the registered job, but with the completion
    time as its start; and the status of the job is "success" after a
    success and "failed" after a failure or a timeout. *)
Theorem dashboard_shows_the_outcome_of_a_run
        (rt : Runtime) (job registered : JobDefinition) (w : World)
        (r : ExecutionResult) (registry : JobRegistry.State)
        (state : Dashboard.ServerState) :
  integerAttempts job -> quietWorld w ->
  fst (run rt job w) = Returns r ->
  JobRegistry.getById registry (id job) = Some registered ->
  exists acts,
    runDid rt job w acts
    /\ let state' := Dashboard.afterEvents registry state (emittedEvents acts) in
       (id job ∉ Dashboard.runningJobs state')
       /\ head (Dashboard.historyOf state' (id job))
          = Some (recordedResult (name registered) r)
       /\ Dashboard.statusOf state' (id job)
          = match res_status r with
            | status_success => Dashboard.success
            | _ => Dashboard.failed
            end.
Proof.
  intros Hatt Q Hr Hreg.
  destruct (run_did rt job w Hatt Q) as (runId & startedAt & ts & acts & Hdid & Hacts).
  rewrite Hr in Hacts.
  destruct (Attempts_events _ _ _ _ _ _ _ _ Hacts)
    as (retries & rest & Hevs & _ & _ & terminal & -> & Hterminal).
  destruct (Attempts_result _ _ _ _ _ _ _ _ Hacts) as (_ & Hjob & _).
  pose proof (Attempts_status _ _ _ _ _ _ _ _ Hacts) as Hstatus.
  pose proof (entryOf_terminal registered r terminal Hterminal Hstatus) as Hentry.
  destruct Hterminal as (Ht & Hj & _).
  destruct (emitted_projections (listeners w) (startEvent job runId ts))
    as (_ & _ & _ & _ & _ & P6).
  exists (emitted (listeners w) (startEvent job runId ts) ++ acts).
  split; [exact Hdid|].
  assert (Hall : emittedEvents (emitted (listeners w) (startEvent job runId ts) ++ acts)
                 = (startEvent job runId ts :: retries) ++ [terminal]).
  { unfold emittedEvents in *. by rewrite omap_app, P6, Hevs. }
  rewrite Hall. unfold Dashboard.afterEvents. rewrite fold_left_app.
  set (before := fold_left (Dashboard.onEvent registry)
                           (startEvent job runId ts :: retries) state).
  cbn [fold_left]. cbv zeta.
  assert (Hlast : Dashboard.onEvent registry before terminal
                  = {| Dashboard.history :=
                         <[ id job :=
                              Dashboard.unshiftTrimmed
                                (recordedResult (name registered) r)
                                (Dashboard.historyOf before (id job)) ]>
                           (Dashboard.history before);
                       Dashboard.runningJobs :=
                         Dashboard.runningJobs before ∖ {[ id job ]} |}).
  { unfold Dashboard.onEvent. rewrite Ht, Hj, Hjob, Hreg, Hentry.
    destruct (res_status r); try reflexivity. congruence. }
  rewrite Hlast.
  assert (Hnot : id job ∉ Dashboard.runningJobs before ∖ {[ id job ]}).
  { intros Hin. apply elem_of_difference in Hin as [_ Hn].
    apply Hn. by apply elem_of_singleton. }
  assert (Hhead : head (Dashboard.historyOf
                          {| Dashboard.history :=
                               <[ id job :=
                                    Dashboard.unshiftTrimmed
                                      (recordedResult (name registered) r)
                                      (Dashboard.historyOf before (id job)) ]>
                                 (Dashboard.history before);
                             Dashboard.runningJobs :=
                               Dashboard.runningJobs before ∖ {[ id job ]} |}
                          (id job))
                  = Some (recordedResult (name registered) r)).
  { unfold Dashboard.historyOf at 1. cbn [Dashboard.history].
    rewrite lookup_insert_eq. cbn [default from_option]. unfold Datatypes.id.
    apply unshiftTrimmed_head. }
  split; [exact Hnot|]. split; [exact Hhead|].
  unfold Dashboard.statusOf. cbn [Dashboard.runningJobs].
  destruct (decide (id job ∈ Dashboard.runningJobs before ∖ {[ id job ]}))
    as [Hin | _]; [contradiction|].
  rewrite Hhead. reflexivity.
Qed.

Lemma dashboard_shows_the_outcome_of_a_run_witness :
  exists acts,
    runDid sampleRuntime flakyJob emptyWorld acts
    /\ let state' := Dashboard.afterEvents sampleRegistry Dashboard.initialState
                                           (emittedEvents acts) in
       (id flakyJob ∉ Dashboard.runningJobs state')
       /\ head (Dashboard.historyOf state' (id flakyJob))
          = Some (recordedResult (name flakyJob) flakyResult)
       /\ Dashboard.statusOf state' (id flakyJob)
          = match res_status flakyResult with
            | status_success => Dashboard.success
            | _ => Dashboard.failed
            end.
Proof.
  apply (dashboard_shows_the_outcome_of_a_run
           sampleRuntime flakyJob flakyJob emptyWorld flakyResult
           sampleRegistry Dashboard.initialState).
  - intros rc [= <-]. exists 3. split; [reflexivity | lia].
  - intros key ls l event H. unfold emptyWorld in H. cbn [listeners] in H.
    by rewrite lookup_empty in H.
  - by vm_compute.
  - reflexivity.
Defined.

(** With [retry.attempts] 1.5 the run returns after the loop without a
    terminal event: the dashboard keeps the job running, with no entry. *)
Example dashboard_keeps_fractional_job_running :
  let events := emittedEvents (trace (snd (run sampleRuntime fractionalJob emptyWorld))) in
  let state' := Dashboard.afterEvents [(id fractionalJob, fractionalJob)]
                                      Dashboard.initialState events in
  Dashboard.statusOf state' (id fractionalJob) = Dashboard.running
  /\ Dashboard.historyOf state' (id fractionalJob) = [].
Proof. by vm_compute. Qed.
